(** * Bloaty's attribution engine: RangeMap, RangeSink, Rollup and the collapser

    A shallow embedding of the parts of [src/bloaty.cc] and [src/bloaty.h]
    that decide the properties below, followed by the properties themselves.

    Conventions of the embedding:
    - [uint64_t] and [int64_t] values are integers of [Z]; wrap-around is
      written out with [wrap_u64] and [wrap_i64] where the source computes
      without a check;
    - [std::map<uint64_t, Entry>] is a list of (key, entry) pairs kept in
      strictly increasing key order, which is the order of iteration of the
      source; an iterator is the suffix of that list it points to;
    - [std::unordered_map<std::string, std::unique_ptr<Rollup>>] is a
      [gmap string Rollup];
    - a thrown [bloaty::Error], a failed [assert] and the dereference of an
      end iterator are the errors of the [result] monad;
    - output to stderr (the warnings at high verbosity) changes no state and
      is left out, as are the floating-point percentages of a row. *)

From Stdlib Require Import ZArith Lia Bool Ascii.
From stdpp Require Import gmap strings list fin_maps.

#[local] Set Warnings "-register-all".
#[local] Open Scope Z_scope.

(** ** Errors *)

Inductive error : Type :=
| Thrown (msg : string)      (* THROW / THROWF *)
| AssertFailed               (* assert(...) *)
| UndefinedBehaviour         (* dereference of end(), index out of range *)
| OutOfFuel.                 (* the bound on a loop of the embedding ran out *)

Inductive result (A : Type) : Type :=
| Ok (a : A)
| Err (e : error).
Arguments Ok {A} a.
Arguments Err {A} e.

Definition rbind {A B} (c : result A) (k : A -> result B) : result B :=
  match c with
  | Ok a => k a
  | Err e => Err e
  end.

Notation "'let!' x ':=' c 'in' k" := (rbind c (fun x => k))
  (at level 10, x name, c at level 100, k at level 200).

Definition THROW {A} (msg : string) : result A := Err (Thrown msg).

(** ** Machine integers *)

Definition UINT64_MAX : Z := 2 ^ 64 - 1.
Definition UINTPTR_MAX : Z := UINT64_MAX.   (* LP64 *)
Definition INT64_MAX : Z := 2 ^ 63 - 1.
Definition INT64_MIN : Z := - 2 ^ 63.

Definition wrap_u64 (z : Z) : Z := z mod 2 ^ 64.
Definition wrap_i64 (z : Z) : Z := (z + 2 ^ 63) mod 2 ^ 64 - 2 ^ 63.

Definition is_u64 (z : Z) : Prop := 0 <= z <= UINT64_MAX.
Definition is_i64 (z : Z) : Prop := INT64_MIN <= z <= INT64_MAX.

(** [CheckedAdd(A* accum, B val)], the [__builtin_add_overflow] branch: the
    sum is taken exactly and must fit the signed 64-bit accumulator. *)
Definition CheckedAdd (accum val : Z) : result Z :=
  let sum := accum + val in
  if (INT64_MIN <=? sum) && (sum <=? INT64_MAX) then Ok sum
  else THROW "integer overflow".

(** [SignOf] *)
Definition SignOf (val : Z) : Z :=
  if val <? 0 then -1 else if 0 <? val then 1 else 0.

(** ** Rollup *)

Inductive Rollup : Type :=
  MkRollup (vm_total : Z) (file_total : Z) (children : gmap string Rollup).

Definition vm_total_ (r : Rollup) : Z :=
  match r with MkRollup v _ _ => v end.
Definition file_total_ (r : Rollup) : Z :=
  match r with MkRollup _ f _ => f end.
Definition children_ (r : Rollup) : gmap string Rollup :=
  match r with MkRollup _ _ c => c end.

(** [Rollup()]: both totals zero, no children. *)
Definition new_Rollup : Rollup := MkRollup 0 0 ∅.

(** [children_[name]] followed by the reset of a null pointer: the child
    that exists, or a fresh one. *)
Definition child_or_new (c : gmap string Rollup) (name : string) : Rollup :=
  default new_Rollup (c !! name).

(** The first statement of [AddInternal]: the checked addition into the
    total that [is_vmsize] selects. *)
Definition add_total (size : Z) (is_vmsize : bool) (self : Rollup) : result Rollup :=
  if is_vmsize
  then let! v := CheckedAdd (vm_total_ self) size in
       Ok (MkRollup v (file_total_ self) (children_ self))
  else let! f := CheckedAdd (file_total_ self) size in
       Ok (MkRollup (vm_total_ self) f (children_ self)).

(** [Rollup::AddInternal(names, i, size, is_vmsize)].  The recursion of the
    source is on the index [i], which grows until it reaches [names.size()];
    [fuel] bounds the number of levels still to visit. *)
Fixpoint AddInternal_fuel (fuel : nat) (names : list string) (i : nat)
    (size : Z) (is_vmsize : bool) (self : Rollup) : result Rollup :=
  let! self1 := add_total size is_vmsize self in
  match names !! i with
  | Some name =>                                   (* i < names.size() *)
      match fuel with
      | O => Err OutOfFuel
      | S fuel' =>
          let! child := AddInternal_fuel fuel' names (S i) size is_vmsize
                          (child_or_new (children_ self1) name) in
          Ok (MkRollup (vm_total_ self1) (file_total_ self1)
                (<[name := child]> (children_ self1)))
      end
  | None => Ok self1
  end.

Definition AddInternal (names : list string) (i : nat) (size : Z)
    (is_vmsize : bool) (self : Rollup) : result Rollup :=
  AddInternal_fuel (length names - i) names i size is_vmsize self.

(** [Rollup::AddSizes]: "We start at 1 to exclude the base map". *)
Definition AddSizes (names : list string) (size : Z) (is_vmsize : bool)
    (self : Rollup) : result Rollup :=
  AddInternal names 1 size is_vmsize self.

(** [Rollup::Subtract(other)], by recursion on [other]; the loop over
    [other.children_] is a fold over that map.  The subtraction of the
    source is unchecked, so it wraps. *)
Fixpoint Subtract (other self : Rollup) {struct other} : Rollup :=
  match other with
  | MkRollup other_vm other_file other_children =>
      MkRollup (wrap_i64 (vm_total_ self - other_vm))
               (wrap_i64 (file_total_ self - other_file))
               (map_fold
                  (fun name other_child acc =>
                     <[name := Subtract other_child (child_or_new acc name)]> acc)
                  (children_ self) other_children)
  end.

(** A sequence of [AddSizes] calls, stopping at the first one that throws. *)
Record add_call : Type := AddCall {
  call_names : list string;
  call_size : Z;
  call_is_vmsize : bool
}.

Fixpoint run_AddSizes (calls : list add_call) (self : Rollup) : result Rollup :=
  match calls with
  | [] => Ok self
  | c :: rest =>
      let! self' := AddSizes (call_names c) (call_size c) (call_is_vmsize c) self in
      run_AddSizes rest self'
  end.

(** *** Reference definitions for the properties of Rollup *)

(** The specification's [add_sizes], word for word: walk into the child
    keyed by the first label, creating it if absent, recurse into the
    remainder, and at every level add [size] into [vm_total] or
    [file_total] with checked arithmetic. *)
Fixpoint add_sizes_spec (labels : list string) (size : Z) (is_vm : bool)
    (node : Rollup) : result Rollup :=
  let! node1 := add_total size is_vm node in
  match labels with
  | [] => Ok node1
  | label :: rest =>
      let! child := add_sizes_spec rest size is_vm
                      (child_or_new (children_ node1) label) in
      Ok (MkRollup (vm_total_ node1) (file_total_ node1)
            (<[label := child]> (children_ node1)))
  end.

(** The same walk with exact integer addition and no check; what a run
    computes whenever no addition overflows. *)
Fixpoint add_sizes_exact (labels : list string) (size : Z) (is_vm : bool)
    (node : Rollup) : Rollup :=
  let vm := if is_vm then vm_total_ node + size else vm_total_ node in
  let file := if is_vm then file_total_ node else file_total_ node + size in
  match labels with
  | [] => MkRollup vm file (children_ node)
  | label :: rest =>
      MkRollup vm file
        (<[label := add_sizes_exact rest size is_vm
                      (child_or_new (children_ node) label)]> (children_ node))
  end.

Definition run_exact (calls : list add_call) (self : Rollup) : Rollup :=
  fold_left (fun r c =>
               add_sizes_exact (tail (call_names c)) (call_size c)
                 (call_is_vmsize c) r)
            calls self.

(** Depth of a rollup tree. *)
Fixpoint height (r : Rollup) : nat :=
  match r with
  | MkRollup _ _ c =>
      S (map_fold (fun _ child acc => Nat.max (height child) acc) 0%nat c)
  end.

(** [a] is the node-wise sum of [b] and [c]: the three trees have the same
    children at every node, and each total of [a] is the sum of the totals
    of [b] and [c] at that node. *)
Inductive nodewise_sum : Rollup -> Rollup -> Rollup -> Prop :=
| NodewiseSum (a b c : Rollup) :
    vm_total_ a = vm_total_ b + vm_total_ c ->
    file_total_ a = file_total_ b + file_total_ c ->
    dom (children_ a) = dom (children_ b) ->
    dom (children_ a) = dom (children_ c) ->
    (forall name a' b' c',
        children_ a !! name = Some a' ->
        children_ b !! name = Some b' ->
        children_ c !! name = Some c' ->
        nodewise_sum a' b' c') ->
    nodewise_sum a b c.

(** Every total of the tree is a value of [int64_t]. *)
Inductive int64_rollup : Rollup -> Prop :=
| Int64Rollup (r : Rollup) :
    is_i64 (vm_total_ r) -> is_i64 (file_total_ r) ->
    (forall name r', children_ r !! name = Some r' -> int64_rollup r') ->
    int64_rollup r.

(** ** RangeMap *)

(** [RangeMap::Entry]; [other_start] is [UINT64_MAX] when the entry has no
    translation. *)
Record Entry : Type := MkEntry {
  label : string;
  end_ : Z;
  other_start : Z
}.

Definition HasTranslation (e : Entry) : bool :=
  negb (other_start e =? UINT64_MAX).

(** [RangeMap::Map], in key order.  An iterator is the suffix of the list
    that starts at the node it points to; [[]] is [end()]. *)
Definition Map : Type := list (Z * Entry).

Definition EntryContains (iter : Z * Entry) (addr : Z) : bool :=
  (fst iter <=? addr) && (addr <? end_ (snd iter)).

Definition RangeEnd (iter : Z * Entry) : Z := end_ (snd iter).

(** [mappings_.upper_bound(addr)]: the first node whose key is greater than
    [addr]. *)
Fixpoint upper_bound (m : Map) (addr : Z) : Map :=
  match m with
  | [] => []
  | e :: rest => if addr <? fst e then m else upper_bound rest addr
  end.

(** The nodes that precede the iterator [it] of [m]. *)
Definition nodes_before (m it : Map) : Map :=
  take (length m - length it) m.

(** [RangeMap::FindContaining]: [None] stands for [mappings_.end()]. *)
Definition FindContaining (m : Map) (addr : Z) : option (Z * Entry) :=
  let it := upper_bound m addr in             (* Entry directly after. *)
  match last (nodes_before m it) with
  | None => None                              (* it == mappings_.begin() *)
  | Some prev => if EntryContains prev addr then Some prev else None
  end.

(** [RangeMap::FindContainingOrAfter] *)
Definition FindContainingOrAfter (m : Map) (addr : Z) : Map :=
  let after := upper_bound m addr in
  match last (nodes_before m after) with
  | Some prev =>                              (* it != mappings_.begin(), --it *)
      if EntryContains prev addr then prev :: after   (* Containing *)
      else after
  | None => after                             (* May be end(). *)
  end.

(** [RangeMap::TranslateWithEntry].  Its two assertions hold at both places
    of call: the entry contains [addr] and has a translation. *)
Definition TranslateWithEntry (iter : Z * Entry) (addr : Z) : Z :=
  wrap_u64 (addr - fst iter + other_start (snd iter)).

(** [RangeMap::TranslateAndTrimRangeWithEntry]: [Some (out_addr, out_size)]
    when the source returns true. *)
Definition TranslateAndTrimRangeWithEntry (iter : Z * Entry) (addr end' : Z)
    : option (Z * Z) :=
  let addr := Z.max addr (fst iter) in
  let end' := Z.min end' (end_ (snd iter)) in
  if (end' <=? addr) || negb (HasTranslation (snd iter)) then None
  else Some (TranslateWithEntry iter addr, wrap_u64 (end' - addr)).

(** [RangeMap::Translate] *)
Definition Translate (m : Map) (addr : Z) : option Z :=
  match FindContaining m addr with
  | Some iter =>
      if HasTranslation (snd iter) then Some (TranslateWithEntry iter addr)
      else None
  | None => None
  end.

(** [std::map::insert]: the pair goes to its place in key order, and a key
    that is already present keeps its entry.  (The hint of the source only
    affects speed.) *)
Fixpoint map_insert (m : Map) (key : Z) (e : Entry) : Map :=
  match m with
  | [] => [(key, e)]
  | n :: rest =>
      if key <? fst n then (key, e) :: m
      else if key =? fst n then m
      else n :: map_insert rest key e
  end.

(** The iterator to the node with key [key] in [m] (the first node whose
    key is not less). *)
Fixpoint lower_bound (m : Map) (key : Z) : Map :=
  match m with
  | [] => []
  | n :: rest => if fst n <? key then lower_bound rest key else m
  end.

(** An iterator keeps pointing to its node when the map grows: the same
    node, seen in the map [m] after the insertion. *)
Definition iter_in (m : Map) (it : Map) : Map :=
  match it with
  | [] => []
  | n :: _ => lower_bound m (fst n)
  end.

(** The inner loop of [AddDualRange]: skip the entries that contain [addr],
    moving [addr] to the end of each. *)
Fixpoint skip_containing (it : Map) (addr : Z) : Map * Z :=
  match it with
  | n :: rest =>
      if EntryContains n addr then skip_containing rest (end_ (snd n))
      else (it, addr)
  | [] => ([], addr)
  end.

(** The [while (1)] loop of [AddDualRange].  [fuel] bounds its iterations. *)
Fixpoint AddDualRange_loop (fuel : nat) (m : Map) (it : Map)
    (addr end' base otheraddr : Z) (val : string) : result Map :=
  match fuel with
  | O => Err OutOfFuel
  | S fuel' =>
      let '(it, addr) := skip_containing it addr in
      if end' <=? addr then Ok m
      else
        let this_end :=
          match it with
          | n :: _ => if fst n <? end' then Z.min end' (fst n) else end'
          | [] => end'
          end in
        let other :=
          if otheraddr =? UINT64_MAX then UINT64_MAX
          else wrap_u64 (addr - base + otheraddr) in
        let m' := map_insert m addr (MkEntry val this_end other) in
        AddDualRange_loop fuel' m' (iter_in m' it) this_end end' base
          otheraddr val
  end.

(** [RangeMap::AddDualRange].  The loop runs once more than it inserts, and
    after the first insertion every further one consumes an entry of the
    map, so [length m + 2] iterations are enough (see
    [AddDualRange_total]). *)
Definition AddDualRange (addr size otheraddr : Z) (val : string) (m : Map)
    : result Map :=
  if size =? 0 then Ok m
  else
    let base := addr in
    let end' := wrap_u64 (addr + size) in
    let it := FindContainingOrAfter m addr in
    AddDualRange_loop (length m + 2) m it addr end' base otheraddr val.

(** [RangeMap::AddRange] *)
Definition AddRange (addr size : Z) (val : string) (m : Map) : result Map :=
  AddDualRange addr size UINT64_MAX val m.

(** The loop of [AddRangeWithTranslation] over the entries of the
    translator, from the iterator [it]. *)
Fixpoint translate_loop (it : Map) (addr end' : Z) (val : string)
    (other : Map) : result Map :=
  match it with
  | n :: rest =>
      if fst n <? end' then
        let! other' :=
          match TranslateAndTrimRangeWithEntry n addr end' with
          | Some (this_addr, this_size) => AddRange this_addr this_size val other
          | None => Ok other
          end in
        translate_loop rest addr end' val other'
      else Ok other
  | [] => Ok other
  end.

(** [RangeMap::AddRangeWithTranslation]: the new value of the map itself and
    of [*other]. *)
Definition AddRangeWithTranslation (addr size : Z) (val : string)
    (translator : Map) (self other : Map) : result (Map * Map) :=
  let! self' := AddRange addr size val self in
  let it := FindContainingOrAfter translator addr in
  let end' := wrap_u64 (addr + size) in
  let! other' := translate_loop it addr end' val other in
  Ok (self', other').

(** *** The invariant of a RangeMap *)

(** Keys and ends are 64-bit addresses, every entry is a non-empty interval,
    and each entry ends no later than the next one starts; [lo] bounds the
    first key from below. *)
Fixpoint wf_from (lo : Z) (m : Map) : Prop :=
  match m with
  | [] => True
  | n :: rest =>
      lo <= fst n /\ fst n < end_ (snd n) /\ end_ (snd n) <= UINT64_MAX /\
      wf_from (end_ (snd n)) rest
  end.

Definition WF (m : Map) : Prop := wf_from 0 m.

(** Adjacent entries in key order do not overlap. *)
Definition non_overlapping (m : Map) : Prop :=
  forall (i : nat) (e1 e2 : Z * Entry),
    m !! i = Some e1 -> m !! S i = Some e2 -> end_ (snd e1) <= fst e2.

(** Some entry of [m] contains [addr]. *)
Definition covered (m : Map) (addr : Z) : Prop :=
  exists n, n ∈ m /\ EntryContains n addr = true.

(** The maps that calls of the three mutating operations can build, starting
    from empty maps.  Arguments are values of [uint64_t]. *)
Inductive built : Map -> Prop :=
| built_empty : built []
| built_AddRange addr size val m m' :
    built m -> is_u64 addr -> is_u64 size ->
    AddRange addr size val m = Ok m' -> built m'
| built_AddDualRange addr size otheraddr val m m' :
    built m -> is_u64 addr -> is_u64 size -> is_u64 otheraddr ->
    AddDualRange addr size otheraddr val m = Ok m' -> built m'
| built_AddRangeWithTranslation_self addr size val translator m other m' other' :
    built m -> built other -> built translator ->
    is_u64 addr -> is_u64 size ->
    AddRangeWithTranslation addr size val translator m other = Ok (m', other') ->
    built m'
| built_AddRangeWithTranslation_other addr size val translator m other m' other' :
    built m -> built other -> built translator ->
    is_u64 addr -> is_u64 size ->
    AddRangeWithTranslation addr size val translator m other = Ok (m', other') ->
    built other'.

(** *** Auxiliary definitions for the proofs about RangeMap *)

(** The end of the last entry of [m], or [lo] for the empty map. *)
Fixpoint last_end (lo : Z) (m : Map) : Z :=
  match m with
  | [] => lo
  | n :: rest => last_end (end_ (snd n)) rest
  end.

(** The iterator is at the end or at an entry that starts after [addr]. *)
Definition head_after (addr : Z) (it : Map) : Prop :=
  match it with
  | [] => True
  | n :: _ => addr < fst n
  end.

(** The iterator is at the end or at an entry that ends after [addr]. *)
Definition head_ends_after (addr : Z) (it : Map) : Prop :=
  match it with
  | [] => True
  | n :: _ => addr < end_ (snd n)
  end.

(** What [AddDualRange(base, _, otheraddr, val)] inserts between [addr] and
    [end'], with [entries] the existing entries it still has to pass: an
    entry labelled [val] that lies in that range, starts at [addr] or where
    one of the [entries] ends, ends at [end'] or where one of them starts,
    and carries the translation base of its start. *)
Definition new_entry (addr end' base otheraddr : Z) (val : string)
    (entries : Map) (n : Z * Entry) : Prop :=
  label (snd n) = val /\
  addr <= fst n /\ fst n < end_ (snd n) /\ end_ (snd n) <= end' /\
  (fst n = addr \/ exists n', n' ∈ entries /\ end_ (snd n') = fst n) /\
  (end_ (snd n) = end' \/ exists n', n' ∈ entries /\ fst n' = end_ (snd n)) /\
  other_start (snd n) =
    if otheraddr =? UINT64_MAX then UINT64_MAX
    else wrap_u64 (fst n - base + otheraddr).

(** The iterator is at an entry that contains [addr]. *)
Definition head_contains (addr : Z) (it : Map) : bool :=
  match it with
  | n :: _ => EntryContains n addr
  | [] => false
  end.


(** ** RangeMap::ComputeRollup *)

(** One call [func(keys, current, next_break)] of the callback. *)
Definition rollup_call : Type := list string * Z * Z.

(** The loop that initialises [iters] and [current]: every map contributes
    its [begin()], which is dereferenced at once; for an empty map that is
    the end iterator. *)
Fixpoint init_iters (range_maps : list Map) (current : Z)
    : result (list Map * Z) :=
  match range_maps with
  | [] => Ok ([], current)
  | range_map :: rest =>
      match range_map with
      | [] => Err UndefinedBehaviour             (* iters.back()->first *)
      | first :: _ =>
          let! r := init_iters rest (Z.min current (fst first)) in
          Ok (range_map :: fst r, snd r)
      end
  end.

(** "Advance the iterators if its range is behind the current point." *)
Fixpoint advance (iter : Map) (current : Z) : Map :=
  match iter with
  | n :: rest => if RangeEnd n <=? current then advance rest current else iter
  | [] => []
  end.

(** The state that the [for] loop over the iterators threads through. *)
Record scan_state : Type := ScanState {
  scan_iters : list Map;        (* the iterators, advanced *)
  scan_keys : list string;
  scan_next_break : Z;
  scan_have_data : bool
}.

Definition filename_here (filename_position : Z) (i : nat) : bool :=
  (0 <=? filename_position) && (filename_position =? Z.of_nat i).

(** The [for (i = 0; i < iters.size(); i++)] loop of one round, from index
    [i] on, followed by the test for the filename after the last key. *)
Fixpoint scan (iters : list Map) (i : nat) (filename : string)
    (filename_position : Z) (current : Z) (next_break : Z) (have_data : bool)
    : scan_state :=
  match iters with
  | [] =>
      ScanState []
        (if filename_here filename_position i then [filename] else [])
        next_break have_data
  | iter :: rest =>
      let keys0 := if filename_here filename_position i then [filename] else [] in
      let iter := advance iter current in
      let '(key, next_break, have_data) :=
        match iter with
        | [] => ("[None]"%string, next_break, have_data)          (* is_end *)
        | n :: _ =>
            if current <? fst n
            then ("[None]"%string, Z.min next_break (fst n), have_data)
            else (label (snd n), Z.min next_break (RangeEnd n), true)
        end in
      let st := scan rest (S i) filename filename_position current
                  next_break have_data in
      ScanState (iter :: scan_iters st) (keys0 ++ key :: scan_keys st)
        (scan_next_break st) (scan_have_data st)
  end.

(** The [while (true)] loop; the calls of [func] in the order they are
    made.  [fuel] bounds the number of rounds. *)
Fixpoint rollup_loop (fuel : nat) (iters : list Map) (filename : string)
    (filename_position : Z) (current : Z) : result (list rollup_call) :=
  match fuel with
  | O => Err OutOfFuel
  | S fuel' =>
      let st := scan iters 0 filename filename_position current
                  UINTPTR_MAX false in
      if scan_next_break st =? UINTPTR_MAX then Ok []
      else
        let! calls := rollup_loop fuel' (scan_iters st) filename
                        filename_position (scan_next_break st) in
        Ok (if scan_have_data st
            then (scan_keys st, current, scan_next_break st) :: calls
            else calls)
  end.

(** The number of starts and ends of entries: every round but the last
    moves [current] to one of them, further up. *)
Definition breakpoints (range_maps : list Map) : nat :=
  2 * length (concat range_maps).

(** [RangeMap::ComputeRollup(range_maps, filename, filename_position,
    func)]: the list of the calls of [func]. *)
Definition ComputeRollup (range_maps : list Map) (filename : string)
    (filename_position : Z) : result (list rollup_call) :=
  if (length range_maps =? 0)%nat then Err AssertFailed
  else
    let! init := init_iters range_maps UINTPTR_MAX in
    let '(iters, current) := init in
    if current =? UINTPTR_MAX then Err AssertFailed
    else rollup_loop (breakpoints range_maps + 1) iters filename
           filename_position current.

(** The intervals of a list of calls are non-empty, ascending and disjoint:
    each starts no earlier than [lo] and than the end of the one before. *)
Fixpoint ascending_from (lo : Z) (calls : list rollup_call) : Prop :=
  match calls with
  | [] => True
  | (_, cur, next) :: rest => lo <= cur /\ cur < next /\ ascending_from next rest
  end.

(** Some call of the list was made for an interval that contains [a]. *)
Definition in_calls (calls : list rollup_call) (a : Z) : Prop :=
  exists keys cur next, (keys, cur, next) ∈ calls /\ cur <= a < next.

(** The key that the map [m] yields at the address [cur]. *)
Definition key_at (m : Map) (cur : Z) : string :=
  match FindContaining m cur with
  | Some n => label (snd n)
  | None => "[None]"
  end.

(** *** Auxiliary definitions for the proofs about ComputeRollup *)

(** The breakpoint that an advanced iterator offers to [next_break]. *)
Definition iter_break (current : Z) (iter : Map) : Z :=
  match iter with
  | [] => UINTPTR_MAX
  | n :: _ => if current <? fst n then fst n else RangeEnd n
  end.

(** The advanced iterator is at an entry that has started. *)
Definition iter_has_data (current : Z) (iter : Map) : bool :=
  match iter with
  | [] => false
  | n :: _ => negb (current <? fst n)
  end.

(** The starts and ends of the entries of [iter] that lie above
    [current]. *)
Fixpoint breaks_above (current : Z) (iter : Map) : nat :=
  match iter with
  | [] => 0
  | n :: rest =>
      ((if (current <? fst n)%Z then 1 else 0) +
       (if (current <? end_ (snd n))%Z then 1 else 0) +
       breaks_above current rest)%nat
  end.

Definition breaks_above_all (current : Z) (iters : list Map) : nat :=
  foldr (fun iter acc => (breaks_above current iter + acc)%nat) 0%nat iters.

(** An iterator of the map [m], with everything before it behind
    [current]. *)
Definition iter_of (current : Z) (m iter : Map) : Prop :=
  exists pre, m = pre ++ iter /\ Forall (fun n => end_ (snd n) <= current) pre.


(** ** DualMap, NameMunger and RangeSink *)

(** [struct DualMap] *)
Record DualMap : Type := MkDualMap {
  vm_map : Map;
  file_map : Map
}.

Definition new_DualMap : DualMap := MkDualMap [] [].

(** [NameMunger::regexes_]: pairs of a regular expression and its
    replacement, in the order of [AddRegex]. *)
Definition NameMunger : Type := list (string * string).

Section Sink.

(** [RE2::Extract(text, re, rewrite, &out)] of the re2 library: the rewritten
    text when [re] matches, nothing otherwise. *)
Variable RE2_Extract : string -> string -> string -> option string.

(** [NameMunger::Munge] *)
Fixpoint Munge_regexes (regexes : NameMunger) (name : string) : string :=
  match regexes with
  | [] => name
  | (re, replacement) :: rest =>
      match RE2_Extract name re replacement with
      | Some ret => ret
      | None => Munge_regexes rest name
      end
  end.

Definition Munge (munger : NameMunger) (name : string) : string :=
  match name with
  | String "["%char _ => name       (* This is a special symbol, don't mangle. *)
  | _ => Munge_regexes munger name
  end.

(** [class RangeSink]: the translator (the base map, or none while the base
    map itself is filled) and the outputs, each with its munger.  The sink
    holds pointers to its outputs; the operations below return the sink
    with the new values of the outputs. *)
Record RangeSink : Type := MkRangeSink {
  translator_ : option DualMap;
  outputs_ : list (DualMap * NameMunger)
}.

(** [RangeSink::AddOutput] *)
Definition AddOutput (map : DualMap) (munger : NameMunger) (sink : RangeSink)
    : RangeSink :=
  MkRangeSink (translator_ sink) (outputs_ sink ++ [(map, munger)]).

(** The loop [for (auto& pair : outputs_)] with a body that may fail. *)
Fixpoint for_outputs (body : DualMap -> NameMunger -> result DualMap)
    (outputs : list (DualMap * NameMunger))
    : result (list (DualMap * NameMunger)) :=
  match outputs with
  | [] => Ok []
  | (map, munger) :: rest =>
      let! map' := body map munger in
      let! rest' := for_outputs body rest in
      Ok ((map', munger) :: rest')
  end.

(** [RangeSink::AddFileRange] *)
Definition AddFileRange (name : string) (fileoff filesize : Z)
    (sink : RangeSink) : result RangeSink :=
  let! outputs :=
    for_outputs
      (fun map munger =>
         let label := Munge munger name in
         match translator_ sink with
         | Some translator =>
             let! r := AddRangeWithTranslation fileoff filesize label
                         (file_map translator) (file_map map) (vm_map map) in
             Ok (MkDualMap (snd r) (fst r))
         | None => Ok map
         end)
      (outputs_ sink) in
  Ok (MkRangeSink (translator_ sink) outputs).

(** [RangeSink::AddVMRange] *)
Definition AddVMRange (vmaddr vmsize : Z) (name : string) (sink : RangeSink)
    : result RangeSink :=
  match translator_ sink with
  | None => Err AssertFailed                       (* assert(translator_) *)
  | Some translator =>
      let! outputs :=
        for_outputs
          (fun map munger =>
             let label := Munge munger name in
             let! r := AddRangeWithTranslation vmaddr vmsize label
                         (vm_map translator) (vm_map map) (file_map map) in
             Ok (MkDualMap (fst r) (snd r)))
          (outputs_ sink) in
      Ok (MkRangeSink (translator_ sink) outputs)
  end.

(** [RangeSink::AddRange] *)
Definition Sink_AddRange (name : string) (vmaddr vmsize fileoff filesize : Z)
    (sink : RangeSink) : result RangeSink :=
  let! outputs :=
    for_outputs
      (fun map munger =>
         let label := Munge munger name in
         let common := Z.min vmsize filesize in
         let! vm1 := AddDualRange vmaddr common fileoff label (vm_map map) in
         let! file1 := AddDualRange fileoff common vmaddr label (file_map map) in
         let! vm2 := AddRange (wrap_u64 (vmaddr + common))
                       (wrap_u64 (vmsize - common)) label vm1 in
         let! file2 := AddRange (wrap_u64 (fileoff + common))
                         (wrap_u64 (filesize - common)) label file1 in
         Ok (MkDualMap vm2 file2))
      (outputs_ sink) in
  Ok (MkRangeSink (translator_ sink) outputs).

(** What the specification says of [add_file_range] for one output: the
    range goes into the output's File map, and with a translator it is
    also projected into the output's VM map. *)
Definition add_file_range_spec (translator : option DualMap) (label : string)
    (fileoff filesize : Z) (map : DualMap) : result DualMap :=
  match translator with
  | Some translator =>
      let! r := AddRangeWithTranslation fileoff filesize label
                  (file_map translator) (file_map map) (vm_map map) in
      Ok (MkDualMap (snd r) (fst r))
  | None =>
      let! file' := AddRange fileoff filesize label (file_map map) in
      Ok (MkDualMap (vm_map map) file')
  end.

End Sink.

(** ** Options and the checks of BloatyDoMain *)

Inductive SortBy : Type := SORTBY_BOTH | SORTBY_VMSIZE | SORTBY_FILESIZE.

(** The fields of the [Options] message that the code below reads.  The
    message is generated from [bloaty.proto]; [max_rows_per_level] is a
    signed integer there. *)
Record Options : Type := MkOptions {
  filename : list string;
  base_filename : list string;
  data_source : list string;
  max_rows_per_level : Z;
  sort_by : SortBy
}.

(** [-n <num>] in [DoParseOptions]:
    [options->set_max_rows_per_level(strtod(argv[++i], NULL))]. *)
Definition set_max_rows_per_level (num : Z) (options : Options) : Options :=
  MkOptions (filename options) (base_filename options) (data_source options)
    num (sort_by options).

Section Main.

Context {Output : Type}.

(** The rest of [BloatyDoMain] after its two checks: opening the files,
    defining the data sources, and [Bloaty::ScanAndRollup]. *)
Variable scan_and_rollup : Options -> result Output.

(** [BloatyDoMain] *)
Definition BloatyDoMain (options : Options) : result Output :=
  if (length (filename options) =? 0)%nat
  then THROW "must specify at least one file"
  else if max_rows_per_level options <? 1
  then THROW "max_rows_per_level must be at least 1"
  else scan_and_rollup options.

End Main.

(** ** RollupRow and the collapser: Rollup::CreateRows, Rollup::ComputeRows *)

(** [struct RollupRow].  The two percentages are floating-point numbers
    computed from the sizes; they play no part below and are left out. *)
Inductive RollupRow : Type :=
  MkRollupRow (name : string) (vmsize filesize : Z)
    (sorted_children shrinking mixed : list RollupRow) (diff_mode : bool).

Definition name (row : RollupRow) : string :=
  match row with MkRollupRow n _ _ _ _ _ _ => n end.
Definition vmsize (row : RollupRow) : Z :=
  match row with MkRollupRow _ v _ _ _ _ _ => v end.
Definition filesize (row : RollupRow) : Z :=
  match row with MkRollupRow _ _ f _ _ _ _ => f end.
Definition sorted_children (row : RollupRow) : list RollupRow :=
  match row with MkRollupRow _ _ _ c _ _ _ => c end.
Definition shrinking (row : RollupRow) : list RollupRow :=
  match row with MkRollupRow _ _ _ _ s _ _ => s end.
Definition mixed (row : RollupRow) : list RollupRow :=
  match row with MkRollupRow _ _ _ _ _ m _ => m end.
Definition diff_mode (row : RollupRow) : bool :=
  match row with MkRollupRow _ _ _ _ _ _ d => d end.

(** [RollupRow(name)] *)
Definition new_RollupRow (name : string) : RollupRow :=
  MkRollupRow name 0 0 [] [] [] false.

Definition others_label : string := "[Other]".

(** The lambda [rank] of [ComputeRows]: the tuple [(numeric_rank, name)]. *)
Definition val_to_rank (options : Options) (row : RollupRow) : Z :=
  match sort_by options with
  | SORTBY_VMSIZE => Z.abs (vmsize row)
  | SORTBY_FILESIZE => Z.abs (filesize row)
  | SORTBY_BOTH => Z.max (Z.abs (vmsize row)) (Z.abs (filesize row))
  end.

Definition rank (options : Options) (row : RollupRow) : Z * string :=
  (INT64_MAX - val_to_rank options row, name row).

(** The lambda [collapse_rank]: the tuple [(top_name, rank(row))]. *)
Definition collapse_rank (options : Options) (row : RollupRow)
    : bool * (Z * string) :=
  (negb (String.eqb (name row) "[None]"), rank options row).

(** [operator<] of the two tuple types, lexicographic. *)
Definition rank_lt (a b : Z * string) : bool :=
  (fst a <? fst b) || ((fst a =? fst b) && String.ltb (snd a) (snd b)).

Definition collapse_rank_lt (a b : bool * (Z * string)) : bool :=
  (negb (fst a) && fst b) ||
  (Bool.eqb (fst a) (fst b) && rank_lt (snd a) (snd b)).

(** [std::sort(begin, end, comp)].  The rows of one vector carry the keys
    of one map as names, on which both ranks are strict total orders, so
    the sorted vector is the same whatever the algorithm; insertion sort
    computes it. *)
Fixpoint sort_insert {A} (lt : A -> A -> bool) (x : A) (sorted : list A)
    : list A :=
  match sorted with
  | [] => [x]
  | y :: rest => if lt y x then y :: sort_insert lt x rest else x :: sorted
  end.

Definition std_sort {A} (lt : A -> A -> bool) (l : list A) : list A :=
  foldr (sort_insert lt) [] l.

(** [v[i]] for a vector and an index of type [size_t]; nothing when the
    index is past the end. *)
Definition vector_at {A} (v : list A) (i : Z) : option A :=
  if (0 <=? i) && (i <? Z.of_nat (length v)) then v !! Z.to_nat i else None.

(** [i--] for a [size_t]: zero wraps to the largest value. *)
Definition size_t_dec (i : Z) : Z := if i =? 0 then UINT64_MAX else i - 1.

(** The loop that moves the rows from index [max_rows_per_level] on into
    [others_row], last row first.  The index [i] is a [size_t] and is
    compared with the signed option after the usual conversion to unsigned;
    [child_rows[i]] past the end of the vector is undefined behaviour. *)
Fixpoint collapse_loop (fuel : nat) (options : Options) (base : option Rollup)
    (child_rows : list RollupRow) (i : Z) (others_row : RollupRow)
    (others_base : Rollup) : result (list RollupRow * RollupRow * Rollup) :=
  if i <? wrap_u64 (max_rows_per_level options)
  then Ok (child_rows, others_row, others_base)
  else
    match fuel with
    | O => Err OutOfFuel
    | S fuel' =>
        match vector_at child_rows i with
        | None => Err UndefinedBehaviour
        | Some child =>
            let! vm := CheckedAdd (vmsize others_row) (vmsize child) in
            let! file := CheckedAdd (filesize others_row) (filesize child) in
            let! others_base' :=
              match base with
              | Some b =>
                  match children_ b !! name child with
                  | Some it =>
                      let! bvm := CheckedAdd (vm_total_ others_base)
                                    (vm_total_ it) in
                      let! bfile := CheckedAdd (file_total_ others_base)
                                      (file_total_ it) in
                      Ok (MkRollup bvm bfile (children_ others_base))
                  | None => Ok others_base
                  end
              | None => Ok others_base
              end in
            collapse_loop fuel' options base
              (removelast child_rows)               (* erase(end() - 1) *)
              (size_t_dec i)                        (* i-- *)
              (MkRollupRow (name others_row) vm file
                 (sorted_children others_row) (shrinking others_row)
                 (mixed others_row) (diff_mode others_row))
              others_base'
        end
    end.

(** The part of [ComputeRows] from [if (child_rows.empty()) return;] to the
    second [std::sort]: the rows that are left, [others_rollup] and
    [others_base].  Past the test the vector is not empty, so
    [child_rows.size() - 1] does not wrap. *)
Definition collapse (options : Options) (base : option Rollup)
    (child_rows : list RollupRow)
    : result (list RollupRow * Rollup * Rollup) :=
  match child_rows with
  | [] => Ok ([], new_Rollup, new_Rollup)                          (* return *)
  | _ =>
      let child_rows :=
        std_sort (fun a b => collapse_rank_lt (collapse_rank options a)
                               (collapse_rank options b)) child_rows in
      let i := Z.of_nat (length child_rows) - 1 in
      let! r := collapse_loop (length child_rows + 1) options base child_rows i
                  (new_RollupRow others_label) new_Rollup in
      let '(child_rows, others_row, others_base) := r in
      let! r2 :=
        (if (0 <? Z.abs (vmsize others_row)) ||
            (0 <? Z.abs (filesize others_row))
         then
           let! vm := CheckedAdd 0 (vmsize others_row) in
           let! file := CheckedAdd 0 (filesize others_row) in
           Ok (child_rows ++ [others_row], MkRollup vm file ∅)
         else Ok (child_rows, new_Rollup)) in
      let '(child_rows, others_rollup) := r2 in
      Ok (std_sort (fun a b => rank_lt (rank options a) (rank options b))
            child_rows,
          others_rollup, others_base)
  end.

(** The two rules at the head of [ComputeRows] that clear a vector of one
    row. *)
Definition prune (row : RollupRow) (is_toplevel : bool)
    (child_rows : list RollupRow) : list RollupRow :=
  let child_rows :=
    match child_rows with
    | [only] =>
        if negb is_toplevel &&
           (String.eqb (name only) "[None]" || String.eqb (name only) "[Unmapped]")
        then [] else child_rows
    | _ => child_rows
    end in
  match child_rows with
  | [only] => if String.eqb (name only) (name row) then [] else child_rows
  | _ => child_rows
  end.

Fixpoint for_rows (body : RollupRow -> result RollupRow)
    (rows : list RollupRow) : result (list RollupRow) :=
  match rows with
  | [] => Ok []
  | row :: rest =>
      let! row' := body row in
      let! rest' := for_rows body rest in
      Ok (row' :: rest')
  end.

(** [Rollup::ComputeRows], with [CreateRows] for the recursion into the
    sub-rows passed as [create_rows]. *)
Definition ComputeRows
    (create_rows : Rollup -> RollupRow -> option Rollup -> bool -> result RollupRow)
    (self : Rollup) (row : RollupRow) (child_rows : list RollupRow)
    (base : option Rollup) (options : Options) (is_toplevel : bool)
    : result (list RollupRow) :=
  let child_rows := prune row is_toplevel child_rows in
  let! r := collapse options base child_rows in
  let '(child_rows, others_rollup, others_base) := r in
  for_rows
    (fun child_row =>
       if String.eqb (name child_row) others_label
       then create_rows others_rollup child_row
              (match base with Some _ => Some others_base | None => None end)
              false
       else
         match children_ self !! name child_row with
         | None => THROW "internal error, couldn't find name $0"
         | Some child_rollup =>
             create_rows child_rollup child_row
               (match base with
                | Some b => Some (child_or_new (children_ b) (name child_row))
                | None => None
                end)
               false
         end)
    child_rows.

(** The loop of [CreateRows] over [children_]: the three vectors of rows. *)
Fixpoint bucket_children (base : option Rollup)
    (children : list (string * Rollup))
    : result (list RollupRow * list RollupRow * list RollupRow) :=
  match children with
  | [] => Ok ([], [], [])
  | (key, child) :: rest =>
      let vm_sign := SignOf (vm_total_ child) in
      let file_sign := SignOf (file_total_ child) in
      if ((vm_sign <? 0) || (file_sign <? 0)) &&
         (match base with Some _ => false | None => true end)
      then Err AssertFailed                                  (* assert(base) *)
      else
        let! r := bucket_children base rest in
        let '(sorted, shrink, mix) := r in
        if (vm_total_ child =? 0) && (file_total_ child =? 0) then Ok r
        else
          let new_row :=
            MkRollupRow key (vm_total_ child) (file_total_ child) [] [] [] false in
          if vm_sign + file_sign <? 0 then Ok (sorted, new_row :: shrink, mix)
          else if negb (vm_sign =? file_sign) && (vm_sign + file_sign =? 0)
          then Ok (sorted, shrink, new_row :: mix)
          else Ok (new_row :: sorted, shrink, mix)
  end.

(** [Rollup::CreateRows].  [fuel] bounds the depth of the recursion, which
    follows the tree. *)
Fixpoint CreateRows (fuel : nat) (self : Rollup) (row : RollupRow)
    (base : option Rollup) (options : Options) (is_toplevel : bool)
    : result RollupRow :=
  match fuel with
  | O => Err OutOfFuel
  | S fuel' =>
      let diff := match base with Some _ => true | None => diff_mode row end in
      let! buckets := bucket_children base (map_to_list (children_ self)) in
      let '(sorted, shrink, mix) := buckets in
      let! sorted' := ComputeRows (fun r rw b t => CreateRows fuel' r rw b options t)
                        self row (sorted_children row ++ sorted) base options
                        is_toplevel in
      let! shrink' := ComputeRows (fun r rw b t => CreateRows fuel' r rw b options t)
                        self row (shrinking row ++ shrink) base options
                        is_toplevel in
      let! mix' := ComputeRows (fun r rw b t => CreateRows fuel' r rw b options t)
                     self row (mixed row ++ mix) base options is_toplevel in
      Ok (MkRollupRow (name row) (vmsize row) (filesize row) sorted' shrink' mix'
            diff)
  end.

(** [Rollup::CreateDiffModeRollupOutput] and [Rollup::CreateRollupOutput]:
    the top-level row [TOTAL]. *)
Definition CreateDiffModeRollupOutput (self : Rollup) (base : option Rollup)
    (options : Options) : result RollupRow :=
  CreateRows (height self + 1) self
    (MkRollupRow "TOTAL" (vm_total_ self) (file_total_ self) [] [] [] false)
    base options true.

Definition CreateRollupOutput (self : Rollup) (options : Options)
    : result RollupRow :=
  CreateDiffModeRollupOutput self None options.

(** *** Reference definitions for the properties of the collapser *)

Definition sum_vmsize (rows : list RollupRow) : Z :=
  foldr (fun row acc => vmsize row + acc) 0 rows.

Definition sum_filesize (rows : list RollupRow) : Z :=
  foldr (fun row acc => filesize row + acc) 0 rows.

(** Every vector of rows in the tree of [row] has at most [limit] rows. *)
Inductive rows_bounded (limit : nat) : RollupRow -> Prop :=
| RowsBounded (row : RollupRow) :
    (length (sorted_children row) <= limit)%nat ->
    (length (shrinking row) <= limit)%nat ->
    (length (mixed row) <= limit)%nat ->
    Forall (rows_bounded limit) (sorted_children row) ->
    Forall (rows_bounded limit) (shrinking row) ->
    Forall (rows_bounded limit) (mixed row) ->
    rows_bounded limit row.

(** The [[Other]] row for the rows [dropped]: absent when both sums are
    zero. *)
Definition others_rows (dropped : list RollupRow) : list RollupRow :=
  if (0 <? Z.abs (sum_vmsize dropped)) || (0 <? Z.abs (sum_filesize dropped))
  then [MkRollupRow others_label (sum_vmsize dropped) (sum_filesize dropped)
          [] [] [] false]
  else [].

(** A row as [RollupRow(name)] and [CreateRows] make it: no sub-rows yet. *)
Definition fresh_row (row : RollupRow) : Prop :=
  sorted_children row = [] /\ shrinking row = [] /\ mixed row = [].

(** An error that the source can raise: a thrown [bloaty::Error] or a
    failed assertion. *)
Definition raised (e : error) : Prop :=
  e <> OutOfFuel /\ e <> UndefinedBehaviour.

(** *** Reference definitions for the further properties of RangeMap *)

(** The translations of [m] stay inside the 64-bit address space: an entry
    with a translation maps its range onto [other_start, other_start + its
    length), without wrap-around. *)
Definition translation_fits (m : Map) : Prop :=
  forall n, n ∈ m -> HasTranslation (snd n) = true ->
    0 <= other_start (snd n) /\
    other_start (snd n) + (end_ (snd n) - fst n) <= UINT64_MAX.

(** The map of the specification's scenario S1: one segment at VM address
    4096 that lies at file offset 512. *)
Definition map_seg : Map := [ (4096, MkEntry "seg" 4352 512) ].

(** *** Reference definitions for the further properties of RangeSink *)

(** Both maps of a [DualMap] satisfy the invariant of a RangeMap. *)
Definition DualMap_WF (map : DualMap) : Prop :=
  WF (vm_map map) /\ WF (file_map map).

(** Every output of the sink does. *)
Definition outputs_WF (sink : RangeSink) : Prop :=
  Forall (fun out => DualMap_WF (fst out)) (outputs_ sink).

(** A stand-in for [RE2::Extract] in the examples: the expression matches
    the names that start with it. *)
Definition prefix_Extract (text re rewrite : string) : option string :=
  if String.prefix re text then Some rewrite else None.

(** *** Reference definitions for the further properties of ComputeRollup *)

(** The keys with the file name put in at its place: before the key number
    [filename_position] of [keys], or nowhere when [filename_position] is
    negative or larger than their number. *)
Definition with_filename (filename : string) (filename_position : Z)
    (keys : list string) : list string :=
  if (0 <=? filename_position) &&
     (filename_position <=? Z.of_nat (length keys))
  then take (Z.to_nat filename_position) keys ++
       filename :: drop (Z.to_nat filename_position) keys
  else keys.

(** The same keys as the loop over the iterators builds them, from the map
    number [i] on. *)
Fixpoint keys_from (range_maps : list Map) (i : nat) (filename : string)
    (filename_position : Z) (a : Z) : list string :=
  (if filename_here filename_position i then [filename] else []) ++
  match range_maps with
  | [] => []
  | m :: rest =>
      key_at m a :: keys_from rest (S i) filename filename_position a
  end.

(** *** Reference definitions for the further properties of Rollup *)

(** The node that the label path [path] leads to, from [r] down. *)
Fixpoint node_at (path : list string) (r : Rollup) : option Rollup :=
  match path with
  | [] => Some r
  | name :: rest =>
      match children_ r !! name with
      | Some child => node_at rest child
      | None => None
      end
  end.

(** The totals at the end of a path; zero where the tree has no node. *)
Definition vm_at (path : list string) (r : Rollup) : Z :=
  match node_at path r with Some node => vm_total_ node | None => 0 end.

Definition file_at (path : list string) (r : Rollup) : Z :=
  match node_at path r with Some node => file_total_ node | None => 0 end.

(** The sum of the sizes of the calls of [AddSizes] for the total that
    [is_vmsize] selects whose labels after the first go along [path]. *)
Definition sum_sizes (is_vmsize : bool) (path : list string)
    (calls : list add_call) : Z :=
  foldr (fun c acc =>
           (if Bool.eqb (call_is_vmsize c) is_vmsize &&
               bool_decide (path `prefix_of` tail (call_names c))
            then call_size c else 0) + acc)
        0 calls.

(** *** Reference definitions for the further properties of the collapser *)


(** What [CreateRollupOutput] gives below the top-level row when there is
    no base: rows with a size that is not negative in either domain and not
    zero in both, no rows in [shrinking] and [mixed], and no diff mode, at
    every level. *)
Inductive plain_row : RollupRow -> Prop :=
| PlainRow (row : RollupRow) :
    0 <= vmsize row -> 0 <= filesize row ->
    shrinking row = [] -> mixed row = [] -> diff_mode row = false ->
    Forall plain_row (sorted_children row) ->
    Forall (fun child => 0 < vmsize child \/ 0 < filesize child)
           (sorted_children row) ->
    plain_row row.

(** A row as the loop of [CreateRows] over the children makes it when
    there is no base. *)
Definition new_plain_row (row : RollupRow) : Prop :=
  fresh_row row /\ diff_mode row = false /\
  0 <= vmsize row /\ 0 <= filesize row /\
  (0 < vmsize row \/ 0 < filesize row).

(** What a row looks like after [CreateRows] without a base. *)
Definition plain_result (row row' : RollupRow) : Prop :=
  name row' = name row /\ vmsize row' = vmsize row /\
  filesize row' = filesize row /\
  shrinking row' = [] /\ mixed row' = [] /\ diff_mode row' = false /\
  Forall plain_row (sorted_children row') /\
  Forall (fun child => 0 < vmsize child \/ 0 < filesize child)
         (sorted_children row').

(** The vector of rows that [ComputeRows] clears at its head: it holds one
    row, and this row is named [[None]] or [[Unmapped]] below the top
    level, or named like the row above it. *)
Definition cleared (row : RollupRow) (is_toplevel : bool)
    (child_rows : list RollupRow) : bool :=
  match child_rows with
  | [only] =>
      (negb is_toplevel &&
       (String.eqb (name only) "[None]" || String.eqb (name only) "[Unmapped]"))
      || String.eqb (name only) (name row)
  | _ => false
  end.

(** *** The totals of a node and of its children *)

(** The sum of one total over the children of a node. *)
Definition sum_children (total : Rollup -> Z) (children : gmap string Rollup)
    : Z :=
  map_fold (fun _ child acc => total child + acc) 0 children.

(** Down to the depth [depth], every node holds in each total the sum of
    that total over its children; the nodes at that depth have no
    children. *)
Fixpoint balanced (depth : nat) (r : Rollup) : Prop :=
  match depth with
  | O => children_ r = ∅
  | S depth' =>
      vm_total_ r = sum_children vm_total_ (children_ r) /\
      file_total_ r = sum_children file_total_ (children_ r) /\
      forall name child,
        children_ r !! name = Some child -> balanced depth' child
  end.

(** ** Text helpers: CSVEscape, FixedWidthString, LeftPad, Split, StripName *)

(** A [std::string] or [string_view] whose characters are inspected one by
    one is the list of its characters, [list ascii]. *)

Definition quote_char : ascii := "034"%char.
Definition comma_char : ascii := ","%char.
Definition space_char : ascii := " "%char.
Definition lparen_char : ascii := "("%char.
Definition rparen_char : ascii := ")"%char.

Definition char_eqb (a b : ascii) : bool := Ascii.eqb a b.

(** The first loop of [CSVEscape]: stop at the first quote or comma. *)
Fixpoint need_escape (str : (list ascii)) : bool :=
  match str with
  | [] => false
  | ch :: rest =>
      if char_eqb ch quote_char || char_eqb ch comma_char then true
      else need_escape rest
  end.

(** The second loop: what it appends to [ret] for the characters of
    [str]. *)
Fixpoint escape_quotes (str : (list ascii)) : (list ascii) :=
  match str with
  | [] => []
  | ch :: rest =>
      if char_eqb ch quote_char
      then quote_char :: quote_char :: escape_quotes rest
      else ch :: escape_quotes rest
  end.

(** [CSVEscape] *)
Definition CSVEscape (str : (list ascii)) : (list ascii) :=
  if need_escape str
  then [quote_char] ++ escape_quotes str ++ [quote_char]
  else str.

(** The loop [while (ret.size() < size) ret += " "] of [FixedWidthString];
    [size] is a [size_t]. *)
Fixpoint pad_right (fuel : nat) (ret : (list ascii)) (size : Z) : result (list ascii) :=
  if Z.of_nat (length ret) <? size
  then match fuel with
       | O => Err OutOfFuel
       | S fuel' => pad_right fuel' (ret ++ [space_char]) size
       end
  else Ok ret.

(** [FixedWidthString] *)
Definition FixedWidthString (input : (list ascii)) (size : Z) : result (list ascii) :=
  if Z.of_nat (length input) <? size
  then pad_right (Z.to_nat size) input size
  else Ok (take (Z.to_nat size) input).             (* input.substr(0, size) *)

(** The loop [while (ret.size() < size) ret = " " + ret] of [LeftPad]. *)
Fixpoint pad_left (fuel : nat) (ret : (list ascii)) (size : Z) : result (list ascii) :=
  if Z.of_nat (length ret) <? size
  then match fuel with
       | O => Err OutOfFuel
       | S fuel' => pad_left fuel' (space_char :: ret) size
       end
  else Ok ret.

(** [LeftPad] *)
Definition LeftPad (input : (list ascii)) (size : Z) : result (list ascii) :=
  pad_left (Z.to_nat size) input size.

(** [std::getline(stream, item, delim)] on the characters that are left in
    the stream: it fails when the stream is at its end; otherwise it
    extracts the characters up to the first [delim], which it consumes, or
    up to the end.  The result is the item and the rest of the stream. *)
Fixpoint read_until (stream : (list ascii)) (delim : ascii) : (list ascii) * (list ascii) :=
  match stream with
  | [] => ([], [])
  | ch :: rest =>
      if char_eqb ch delim then ([], rest)
      else let '(item, rest') := read_until rest delim in (ch :: item, rest')
  end.

Definition getline (stream : (list ascii)) (delim : ascii) : option ((list ascii) * (list ascii)) :=
  match stream with
  | [] => None
  | _ => Some (read_until stream delim)
  end.

(** The loop of [Split]; every round consumes a character, so
    [length str + 1] rounds are enough. *)
Fixpoint Split_loop (fuel : nat) (stream : (list ascii)) (delim : ascii)
    (out : list (list ascii)) : result (list (list ascii)) :=
  match fuel with
  | O => Err OutOfFuel
  | S fuel' =>
      match getline stream delim with
      | Some (item, stream') => Split_loop fuel' stream' delim (out ++ [item])
      | None => Ok out
      end
  end.

(** [Split(str, delim, out)]: the new value of [*out]. *)
Definition Split (str : (list ascii)) (delim : ascii) (out : list (list ascii))
    : result (list (list ascii)) :=
  Split_loop (length str + 1) str delim out.

(** [absl::ConsumeSuffix(&name, expected)]: the new value of [name]. *)
Definition ConsumeSuffix (name expected : (list ascii)) : (list ascii) :=
  if bool_decide (expected `suffix_of` name)
  then take (length name - length expected) name
  else name.

Definition const_suffix : (list ascii) :=
  [" "; "c"; "o"; "n"; "s"; "t"]%char.

(** The loop of [StripName], from the index [n] down.  [--n] at index 0
    wraps to the largest [size_t], which ends the loop.  [nesting] is an
    [int]; its magnitude is bounded by the length of the name. *)
Fixpoint StripName_loop (name : (list ascii)) (n : nat) (nesting : Z) : (list ascii) :=
  match name !! n with
  | None => name                                   (* n < name.size() fails *)
  | Some ch =>
      let next (nesting : Z) :=
        match n with
        | O => name
        | S n' => StripName_loop name n' nesting
        end in
      if char_eqb ch lparen_char then
        if nesting - 1 =? 0 then take n name       (* name.substr(0, n) *)
        else next (nesting - 1)
      else if char_eqb ch rparen_char then next (nesting + 1)
      else next nesting
  end.

(** [StripName] *)
Definition StripName (name : (list ascii)) : (list ascii) :=
  let name := ConsumeSuffix name const_suffix in
  match last name with
  | Some ch =>
      if negb (char_eqb ch rparen_char) then name  (* not a function *)
      else StripName_loop name (length name - 1) 0
  | None => name            (* empty: the loop starts past the end *)
  end.

(** *** Reference definitions for the properties of the text helpers *)

(** Reading a CSV field back: a field that starts with a quote loses the
    enclosing quotes and has every doubled quote halved. *)
Fixpoint unescape_quotes (field : (list ascii)) : (list ascii) :=
  match field with
  | [] => []
  | ch :: rest =>
      if char_eqb ch quote_char then
        match rest with
        | ch2 :: rest2 =>
            if char_eqb ch2 quote_char then quote_char :: unescape_quotes rest2
            else ch :: unescape_quotes rest
        | [] => [ch]
        end
      else ch :: unescape_quotes rest
  end.

Definition CSVUnescape (field : (list ascii)) : (list ascii) :=
  match field with
  | ch :: rest =>
      if char_eqb ch quote_char then unescape_quotes (removelast rest)
      else field
  | [] => []
  end.

(** The items of a split, each followed by the delimiter. *)
Definition join_items (delim : ascii) (items : list (list ascii)) : (list ascii) :=
  concat (map (fun item => item ++ [delim]) items).

(** What joining the items must give: the string itself when it is empty
    or ends with the delimiter, and the string with one delimiter added
    otherwise. *)
Definition closed_by (delim : ascii) (str : (list ascii)) : (list ascii) :=
  match last str with
  | Some ch => if char_eqb ch delim then str else str ++ [delim]
  | None => str
  end.

(** ** Endianness: ByteSwap (bloaty.h) *)

(** The conversion of an integer to the unsigned type of [bits] bits. *)
Definition to_unsigned (bits : Z) (z : Z) : Z := z mod 2 ^ bits.

(** [ByteSwapper<T, 1>], [ByteSwapper<T, 2>], [ByteSwapper<T, 4>] and
    [ByteSwapper<T, 8>] for the unsigned [T] of that size: the expression
    of the source, converted to [T] by the [return]. *)
Definition ByteSwap1 (val : Z) : Z := val.

Definition ByteSwap2 (val : Z) : Z :=
  to_unsigned 16
    (Z.lor (Z.shiftl (Z.land val 0xff) 8)
           (Z.shiftr (Z.land val 0xff00) 8)).

Definition ByteSwap4 (val : Z) : Z :=
  to_unsigned 32
    (Z.lor (Z.lor (Z.lor
       (Z.shiftl (Z.land val 0xff) 24)
       (Z.shiftl (Z.land val 0xff00) 8))
       (Z.shiftr (Z.land val 0xff0000) 8))
       (Z.shiftr (Z.land val 0xff000000) 24)).

Definition ByteSwap8 (val : Z) : Z :=
  to_unsigned 64
    (Z.lor (Z.lor (Z.lor (Z.lor (Z.lor (Z.lor (Z.lor
       (Z.shiftl (Z.land val 0xff) 56)
       (Z.shiftl (Z.land val 0xff00) 40))
       (Z.shiftl (Z.land val 0xff0000) 24))
       (Z.shiftl (Z.land val 0xff000000) 8))
       (Z.shiftr (Z.land val 0xff00000000) 8))
       (Z.shiftr (Z.land val 0xff0000000000) 24))
       (Z.shiftr (Z.land val 0xff000000000000) 40))
       (Z.shiftr (Z.land val 0xff00000000000000) 56)).

(** The bit [j] of the byte [i] of [z], bytes counted from the least
    significant one. *)
Definition byte_bit (z : Z) (i j : Z) : bool := Z.testbit z (8 * i + j).

(** ** Reading ELF and archive files (elf.cc) *)

(** The bytes of a file or of a part of it ([string_view]) are a list of
    characters; [substr(start, n)] of a view is [take n (drop start _)]. *)
Definition substr (data : list ascii) (start n : nat) : list ascii :=
  take n (drop start data).

Definition SIZE_MAX : Z := UINT64_MAX.   (* LP64 *)

(** [CheckedAdd(size_t a, size_t b)] of elf.cc *)
Definition CheckedAdd_size_t (a b : Z) : result Z :=
  if SIZE_MAX - b <? a then THROW "integer overflow"
  else Ok (a + b).

(** [ElfFile::GetRegion(start, n)] *)
Definition GetRegion (data_ : list ascii) (start n : Z) : result (list ascii) :=
  if (SIZE_MAX - n <=? start) ||
     (Z.of_nat (length data_) <? wrap_u64 (start + n))
  then THROW "ELF region out-of-bounds"
  else Ok (substr data_ (Z.to_nat start) (Z.to_nat n)).

(** [ElfFile::StructReader::Memcpy(offset, out)] for a structure of
    [size] bytes: the bytes copied to [*out]. *)
Definition Memcpy (data_ : list ascii) (offset size : Z) : result (list ascii) :=
  let! end' := CheckedAdd_size_t offset size in
  if Z.of_nat (length data_) <? end'
  then THROW "can't memcpy that data from ELF file"
  else Ok (substr data_ (Z.to_nat offset) (Z.to_nat size)).

Definition nul_char : ascii := "000"%char.

(** [memchr(ret.data(), 0, ret.size())] followed by [ret.substr(0, len)]:
    the characters before the first NUL, if there is one. *)
Fixpoint until_nul (ret : list ascii) : option (list ascii) :=
  match ret with
  | [] => None
  | ch :: rest =>
      if char_eqb ch nul_char then Some []
      else match until_nul rest with
           | Some name => Some (ch :: name)
           | None => None
           end
  end.

(** [ElfFile::Section::ReadName(index)] on the contents of a string table;
    [SHN_UNDEF] is 0.  The first message stands for the formatted one. *)
Definition ReadName (contents_ : list ascii) (index : Z) : result (list ascii) :=
  if (index =? 0) || (Z.of_nat (length contents_) <=? index)
  then THROW "can't read index $0 from strtab, total size is $1"
  else
    match until_nul (drop (Z.to_nat index) contents_) with
    | None => THROW "no NULL terminator found"
    | Some name => Ok name
    end.

(** [ToVMAddr(addr, ndx, is_object)]: [ndx] is a [long], [addr] a
    [size_t]; the shift stays in range for an index below [2 ^ 23]. *)
Definition ToVMAddr (addr ndx : Z) (is_object : bool) : Z :=
  if is_object then Z.lor (wrap_u64 (Z.shiftl ndx 40)) addr
  else addr.

(** [ArFile::MemberFile] *)
Inductive member_file_type : Type :=
  kSymbolTable | kLongFilenameTable | kNormal.

Record MemberFile : Type := MkMemberFile {
  file_type : member_file_type;
  member_filename : list ascii;          (* filename *)
  member_size : Z;                        (* size *)
  member_header : list ascii;            (* header *)
  member_contents : list ascii           (* contents *)
}.

(** [ArFile::MemberReader] *)
Record MemberReader : Type := MkMemberReader {
  long_filenames_ : list ascii;
  remaining_ : list ascii
}.

(** [sizeof(Header)]: 16 + 12 + 6 + 6 + 8 + 10 + 2. *)
Definition sizeof_Header : nat := 60.

Definition slash_char : ascii := "/"%char.

(** [view.find(ch, pos)]: the index of the first [ch] at or after [pos]. *)
Fixpoint find_from (view : list ascii) (ch : ascii) (pos : nat) (i : nat)
    : option nat :=
  match view with
  | [] => None
  | c :: rest =>
      if (pos <=? i)%nat && char_eqb c ch then Some i
      else find_from rest ch pos (S i)
  end.

Definition isdigit (ch : ascii) : bool :=
  let n := nat_of_ascii ch in (48 <=? n)%nat && (n <=? 57)%nat.

Section Archive.

(** [absl::SimpleAtoi(str, &ret)] for a [size_t]: the number that [str]
    spells, if it spells one. *)
Variable SimpleAtoi : list ascii -> option Z.

(** [StringViewToSize]; the message stands for the formatted one. *)
Definition StringViewToSize (str : list ascii) : result Z :=
  match SimpleAtoi str with
  | Some ret => Ok ret
  | None => THROW "couldn't convert string '$0' to integer."
  end.

(** [MemberReader::Consume(n)]: the bytes consumed and the reader after. *)
Definition Consume (n : Z) (reader : MemberReader)
    : result (list ascii * MemberReader) :=
  if Z.of_nat (length (remaining_ reader)) <? n
  then THROW "premature end of file"
  else Ok (take (Z.to_nat n) (remaining_ reader),
           MkMemberReader (long_filenames_ reader)
             (drop (Z.to_nat n) (remaining_ reader))).   (* remove_prefix *)

(** [ArFile::MemberReader::ReadMember(file)]: whether it returns true, the
    new value of [*file], and the reader after the call.  The fields of
    [*file] that a path does not assign keep their values. *)
Definition ReadMember (reader : MemberReader) (file : MemberFile)
    : result (bool * MemberFile * MemberReader) :=
  if (length (remaining_ reader) <? sizeof_Header)%nat
  then Ok (false, file, reader)
  else
    let header := remaining_ reader in
    let! c1 := Consume (Z.of_nat sizeof_Header) reader in
    let '(file_header, reader) := c1 in
    let file_id := substr header 0 16 in
    let size_str := substr header 48 10 in
    let! size := StringViewToSize size_str in
    let! c2 := Consume size reader in
    let '(contents, reader) := c2 in
    let file t :=
      MkMemberFile t (member_filename file) size file_header contents in
    if char_eqb (default nul_char (file_id !! 0%nat)) slash_char then
      (* Special filename, internal to the format. *)
      let second := default nul_char (file_id !! 1%nat) in
      if char_eqb second space_char then Ok (true, file kSymbolTable, reader)
      else if char_eqb second slash_char then
        Ok (true, file kLongFilenameTable,
            MkMemberReader contents (remaining_ reader))
      else if isdigit second then
        let! offset := StringViewToSize (drop 1 file_id) in
        match find_from (long_filenames_ reader) slash_char
                (Z.to_nat offset) 0 with
        | None => Ok (false, file kNormal, reader)
        | Some end' =>
            Ok (true,
                MkMemberFile kNormal
                  (substr (long_filenames_ reader) (Z.to_nat offset)
                     (end' - Z.to_nat offset))
                  size file_header contents,
                reader)
        end
      else Ok (false, file kNormal, reader)
    else
      (* Normal filename, slash-terminated. *)
      match find_from file_id slash_char 0 0 with
      | None => Ok (false, file kNormal, reader)      (* BSD-style *)
      | Some slash =>
          Ok (true,
              MkMemberFile kNormal (substr file_id 0 slash) size file_header
                contents,
              reader)
      end.

End Archive.

(** A stand-in for [absl::SimpleAtoi] in the examples: decimal digits
    followed by spaces. *)
Fixpoint digits_value (str : list ascii) (acc : Z) : option Z :=
  match str with
  | [] => Some acc
  | ch :: rest =>
      if isdigit ch
      then digits_value rest (10 * acc + Z.of_nat (nat_of_ascii ch) - 48)
      else if forallb (fun c => char_eqb c space_char) str then Some acc
      else None
  end.

Definition decimal_Atoi (str : list ascii) : option Z :=
  match str with
  | ch :: _ => if isdigit ch then digits_value str 0 else None
  | [] => None
  end.

(** *** Reference definitions for the properties of the readers *)

(** [region] is the part of [data] of [n] bytes that starts at the byte
    number [start]. *)
Definition slice_of (data : list ascii) (start n : Z) (region : list ascii)
    : Prop :=
  exists before after,
    data = before ++ region ++ after /\
    Z.of_nat (length before) = start /\ Z.of_nat (length region) = n.

(** An archive header of 60 bytes: the name, 32 bytes that the reader
    skips, the size and the end marker. *)
Definition ar_header (file_id size_str : string) : list ascii :=
  String.list_ascii_of_string file_id ++ replicate 32 space_char ++
  String.list_ascii_of_string size_str ++ replicate 2 space_char.

(** ** Data sources: class Bloaty's configuration *)

(** [enum class DataSource] of bloaty.h *)
Inductive DataSource : Type :=
| kArchiveMembers | kCppSymbols | kCppSymbolsStripped | kCompileUnits
| kInlines | kSections | kSegments | kSymbols.

(** [struct DataSourceDefinition] *)
Record DataSourceDefinition : Type := MkDataSourceDefinition {
  number : DataSource;
  source_name : string;                  (* name *)
  description : string
}.

(** The table [data_sources]. *)
Definition data_sources : list DataSourceDefinition :=
  [ MkDataSourceDefinition kArchiveMembers "armembers" "the .o files in a .a file";
    MkDataSourceDefinition kCppSymbols "cppsymbols" "demangled C++ symbols.";
    MkDataSourceDefinition kCppSymbolsStripped "cppxsyms"
      "demangled C++ symbols, stripped to remove function parameters";
    MkDataSourceDefinition kCompileUnits "compileunits"
      "source file for the .o file (translation unit). requires debug info.";
    MkDataSourceDefinition kInlines "inputfiles"
      "the filename specified on the Bloaty command-line";
    MkDataSourceDefinition kInlines "inlines"
      "source line/file where inlined code came from.  requires debug info.";
    MkDataSourceDefinition kSections "sections" "object file section";
    MkDataSourceDefinition kSegments "segments" "load commands in the binary";
    MkDataSourceDefinition kSymbols "symbols" "symbols from symbol table" ].

(** [struct ConfiguredDataSource] *)
Record ConfiguredDataSource : Type := MkConfiguredDataSource {
  definition : DataSourceDefinition;
  source_munger : NameMunger             (* munger *)
}.

(** The members of [class Bloaty] that the configuration sets.  [sources_]
    holds pointers into [all_known_sources_]; they are the objects
    themselves here, since [BloatyDoMain] defines every custom source
    before it selects any. *)
Record Bloaty : Type := MkBloaty {
  all_known_sources_ : gmap string ConfiguredDataSource;
  sources_ : list ConfiguredDataSource;
  filename_position_ : Z
}.

(** [Bloaty::AddBuiltInSources] *)
Definition AddBuiltInSources (sources : list DataSourceDefinition)
    (known : gmap string ConfiguredDataSource)
    : gmap string ConfiguredDataSource :=
  fold_left
    (fun known source =>
       <[source_name source := MkConfiguredDataSource source []]> known)
    sources known.

(** [Bloaty::Bloaty] *)
Definition new_Bloaty : Bloaty :=
  MkBloaty (AddBuiltInSources data_sources ∅) [] (-1).

(** [Bloaty::GetSourceCount] *)
Definition GetSourceCount (bloaty : Bloaty) : Z :=
  Z.of_nat (length (sources_ bloaty)) +
  (if 0 <=? filename_position_ bloaty then 1 else 0).

(** The message [CustomDataSource] of bloaty.proto. *)
Record CustomDataSource : Type := MkCustomDataSource {
  custom_name : string;                  (* name *)
  base_data_source : string;
  custom_rewrite : list (string * string)   (* rewrite: pattern, replacement *)
}.

(** [Bloaty::DefineCustomDataSource].  The messages stand for the formatted
    ones. *)
Definition DefineCustomDataSource (source : CustomDataSource) (bloaty : Bloaty)
    : result Bloaty :=
  match all_known_sources_ bloaty !! base_data_source source with
  | None => THROW "custom data source '$0': no such base source '$1'"
  | Some base =>
      if negb (length (source_munger base) =? 0)%nat     (* !IsEmpty() *)
      then THROW
        "custom data source '$0' tries to depend on custom data source '$1'"
      else
        Ok (MkBloaty
              (<[custom_name source :=
                   MkConfiguredDataSource (definition base)
                     (custom_rewrite source)]>
                 (all_known_sources_ bloaty))
              (sources_ bloaty) (filename_position_ bloaty))
  end.

(** [Bloaty::AddDataSource] *)
Definition AddDataSource (name : string) (bloaty : Bloaty) : result Bloaty :=
  if String.eqb name "inputfiles"
  then Ok (MkBloaty (all_known_sources_ bloaty) (sources_ bloaty)
             (Z.of_nat (length (sources_ bloaty)) + 1))
  else
    match all_known_sources_ bloaty !! name with
    | None => THROW "no such data source: $0"
    | Some source =>
        Ok (MkBloaty (all_known_sources_ bloaty) (sources_ bloaty ++ [source])
              (filename_position_ bloaty))
    end.

(** The two loops of [BloatyDoMain] that configure the data sources. *)
Fixpoint for_each {A S} (body : A -> S -> result S) (items : list A) (s : S)
    : result S :=
  match items with
  | [] => Ok s
  | item :: rest => let! s' := body item s in for_each body rest s'
  end.

Definition configure (custom_data_source : list CustomDataSource)
    (data_source : list string) : result Bloaty :=
  let! bloaty := for_each DefineCustomDataSource custom_data_source new_Bloaty in
  for_each AddDataSource data_source bloaty.

(** [DualMaps::ComputeRollup]: the two joins, each call of the callback
    adding the length of its interval to the rollup. *)
Definition add_calls (is_vmsize : bool) (calls : list rollup_call)
    : list add_call :=
  map (fun call : rollup_call =>
         let '(keys, addr, end') := call in
         AddCall keys (wrap_u64 (end' - addr)) is_vmsize)
      calls.

Definition DualMaps_ComputeRollup (maps_ : list DualMap) (filename : string)
    (filename_position : Z) (rollup : Rollup) : result Rollup :=
  let! vm_calls := ComputeRollup (map vm_map maps_) filename filename_position in
  let! rollup := run_AddSizes (add_calls true vm_calls) rollup in
  let! file_calls :=
    ComputeRollup (map file_map maps_) filename filename_position in
  run_AddSizes (add_calls false file_calls) rollup.

(** *** Reference definitions for the properties of the configuration *)

(** The known sources that a list of names selects: one for every name but
    ["inputfiles"]. *)
Definition selected (known : gmap string ConfiguredDataSource)
    (names : list string) : list ConfiguredDataSource :=
  omap (fun name => if String.eqb name "inputfiles" then None else known !! name)
       names.

(** The names before the last ["inputfiles"] of the list, if there is
    one. *)
Fixpoint before_inputfiles (names : list string) : option (list string) :=
  match names with
  | [] => None
  | name :: rest =>
      match before_inputfiles rest with
      | Some before => Some (name :: before)
      | None => if String.eqb name "inputfiles" then Some [] else None
      end
  end.

(** The total length of the intervals of a list of calls. *)
Definition total_length (calls : list rollup_call) : Z :=
  foldr (fun call acc => (snd call - snd (fst call)) + acc) 0 calls.

(** A name that [AddDataSource] accepts. *)
Definition selectable (known : gmap string ConfiguredDataSource)
    (name : string) : bool :=
  String.eqb name "inputfiles" || bool_decide (is_Some (known !! name)).

(** What the configuration keeps true of a [Bloaty]. *)
Definition config_invariant (bloaty : Bloaty) : Prop :=
  (forall name s, all_known_sources_ bloaty !! name = Some s ->
     definition s ∈ data_sources) /\
  Forall (fun s => definition s ∈ data_sources) (sources_ bloaty) /\
  (filename_position_ bloaty = -1 \/
   1 <= filename_position_ bloaty
     <= Z.of_nat (length (sources_ bloaty)) + 1).

(** ** The command line: DoParseOptions *)

(** [enum class OutputFormat] and [struct OutputOptions] of bloaty.h *)
Inductive OutputFormat : Type := kPrettyPrint | kCSV.

Record OutputOptions : Type := MkOutputOptions {
  output_format : OutputFormat;
  max_label_len : Z
}.

Definition new_OutputOptions : OutputOptions := MkOutputOptions kPrettyPrint 80.

(** What the loop of [DoParseOptions] works on: [*options] with its field
    [verbose_level], [*output_options] and the local [saw_separator]. *)
Record parse_state : Type := MkParseState {
  parsed_options : Options;
  verbose_level : Z;
  parsed_output : OutputOptions;
  saw_separator : bool
}.

Definition add_filename (name : string) (options : Options) : Options :=
  MkOptions (filename options ++ [name]) (base_filename options)
    (data_source options) (max_rows_per_level options) (sort_by options).

Definition add_base_filename (name : string) (options : Options) : Options :=
  MkOptions (filename options) (base_filename options ++ [name])
    (data_source options) (max_rows_per_level options) (sort_by options).

Definition add_data_source (name : string) (options : Options) : Options :=
  MkOptions (filename options) (base_filename options)
    (data_source options ++ [name]) (max_rows_per_level options)
    (sort_by options).

Definition set_sort_by (sort : SortBy) (options : Options) : Options :=
  MkOptions (filename options) (base_filename options) (data_source options)
    (max_rows_per_level options) sort.

Definition with_options (options : Options) (st : parse_state) : parse_state :=
  MkParseState options (verbose_level st) (parsed_output st) (saw_separator st).

(** [argv[i][0] == '-'] *)
Definition starts_with_dash (arg : string) : bool :=
  match arg with
  | String ch _ => char_eqb ch "-"%char
  | EmptyString => false
  end.

Section ParseOptions.

(** [-c <file>]: opening the file and [TextFormat::Merge] into [*options];
    it throws when the file cannot be opened or parsed. *)
Variable merge_config_file : string -> Options * Z -> result (Options * Z).

(** [strtod(str, NULL)], converted to the type of [max_rows_per_level]. *)
Variable strtod : string -> Z.

(** The loop of [DoParseOptions] over [argv[i]], from the argument [args]
    starts with: whether it runs to its end (the two options that print
    and return false stop it), and the state. *)
Fixpoint parse_args (args : list string) (st : parse_state)
    : result (bool * parse_state) :=
  match args with
  | [] => Ok (true, st)
  | arg :: rest =>
      if String.eqb arg "--" then
        if saw_separator st
        then THROW "'--' option should only be specified once"
        else parse_args rest
               (MkParseState (parsed_options st) (verbose_level st)
                  (parsed_output st) true)
      else if String.eqb arg "--csv" then
        parse_args rest
          (MkParseState (parsed_options st) (verbose_level st)
             (MkOutputOptions kCSV (max_label_len (parsed_output st)))
             (saw_separator st))
      else if String.eqb arg "-c" then
        match rest with
        | [] => THROW "option '$0' requires an argument"      (* CheckNextArg *)
        | file :: rest' =>
            let! merged :=
              merge_config_file file (parsed_options st, verbose_level st) in
            parse_args rest'
              (MkParseState (fst merged) (snd merged) (parsed_output st)
                 (saw_separator st))
        end
      else if String.eqb arg "-d" then
        match rest with
        | [] => THROW "option '$0' requires an argument"
        | sources :: rest' =>
            let! names := Split (String.list_ascii_of_string sources) ","%char [] in
            parse_args rest'
              (with_options
                 (fold_left (fun options name =>
                               add_data_source (String.string_of_list_ascii name)
                                 options)
                            names (parsed_options st))
                 st)
        end
      else if String.eqb arg "-n" then
        match rest with
        | [] => THROW "option '$0' requires an argument"
        | num :: rest' =>
            parse_args rest'
              (with_options
                 (set_max_rows_per_level (strtod num) (parsed_options st)) st)
        end
      else if String.eqb arg "-s" then
        match rest with
        | [] => THROW "option '$0' requires an argument"
        | sort :: rest' =>
            if String.eqb sort "vm" then
              parse_args rest'
                (with_options (set_sort_by SORTBY_VMSIZE (parsed_options st)) st)
            else if String.eqb sort "file" then
              parse_args rest'
                (with_options (set_sort_by SORTBY_FILESIZE (parsed_options st)) st)
            else if String.eqb sort "both" then
              parse_args rest'
                (with_options (set_sort_by SORTBY_BOTH (parsed_options st)) st)
            else THROW "unknown value for -s: $0"
        end
      else if String.eqb arg "-v" then
        parse_args rest
          (MkParseState (parsed_options st) 1 (parsed_output st)
             (saw_separator st))
      else if String.eqb arg "-vv" then
        parse_args rest
          (MkParseState (parsed_options st) 2 (parsed_output st)
             (saw_separator st))
      else if String.eqb arg "-vvv" then
        parse_args rest
          (MkParseState (parsed_options st) 3 (parsed_output st)
             (saw_separator st))
      else if String.eqb arg "-w" then
        parse_args rest
          (MkParseState (parsed_options st) (verbose_level st)
             (MkOutputOptions (output_format (parsed_output st)) SIZE_MAX)
             (saw_separator st))
      else if String.eqb arg "--list-sources" then Ok (false, st)
      else if String.eqb arg "--help" then Ok (false, st)
      else if starts_with_dash arg then THROW "Unknown option: $0"
      else if saw_separator st then
        parse_args rest
          (with_options (add_base_filename arg (parsed_options st)) st)
      else
        parse_args rest (with_options (add_filename arg (parsed_options st)) st)
  end.

(** [DoParseOptions(argc, argv, options, output_options)] for the
    arguments [argv[1]], ..., [argv[argc - 1]]: what it returns, and the
    values of [*options] and [*output_options] after it. *)
Definition DoParseOptions (args : list string) (options : Options)
    (verbose : Z) (output_options : OutputOptions)
    : result (bool * parse_state) :=
  let! r := parse_args args (MkParseState options verbose output_options false) in
  let '(finished, st) := r in
  if finished then
    if (length (data_source (parsed_options st)) =? 0)%nat
    then (* Default when no sources are specified. *)
      Ok (true, with_options (add_data_source "sections" (parsed_options st)) st)
    else Ok (true, st)
  else Ok (false, st).

End ParseOptions.

(** The options that take an argument. *)
Definition takes_argument (opt : string) : Prop :=
  opt = "-c"%string \/ opt = "-d"%string \/ opt = "-n"%string \/
  opt = "-s"%string.

(** An argument that names a file: it does not start with a dash. *)
Definition positional (arg : string) : Prop := starts_with_dash arg = false.

(** The options [DoParseOptions] compares an argument with. *)
Definition known_options : list string :=
  [ "--"; "--csv"; "-c"; "-d"; "-n"; "-s"; "-v"; "-vv"; "-vvv"; "-w";
    "--list-sources"; "--help" ]%string.

(** The values [-s] takes. *)
Definition sort_values : list string := [ "vm"; "file"; "both" ]%string.

(** The data sources of a run that names [sources]. *)
Definition sources_or_default (sources : list string) : list string :=
  match sources with
  | [] => [ "sections"%string ]
  | _ :: _ => sources
  end.

(** The options with the files [names] added on one side of [--]. *)
Definition add_positional (after_separator : bool) (names : list string)
    (options : Options) : Options :=
  if after_separator
  then MkOptions (filename options) (base_filename options ++ names)
         (data_source options) (max_rows_per_level options) (sort_by options)
  else MkOptions (filename options ++ names) (base_filename options)
         (data_source options) (max_rows_per_level options) (sort_by options).

(** For the examples: a run in a directory without configuration files,
    and [strtod] on strings of decimal digits. *)
Definition missing_config_file (file : string) (state : Options * Z)
    : result (Options * Z) :=
  THROW "couldn't open file $0".

Definition digits_strtod (str : string) : Z :=
  match decimal_Atoi (String.list_ascii_of_string str) with
  | Some num => num
  | None => 0
  end.


(** ** Concrete inputs used by the examples *)

(** The two maps of the specification's scenario S3. *)
Definition join_maps : list Map :=
  [ [ (0, MkEntry "X" 10 UINT64_MAX); (20, MkEntry "Y" 30 UINT64_MAX) ];
    [ (5, MkEntry "Z" 25 UINT64_MAX) ] ].


(** Two orders of the same three calls of [AddSizes], and the tree both build. *)
Definition calls_xy : list add_call :=
  [ AddCall ["seg"; "x"] 3 true; AddCall ["seg"; "y"; "f"] 4 false;
    AddCall ["seg"; "x"] 7 false ].
Definition calls_yx : list add_call :=
  [ AddCall ["seg"; "y"; "f"] 4 false; AddCall ["seg"; "x"] 7 false;
    AddCall ["seg"; "x"] 3 true ].
Definition tree_xy : Rollup :=
  MkRollup 3 11
    {[ "x" := MkRollup 3 7 ∅;
       "y" := MkRollup 0 4 {[ "f" := MkRollup 0 4 ∅ ]} ]}.

(** A rollup [sum_a] that is the node-wise sum of [sum_b] and [sum_c]. *)
Definition sum_b : Rollup := MkRollup 10 20 {[ "x" := MkRollup 10 20 ∅ ]}.
Definition sum_c : Rollup := MkRollup 1 (-2) {[ "x" := MkRollup 1 (-2) ∅ ]}.
Definition sum_a : Rollup := MkRollup 11 18 {[ "x" := MkRollup 11 18 ∅ ]}.

(** The map of the specification's scenario S2. *)
Definition map_AB : Map :=
  [ (0, MkEntry "A" 100 UINT64_MAX); (100, MkEntry "B" 150 UINT64_MAX) ].


(** The options [-n n -s vm], and a rollup with the five children of the
    specification's scenario S4. *)
Definition options_n (n : Z) : Options :=
  MkOptions ["a.out"] [] ["sections"] n SORTBY_VMSIZE.

Definition five_children : Rollup :=
  MkRollup 400 400
    {[ "a" := MkRollup 100 100 ∅; "b" := MkRollup 90 90 ∅;
       "c" := MkRollup 80 80 ∅; "d" := MkRollup 70 70 ∅;
       "e" := MkRollup 60 60 ∅ ]}.


(** * Properties *)

(** ** The result monad and machine integers *)

Lemma rbind_Ok {A B} (c : result A) (k : A -> result B) (b : B) :
  rbind c k = Ok b -> exists a, c = Ok a /\ k a = Ok b.
Proof. destruct c as [a|e]; simpl; [eauto | discriminate]. Qed.

Ltac inv_bind H :=
  let a := fresh "a" in
  let Ha := fresh "Hbind" in
  apply rbind_Ok in H; destruct H as (a & Ha & H).

Lemma wrap_u64_id z : is_u64 z -> wrap_u64 z = z.
Proof. unfold is_u64, UINT64_MAX, wrap_u64. intros. apply Z.mod_small. lia. Qed.

Lemma wrap_i64_id z : is_i64 z -> wrap_i64 z = z.
Proof.
  unfold is_i64, INT64_MIN, INT64_MAX, wrap_i64. intros.
  rewrite Z.mod_small; lia.
Qed.

Lemma CheckedAdd_Ok accum val s : CheckedAdd accum val = Ok s -> s = accum + val.
Proof.
  unfold CheckedAdd. destruct (_ && _); [congruence | discriminate].
Qed.

(** ** Rollup *)

Section RollupFacts.

Implicit Types (r self other : Rollup) (names labels : list string).

Lemma AddInternal_fuel_unfold fuel names i size is_vmsize self :
  AddInternal_fuel fuel names i size is_vmsize self =
  let! self1 := add_total size is_vmsize self in
  match names !! i with
  | Some name =>
      match fuel with
      | O => Err OutOfFuel
      | S fuel' =>
          let! child := AddInternal_fuel fuel' names (S i) size is_vmsize
                          (child_or_new (children_ self1) name) in
          Ok (MkRollup (vm_total_ self1) (file_total_ self1)
                (<[name := child]> (children_ self1)))
      end
  | None => Ok self1
  end.
Proof. destruct fuel; reflexivity. Qed.

(** The index recursion of the source visits the labels [names[i..]] in
    order: enough fuel makes it the list recursion of the specification. *)
Lemma AddInternal_fuel_spec fuel : forall names i size is_vmsize self,
  (length names - i <= fuel)%nat ->
  AddInternal_fuel fuel names i size is_vmsize self =
  add_sizes_spec (drop i names) size is_vmsize self.
Proof.
  induction fuel as [|fuel IH]; intros names i size is_vmsize self Hfuel;
    rewrite AddInternal_fuel_unfold.
  - rewrite (drop_ge names i) by lia. simpl.
    rewrite (lookup_ge_None_2 names i) by lia. reflexivity.
  - destruct (names !! i) as [name|] eqn:Hi.
    + rewrite (drop_S names name i Hi). simpl.
      destruct (add_total size is_vmsize self) as [self1|e]; simpl; [|reflexivity].
      rewrite IH; [reflexivity|].
      apply lookup_lt_Some in Hi. lia.
    + apply lookup_ge_None_1 in Hi. rewrite (drop_ge names i) by lia.
      reflexivity.
Qed.

Lemma AddInternal_spec names i size is_vmsize self :
  AddInternal names i size is_vmsize self =
  add_sizes_spec (drop i names) size is_vmsize self.
Proof. apply AddInternal_fuel_spec. lia. Qed.

Lemma add_total_Ok size is_vm self self1 :
  add_total size is_vm self = Ok self1 ->
  self1 = MkRollup (if is_vm then vm_total_ self + size else vm_total_ self)
                   (if is_vm then file_total_ self else file_total_ self + size)
                   (children_ self).
Proof.
  unfold add_total. destruct is_vm; intros H; inv_bind H;
    apply CheckedAdd_Ok in Hbind; congruence.
Qed.

Lemma add_sizes_spec_exact labels : forall size is_vm node node',
  add_sizes_spec labels size is_vm node = Ok node' ->
  node' = add_sizes_exact labels size is_vm node.
Proof.
  induction labels as [|label rest IH]; intros size is_vm node node' H; simpl in H.
  - inv_bind H. apply add_total_Ok in Hbind. simpl. congruence.
  - inv_bind H. apply add_total_Ok in Hbind. subst a. simpl in H.
    inv_bind H. apply IH in Hbind. simpl. congruence.
Qed.

Lemma add_sizes_exact_children_nil size is_vm node :
  children_ (add_sizes_exact [] size is_vm node) = children_ node.
Proof. reflexivity. Qed.

(** Two exact additions commute, whatever their label paths. *)
Lemma add_sizes_exact_comm l1 : forall l2 s1 v1 s2 v2 node,
  add_sizes_exact l1 s1 v1 (add_sizes_exact l2 s2 v2 node) =
  add_sizes_exact l2 s2 v2 (add_sizes_exact l1 s1 v1 node).
Proof.
  induction l1 as [|k1 r1 IH]; intros l2 s1 v1 s2 v2 node.
  - destruct l2 as [|k2 r2]; destruct v1, v2; simpl; f_equal; lia.
  - destruct l2 as [|k2 r2].
    + destruct v1, v2; simpl; f_equal; lia.
    + simpl. f_equal; [destruct v1, v2; lia | destruct v1, v2; lia |].
      unfold child_or_new.
      destruct (decide (k1 = k2)) as [->|Hne].
      * rewrite !lookup_insert_eq. simpl. rewrite !insert_insert_eq.
        f_equal. apply IH.
      * rewrite (lookup_insert_ne _ k2 k1) by congruence.
        rewrite (lookup_insert_ne _ k1 k2) by congruence.
        apply insert_insert_ne. congruence.
Qed.

Lemma run_exact_perm calls calls' :
  calls ≡ₚ calls' -> forall self, run_exact calls self = run_exact calls' self.
Proof.
  unfold run_exact.
  induction 1 as [|c l l' _ IH|c1 c2 l|l1 l2 l3 _ IH1 _ IH2]; intros self; simpl.
  - reflexivity.
  - apply IH.
  - now rewrite add_sizes_exact_comm.
  - now rewrite IH1.
Qed.

Lemma AddSizes_spec names size is_vmsize self :
  AddSizes names size is_vmsize self =
  add_sizes_spec (tail names) size is_vmsize self.
Proof.
  unfold AddSizes. rewrite AddInternal_spec. destruct names; reflexivity.
Qed.

Lemma run_AddSizes_exact calls : forall self t,
  run_AddSizes calls self = Ok t -> t = run_exact calls self.
Proof.
  induction calls as [|c rest IH]; intros self t H; simpl in H.
  - unfold run_exact. simpl. congruence.
  - inv_bind H. rewrite AddSizes_spec in Hbind.
    apply add_sizes_spec_exact in Hbind. subst a.
    apply IH in H. exact H.
Qed.

(** *** Induction over a rollup tree, through its children *)

Lemma height_child v f (c : gmap string Rollup) name child :
  c !! name = Some child -> (height child < height (MkRollup v f c))%nat.
Proof.
  simpl. intros Hc. apply Nat.lt_succ_r. revert name child Hc.
  apply (map_fold_weak_ind
           (fun (acc : nat) (m : gmap string Rollup) =>
              forall name child, m !! name = Some child -> (height child <= acc)%nat)).
  - intros name child H. rewrite lookup_empty in H. discriminate.
  - intros i x m acc Hi IH name child H.
    destruct (decide (i = name)) as [->|Hne].
    + rewrite lookup_insert_eq in H. injection H as ->. lia.
    + rewrite lookup_insert_ne in H by exact Hne. specialize (IH _ _ H). lia.
Qed.

Lemma Rollup_children_ind (P : Rollup -> Prop) :
  (forall v f (c : gmap string Rollup),
      (forall name child, c !! name = Some child -> P child) ->
      P (MkRollup v f c)) ->
  forall r, P r.
Proof.
  intros Hstep r.
  remember (height r) as n eqn:Hn.
  revert r Hn. induction n as [n IH] using lt_wf_ind. intros [v f c] Hn.
  apply Hstep. intros name child Hc.
  apply (IH (height child)); [|reflexivity].
  subst n. eapply height_child; eauto.
Qed.

(** *** Subtract *)

Lemma fold_insert_lookup {A B} (g : string -> B -> option A -> A)
    (m : gmap string B) (init : gmap string A) (k : string) :
  map_fold (fun name b acc => <[name := g name b (acc !! name)]> acc) init m !! k =
  match m !! k with
  | Some b => Some (g k b (init !! k))
  | None => init !! k
  end.
Proof.
  revert k.
  apply (map_fold_weak_ind
           (fun (acc : gmap string A) (m : gmap string B) =>
              forall k, acc !! k = match m !! k with
                                   | Some b => Some (g k b (init !! k))
                                   | None => init !! k
                                   end)).
  - intros k. rewrite lookup_empty. reflexivity.
  - intros i x m' acc Hi IH k.
    destruct (decide (i = k)) as [->|Hne].
    + rewrite !lookup_insert_eq. rewrite (IH k), Hi. reflexivity.
    + rewrite !lookup_insert_ne by exact Hne. apply IH.
Qed.

Lemma Subtract_children other self name :
  children_ (Subtract other self) !! name =
  match children_ other !! name with
  | Some other_child =>
      Some (Subtract other_child (child_or_new (children_ self) name))
  | None => children_ self !! name
  end.
Proof.
  destruct other as [ov ofl oc]. simpl.
  apply (fold_insert_lookup
           (fun _ b o => Subtract b (default new_Rollup o))).
Qed.

Lemma Subtract_vm other self :
  vm_total_ (Subtract other self) = wrap_i64 (vm_total_ self - vm_total_ other).
Proof. destruct other; reflexivity. Qed.

Lemma Subtract_file other self :
  file_total_ (Subtract other self) =
  wrap_i64 (file_total_ self - file_total_ other).
Proof. destruct other; reflexivity. Qed.

Lemma Rollup_eq r1 r2 :
  vm_total_ r1 = vm_total_ r2 -> file_total_ r1 = file_total_ r2 ->
  (forall name, children_ r1 !! name = children_ r2 !! name) ->
  r1 = r2.
Proof.
  destruct r1, r2; simpl. intros -> -> H. f_equal. apply map_eq. exact H.
Qed.

End RollupFacts.

(** *** C4: what AddSizes does with its label vector *)

(** C4 (as stated, refuted).  The claim has [AddSizes] descend into the
    child keyed by [labels[0]].  On the one-label vector ["a"] the source
    adds the size to the node itself and creates no child, whereas the
    walk the claim describes creates the child "a". *)
Lemma AddSizes_first_label_counterexample :
  AddSizes ["a"] 5 true new_Rollup = Ok (MkRollup 5 0 ∅) /\
  add_sizes_spec ["a"] 5 true new_Rollup =
    Ok (MkRollup 5 0 {[ "a" := MkRollup 5 0 ∅ ]}) /\
  AddSizes ["a"] 5 true new_Rollup <> add_sizes_spec ["a"] 5 true new_Rollup.
Proof.
  assert (H1 : AddSizes ["a"] 5 true new_Rollup = Ok (MkRollup 5 0 ∅))
    by reflexivity.
  assert (H2 : add_sizes_spec ["a"] 5 true new_Rollup =
               Ok (MkRollup 5 0 {[ "a" := MkRollup 5 0 ∅ ]})).
  { vm_compute. reflexivity. }
  split; [exact H1 | split; [exact H2 |]].
  rewrite H1, H2. intros Heq.
  apply (f_equal (fun res => match res with
                             | Ok r => children_ r !! "a"
                             | Err _ => None
                             end)) in Heq.
  simpl in Heq. rewrite lookup_empty, lookup_singleton_eq in Heq. discriminate.
Qed.

(** C4 (amended).  [AddSizes] leaves out [labels[0]], the label of the base
    map: it adds [size] to the node's own total, then walks into the child
    keyed by [labels[1]] (created if absent), recurses into the remaining
    labels, and adds [size] with checked signed 64-bit arithmetic into the
    selected total at every level visited. *)
Theorem AddSizes_skips_base_label (label0 : string) (rest : list string)
    (size : Z) (is_vm : bool) (self : Rollup) :
  AddSizes (label0 :: rest) size is_vm self =
  add_sizes_spec rest size is_vm self.
Proof. apply AddSizes_spec. Qed.

(** *** C8: AddSizes calls commute *)

(** C8.  Any two orders of the same calls to [AddSizes], applied to an
    empty [Rollup], give equal trees when neither run throws. *)
Theorem AddSizes_permutation (calls calls' : list add_call) (t t' : Rollup) :
  calls ≡ₚ calls' ->
  run_AddSizes calls new_Rollup = Ok t ->
  run_AddSizes calls' new_Rollup = Ok t' ->
  t = t'.
Proof.
  intros Hperm H H'.
  apply run_AddSizes_exact in H. apply run_AddSizes_exact in H'.
  subst t t'. apply run_exact_perm. exact Hperm.
Qed.

Lemma AddSizes_permutation_witness :
  run_AddSizes calls_xy new_Rollup = Ok tree_xy /\
  run_AddSizes calls_yx new_Rollup = Ok tree_xy.
Proof.
  assert (H1 : exists t, run_AddSizes calls_xy new_Rollup = Ok t).
  { eexists. vm_compute. reflexivity. }
  assert (H2 : run_AddSizes calls_yx new_Rollup = Ok tree_xy).
  { vm_compute. reflexivity. }
  destruct H1 as [t H1]. split; [|exact H2].
  rewrite H1. f_equal.
  apply (AddSizes_permutation calls_xy calls_yx t tree_xy); [|exact H1|exact H2].
  unfold calls_xy, calls_yx.
  apply Permutation_cons_append.
Defined.

(** *** C7: the subtract law *)

(** C7.  When [a] is the node-wise sum of [b] and [c] (same children at
    every node, totals added), [a.Subtract(b)] is [c]: the same children at
    every node and the same totals. *)
Theorem Subtract_law (a b c : Rollup) :
  nodewise_sum a b c -> int64_rollup c -> Subtract b a = c.
Proof.
  revert a c. induction b as [vb fb cb IH] using Rollup_children_ind.
  intros a c Hsum Hc.
  inversion Hsum as [a0 b0 c0 Hvm Hfile Hdomb Hdomc Hch]; subst a0 b0 c0.
  inversion Hc as [c0 Hcv Hcf Hcc]; subst c0.
  set (b := MkRollup vb fb cb) in *.
  apply Rollup_eq.
  - rewrite Subtract_vm, <- (wrap_i64_id (vm_total_ c)) by exact Hcv.
    f_equal. lia.
  - rewrite Subtract_file, <- (wrap_i64_id (file_total_ c)) by exact Hcf.
    f_equal. lia.
  - intros name. rewrite Subtract_children.
    destruct (children_ b !! name) as [b'|] eqn:Hb.
    + assert (Ha : is_Some (children_ a !! name)).
      { apply elem_of_dom. rewrite Hdomb. apply elem_of_dom. eauto. }
      assert (Hc' : is_Some (children_ c !! name)).
      { apply elem_of_dom. rewrite <- Hdomc. apply elem_of_dom. exact Ha. }
      destruct Ha as [a' Ha], Hc' as [c' Hc'].
      rewrite Hc'. f_equal. unfold child_or_new. rewrite Ha. simpl.
      apply (IH name b' Hb); eauto.
    + assert (Ha : children_ a !! name = None).
      { apply not_elem_of_dom. rewrite Hdomb. apply not_elem_of_dom. exact Hb. }
      rewrite Ha. symmetry.
      apply not_elem_of_dom. rewrite <- Hdomc. apply not_elem_of_dom. exact Ha.
Qed.

Lemma nodewise_sum_leaf va fa vb fb vc fc :
  va = vb + vc -> fa = fb + fc ->
  nodewise_sum (MkRollup va fa ∅) (MkRollup vb fb ∅) (MkRollup vc fc ∅).
Proof.
  intros Hv Hf. constructor; cbn [children_ vm_total_ file_total_];
    try assumption; try reflexivity.
  intros name a' b' c' H. rewrite lookup_empty in H. discriminate.
Defined.

Lemma int64_rollup_leaf v f :
  is_i64 v -> is_i64 f -> int64_rollup (MkRollup v f ∅).
Proof.
  intros Hv Hf. constructor; cbn [children_ vm_total_ file_total_];
    try assumption.
  intros name r' H. rewrite lookup_empty in H. discriminate.
Defined.

Lemma Subtract_law_witness : Subtract sum_b sum_a = sum_c.
Proof.
  apply (Subtract_law sum_a sum_b sum_c).
  - constructor; unfold sum_a, sum_b, sum_c;
      cbn [children_ vm_total_ file_total_]; try reflexivity.
    intros name a' b' c' Ha Hb Hc.
    apply lookup_singleton_Some in Ha as [_ <-].
    apply lookup_singleton_Some in Hb as [_ <-].
    apply lookup_singleton_Some in Hc as [_ <-].
    apply nodewise_sum_leaf; reflexivity.
  - constructor; unfold sum_c; cbn [children_ vm_total_ file_total_].
    + unfold is_i64, INT64_MIN, INT64_MAX. lia.
    + unfold is_i64, INT64_MIN, INT64_MAX. lia.
    + intros name r' Hc. apply lookup_singleton_Some in Hc as [_ <-].
      apply int64_rollup_leaf; unfold is_i64, INT64_MIN, INT64_MAX; lia.
Defined.

(** Where [other] has a child that the difference does not, the mirror node
    stays in the tree with zero totals: equality of the children sets in
    the law above rests on its premise that the three trees have the same
    children. *)
Example Subtract_mirror_node :
  Subtract (MkRollup 1 1 {[ "x" := MkRollup 1 1 ∅ ]})
           (MkRollup 1 1 {[ "x" := MkRollup 1 1 ∅ ]}) =
  MkRollup 0 0 {[ "x" := MkRollup 0 0 ∅ ]}.
Proof. vm_compute. reflexivity. Qed.

(** ** RangeMap *)

Section RangeMapFacts.

Implicit Types (m it pre : Map) (n : Z * Entry) (addr lo : Z).

Lemma EntryContains_true n addr :
  EntryContains n addr = true <-> fst n <= addr < end_ (snd n).
Proof. unfold EntryContains. rewrite andb_true_iff, Z.leb_le, Z.ltb_lt. tauto. Qed.

Lemma EntryContains_false n addr :
  EntryContains n addr = false <-> addr < fst n \/ end_ (snd n) <= addr.
Proof.
  unfold EntryContains. rewrite andb_false_iff, Z.leb_gt, Z.ltb_ge. tauto.
Qed.

Lemma wf_from_weaken lo lo' m : lo' <= lo -> wf_from lo m -> wf_from lo' m.
Proof. destruct m as [|n rest]; simpl; [tauto|]. intros ? (?&?&?&?). repeat split; auto; lia. Qed.

Lemma wf_from_app lo pre it :
  wf_from lo (pre ++ it) <-> wf_from lo pre /\ wf_from (last_end lo pre) it.
Proof.
  revert lo. induction pre as [|n pre IH]; intros lo; simpl.
  - tauto.
  - rewrite IH. tauto.
Qed.

Lemma wf_from_last_end lo m : wf_from lo m -> lo <= last_end lo m.
Proof.
  revert lo. induction m as [|n rest IH]; intros lo; simpl; [lia|].
  intros (?&?&?&Hrest). apply IH in Hrest. lia.
Qed.

Lemma wf_from_elem lo m n :
  wf_from lo m -> n ∈ m ->
  lo <= fst n /\ fst n < end_ (snd n) /\ end_ (snd n) <= last_end lo m /\
  end_ (snd n) <= UINT64_MAX.
Proof.
  revert lo. induction m as [|n' rest IH]; intros lo Hwf Hin.
  - inversion Hin.
  - simpl in Hwf. destruct Hwf as (Hlo & Hlt & Hmax & Hrest). simpl.
    apply elem_of_cons in Hin as [->|Hin].
    + apply wf_from_last_end in Hrest. lia.
    + destruct (IH _ Hrest Hin) as (?&?&?&?). lia.
Qed.

Lemma last_end_snoc lo m n : last_end lo (m ++ [n]) = end_ (snd n).
Proof. revert lo. induction m as [|n' rest IH]; intros lo; simpl; auto. Qed.

Lemma last_end_u64 lo m : wf_from lo m -> lo <= UINT64_MAX -> last_end lo m <= UINT64_MAX.
Proof.
  revert lo. induction m as [|n rest IH]; intros lo; simpl; [lia|].
  intros (?&?&?&Hrest) _. apply IH; auto.
Qed.

(** Two entries of a well-formed map that contain the same address are the
    same entry. *)
Lemma wf_from_contains_unique lo m n1 n2 addr :
  wf_from lo m -> n1 ∈ m -> n2 ∈ m ->
  EntryContains n1 addr = true -> EntryContains n2 addr = true -> n1 = n2.
Proof.
  rewrite !EntryContains_true.
  revert lo. induction m as [|n rest IH]; intros lo Hwf H1 H2 Hc1 Hc2.
  - inversion H1.
  - simpl in Hwf. destruct Hwf as (Hlo & Hlt & Hmax & Hrest).
    apply elem_of_cons in H1 as [->|H1]; apply elem_of_cons in H2 as [->|H2].
    + reflexivity.
    + destruct (wf_from_elem _ _ _ Hrest H2) as (?&?&?&?). lia.
    + destruct (wf_from_elem _ _ _ Hrest H1) as (?&?&?&?). lia.
    + eapply IH; eauto.
Qed.

Lemma WF_non_overlapping m : WF m -> non_overlapping m.
Proof.
  unfold WF, non_overlapping. generalize 0.
  induction m as [|n rest IH]; intros lo Hwf i e1 e2 H1 H2.
  - discriminate.
  - simpl in Hwf. destruct Hwf as (Hlo & Hlt & Hmax & Hrest).
    destruct i as [|i]; simpl in H1, H2.
    + injection H1 as <-. destruct rest as [|n' rest']; [discriminate|].
      simpl in H2. injection H2 as <-. simpl in Hrest. tauto.
    + eapply IH; eauto.
Qed.

(** *** Iterators *)

Lemma nodes_before_app pre it : nodes_before (pre ++ it) it = pre.
Proof.
  unfold nodes_before. rewrite length_app.
  replace (length pre + length it - length it)%nat with (length pre) by lia.
  apply take_app_length.
Qed.

Lemma upper_bound_spec m addr :
  exists pre, m = pre ++ upper_bound m addr /\
    Forall (fun n => fst n <= addr) pre /\
    match upper_bound m addr with
    | [] => True
    | n :: _ => addr < fst n
    end.
Proof.
  induction m as [|n rest IH]; simpl.
  - exists []. repeat split; auto.
  - destruct (addr <? fst n) eqn:Hlt.
    + exists []. apply Z.ltb_lt in Hlt. repeat split; auto.
    + destruct IH as (pre & Heq & Hpre & Hhd).
      exists (n :: pre). apply Z.ltb_ge in Hlt. repeat split; auto.
      simpl. congruence.
Qed.

Lemma wf_from_Forall_end lo pre n it :
  wf_from lo (pre ++ n :: it) ->
  Forall (fun x => end_ (snd x) <= fst n) pre.
Proof.
  intros Hwf. apply wf_from_app in Hwf as [Hpre Hit].
  simpl in Hit. destruct Hit as (Hle & _).
  apply Forall_forall. intros x Hx.
  destruct (wf_from_elem _ _ _ Hpre Hx) as (?&?&?&?). lia.
Qed.

Lemma FindContainingOrAfter_spec m addr :
  WF m ->
  exists pre, m = pre ++ FindContainingOrAfter m addr /\
    Forall (fun n => end_ (snd n) <= addr) pre /\
    match FindContainingOrAfter m addr with
    | [] => True
    | n :: _ => addr < end_ (snd n)
    end.
Proof.
  intros Hwf. unfold FindContainingOrAfter.
  destruct (upper_bound_spec m addr) as (pre & Heq & Hpre & Hhd).
  remember (upper_bound m addr) as after eqn:Hafter. clear Hafter.
  assert (Hnb : nodes_before m after = pre).
  { rewrite Heq. apply nodes_before_app. }
  rewrite Hnb. clear Hnb.
  destruct (last pre) as [prev|] eqn:Hlast.
  - apply last_Some in Hlast as [pre' ->].
    apply Forall_app in Hpre as [Hpre' Hprev].
    rewrite Forall_singleton in Hprev.
    rewrite <- app_assoc in Heq. simpl in Heq.
    assert (Hends : Forall (fun x => end_ (snd x) <= fst prev) pre').
    { unfold WF in Hwf. rewrite Heq in Hwf. eapply wf_from_Forall_end; eauto. }
    destruct (EntryContains prev addr) eqn:Hc.
    + exists pre'. apply EntryContains_true in Hc. split; [exact Heq|].
      split; [|simpl; lia].
      eapply Forall_impl; [exact Hends|]. simpl. intros; lia.
    + exists (pre' ++ [prev]). rewrite <- app_assoc. simpl. split; [exact Heq|].
      apply EntryContains_false in Hc.
      assert (Hprev_end : end_ (snd prev) <= addr) by lia.
      split.
      * apply Forall_app. split.
        -- unfold WF in Hwf. rewrite Heq in Hwf.
           apply wf_from_app in Hwf as [_ Hwf]. simpl in Hwf.
           eapply Forall_impl; [exact Hends|]. simpl. intros; lia.
        -- apply Forall_singleton. exact Hprev_end.
      * destruct after as [|n ?]; [exact I|].
        unfold WF in Hwf. rewrite Heq in Hwf.
        apply wf_from_app in Hwf as [_ Hwf]. simpl in Hwf. lia.
  - apply last_None in Hlast. subst pre. exists []. simpl in *.
    split; [exact Heq|]. split; [constructor|].
    destruct after as [|n ?]; [exact I|].
    unfold WF in Hwf. rewrite Heq in Hwf. simpl in Hwf. lia.
Qed.

End RangeMapFacts.

Section AddDualRangeFacts.

Implicit Types (m it pre : Map) (n : Z * Entry) (addr lo : Z).

Lemma skip_containing_spec it : forall lo addr it' addr',
  wf_from lo it -> head_ends_after addr it ->
  skip_containing it addr = (it', addr') ->
  exists skipped,
    it = skipped ++ it' /\
    Forall (fun n => end_ (snd n) <= addr') skipped /\
    addr <= addr' /\
    head_after addr' it' /\
    (forall a, addr <= a < addr' ->
               exists n, n ∈ skipped /\ EntryContains n a = true) /\
    (skipped = [] -> addr' = addr) /\
    (skipped <> [] -> exists n', n' ∈ skipped /\ end_ (snd n') = addr') /\
    (EntryContains (default (0, MkEntry "" 0 0) (head it)) addr = true ->
     it <> [] -> skipped <> []).
Proof.
  induction it as [|n rest IH]; intros lo addr it' addr' Hwf Hhd Hskip; simpl in Hskip.
  - injection Hskip as <- <-. exists [].
    split_and!; auto; try lia; try constructor; congruence.
  - simpl in Hwf. destruct Hwf as (Hlo & Hlt & Hmax & Hrest).
    destruct (EntryContains n addr) eqn:Hc.
    + assert (Hhd' : head_ends_after (end_ (snd n)) rest).
      { destruct rest as [|n' ?]; simpl; [exact I|]. simpl in Hrest. lia. }
      destruct (IH _ _ _ _ Hrest Hhd' Hskip)
        as (skipped & Heq & Hends & Hle & Hafter & Hcov & Hnil & Hmax' & _).
      apply EntryContains_true in Hc.
      exists (n :: skipped). split_and!.
      * simpl. congruence.
      * constructor; auto.
      * lia.
      * exact Hafter.
      * intros a Ha. destruct (Z_lt_dec a (end_ (snd n))) as [Hlt'|Hge].
        -- exists n. split; [left|]. apply EntryContains_true. lia.
        -- destruct (Hcov a) as (n' & Hin & Hc'); [lia|].
           exists n'. split; [right; exact Hin | exact Hc'].
      * discriminate.
      * intros _. destruct skipped as [|s ?].
        -- rewrite Hnil by reflexivity. exists n. split; [left|reflexivity].
        -- destruct Hmax' as (n' & Hn' & Hend); [discriminate|].
           exists n'. split; [right; exact Hn'|exact Hend].
      * discriminate.
    + injection Hskip as <- <-. exists []. simpl in Hhd.
      apply EntryContains_false in Hc.
      split_and!; auto; try lia; try constructor; try congruence.
      * simpl. lia.
      * simpl. rewrite EntryContains_true. lia.
Qed.

Lemma map_insert_middle pre it key e :
  Forall (fun n => fst n < key) pre -> head_after key it ->
  map_insert (pre ++ it) key e = pre ++ (key, e) :: it.
Proof.
  intros Hpre Hit. induction Hpre as [|n pre Hn Hpre IH]; simpl.
  - destruct it as [|n rest]; simpl in *; [reflexivity|].
    destruct (key <? fst n) eqn:Hlt; [reflexivity|].
    apply Z.ltb_ge in Hlt. lia.
  - destruct (key <? fst n) eqn:Hlt; [apply Z.ltb_lt in Hlt; lia|].
    destruct (key =? fst n) eqn:Heq; [apply Z.eqb_eq in Heq; lia|].
    now rewrite IH.
Qed.

Lemma lower_bound_middle pre n rest :
  Forall (fun x => fst x < fst n) pre ->
  lower_bound (pre ++ n :: rest) (fst n) = n :: rest.
Proof.
  induction 1 as [|x pre Hx Hpre IH]; simpl.
  - now rewrite Z.ltb_irrefl.
  - destruct (fst x <? fst n) eqn:Hlt; [exact IH|].
    apply Z.ltb_ge in Hlt. lia.
Qed.

End AddDualRangeFacts.

Section AddDualRangeLoop.

Implicit Types (m it pre : Map) (n : Z * Entry) (addr lo : Z).

Lemma last_end_le lo pre k :
  Forall (fun n => end_ (snd n) <= k) pre -> lo <= k -> last_end lo pre <= k.
Proof.
  intros H. revert lo. induction H as [|n pre Hn Hpre IH]; intros lo Hlo; simpl.
  - exact Hlo.
  - apply IH. exact Hn.
Qed.

Lemma wf_from_head lo lo' it :
  wf_from lo it ->
  match it with [] => True | n :: _ => lo' <= fst n end ->
  wf_from lo' it.
Proof. destruct it as [|n rest]; simpl; [tauto|]. intros (?&?&?&?) ?. tauto. Qed.

Lemma wf_insert_middle lo pre it key e :
  wf_from lo (pre ++ it) ->
  Forall (fun n => end_ (snd n) <= key) pre -> lo <= key ->
  key < end_ e -> end_ e <= UINT64_MAX ->
  match it with [] => True | n :: _ => end_ e <= fst n end ->
  wf_from lo (pre ++ (key, e) :: it).
Proof.
  intros Hwf Hpre Hlo Hlt Hmax Hit.
  apply wf_from_app in Hwf as [Hwf1 Hwf2].
  apply wf_from_app. split; [exact Hwf1|]. simpl.
  split_and!; auto.
  - apply last_end_le; auto.
  - eapply wf_from_head; eauto.
Qed.

Lemma Forall_key_lt pre lo k :
  wf_from lo pre -> Forall (fun n => end_ (snd n) <= k) pre ->
  Forall (fun n => fst n < k) pre.
Proof.
  intros Hwf H. apply Forall_forall. intros n Hn.
  rewrite Forall_forall in H. specialize (H n Hn).
  destruct (wf_from_elem _ _ _ Hwf Hn) as (?&?&?&?). lia.
Qed.

Lemma AddDualRange_loop_spec end' base otheraddr val :
  is_u64 end' ->
  forall fuel pre it addr,
  WF (pre ++ it) ->
  Forall (fun n => end_ (snd n) <= addr) pre ->
  head_ends_after addr it -> 0 <= addr ->
  forall start, start <= addr ->
  (addr = start \/ (end' <=? addr) || head_contains addr it = true) ->
  (length it + (if (end' <=? addr)%Z || head_contains addr it then 1 else 2)
   <= fuel)%nat ->
  exists m',
    AddDualRange_loop fuel (pre ++ it) it addr end' base otheraddr val = Ok m' /\
    WF m' /\
    (forall n, n ∈ pre ++ it -> n ∈ m') /\
    (forall n, n ∈ m' ->
       n ∈ pre ++ it \/ new_entry start end' base otheraddr val it n) /\
    (forall a, addr <= a < end' -> covered m' a).
Proof.
  intros Hend. induction fuel as [|fuel IH];
    intros pre it addr Hwf Hpre Hhd Haddr start Hstart Hfirst Hfuel.
  { destruct (_ || _); lia. }
  simpl. destruct (skip_containing it addr) as [it1 addr1] eqn:Hskip.
  assert (Hwf_it : wf_from (last_end 0 pre) it).
  { unfold WF in Hwf. apply wf_from_app in Hwf. tauto. }
  destruct (skip_containing_spec _ _ _ _ _ Hwf_it Hhd Hskip)
    as (skipped & Hit & Hskipped & Hle & Hafter & Hcov & Hnil & Hlast & Hcontains).
  destruct (end' <=? addr1) eqn:Hdone.
  - apply Z.leb_le in Hdone. exists (pre ++ it). split_and!; auto.
    intros a Ha. destruct (Hcov a) as (n & Hin & Hc); [lia|].
    exists n. split; [|exact Hc]. rewrite Hit.
    apply elem_of_app. right. apply elem_of_app. left. exact Hin.
  - apply Z.leb_gt in Hdone.
    set (this_end := match it1 with
                     | n :: _ => if fst n <? end' then Z.min end' (fst n) else end'
                     | [] => end'
                     end).
    set (other := if otheraddr =? UINT64_MAX then UINT64_MAX
                  else wrap_u64 (addr1 - base + otheraddr)).
    set (e := MkEntry val this_end other).
    assert (Hthis : addr1 < this_end /\ this_end <= end' /\
                    match it1 with [] => True | n :: _ => this_end <= fst n end /\
                    (this_end = end' \/ exists n', n' ∈ it1 /\ fst n' = this_end)).
    { subst this_end. destruct it1 as [|n1 rest1]; simpl in Hafter.
      - split_and!; auto; lia.
      - destruct (fst n1 <? end') eqn:Hn1.
        + apply Z.ltb_lt in Hn1. split_and!; try lia.
          right. exists n1. split; [left|lia].
        + apply Z.ltb_ge in Hn1. split_and!; auto; lia. }
    destruct Hthis as (Hthis1 & Hthis2 & Hthis3 & Hthis4).
    assert (Hpre1 : Forall (fun n => end_ (snd n) <= addr1) (pre ++ skipped)).
    { apply Forall_app. split; [|exact Hskipped].
      eapply Forall_impl; [exact Hpre|]. simpl. intros; lia. }
    assert (Hm : pre ++ it = (pre ++ skipped) ++ it1).
    { rewrite Hit. apply app_assoc. }
    assert (Hwf1 : wf_from 0 ((pre ++ skipped) ++ it1)).
    { rewrite <- Hm. exact Hwf. }
    assert (Hkeys : Forall (fun n => fst n < addr1) (pre ++ skipped)).
    { apply wf_from_app in Hwf1 as [Hwf1 _]. eapply Forall_key_lt; eauto. }
    assert (Hins : map_insert (pre ++ it) addr1 e =
                   (pre ++ skipped ++ [(addr1, e)]) ++ it1).
    { rewrite Hm, map_insert_middle by assumption.
      rewrite <- !app_assoc. reflexivity. }
    rewrite Hins.
    assert (Hiter : iter_in ((pre ++ skipped ++ [(addr1, e)]) ++ it1) it1 = it1).
    { destruct it1 as [|n1 rest1]; [reflexivity|]. simpl in Hafter |- *.
      apply lower_bound_middle.
      rewrite app_assoc. apply Forall_app. split.
      - eapply Forall_impl; [exact Hkeys|]. simpl. intros; lia.
      - apply Forall_singleton. simpl. lia. }
    rewrite Hiter.
    assert (Hwf2 : WF ((pre ++ skipped ++ [(addr1, e)]) ++ it1)).
    { unfold WF. rewrite app_assoc, <- (app_assoc _ [(addr1, e)] it1). simpl.
      apply wf_insert_middle; auto; try lia.
      simpl. unfold is_u64 in Hend. lia. }
    assert (Hwf_it1 : head_ends_after this_end it1).
    { destruct it1 as [|n1 rest1]; [exact I|]. simpl.
      apply wf_from_app in Hwf1 as [_ Hwf1]. simpl in Hwf1. lia. }
    assert (Hone : (end' <=? this_end) || head_contains this_end it1 = true).
    { destruct Hthis4 as [->|(n' & Hn' & Hfst)].
      - rewrite Z.leb_refl. reflexivity.
      - apply orb_true_iff. right.
        destruct it1 as [|n1 rest1]; [inversion Hn'|].
        simpl in Hthis3, Hwf_it1, Hafter |- *. apply EntryContains_true.
        assert (fst n1 <= this_end); [|lia].
        apply elem_of_cons in Hn' as [->|Hn']; [lia|].
        apply wf_from_app in Hwf1 as [_ Hwf1]. simpl in Hwf1.
        destruct Hwf1 as (_ & ? & _ & Hrest).
        destruct (wf_from_elem _ _ _ Hrest Hn') as (?&?&?&?). lia. }
    assert (Hnc : skipped = [] -> head_contains addr it = false).
    { intros ->. destruct it as [|n0 rest0]; [reflexivity|]. simpl.
      destruct (EntryContains n0 addr) eqn:Hc; [|reflexivity].
      exfalso. apply Hcontains; auto; discriminate. }
    assert (Hstart1 : addr1 = start \/
                      exists n', n' ∈ it /\ end_ (snd n') = addr1).
    { destruct skipped as [|s skipped'].
      - left. rewrite (Hnil eq_refl) in *.
        destruct Hfirst as [?|Hfirst]; [assumption|].
        rewrite (Hnc eq_refl), orb_false_r in Hfirst.
        apply Z.leb_le in Hfirst. lia.
      - right. destruct Hlast as (n' & Hn' & Hend'); [discriminate|].
        exists n'. split; [|exact Hend'].
        rewrite Hit. apply elem_of_app. left. exact Hn'. }
    assert (Hpre2 : Forall (fun n => end_ (snd n) <= this_end)
                           (pre ++ skipped ++ [(addr1, e)])).
    { rewrite app_assoc. apply Forall_app. split.
      - eapply Forall_impl; [exact Hpre1|]. simpl. intros; lia.
      - apply Forall_singleton. simpl. lia. }
    assert (Hfuel2 : (length it1 +
                      (if (end' <=? this_end)%Z || head_contains this_end it1
                       then 1 else 2) <= fuel)%nat).
    { rewrite Hone.
      destruct skipped as [|s skipped'].
      - simpl in Hit. subst it1. rewrite (Hnil eq_refl) in Hdone.
        rewrite (Hnc eq_refl), orb_false_r in Hfuel.
        apply Z.leb_gt in Hdone. rewrite Hdone in Hfuel. lia.
      - rewrite Hit in Hfuel. rewrite length_app in Hfuel. simpl in Hfuel.
        destruct (_ || _) in Hfuel; lia. }
    destruct (IH (pre ++ skipped ++ [(addr1, e)]) it1 this_end Hwf2 Hpre2
                Hwf_it1 ltac:(lia) start ltac:(lia) (or_intror Hone) Hfuel2)
      as (m' & Hrun & Hwf' & Hsub & Hnew & Hcov').
    exists m'. split; [exact Hrun|]. split; [exact Hwf'|]. split_and!.
    + intros n Hn. apply Hsub. rewrite Hm in Hn.
      apply elem_of_app in Hn as [Hn|Hn]; apply elem_of_app; [left|right; exact Hn].
      rewrite app_assoc. apply elem_of_app. left. exact Hn.
    + intros n Hn. destruct (Hnew n Hn) as [Hold|Hnew'].
      * apply elem_of_app in Hold as [Hold|Hold].
        -- rewrite app_assoc in Hold. apply elem_of_app in Hold as [Hold|Hold].
           ++ left. rewrite Hm. apply elem_of_app. left. exact Hold.
           ++ apply list_elem_of_singleton in Hold. subst n. right.
              unfold new_entry. simpl. split_and!; auto; try lia.
              destruct Hthis4 as [?|(n' & Hn' & Hfst)]; [left; assumption|].
              right. exists n'. split; [|exact Hfst].
              rewrite Hit. apply elem_of_app. right. exact Hn'.
        -- left. rewrite Hm. apply elem_of_app. right. exact Hold.
      * right. destruct Hnew' as (Hl & H1 & H2 & H3 & H0 & H4 & H5).
        unfold new_entry. split_and!; auto; try lia.
        -- destruct H0 as [?|(n' & Hn' & Hfst)]; [left; assumption|].
           right. exists n'. split; [|exact Hfst].
           rewrite Hit. apply elem_of_app. right. exact Hn'.
        -- destruct H4 as [?|(n' & Hn' & Hfst)]; [left; assumption|].
           right. exists n'. split; [|exact Hfst].
           rewrite Hit. apply elem_of_app. right. exact Hn'.
    + intros a Ha.
      destruct (Z_lt_dec a addr1) as [Hlt|Hge].
      * destruct (Hcov a) as (n & Hin & Hc); [lia|].
        exists n. split; [|exact Hc]. apply Hsub.
        apply elem_of_app. left. apply elem_of_app. right.
        apply elem_of_app. left. exact Hin.
      * destruct (Z_lt_dec a this_end) as [Hlt'|Hge'].
        -- exists (addr1, e). split.
           ++ apply Hsub. apply elem_of_app. left. apply elem_of_app. right.
              apply elem_of_app. right. apply list_elem_of_singleton. reflexivity.
           ++ apply EntryContains_true. simpl. lia.
        -- apply Hcov'. lia.
Qed.

End AddDualRangeLoop.

Section RangeMapOperations.

Implicit Types (m it pre : Map) (n : Z * Entry) (addr lo : Z).

Lemma wrap_u64_is_u64 z : is_u64 (wrap_u64 z).
Proof.
  unfold is_u64, wrap_u64, UINT64_MAX.
  pose proof (Z.mod_pos_bound z (2 ^ 64)). lia.
Qed.

Lemma AddDualRange_spec addr size otheraddr val m :
  WF m -> is_u64 addr ->
  exists m',
    AddDualRange addr size otheraddr val m = Ok m' /\
    WF m' /\
    (forall n, n ∈ m -> n ∈ m') /\
    (forall n, n ∈ m' ->
       n ∈ m \/
       new_entry addr (wrap_u64 (addr + size)) addr otheraddr val m n) /\
    (forall a, addr <= a < wrap_u64 (addr + size) -> covered m' a) /\
    (size = 0 -> m' = m).
Proof.
  intros Hwf Haddr. unfold AddDualRange.
  destruct (size =? 0) eqn:Hsize.
  - apply Z.eqb_eq in Hsize. subst size. exists m. split_and!; auto.
    intros a Ha. rewrite Z.add_0_r, wrap_u64_id in Ha by exact Haddr. lia.
  - apply Z.eqb_neq in Hsize.
    destruct (FindContainingOrAfter_spec m addr Hwf) as (pre & Hm & Hpre & Hhd).
    set (it := FindContainingOrAfter m addr) in *.
    destruct (AddDualRange_loop_spec (wrap_u64 (addr + size)) addr otheraddr val
                (wrap_u64_is_u64 _) (length m + 2) pre it addr)
      with (start := addr)
      as (m' & Hrun & Hwf' & Hsub & Hnew & Hcov).
    + rewrite <- Hm. exact Hwf.
    + exact Hpre.
    + exact Hhd.
    + unfold is_u64 in Haddr. lia.
    + lia.
    + left. reflexivity.
    + assert (Hlen : length m = (length pre + length it)%nat).
      { rewrite Hm at 1. apply length_app. }
      rewrite Hlen. destruct (_ || _); lia.
    + rewrite <- Hm in Hrun, Hsub, Hnew. exists m'. split_and!; auto.
      * intros n Hn. destruct (Hnew n Hn) as [?|Hn']; [left; assumption|].
        right. destruct Hn' as (H1 & H2 & H3 & H4 & H0 & H5 & H6).
        unfold new_entry. split_and!; auto.
        -- destruct H0 as [?|(n' & Hn' & ?)]; [left; assumption|].
           right. exists n'. split; [|assumption].
           rewrite Hm. apply elem_of_app. right. exact Hn'.
        -- destruct H5 as [?|(n' & Hn' & ?)]; [left; assumption|].
           right. exists n'. split; [|assumption].
           rewrite Hm. apply elem_of_app. right. exact Hn'.
      * intros ->. congruence.
Qed.

Lemma AddRange_preserves_WF addr size val m :
  WF m -> is_u64 addr ->
  exists m', AddRange addr size val m = Ok m' /\ WF m'.
Proof.
  intros Hwf Haddr.
  destruct (AddDualRange_spec addr size UINT64_MAX val m Hwf Haddr)
    as (m' & Hrun & Hwf' & _).
  exists m'. split; assumption.
Qed.

Lemma translate_loop_preserves_WF it addr end' val : forall other,
  WF other ->
  exists other', translate_loop it addr end' val other = Ok other' /\ WF other'.
Proof.
  induction it as [|n rest IH]; intros other Hwf; simpl.
  - exists other. split; auto.
  - destruct (fst n <? end'); [|exists other; split; auto].
    destruct (TranslateAndTrimRangeWithEntry n addr end') as [[this_addr this_size]|] eqn:Htr.
    + assert (Hu : is_u64 this_addr).
      { unfold TranslateAndTrimRangeWithEntry in Htr.
        destruct (_ || _); [discriminate|]. injection Htr as <- _.
        apply wrap_u64_is_u64. }
      destruct (AddRange_preserves_WF this_addr this_size val other Hwf Hu)
        as (other1 & Hrun & Hwf1).
      rewrite Hrun. simpl. apply IH. exact Hwf1.
    + simpl. apply IH. exact Hwf.
Qed.

Lemma AddRangeWithTranslation_preserves_WF addr size val translator m other :
  WF m -> WF other -> is_u64 addr ->
  exists m' other',
    AddRangeWithTranslation addr size val translator m other = Ok (m', other') /\
    WF m' /\ WF other'.
Proof.
  intros Hwf Hother Haddr. unfold AddRangeWithTranslation.
  destruct (AddRange_preserves_WF addr size val m Hwf Haddr) as (m' & Hrun & Hwf').
  rewrite Hrun. simpl.
  destruct (translate_loop_preserves_WF
              (FindContainingOrAfter translator addr) addr
              (wrap_u64 (addr + size)) val other Hother) as (other' & Hrun' & Hwfo).
  rewrite Hrun'. simpl. exists m', other'. split_and!; auto.
Qed.

Lemma built_WF m : built m -> WF m.
Proof.
  induction 1 as
    [ | addr size val m m' Hb IH Ha Hs Hrun
      | addr size otheraddr val m m' Hb IH Ha Hs Ho Hrun
      | addr size val translator m other m' other' Hb IH Hbo IHo Hbt IHt Ha Hs Hrun
      | addr size val translator m other m' other' Hb IH Hbo IHo Hbt IHt Ha Hs Hrun ].
  - exact I.
  - destruct (AddRange_preserves_WF addr size val m IH Ha) as (m1 & Hrun1 & Hwf).
    congruence.
  - destruct (AddDualRange_spec addr size otheraddr val m IH Ha)
      as (m1 & Hrun1 & Hwf & _). congruence.
  - destruct (AddRangeWithTranslation_preserves_WF addr size val translator m other
                IH IHo Ha) as (m1 & o1 & Hrun1 & Hwf & _). congruence.
  - destruct (AddRangeWithTranslation_preserves_WF addr size val translator m other
                IH IHo Ha) as (m1 & o1 & Hrun1 & _ & Hwf). congruence.
Qed.

(** *** FindContaining *)

Lemma FindContaining_spec m addr n :
  WF m ->
  FindContaining m addr = Some n <-> n ∈ m /\ EntryContains n addr = true.
Proof.
  intros Hwf. unfold FindContaining.
  destruct (upper_bound_spec m addr) as (pre & Heq & Hpre & Hhd).
  remember (upper_bound m addr) as after eqn:Hafter. clear Hafter.
  assert (Hnb : nodes_before m after = pre).
  { rewrite Heq. apply nodes_before_app. }
  rewrite Hnb. clear Hnb.
  assert (Hafter : forall x, x ∈ after -> addr < fst x).
  { unfold WF in Hwf. rewrite Heq in Hwf. apply wf_from_app in Hwf as [_ Hwf].
    destruct after as [|h rest]; [intros x Hx; inversion Hx|].
    simpl in Hwf, Hhd. destruct Hwf as (_ & ? & _ & Hrest).
    intros x Hx. apply elem_of_cons in Hx as [->|Hx]; [exact Hhd|].
    destruct (wf_from_elem _ _ _ Hrest Hx) as (?&?&?&?). lia. }
  destruct (last pre) as [prev|] eqn:Hlast.
  - apply last_Some in Hlast as [pre' ->].
    rewrite <- app_assoc in Heq. simpl in Heq.
    assert (Hends : Forall (fun x => end_ (snd x) <= fst prev) pre').
    { unfold WF in Hwf. rewrite Heq in Hwf. eapply wf_from_Forall_end; eauto. }
    apply Forall_app in Hpre as [_ Hprev]. rewrite Forall_singleton in Hprev.
    split.
    + destruct (EntryContains prev addr) eqn:Hc; [|discriminate].
      intros [= <-]. split; [|exact Hc].
      rewrite Heq. apply elem_of_app. right. left.
    + intros [Hin Hc].
      assert (n = prev) as ->.
      { rewrite Heq in Hin. apply EntryContains_true in Hc.
        apply elem_of_app in Hin as [Hin|Hin].
        - rewrite Forall_forall in Hends. specialize (Hends _ Hin). lia.
        - apply elem_of_cons in Hin as [->|Hin]; [reflexivity|].
          specialize (Hafter _ Hin). lia. }
      rewrite Hc. reflexivity.
  - apply last_None in Hlast. subst pre. simpl in Heq. split; [discriminate|].
    intros [Hin Hc]. apply EntryContains_true in Hc.
    rewrite Heq in Hin. specialize (Hafter _ Hin). lia.
Qed.

Lemma FindContaining_None m addr :
  WF m -> FindContaining m addr = None <-> ~ covered m addr.
Proof.
  intros Hwf. split.
  - intros Hnone (n & Hin & Hc).
    assert (FindContaining m addr = Some n) by (apply FindContaining_spec; auto).
    congruence.
  - intros Hnc. destruct (FindContaining m addr) as [n|] eqn:Hf; [|reflexivity].
    apply FindContaining_spec in Hf; [|exact Hwf].
    exfalso. apply Hnc. exists n. exact Hf.
Qed.

End RangeMapOperations.

(** *** C1: entries of a RangeMap never overlap *)

(** C1.  In every map built by calls of [AddRange], [AddDualRange] and
    [AddRangeWithTranslation], each entry ends no later than the next one
    in key order starts; each of the three operations returns, and the maps
    it returns have the property again. *)
Theorem RangeMap_never_overlaps (m : Map) :
  built m ->
  non_overlapping m /\
  (forall addr size val, is_u64 addr -> is_u64 size ->
     exists m', AddRange addr size val m = Ok m' /\ non_overlapping m') /\
  (forall addr size otheraddr val,
     is_u64 addr -> is_u64 size -> is_u64 otheraddr ->
     exists m', AddDualRange addr size otheraddr val m = Ok m' /\
                non_overlapping m') /\
  (forall addr size val translator other,
     built other -> built translator -> is_u64 addr -> is_u64 size ->
     exists m' other',
       AddRangeWithTranslation addr size val translator m other =
         Ok (m', other') /\
       non_overlapping m' /\ non_overlapping other').
Proof.
  intros Hb. pose proof (built_WF m Hb) as Hwf. split_and!.
  - apply WF_non_overlapping. exact Hwf.
  - intros addr size val Ha Hs.
    destruct (AddRange_preserves_WF addr size val m Hwf Ha) as (m' & Hrun & Hwf').
    exists m'. split; [exact Hrun|]. apply WF_non_overlapping. exact Hwf'.
  - intros addr size otheraddr val Ha Hs Ho.
    destruct (AddDualRange_spec addr size otheraddr val m Hwf Ha)
      as (m' & Hrun & Hwf' & _).
    exists m'. split; [exact Hrun|]. apply WF_non_overlapping. exact Hwf'.
  - intros addr size val translator other Hbo Hbt Ha Hs.
    destruct (AddRangeWithTranslation_preserves_WF addr size val translator m
                other Hwf (built_WF _ Hbo) Ha) as (m' & other' & Hrun & Hwf' & Hwfo).
    exists m', other'. split; [exact Hrun|].
    split; apply WF_non_overlapping; assumption.
Qed.

Lemma built_map_AB : built map_AB.
Proof.
  apply (built_AddRange 50 100 "B" [ (0, MkEntry "A" 100 UINT64_MAX) ]).
  - apply (built_AddRange 0 100 "A" []).
    + apply built_empty.
    + unfold is_u64, UINT64_MAX. lia.
    + unfold is_u64, UINT64_MAX. lia.
    + reflexivity.
  - unfold is_u64, UINT64_MAX. lia.
  - unfold is_u64, UINT64_MAX. lia.
  - reflexivity.
Defined.

Lemma RangeMap_never_overlaps_witness : non_overlapping map_AB.
Proof. exact (proj1 (RangeMap_never_overlaps map_AB built_map_AB)). Defined.

(** *** C2: insertion is first-writer-wins *)

(** The inner loop of [AddDualRange] only moves [addr] forward. *)
Lemma skip_containing_ge : forall it addr,
  addr <= snd (skip_containing it addr).
Proof.
  induction it as [|n rest IH]; intros addr; simpl; [lia|].
  destruct (EntryContains n addr) eqn:Hc; simpl; [|lia].
  apply EntryContains_true in Hc. specialize (IH (end_ (snd n))). lia.
Qed.

(** A range that reaches past the last 64-bit address: [addr + size] wraps
    below [addr], the loop returns at [addr >= end] before it inserts
    anything, and the map stays as it is. *)
Lemma AddDualRange_wraps addr size otheraddr val m :
  is_u64 addr -> is_u64 size -> UINT64_MAX < addr + size ->
  AddDualRange addr size otheraddr val m = Ok m.
Proof.
  intros Haddr Hsize Hwrap. unfold AddDualRange.
  destruct (size =? 0); [reflexivity|].
  replace (length m + 2)%nat with (S (length m + 1)) by lia.
  cbn [AddDualRange_loop].
  pose proof (skip_containing_ge (FindContainingOrAfter m addr) addr) as Hge.
  destruct (skip_containing (FindContainingOrAfter m addr) addr)
    as [it' addr'].
  simpl in Hge.
  assert (Hend : wrap_u64 (addr + size) = addr + size - 2 ^ 64).
  { unfold wrap_u64. symmetry. apply (Z.mod_unique _ _ 1);
      unfold is_u64, UINT64_MAX in *; lia. }
  rewrite Hend.
  destruct (addr + size - 2 ^ 64 <=? addr') eqn:Hle; [reflexivity|].
  apply Z.leb_gt in Hle. unfold is_u64, UINT64_MAX in *. lia.
Qed.

(** C2 (as stated, refuted).  The claim is made for every call.  The source
    computes [end = addr + size] in [uint64_t] and returns at
    [addr >= end]: for the range of the last ten 64-bit addresses,
    [2^64 - 10, 2^64), the end wraps to 0 and the call inserts nothing, so
    the addresses of the range, which no entry covered, stay uncovered. *)
Lemma AddRange_first_writer_wins_counterexample :
  AddRange (UINT64_MAX - 9) 10 "B" [ (0, MkEntry "A" 100 UINT64_MAX) ] =
  Ok [ (0, MkEntry "A" 100 UINT64_MAX) ] /\
  exists m' a,
    AddRange (UINT64_MAX - 9) 10 "B" [ (0, MkEntry "A" 100 UINT64_MAX) ] =
      Ok m' /\
    is_u64 a /\ UINT64_MAX - 9 <= a < UINT64_MAX - 9 + 10 /\
    FindContaining [ (0, MkEntry "A" 100 UINT64_MAX) ] a = None /\
    FindContaining m' a = None.
Proof.
  split; [reflexivity|].
  exists [ (0, MkEntry "A" 100 UINT64_MAX) ], UINT64_MAX.
  split; [reflexivity|].
  split; [unfold is_u64, UINT64_MAX; lia|].
  split; [lia|]. split; reflexivity.
Qed.

(** C2 (amended).  [AddRange(addr, size, val)] on a map that satisfies the
    invariant, for a range of 64-bit addresses
    ([addr + size <= UINT64_MAX]): it returns; with [size = 0] the map is
    unchanged; every existing entry stays, so an address that was covered
    keeps its entry; every address of the range that was not covered is
    afterwards in an entry labelled [val]; addresses outside the range stay
    uncovered; and each entry that was added is labelled [val], lies inside
    the range on addresses that were not covered, starts at the start of the
    range or where an existing entry ends, and ends at the end of the range
    or where an existing entry starts.  The scenario
    add(0, 100, "A"), add(50, 100, "B") gives the two entries [0,100) -> A
    and [100,150) -> B.  A call whose range reaches past the last 64-bit
    address ([addr + size > UINT64_MAX]) returns the map as it is. *)
Theorem AddRange_first_writer_wins :
  (forall (m : Map) (addr size : Z) (val : string),
     WF m -> is_u64 addr -> 0 <= size -> addr + size <= UINT64_MAX ->
     exists m',
       AddRange addr size val m = Ok m' /\
       (size = 0 -> m' = m) /\
       (forall n, n ∈ m -> n ∈ m') /\
       (forall a n, FindContaining m a = Some n ->
                    FindContaining m' a = Some n) /\
       (forall a, addr <= a < addr + size -> FindContaining m a = None ->
          exists n, FindContaining m' a = Some n /\ label (snd n) = val /\
                    n ∉ m) /\
       (forall a, ~ (addr <= a < addr + size) -> FindContaining m a = None ->
          FindContaining m' a = None) /\
       (forall n, n ∈ m' -> n ∉ m ->
          label (snd n) = val /\ other_start (snd n) = UINT64_MAX /\
          addr <= fst n /\ fst n < end_ (snd n) /\ end_ (snd n) <= addr + size /\
          (fst n = addr \/ exists n', n' ∈ m /\ end_ (snd n') = fst n) /\
          (end_ (snd n) = addr + size \/
           exists n', n' ∈ m /\ fst n' = end_ (snd n)) /\
          (forall a, fst n <= a < end_ (snd n) -> FindContaining m a = None))) /\
  (let! m1 := AddRange 0 100 "A" [] in AddRange 50 100 "B" m1) =
    Ok [ (0, MkEntry "A" 100 UINT64_MAX); (100, MkEntry "B" 150 UINT64_MAX) ] /\
  (forall (m : Map) (addr size : Z) (val : string),
     is_u64 addr -> is_u64 size -> UINT64_MAX < addr + size ->
     AddRange addr size val m = Ok m).
Proof.
  split; [|split; [reflexivity|]].
  2:{ intros m addr size val Haddr Hsize Hwrap.
      apply AddDualRange_wraps; assumption. }
  intros m addr size val Hwf Haddr Hsize Hend.
  assert (Hwrap : wrap_u64 (addr + size) = addr + size).
  { apply wrap_u64_id. unfold is_u64 in *. lia. }
  destruct (AddDualRange_spec addr size UINT64_MAX val m Hwf Haddr)
    as (m' & Hrun & Hwf' & Hsub & Hnew & Hcov & Hzero).
  rewrite Hwrap in Hnew, Hcov.
  assert (Hkeep : forall a n, FindContaining m a = Some n ->
                              FindContaining m' a = Some n).
  { intros a n Hf. apply FindContaining_spec in Hf as [Hin Hc]; [|exact Hwf].
    apply FindContaining_spec; auto. }
  assert (Hfresh : forall n, n ∈ m' -> n ∉ m ->
            forall a, fst n <= a < end_ (snd n) -> FindContaining m a = None).
  { intros n Hin Hnotin a Ha.
    destruct (FindContaining m a) as [n0|] eqn:Hf; [|reflexivity].
    exfalso. apply Hnotin.
    apply FindContaining_spec in Hf as [Hin0 Hc0]; [|exact Hwf].
    assert (n = n0) as ->; [|exact Hin0].
    eapply (wf_from_contains_unique 0 m'); eauto.
    apply EntryContains_true. exact Ha. }
  exists m'. split_and!; auto.
  - intros a Ha Hnone.
    destruct (Hcov a Ha) as (n & Hin & Hc).
    exists n. split; [apply FindContaining_spec; auto|].
    assert (Hnotin : n ∉ m).
    { intros Hin0.
      assert (FindContaining m a = Some n) by (apply FindContaining_spec; auto).
      congruence. }
    split; [|exact Hnotin].
    destruct (Hnew n Hin) as [?|Hn]; [contradiction|]. apply Hn.
  - intros a Ha Hnone.
    destruct (FindContaining m' a) as [n|] eqn:Hf; [|reflexivity].
    exfalso. apply FindContaining_spec in Hf as [Hin Hc]; [|exact Hwf'].
    apply EntryContains_true in Hc.
    destruct (Hnew n Hin) as [Hin0|Hn].
    + assert (FindContaining m a = Some n).
      { apply FindContaining_spec; auto. split; auto.
        apply EntryContains_true. exact Hc. }
      congruence.
    + destruct Hn as (_ & ? & ? & ? & _). lia.
  - intros n Hin Hnotin.
    destruct (Hnew n Hin) as [?|Hn]; [contradiction|].
    destruct Hn as (H1 & H2 & H3 & H4 & H0 & H5 & H6).
    rewrite Z.eqb_refl in H6. split_and!; auto.
    apply Hfresh; assumption.
Qed.

Lemma AddRange_first_writer_wins_witness :
  exists m',
    AddRange 50 100 "B" [ (0, MkEntry "A" 100 UINT64_MAX) ] = Ok m' /\
    FindContaining m' 75 = Some (0, MkEntry "A" 100 UINT64_MAX) /\
    exists n, FindContaining m' 125 = Some n /\ label (snd n) = "B".
Proof.
  destruct (proj1 AddRange_first_writer_wins
              [ (0, MkEntry "A" 100 UINT64_MAX) ] 50 100 "B")
    as (m' & Hrun & _ & _ & Hkeep & Hfill & _).
  - unfold WF. simpl. unfold UINT64_MAX. lia.
  - unfold is_u64, UINT64_MAX. lia.
  - lia.
  - unfold UINT64_MAX. lia.
  - exists m'. split; [exact Hrun|]. split.
    + apply Hkeep. reflexivity.
    + destruct (Hfill 125) as (n & Hf & Hl & _); [lia|reflexivity|].
      exists n. split; assumption.
Defined.

(** A range that runs past the last 64-bit address: [addr + size] wraps
    below [addr], and nothing is inserted. *)
Example AddRange_past_last_address :
  AddRange UINT64_MAX 1 "A" [] = Ok [].
Proof. reflexivity. Qed.

(** The specification's scenario S1: the base map holds the dual range
    vm [0x1000, 0x1100) <-> file [0x200, 0x300); the VM range
    [0x1040, 0x1060) labelled "foo" lands in the File map at
    [0x240, 0x260). *)
Example AddRangeWithTranslation_S1 :
  (let! base_vm := AddDualRange 4096 256 512 "seg" [] in
   AddRangeWithTranslation 4160 32 "foo" base_vm [] []) =
  Ok ([ (4160, MkEntry "foo" 4192 UINT64_MAX) ],
      [ (576, MkEntry "foo" 608 UINT64_MAX) ]).
Proof. reflexivity. Qed.

(** ** ComputeRollup *)

Section ComputeRollupFacts.

Context (filename : string) (filename_position : Z).

Implicit Types (m it iter pre : Map) (n : Z * Entry) (iters : list Map).


Lemma scan_cons iter rest i current nb hd :
  let iter' := advance iter current in
  let st := scan rest (S i) filename filename_position current
              (match iter' with [] => nb | _ => Z.min nb (iter_break current iter') end)
              (hd || iter_has_data current iter') in
  scan (iter :: rest) i filename filename_position current nb hd =
  ScanState (iter' :: scan_iters st)
    ((if filename_here filename_position i then [filename] else []) ++
     (if iter_has_data current iter'
      then match iter' with n :: _ => label (snd n) | [] => "[None]"%string end
      else "[None]"%string) :: scan_keys st)
    (scan_next_break st) (scan_have_data st).
Proof.
  simpl. destruct (advance iter current) as [|n it']; simpl.
  - rewrite orb_false_r. reflexivity.
  - destruct (current <? fst n); simpl.
    + rewrite orb_false_r. reflexivity.
    + rewrite orb_true_r. reflexivity.
Qed.

Lemma scan_iters_eq iters : forall i current nb hd,
  scan_iters (scan iters i filename filename_position current nb hd) =
  map (fun iter => advance iter current) iters.
Proof.
  induction iters as [|iter rest IH]; intros i current nb hd.
  - reflexivity.
  - rewrite scan_cons. simpl. f_equal. apply IH.
Qed.

Lemma scan_next_break_le iters : forall i current nb hd,
  scan_next_break (scan iters i filename filename_position current nb hd) <= nb.
Proof.
  induction iters as [|iter rest IH]; intros i current nb hd.
  - simpl. lia.
  - rewrite scan_cons. simpl.
    etransitivity; [apply IH|].
    destruct (advance iter current); lia.
Qed.

Lemma scan_next_break_lower iters : forall i current nb hd iter',
  iter' ∈ map (fun iter => advance iter current) iters -> iter' <> [] ->
  scan_next_break (scan iters i filename filename_position current nb hd)
  <= iter_break current iter'.
Proof.
  induction iters as [|iter rest IH]; intros i current nb hd iter' Hin Hne.
  - inversion Hin.
  - rewrite scan_cons. simpl. simpl in Hin.
    apply elem_of_cons in Hin as [->|Hin].
    + etransitivity; [apply scan_next_break_le|].
      destruct (advance iter current); [congruence|lia].
    + apply IH; assumption.
Qed.

Lemma scan_next_break_attained iters : forall i current nb hd,
  let r := scan_next_break
             (scan iters i filename filename_position current nb hd) in
  r = nb \/
  exists iter', iter' ∈ map (fun iter => advance iter current) iters /\
                iter' <> [] /\ r = iter_break current iter'.
Proof.
  induction iters as [|iter rest IH]; intros i current nb hd.
  - left. reflexivity.
  - cbv zeta. rewrite scan_cons. cbv zeta.
    cbn [scan_next_break].
    match goal with
    | |- context [scan rest (S i) _ _ current ?nb' ?hd'] =>
        destruct (IH (S i) current nb' hd') as [Heq|(iter' & Hin & Hne & Heq)]
    end.
    + cbv zeta in Heq. rewrite Heq.
      destruct (advance iter current) as [|n it'] eqn:Hadv; [left; reflexivity|].
      destruct (Z.min_spec nb (iter_break current (n :: it'))) as [[_ ->]|[_ ->]].
      * left. reflexivity.
      * right. exists (n :: it'). simpl. rewrite Hadv.
        split; [left|]. split; [discriminate|reflexivity].
    + right. exists iter'. split; [simpl; right; exact Hin|].
      split; [exact Hne|exact Heq].
Qed.

Lemma scan_have_data_iff iters : forall i current nb hd,
  scan_have_data (scan iters i filename filename_position current nb hd) = true <->
  hd = true \/
  Exists (fun iter' => iter_has_data current iter' = true)
         (map (fun iter => advance iter current) iters).
Proof.
  induction iters as [|iter rest IH]; intros i current nb hd.
  - simpl. rewrite Exists_nil. tauto.
  - rewrite scan_cons. cbv zeta. cbn [scan_have_data map].
    rewrite IH, Exists_cons, orb_true_iff. tauto.
Qed.

(** *** Advancing an iterator *)

Lemma advance_spec iter current :
  exists dropped,
    iter = dropped ++ advance iter current /\
    Forall (fun n => end_ (snd n) <= current) dropped /\
    head_ends_after current (advance iter current).
Proof.
  induction iter as [|n rest IH]; simpl.
  - exists []. split_and!; auto.
  - unfold RangeEnd. destruct (end_ (snd n) <=? current) eqn:Hle.
    + destruct IH as (dropped & Heq & Hd & Hhd). apply Z.leb_le in Hle.
      exists (n :: dropped). split_and!; auto. simpl. congruence.
    + apply Z.leb_gt in Hle. exists []. split_and!; auto.
Qed.

Lemma iter_of_advance current m iter :
  iter_of current m iter -> iter_of current m (advance iter current).
Proof.
  intros (pre & Hm & Hpre).
  destruct (advance_spec iter current) as (dropped & Heq & Hd & _).
  exists (pre ++ dropped). split.
  - rewrite <- app_assoc, <- Heq. exact Hm.
  - apply Forall_app. split; assumption.
Qed.

Lemma iter_of_mono current current' m iter :
  current <= current' -> iter_of current m iter -> iter_of current' m iter.
Proof.
  intros Hle (pre & Hm & Hpre). exists pre. split; [exact Hm|].
  eapply Forall_impl; [exact Hpre|]. simpl. intros; lia.
Qed.

(** Between [current] and the breakpoint of its advanced iterator, a map
    covers an address exactly when the iterator has data. *)
Lemma covered_iff_has_data current m iter a :
  WF m -> iter_of current m iter -> head_ends_after current iter ->
  current <= a < iter_break current iter ->
  covered m a <-> iter_has_data current iter = true.
Proof.
  intros Hwf (pre & Hm & Hpre) Hhd Ha. unfold WF in Hwf. rewrite Hm in Hwf.
  apply wf_from_app in Hwf as [Hwf_pre Hwf_it].
  split.
  - intros (n0 & Hin & Hc). apply EntryContains_true in Hc.
    rewrite Hm in Hin. apply elem_of_app in Hin as [Hin|Hin].
    + rewrite Forall_forall in Hpre. specialize (Hpre _ Hin). lia.
    + destruct iter as [|n rest]; [inversion Hin|].
      simpl in Ha, Hhd, Hwf_it |- *. unfold RangeEnd in Ha.
      destruct Hwf_it as (_ & Hlt & _ & Hrest).
      apply elem_of_cons in Hin as [->|Hin].
      * destruct (current <? fst n) eqn:Hcur; [lia|reflexivity].
      * destruct (wf_from_elem _ _ _ Hrest Hin) as (?&?&?&?).
        destruct (current <? fst n); lia.
  - destruct iter as [|n rest]; [discriminate|]. simpl in *.
    unfold RangeEnd in Ha.
    destruct (current <? fst n) eqn:Hcur; [discriminate|]. intros _.
    apply Z.ltb_ge in Hcur. exists n. split.
    + rewrite Hm. apply elem_of_app. right. left.
    + apply EntryContains_true. lia.
Qed.

End ComputeRollupFacts.

Section ComputeRollupLoop.

Context (filename : string) (filename_position : Z).

Implicit Types (m it iter pre : Map) (n : Z * Entry) (iters : list Map).

(** *** Termination *)

Lemma breaks_above_app current it1 it2 :
  breaks_above current (it1 ++ it2) =
  (breaks_above current it1 + breaks_above current it2)%nat.
Proof. induction it1 as [|n it1 IH]; simpl; [reflexivity|]. rewrite IH. lia. Qed.

Lemma breaks_above_advance current iter :
  (breaks_above current (advance iter current) <= breaks_above current iter)%nat.
Proof.
  destruct (advance_spec iter current) as (dropped & Heq & _).
  rewrite Heq at 2. rewrite breaks_above_app. lia.
Qed.

Lemma breaks_above_mono current current' iter :
  current <= current' ->
  (breaks_above current' iter <= breaks_above current iter)%nat.
Proof.
  intros Hle. induction iter as [|n rest IH]; simpl; [lia|].
  destruct (current' <? fst n) eqn:H1; destruct (current <? fst n) eqn:H2;
    destruct (current' <? end_ (snd n)) eqn:H3;
    destruct (current <? end_ (snd n)) eqn:H4;
    try apply Z.ltb_lt in H1; try apply Z.ltb_ge in H1;
    try apply Z.ltb_lt in H2; try apply Z.ltb_ge in H2;
    try apply Z.ltb_lt in H3; try apply Z.ltb_ge in H3;
    try apply Z.ltb_lt in H4; try apply Z.ltb_ge in H4; lia.
Qed.

Lemma breaks_above_head current iter :
  iter <> [] -> head_ends_after current iter ->
  current < iter_break current iter /\
  (breaks_above (iter_break current iter) iter < breaks_above current iter)%nat.
Proof.
  destruct iter as [|n rest]; [congruence|]. intros _ Hhd. simpl in *.
  unfold RangeEnd.
  pose proof (breaks_above_mono current (fst n) rest) as Hm1.
  pose proof (breaks_above_mono current (end_ (snd n)) rest) as Hm2.
  destruct (current <? fst n) eqn:Hcur.
  - apply Z.ltb_lt in Hcur. split; [lia|].
    rewrite Z.ltb_irrefl.
    destruct (fst n <? end_ (snd n)); destruct (current <? end_ (snd n)) eqn:H4;
      try apply Z.ltb_ge in H4; lia.
  - apply Z.ltb_ge in Hcur. split; [lia|].
    rewrite Z.ltb_irrefl.
    destruct (end_ (snd n) <? fst n) eqn:H1; [apply Z.ltb_lt in H1; lia|].
    destruct (current <? end_ (snd n)) eqn:H4; [|apply Z.ltb_ge in H4; lia].
    lia.
Qed.

Lemma breaks_above_all_advance current iters :
  (breaks_above_all current (map (fun iter => advance iter current) iters)
   <= breaks_above_all current iters)%nat.
Proof.
  induction iters as [|iter rest IH]; simpl; [lia|].
  pose proof (breaks_above_advance current iter). lia.
Qed.

Lemma breaks_above_all_mono current current' iters :
  current <= current' ->
  (breaks_above_all current' iters <= breaks_above_all current iters)%nat.
Proof.
  intros Hle. induction iters as [|iter rest IH]; simpl; [lia|].
  pose proof (breaks_above_mono current current' iter Hle). lia.
Qed.

Lemma breaks_above_all_strict current current' iters iter :
  current <= current' -> iter ∈ iters ->
  (breaks_above current' iter < breaks_above current iter)%nat ->
  (breaks_above_all current' iters < breaks_above_all current iters)%nat.
Proof.
  intros Hle Hin Hlt. induction iters as [|iter0 rest IH]; [inversion Hin|].
  simpl. apply elem_of_cons in Hin as [<-|Hin].
  - pose proof (breaks_above_all_mono current current' rest Hle). lia.
  - pose proof (breaks_above_mono current current' iter0 Hle).
    specialize (IH Hin). lia.
Qed.

Lemma breaks_above_all_bound current iters :
  (breaks_above_all current iters <= breakpoints iters)%nat.
Proof.
  unfold breakpoints. induction iters as [|iter rest IH]; simpl; [lia|].
  rewrite length_app.
  assert (breaks_above current iter <= 2 * length iter)%nat; [|lia].
  clear. induction iter as [|n it IH]; simpl; [lia|].
  destruct (current <? fst n), (current <? end_ (snd n)); lia.
Qed.

(** What one round finds: the next breakpoint is above [current], and
    strictly fewer breakpoints lie above it. *)
Lemma scan_progress iters i current :
  let st := scan iters i filename filename_position current UINTPTR_MAX false in
  scan_next_break st <> UINTPTR_MAX ->
  current < scan_next_break st /\
  (breaks_above_all (scan_next_break st) (scan_iters st)
   < breaks_above_all current iters)%nat.
Proof.
  intros st Hne. subst st.
  destruct (scan_next_break_attained filename filename_position iters i current
              UINTPTR_MAX false) as [Heq|(iter' & Hin & Hnil & Heq)];
    [contradiction|].
  cbv zeta in Heq. rewrite Heq, scan_iters_eq.
  assert (Hhd : head_ends_after current iter').
  { apply list_elem_of_fmap in Hin as (iter & -> & _).
    destruct (advance_spec iter current) as (_ & _ & _ & H). exact H. }
  destruct (breaks_above_head current iter' Hnil Hhd) as [Hlt Hless].
  split; [exact Hlt|].
  eapply Nat.lt_le_trans; [|apply breaks_above_all_advance].
  eapply breaks_above_all_strict; eauto. lia.
Qed.

Lemma rollup_loop_S fuel iters current :
  rollup_loop (S fuel) iters filename filename_position current =
  let st := scan iters 0 filename filename_position current UINTPTR_MAX false in
  if scan_next_break st =? UINTPTR_MAX then Ok []
  else
    let! calls := rollup_loop fuel (scan_iters st) filename filename_position
                    (scan_next_break st) in
    Ok (if scan_have_data st
        then (scan_keys st, current, scan_next_break st) :: calls
        else calls).
Proof. reflexivity. Qed.

Lemma rollup_loop_terminates fuel : forall iters current,
  (breaks_above_all current iters < fuel)%nat ->
  exists calls,
    rollup_loop fuel iters filename filename_position current = Ok calls.
Proof.
  induction fuel as [|fuel IH]; intros iters current Hfuel; [lia|].
  rewrite rollup_loop_S. cbv zeta.
  pose proof (scan_progress iters 0 current) as Hprog. cbv zeta in Hprog.
  set (st := scan iters 0 filename filename_position current UINTPTR_MAX false) in *.
  destruct (scan_next_break st =? UINTPTR_MAX) eqn:Hbreak; [eauto|].
  apply Z.eqb_neq in Hbreak. destruct (Hprog Hbreak) as [_ Hless].
  destruct (IH (scan_iters st) (scan_next_break st)) as [calls Hcalls]; [lia|].
  rewrite Hcalls. simpl. eauto.
Qed.

End ComputeRollupLoop.

Section ComputeRollupSpec.

Context (filename : string) (filename_position : Z).

Implicit Types (m it iter pre : Map) (n : Z * Entry) (iters : list Map)
  (calls : list rollup_call).

(** *** The calls of one run *)

Lemma ascending_from_weaken lo lo' calls :
  lo' <= lo -> ascending_from lo calls -> ascending_from lo' calls.
Proof.
  destruct calls as [|[[keys cur] next] rest]; simpl; [tauto|].
  intros ? (?&?&?). split_and!; auto. lia.
Qed.

Lemma ascending_from_in_calls lo calls a :
  ascending_from lo calls -> in_calls calls a -> lo <= a.
Proof.
  revert lo. induction calls as [|[[keys cur] next] rest IH]; intros lo Hasc Hin.
  - destruct Hin as (? & ? & ? & Hin & _). inversion Hin.
  - simpl in Hasc. destruct Hasc as (Hlo & Hlt & Hrest).
    destruct Hin as (keys' & cur' & next' & Hin & Ha).
    apply elem_of_cons in Hin as [Heq|Hin].
    + injection Heq as -> -> ->. lia.
    + assert (next <= a); [|lia].
      apply (IH next Hrest). exists keys', cur', next'. split; assumption.
Qed.

Lemma in_calls_cons keys cur next calls a :
  in_calls ((keys, cur, next) :: calls) a <->
  cur <= a < next \/ in_calls calls a.
Proof.
  unfold in_calls. split.
  - intros (keys' & cur' & next' & Hin & Ha).
    apply elem_of_cons in Hin as [Heq|Hin].
    + injection Heq as -> -> ->. left. exact Ha.
    + right. exists keys', cur', next'. split; assumption.
  - intros [Ha|(keys' & cur' & next' & Hin & Ha)].
    + exists keys, cur, next. split; [left|exact Ha].
    + exists keys', cur', next'. split; [right; exact Hin|exact Ha].
Qed.

Lemma in_calls_nil a : ~ in_calls [] a.
Proof. intros (? & ? & ? & Hin & _). inversion Hin. Qed.

Lemma Forall2_Exists_iff {A B} (P : A -> Prop) (Q : B -> Prop) l k :
  Forall2 (fun x y => P x <-> Q y) l k -> Exists P l <-> Exists Q k.
Proof.
  induction 1 as [|x y l k Hxy _ IH].
  - rewrite !Exists_nil. tauto.
  - rewrite !Exists_cons. tauto.
Qed.

Lemma rollup_loop_spec (range_maps : list Map) :
  Forall WF range_maps ->
  Forall (Forall (fun n => end_ (snd n) < UINTPTR_MAX)) range_maps ->
  forall fuel iters current calls,
  Forall2 (iter_of current) range_maps iters ->
  rollup_loop fuel iters filename filename_position current = Ok calls ->
  ascending_from current calls /\
  (forall a, current <= a ->
     in_calls calls a <-> Exists (fun m => covered m a) range_maps).
Proof.
  intros Hwf Hmax. induction fuel as [|fuel IH]; intros iters current calls Hit Hrun.
  { discriminate. }
  rewrite rollup_loop_S in Hrun. cbv zeta in Hrun.
  pose proof (scan_progress filename filename_position iters 0 current) as Hprog.
  pose proof (scan_next_break_le filename filename_position iters 0 current
                UINTPTR_MAX false) as Hle.
  pose proof (scan_next_break_lower filename filename_position iters 0 current
                UINTPTR_MAX false) as Hlower.
  pose proof (scan_have_data_iff filename filename_position iters 0 current
                UINTPTR_MAX false) as Hdata.
  pose proof (scan_iters_eq filename filename_position iters 0 current
                UINTPTR_MAX false) as Hiters.
  cbv zeta in Hprog.
  set (st := scan iters 0 filename filename_position current UINTPTR_MAX false) in *.
  (* the advanced iterators *)
  assert (Hadv : Forall2 (fun m iter' =>
                            WF m /\ Forall (fun n => end_ (snd n) < UINTPTR_MAX) m /\
                            iter_of current m iter' /\
                            head_ends_after current iter' /\
                            iter' ∈ scan_iters st)
                         range_maps (scan_iters st)).
  { rewrite Hiters. clear -Hwf Hmax Hit.
    induction Hit as [|m iter ms its Hmi Hrest IHr]; [constructor|].
    apply Forall_cons in Hwf as [Hwf1 Hwf2].
    apply Forall_cons in Hmax as [Hmax1 Hmax2].
    simpl. constructor.
    - split_and!; auto.
      + apply iter_of_advance. exact Hmi.
      + destruct (advance_spec iter current) as (_ & _ & _ & H). exact H.
      + left.
    - eapply Forall2_impl; [apply IHr; assumption|].
      simpl. intros m' it' (?&?&?&?&?). split_and!; auto. right. assumption. }
  assert (Hbreak_lt : forall m iter', WF m ->
            Forall (fun n => end_ (snd n) < UINTPTR_MAX) m ->
            iter_of current m iter' -> iter' <> [] ->
            iter_break current iter' < UINTPTR_MAX).
  { intros m iter' Hwfm Hmaxm (pre & Hm & _) Hne.
    destruct iter' as [|n rest]; [congruence|]. simpl. unfold RangeEnd.
    assert (Hn : n ∈ m). { rewrite Hm. apply elem_of_app. right. left. }
    rewrite Forall_forall in Hmaxm. specialize (Hmaxm _ Hn).
    destruct (wf_from_elem _ _ _ Hwfm Hn) as (?&?&?&?).
    destruct (current <? fst n); lia. }
  destruct (scan_next_break st =? UINTPTR_MAX) eqn:Hbreak.
  - (* the last round *)
    apply Z.eqb_eq in Hbreak. injection Hrun as <-.
    split; [exact I|]. intros a Ha. split; [intros H; destruct (in_calls_nil _ H)|].
    intros Hex. exfalso.
    assert (Hnone : Forall2 (fun m iter' => covered m a <-> False)
                            range_maps (scan_iters st)).
    { eapply Forall2_impl; [exact Hadv|]. simpl.
      intros m iter' (Hwfm & Hmaxm & Hof & Hhd & Hin). split; [|tauto].
      destruct iter' as [|n rest].
      - destruct Hof as (pre & Hm & Hpre). rewrite app_nil_r in Hm. subst pre.
        intros (n0 & Hn0 & Hc). apply EntryContains_true in Hc.
        rewrite Forall_forall in Hpre. specialize (Hpre _ Hn0). lia.
      - assert (Hne : n :: rest <> []) by discriminate.
        rewrite Hiters in Hin.
        specialize (Hlower (n :: rest) Hin Hne).
        specialize (Hbreak_lt m (n :: rest) Hwfm Hmaxm Hof Hne). lia. }
    apply (Forall2_Exists_iff _ (fun _ => False)) in Hnone.
    apply Hnone in Hex. apply Exists_exists in Hex as (? & _ & []).
  - apply Z.eqb_neq in Hbreak. destruct (Hprog Hbreak) as [Hlt _].
    inv_bind Hrun. rename a into calls'. injection Hrun as <-.
    destruct (IH (scan_iters st) (scan_next_break st) calls') as [Hasc Hcov];
      [|exact Hbind|].
    { eapply Forall2_impl; [exact Hadv|]. simpl.
      intros m iter' (_ & _ & Hof & _). eapply iter_of_mono; [|exact Hof]. lia. }
    assert (Hround : forall a, current <= a < scan_next_break st ->
              Exists (fun m => covered m a) range_maps <->
              scan_have_data st = true).
    { intros a Ha. rewrite Hdata, <- Hiters.
      assert (H2 : Forall2 (fun m iter' =>
                              covered m a <-> iter_has_data current iter' = true)
                           range_maps (scan_iters st)).
      { eapply Forall2_impl; [exact Hadv|]. simpl.
        intros m iter' (Hwfm & Hmaxm & Hof & Hhd & Hin).
        apply covered_iff_has_data; auto.
        destruct iter' as [|n rest]; [simpl; lia|].
        rewrite Hiters in Hin.
        specialize (Hlower (n :: rest) Hin ltac:(discriminate)). lia. }
      rewrite (Forall2_Exists_iff _ _ _ _ H2).
      split; [intros H; right; exact H | intros [H|H]; [discriminate|exact H]]. }
    split.
    + destruct (scan_have_data st); simpl.
      * split_and!; auto; lia.
      * eapply ascending_from_weaken; [|exact Hasc]. lia.
    + intros a Ha.
      destruct (Z_lt_dec a (scan_next_break st)) as [Hin|Hout].
      * rewrite (Hround a) by lia.
        assert (Hnot : ~ in_calls calls' a).
        { intros H. pose proof (ascending_from_in_calls _ _ _ Hasc H). lia. }
        destruct (scan_have_data st).
        -- rewrite in_calls_cons. split; [reflexivity|]. intros _. left. lia.
        -- split; [contradiction|discriminate].
      * rewrite <- Hcov by lia.
        destruct (scan_have_data st); [|reflexivity].
        rewrite in_calls_cons. split; [intros [?|?]; [lia|assumption] | tauto].
Qed.

(** *** Initialisation *)

Lemma init_iters_Ok (range_maps : list Map) : forall current,
  Forall (fun m => m <> []) range_maps ->
  exists current',
    init_iters range_maps current = Ok (range_maps, current') /\
    current' <= current /\
    Forall (fun m => head_after (current' - 1) m) range_maps /\
    (forall lo, lo <= current ->
       Forall (fun m => head_after (lo - 1) m) range_maps -> lo <= current').
Proof.
  induction range_maps as [|m rest IH]; intros current Hne.
  - exists current. simpl. split_and!; auto. lia.
  - apply Forall_cons in Hne as [Hm Hrest].
    destruct m as [|first m']; [congruence|]. simpl.
    destruct (IH (Z.min current (fst first)) Hrest)
      as (c' & Hrun & Hle & Hall & Hlo).
    rewrite Hrun. simpl. exists c'. split_and!; auto; try lia.
    + constructor; [simpl; lia | exact Hall].
    + intros lo Hlo1 Hlo2. apply Forall_cons in Hlo2 as [Hf Hr]. simpl in Hf.
      apply Hlo; [lia | exact Hr].
Qed.

Lemma init_iters_Err (range_maps : list Map) : forall current e,
  init_iters range_maps current = Err e ->
  e = UndefinedBehaviour /\ Exists (fun m => m = []) range_maps.
Proof.
  induction range_maps as [|m rest IH]; intros current e H; simpl in H.
  - discriminate.
  - destruct m as [|first m'].
    + injection H as <-. split; [reflexivity|]. left. reflexivity.
    + destruct (init_iters rest _) as [r|e'] eqn:Hrest; simpl in H; [discriminate|].
      injection H as <-. destruct (IH _ _ Hrest) as [-> Hex].
      split; [reflexivity|]. right. exact Hex.
Qed.

Lemma init_iters_empty_map (range_maps : list Map) : forall current,
  Exists (fun m => m = []) range_maps ->
  init_iters range_maps current = Err UndefinedBehaviour.
Proof.
  induction range_maps as [|m rest IH]; intros current Hex.
  - inversion Hex.
  - apply Exists_cons in Hex as [->|Hex]; [reflexivity|].
    simpl. destruct m as [|first m']; [reflexivity|].
    rewrite (IH _ Hex). reflexivity.
Qed.

End ComputeRollupSpec.

Lemma ascending_from_elem lo calls keys cur next :
  ascending_from lo calls -> (keys, cur, next) ∈ calls -> lo <= cur < next.
Proof.
  revert lo. induction calls as [|[[keys' cur'] next'] rest IH]; intros lo Hasc Hin.
  - inversion Hin.
  - simpl in Hasc. destruct Hasc as (Hlo & Hlt & Hrest).
    apply elem_of_cons in Hin as [Heq|Hin].
    + injection Heq as -> -> ->. lia.
    + specialize (IH _ Hrest Hin). lia.
Qed.

Lemma rollup_loop_not_undefined filename filename_position fuel :
  forall iters current,
  rollup_loop fuel iters filename filename_position current
  <> Err UndefinedBehaviour.
Proof.
  induction fuel as [|fuel IH]; intros iters current; [discriminate|].
  rewrite rollup_loop_S. cbv zeta.
  destruct (_ =? UINTPTR_MAX); [discriminate|].
  specialize (IH (scan_iters (scan iters 0 filename filename_position current
                                UINTPTR_MAX false))
                 (scan_next_break (scan iters 0 filename filename_position
                                     current UINTPTR_MAX false))).
  destruct (rollup_loop fuel _ _ _ _) as [calls|e]; simpl; [discriminate|].
  congruence.
Qed.

(** *** C3: the intervals passed to the callback *)

(** C3 (as stated, refuted).  The claim has no interval passed to [f] on
    which every map yields the label "[None]".  A map may hold an entry
    that carries this label ([ScanAndRollupFile] adds one over the whole
    file to the base map); with the base map [0,10) -> "[None]" and one
    section [0,4), the callback is called for [4,10) with both keys
    "[None]". *)
Lemma ComputeRollup_None_label_counterexample :
  ComputeRollup
    [ [ (0, MkEntry "[None]" 10 UINT64_MAX) ];
      [ (0, MkEntry ".text" 4 UINT64_MAX) ] ] "a.out" (-1) =
  Ok [ (["[None]"; ".text"], 0, 4); (["[None]"; "[None]"], 4, 10) ] /\
  exists calls keys cur next,
    ComputeRollup
      [ [ (0, MkEntry "[None]" 10 UINT64_MAX) ];
        [ (0, MkEntry ".text" 4 UINT64_MAX) ] ] "a.out" (-1) = Ok calls /\
    (keys, cur, next) ∈ calls /\
    Forall (fun key => key = "[None]"%string) keys.
Proof.
  split; [reflexivity|].
  exists [ (["[None]"; ".text"], 0, 4); (["[None]"; "[None]"], 4, 10) ],
         ["[None]"; "[None]"]%string, 4, 10.
  split; [reflexivity|]. split.
  - right. left.
  - repeat constructor.
Qed.

(** C3 (amended).  For a non-empty vector of non-empty maps that satisfy the
    RangeMap invariant and hold no entry that ends at [UINTPTR_MAX],
    [ComputeRollup] returns; the intervals it passes to [f] are non-empty,
    in ascending order and pairwise disjoint; their union is the union of
    the maps' domains; and [f] is called only for intervals that start
    inside an entry of some map, whatever the label of that entry. *)
Theorem ComputeRollup_intervals (range_maps : list Map) (filename : string)
    (filename_position : Z) :
  range_maps <> [] ->
  Forall WF range_maps ->
  Forall (fun m => m <> []) range_maps ->
  Forall (Forall (fun n => end_ (snd n) < UINTPTR_MAX)) range_maps ->
  exists calls,
    ComputeRollup range_maps filename filename_position = Ok calls /\
    ascending_from 0 calls /\
    (forall a, in_calls calls a <-> Exists (fun m => covered m a) range_maps) /\
    (forall keys cur next, (keys, cur, next) ∈ calls ->
       Exists (fun m => covered m cur) range_maps).
Proof.
  intros Hne Hwf Hnonempty Hmax. unfold ComputeRollup.
  destruct range_maps as [|m0 rest0] eqn:Hmaps; [congruence|].
  rewrite <- Hmaps in *. clear Hne.
  rename Hwf into Hwf_all.
  pose proof (proj1 (Forall_forall _ _) Hwf_all) as Hwf.
  assert (Hlen : (length range_maps =? 0)%nat = false).
  { rewrite Hmaps. reflexivity. }
  rewrite Hlen.
  destruct (init_iters_Ok range_maps UINTPTR_MAX Hnonempty)
    as (current & Hinit & Hle & Hfirst & Hlo).
  rewrite Hinit. simpl.
  assert (Hkeys : forall m n, m ∈ range_maps -> n ∈ m -> current <= fst n).
  { intros m n Hm Hn. rewrite Forall_forall in Hfirst.
    specialize (Hfirst m Hm). specialize (Hwf m Hm).
    destruct m as [|first m']; [inversion Hn|]. simpl in Hfirst.
    unfold WF in Hwf. simpl in Hwf. destruct Hwf as (_ & ? & _ & Hrest).
    apply elem_of_cons in Hn as [->|Hn]; [lia|].
    destruct (wf_from_elem _ _ _ Hrest Hn) as (?&?&?&?). lia. }
  assert (Hcur : 0 <= current < UINTPTR_MAX).
  { split.
    - apply Hlo; [unfold UINTPTR_MAX, UINT64_MAX; lia|].
      apply Forall_forall. intros m Hm.
      specialize (Hwf m Hm). destruct m as [|first m']; [exact I|].
      unfold WF in Hwf. simpl in Hwf |- *. lia.
    - assert (Hm0 : m0 ∈ range_maps) by (rewrite Hmaps; left).
      rewrite Forall_forall in Hnonempty, Hmax.
      specialize (Hwf _ Hm0). specialize (Hnonempty _ Hm0).
      specialize (Hmax _ Hm0).
      destruct m0 as [|first m']; [congruence|].
      assert (Hf : first ∈ first :: m') by left.
      specialize (Hkeys _ _ Hm0 Hf).
      rewrite Forall_forall in Hmax. specialize (Hmax _ Hf).
      destruct (wf_from_elem _ _ _ Hwf Hf) as (?&?&?&?). lia. }
  assert (Hneq : (current =? UINTPTR_MAX) = false) by (apply Z.eqb_neq; lia).
  rewrite Hneq.
  destruct (rollup_loop_terminates filename filename_position
              (breakpoints range_maps + 1) range_maps current) as [calls Hrun].
  { pose proof (breaks_above_all_bound current range_maps). lia. }
  assert (Hof : Forall2 (iter_of current) range_maps range_maps).
  { apply Forall2_same_length_lookup. split; [reflexivity|].
    intros i m m' Hm Hm'. assert (m = m') as <- by congruence.
    exists []. split; [reflexivity|constructor]. }
  destruct (rollup_loop_spec filename filename_position range_maps Hwf_all Hmax
              _ _ _ calls Hof Hrun) as [Hasc Hcov].
  assert (Hcov_all : forall a,
            in_calls calls a <-> Exists (fun m => covered m a) range_maps).
  { intros a. destruct (Z_le_dec current a) as [Hge|Hlt]; [apply Hcov; exact Hge|].
    split.
    - intros Hin. pose proof (ascending_from_in_calls _ _ _ Hasc Hin). lia.
    - intros Hex. apply Exists_exists in Hex as (m & Hm & n & Hn & Hc).
      apply EntryContains_true in Hc. specialize (Hkeys _ _ Hm Hn). lia. }
  exists calls. split_and!; auto.
  - eapply ascending_from_weaken; [|exact Hasc]. lia.
  - intros keys cur next Hin. apply Hcov_all.
    exists keys, cur, next. split; [exact Hin|].
    pose proof (ascending_from_elem _ _ _ _ _ Hasc Hin). lia.
Qed.

Lemma ComputeRollup_intervals_witness :
  exists calls,
    ComputeRollup join_maps "a.out" (-1) = Ok calls /\
    ascending_from 0 calls /\
    (forall a, in_calls calls a <-> Exists (fun m => covered m a) join_maps).
Proof.
  destruct (ComputeRollup_intervals join_maps "a.out" (-1))
    as (calls & Hrun & Hasc & Hcov & _).
  - discriminate.
  - repeat constructor; unfold WF; simpl; unfold UINT64_MAX; lia.
  - repeat constructor; discriminate.
  - repeat constructor; simpl; unfold UINTPTR_MAX, UINT64_MAX; lia.
  - exists calls. split_and!; assumption.
Defined.

(** The join of the specification's scenario S3. *)
Example ComputeRollup_S3 :
  ComputeRollup join_maps "a.out" (-1) =
  Ok [ (["X"; "[None]"], 0, 5); (["X"; "Z"], 5, 10); (["[None]"; "Z"], 10, 20);
       (["Y"; "Z"], 20, 25); (["Y"; "[None]"], 25, 30) ].
Proof. reflexivity. Qed.

(** An entry that ends at [UINTPTR_MAX] meets the sentinel of the loop: the
    round that would report it stops the loop instead. *)
Example ComputeRollup_sentinel :
  ComputeRollup [ [ (5, MkEntry "X" UINTPTR_MAX UINT64_MAX) ] ] "a.out" (-1) = Ok [].
Proof. reflexivity. Qed.

(** *** C10: every map of the vector must hold an entry *)

(** C10.  [ComputeRollup] dereferences the end iterator exactly when one of
    the maps it is given is empty: with an empty map the initialisation
    reads [begin()->first] of that map, and when every map has an entry no
    end iterator is dereferenced. *)
Theorem ComputeRollup_requires_nonempty_maps (range_maps : list Map)
    (filename : string) (filename_position : Z) :
  ComputeRollup range_maps filename filename_position = Err UndefinedBehaviour
  <-> Exists (fun m => m = []) range_maps.
Proof.
  unfold ComputeRollup. split.
  - destruct (length range_maps =? 0)%nat; [discriminate|].
    destruct (init_iters range_maps UINTPTR_MAX) as [[iters current]|e] eqn:Hinit.
    + simpl. destruct (current =? UINTPTR_MAX); [discriminate|].
      intros H. destruct (rollup_loop_not_undefined _ _ _ _ _ H).
    + simpl. intros _. apply init_iters_Err in Hinit. tauto.
  - intros Hex.
    destruct range_maps as [|m rest]; [inversion Hex|]. 
    change (length (m :: rest) =? 0)%nat with false. cbv iota.
    rewrite (init_iters_empty_map _ _ Hex). reflexivity.
Qed.

(** ** The collapser *)

Section CollapserFacts.

Implicit Types (rows child_rows kept dropped : list RollupRow)
  (row others_row : RollupRow) (options : Options).

Lemma sort_insert_perm {A} (lt : A -> A -> bool) x (l : list A) :
  sort_insert lt x l ≡ₚ x :: l.
Proof.
  induction l as [|y l IH]; simpl; [reflexivity|].
  destruct (lt y x); [|reflexivity].
  rewrite IH. apply Permutation_swap.
Qed.

Lemma std_sort_perm {A} (lt : A -> A -> bool) (l : list A) :
  std_sort lt l ≡ₚ l.
Proof.
  unfold std_sort. induction l as [|x l IH]; simpl; [reflexivity|].
  rewrite sort_insert_perm, IH. reflexivity.
Qed.

Lemma std_sort_length {A} (lt : A -> A -> bool) (l : list A) :
  length (std_sort lt l) = length l.
Proof. apply Permutation_length, std_sort_perm. Qed.

Lemma sum_vmsize_app rows1 rows2 :
  sum_vmsize (rows1 ++ rows2) = sum_vmsize rows1 + sum_vmsize rows2.
Proof.
  unfold sum_vmsize. induction rows1 as [|r rows1 IH]; simpl; [reflexivity|].
  rewrite IH. lia.
Qed.

Lemma sum_filesize_app rows1 rows2 :
  sum_filesize (rows1 ++ rows2) = sum_filesize rows1 + sum_filesize rows2.
Proof.
  unfold sum_filesize. induction rows1 as [|r rows1 IH]; simpl; [reflexivity|].
  rewrite IH. lia.
Qed.

Lemma vector_at_last {A} (v : list A) (x : A) :
  vector_at (v ++ [x]) (Z.of_nat (length (v ++ [x])) - 1) = Some x.
Proof.
  unfold vector_at. rewrite length_app. simpl.
  replace (Z.of_nat (length v + 1) - 1) with (Z.of_nat (length v)) by lia.
  rewrite Nat2Z.id.
  destruct (0 <=? Z.of_nat (length v)) eqn:H1; [|apply Z.leb_gt in H1; lia].
  destruct (Z.of_nat (length v) <? Z.of_nat (length v + 1)) eqn:H2;
    [|apply Z.ltb_ge in H2; lia].
  simpl. rewrite lookup_app_r by lia.
  replace (length v - length v)%nat with 0%nat by lia. reflexivity.
Qed.

(** The loop keeps the first [max_rows_per_level] rows and adds the sizes of
    the others to [others_row]. *)
Lemma collapse_loop_spec options base :
  1 <= max_rows_per_level options <= INT64_MAX ->
  forall fuel rows others_row others_base rows' others_row' others_base',
  rows <> [] ->
  collapse_loop fuel options base rows (Z.of_nat (length rows) - 1)
    others_row others_base = Ok (rows', others_row', others_base') ->
  exists dropped,
    rows = rows' ++ dropped /\
    length rows' =
      Nat.min (length rows) (Z.to_nat (max_rows_per_level options)) /\
    vmsize others_row' = vmsize others_row + sum_vmsize dropped /\
    filesize others_row' = filesize others_row + sum_filesize dropped /\
    name others_row' = name others_row /\
    sorted_children others_row' = sorted_children others_row /\
    shrinking others_row' = shrinking others_row /\
    mixed others_row' = mixed others_row /\
    diff_mode others_row' = diff_mode others_row.
Proof.
  intros Hmax.
  assert (Hwrap : wrap_u64 (max_rows_per_level options) =
                  max_rows_per_level options).
  { apply wrap_u64_id. unfold is_u64, UINT64_MAX, INT64_MAX in *. lia. }
  induction fuel as [|fuel IH];
    intros rows others_row others_base rows' others_row' others_base' Hne Hrun.
  - simpl in Hrun. rewrite Hwrap in Hrun.
    destruct (_ <? _) eqn:Hlt; [|discriminate].
    apply Z.ltb_lt in Hlt. injection Hrun as <- <- <-.
    exists []. rewrite app_nil_r. split_and!; auto; try lia.
    + unfold sum_vmsize. simpl. lia.
    + unfold sum_filesize. simpl. lia.
  - simpl in Hrun. rewrite Hwrap in Hrun.
    destruct (_ <? _) eqn:Hlt.
    + apply Z.ltb_lt in Hlt. injection Hrun as <- <- <-.
      exists []. rewrite app_nil_r. split_and!; auto; try lia.
      * unfold sum_vmsize. simpl. lia.
      * unfold sum_filesize. simpl. lia.
    + apply Z.ltb_ge in Hlt.
      destruct (exists_last Hne) as (rows0 & child & ->).
      rewrite vector_at_last in Hrun.
      inv_bind Hrun. rename a into vm. apply CheckedAdd_Ok in Hbind.
      inv_bind Hrun. rename a into file. apply CheckedAdd_Ok in Hbind0.
      inv_bind Hrun. rename a into others_base1.
      rewrite removelast_last in Hrun.
      rewrite length_app in Hrun, Hlt |- *. simpl in Hrun, Hlt |- *.
      assert (Hi : size_t_dec (Z.of_nat (length rows0 + 1) - 1) =
                   Z.of_nat (length rows0) - 1).
      { unfold size_t_dec. destruct (_ =? 0) eqn:H0; [|lia].
        apply Z.eqb_eq in H0. lia. }
      rewrite Hi in Hrun.
      assert (Hne0 : rows0 <> []).
      { destruct rows0; [simpl in Hlt; lia|discriminate]. }
      destruct (IH _ _ _ _ _ _ Hne0 Hrun)
        as (dropped & Hrows & Hlen & Hvm & Hfile & Hname & Hs & Hsh & Hm & Hd).
      simpl in Hvm, Hfile, Hname, Hs, Hsh, Hm, Hd.
      exists (dropped ++ [child]). split_and!; auto.
      * rewrite Hrows at 1. rewrite app_assoc. reflexivity.
      * lia.
      * rewrite sum_vmsize_app. unfold sum_vmsize at 2. simpl. lia.
      * rewrite sum_filesize_app. unfold sum_filesize at 2. simpl. lia.
Qed.

End CollapserFacts.

Section CollapseFacts.

Implicit Types (rows child_rows kept dropped : list RollupRow)
  (row others_row : RollupRow) (options : Options).

Lemma collapse_spec options base child_rows rows' others_rollup others_base :
  1 <= max_rows_per_level options <= INT64_MAX ->
  collapse options base child_rows = Ok (rows', others_rollup, others_base) ->
  exists kept dropped,
    std_sort (fun a b => collapse_rank_lt (collapse_rank options a)
                           (collapse_rank options b)) child_rows
      = kept ++ dropped /\
    length kept =
      Nat.min (length child_rows) (Z.to_nat (max_rows_per_level options)) /\
    rows' ≡ₚ kept ++ others_rows dropped /\
    vm_total_ others_rollup = sum_vmsize dropped /\
    file_total_ others_rollup = sum_filesize dropped /\
    children_ others_rollup = ∅.
Proof.
  intros Hmax Hrun. unfold collapse in Hrun.
  destruct child_rows as [|r0 rest0] eqn:Hrows.
  { injection Hrun as <- <- <-. exists [], []. split_and!; auto. }
  rewrite <- Hrows in *.
  set (sorted := std_sort _ child_rows) in *.
  assert (Hlen : length sorted = length child_rows) by apply std_sort_length.
  assert (Hne : sorted <> []).
  { intros H. rewrite H in Hlen. rewrite Hrows in Hlen. discriminate. }
  inv_bind Hrun. destruct a as [[kept others_row] others_base1].
  destruct (collapse_loop_spec options base Hmax _ _ _ _ _ _ _ Hne Hbind)
    as (dropped & Hsorted & Hkept & Hvm & Hfile & Hname & Hs & Hsh & Hm & Hd).
  simpl in Hvm, Hfile, Hname, Hs, Hsh, Hm, Hd.
  assert (Hothers : others_row =
            MkRollupRow others_label (sum_vmsize dropped) (sum_filesize dropped)
              [] [] [] false).
  { destruct others_row. simpl in *. subst. f_equal; lia. }
  exists kept, dropped. rewrite Hlen in Hkept.
  split; [exact Hsorted|]. split; [exact Hkept|].
  unfold others_rows.
  rewrite Hothers in Hrun. simpl in Hrun.
  destruct ((0 <? Z.abs (sum_vmsize dropped)) ||
            (0 <? Z.abs (sum_filesize dropped))) eqn:Hnz.
  - inv_bind Hrun. destruct a as [rows1 others_rollup1].
    inv_bind Hbind0. apply CheckedAdd_Ok in Hbind1.
    inv_bind Hbind0. apply CheckedAdd_Ok in Hbind2.
    injection Hbind0 as <- <-. injection Hrun as <- <- <-.
    split_and!; simpl; auto; try lia.
    apply std_sort_perm.
  - simpl in Hrun. injection Hrun as <- <- <-.
    rewrite app_nil_r. unfold new_Rollup. simpl.
    apply orb_false_iff in Hnz as [Hz1 Hz2].
    apply Z.ltb_ge in Hz1, Hz2.
    split_and!; auto; try lia.
    apply std_sort_perm.
Qed.

End CollapseFacts.

Section CreateRowsFacts.

Implicit Types (rows child_rows kept dropped : list RollupRow)
  (row others_row : RollupRow) (options : Options).

Lemma others_rows_length dropped : (length (others_rows dropped) <= 1)%nat.
Proof. unfold others_rows. destruct (_ || _); simpl; lia. Qed.

Lemma collapse_length options base child_rows rows' others_rollup others_base :
  1 <= max_rows_per_level options <= INT64_MAX ->
  collapse options base child_rows = Ok (rows', others_rollup, others_base) ->
  (length rows' <= Z.to_nat (max_rows_per_level options) + 1)%nat.
Proof.
  intros Hmax Hrun.
  destruct (collapse_spec _ _ _ _ _ _ Hmax Hrun)
    as (kept & dropped & _ & Hkept & Hperm & _).
  rewrite (Permutation_length Hperm), length_app.
  pose proof (others_rows_length dropped). lia.
Qed.

Lemma for_rows_Ok body rows : forall rows',
  for_rows body rows = Ok rows' ->
  Forall2 (fun r r' => body r = Ok r') rows rows'.
Proof.
  induction rows as [|r rows IH]; intros rows' H; simpl in H.
  - injection H as <-. constructor.
  - inv_bind H. inv_bind H. injection H as <-.
    constructor; [exact Hbind|]. apply IH. exact Hbind0.
Qed.

Lemma for_rows_Err body rows e :
  for_rows body rows = Err e -> exists r, r ∈ rows /\ body r = Err e.
Proof.
  induction rows as [|r rows IH]; intros H; simpl in H; [discriminate|].
  destruct (body r) as [r'|e'] eqn:Hr; simpl in H.
  - destruct (for_rows body rows) as [rs|e'']; simpl in H; [discriminate|].
    injection H as <-. destruct IH as (r0 & Hin & Hr0); [reflexivity|].
    exists r0. split; [right; exact Hin|exact Hr0].
  - injection H as <-. exists r. split; [left|exact Hr].
Qed.

Lemma ComputeRows_bounded create_rows self row child_rows base options
    is_toplevel rows' (limit : nat) :
  1 <= max_rows_per_level options <= INT64_MAX ->
  (Z.to_nat (max_rows_per_level options) + 1 <= limit)%nat ->
  (forall r rw b t rw', create_rows r rw b t = Ok rw' -> rows_bounded limit rw') ->
  ComputeRows create_rows self row child_rows base options is_toplevel = Ok rows' ->
  (length rows' <= limit)%nat /\ Forall (rows_bounded limit) rows'.
Proof.
  intros Hmax Hlimit Hrec Hrun. unfold ComputeRows in Hrun.
  inv_bind Hrun. destruct a as [[rows1 others_rollup] others_base].
  pose proof (collapse_length _ _ _ _ _ _ Hmax Hbind) as Hlen.
  apply for_rows_Ok in Hrun.
  split.
  - rewrite <- (Forall2_length _ _ _ Hrun). lia.
  - apply Forall_forall. intros r' Hr'.
    apply list_elem_of_lookup in Hr' as [i Hi].
    destruct (Forall2_lookup_r _ _ _ _ _ Hrun Hi) as (r & _ & Hbody).
    destruct (String.eqb (name r) others_label); [eapply Hrec; eauto|].
    destruct (children_ self !! name r); [eapply Hrec; eauto|discriminate].
Qed.

(** Every vector of rows that [CreateRows] fills has at most
    [max_rows_per_level + 1] rows, at every level. *)
Lemma CreateRows_bounded options :
  1 <= max_rows_per_level options <= INT64_MAX ->
  forall fuel self row base is_toplevel row',
  CreateRows fuel self row base options is_toplevel = Ok row' ->
  rows_bounded (Z.to_nat (max_rows_per_level options) + 1) row'.
Proof.
  intros Hmax. induction fuel as [|fuel IH];
    intros self row base is_toplevel row' Hrun; [discriminate|].
  simpl in Hrun. inv_bind Hrun. destruct a as [[sorted shrink] mix].
  inv_bind Hrun. inv_bind Hrun. inv_bind Hrun. injection Hrun as <-.
  assert (Hrec : forall r rw b t rw',
            CreateRows fuel r rw b options t = Ok rw' ->
            rows_bounded (Z.to_nat (max_rows_per_level options) + 1) rw').
  { intros r rw b t rw' H. eapply IH; eauto. }
  destruct (ComputeRows_bounded _ _ _ _ _ _ _ _ _ Hmax (Nat.le_refl _) Hrec Hbind0).
  destruct (ComputeRows_bounded _ _ _ _ _ _ _ _ _ Hmax (Nat.le_refl _) Hrec Hbind1).
  destruct (ComputeRows_bounded _ _ _ _ _ _ _ _ _ Hmax (Nat.le_refl _) Hrec Hbind2).
  constructor; simpl; assumption.
Qed.

End CreateRowsFacts.

Section CreateRowsTotal.

Implicit Types (rows child_rows kept dropped : list RollupRow)
  (row others_row : RollupRow) (options : Options).

Lemma CheckedAdd_Err accum val e : CheckedAdd accum val = Err e -> raised e.
Proof.
  unfold CheckedAdd, THROW. destruct (_ && _); [discriminate|].
  intros [= <-]. split; discriminate.
Qed.

Lemma collapse_loop_raised options base :
  1 <= max_rows_per_level options <= INT64_MAX ->
  forall fuel rows others_row others_base e,
  rows <> [] -> (length rows <= fuel)%nat ->
  collapse_loop fuel options base rows (Z.of_nat (length rows) - 1)
    others_row others_base = Err e ->
  raised e.
Proof.
  intros Hmax.
  assert (Hwrap : wrap_u64 (max_rows_per_level options) =
                  max_rows_per_level options).
  { apply wrap_u64_id. unfold is_u64, UINT64_MAX, INT64_MAX in *. lia. }
  induction fuel as [|fuel IH]; intros rows others_row others_base e Hne Hfuel Hrun.
  { destruct rows; [congruence|simpl in Hfuel; lia]. }
  simpl in Hrun. rewrite Hwrap in Hrun.
  destruct (_ <? _) eqn:Hlt; [discriminate|]. apply Z.ltb_ge in Hlt.
  destruct (exists_last Hne) as (rows0 & child & ->).
  rewrite vector_at_last in Hrun.
  destruct (CheckedAdd (vmsize others_row) (vmsize child)) as [vm|e1] eqn:H1;
    [|injection Hrun as <-; eapply CheckedAdd_Err; eauto].
  destruct (CheckedAdd (filesize others_row) (filesize child)) as [file|e2] eqn:H2;
    [|injection Hrun as <-; eapply CheckedAdd_Err; eauto].
  simpl in Hrun.
  match type of Hrun with
  | rbind ?c _ = _ => destruct c as [others_base1|e3] eqn:H3
  end.
  - simpl in Hrun. rewrite removelast_last in Hrun.
    rewrite length_app in Hrun, Hlt, Hfuel. simpl in Hrun, Hlt, Hfuel.
    assert (Hi : size_t_dec (Z.of_nat (length rows0 + 1) - 1) =
                 Z.of_nat (length rows0) - 1).
    { unfold size_t_dec. destruct (_ =? 0) eqn:H0; [|lia].
      apply Z.eqb_eq in H0. lia. }
    rewrite Hi in Hrun.
    eapply (IH rows0); [| |exact Hrun].
    + destruct rows0; [simpl in Hlt; lia|discriminate].
    + lia.
  - simpl in Hrun. injection Hrun as <-.
    destruct base as [b|]; [|discriminate].
    destruct (children_ b !! name child) as [it|]; [|discriminate].
    destruct (CheckedAdd (vm_total_ others_base) (vm_total_ it)) as [bvm|e4] eqn:H4;
      [|injection H3 as <-; eapply CheckedAdd_Err; eauto].
    destruct (CheckedAdd (file_total_ others_base) (file_total_ it))
      as [bfile|e5] eqn:H5;
      [discriminate|injection H3 as <-; eapply CheckedAdd_Err; eauto].
Qed.

Lemma collapse_raised options base child_rows e :
  1 <= max_rows_per_level options <= INT64_MAX ->
  collapse options base child_rows = Err e -> raised e.
Proof.
  intros Hmax Hrun. unfold collapse in Hrun.
  destruct child_rows as [|r0 rest0] eqn:Hrows; [discriminate|].
  rewrite <- Hrows in *.
  set (sorted := std_sort _ child_rows) in *.
  assert (Hne : sorted <> []).
  { intros H. pose proof (std_sort_length
      (fun a b => collapse_rank_lt (collapse_rank options a)
                    (collapse_rank options b)) child_rows) as Hlen.
    fold sorted in Hlen. rewrite H, Hrows in Hlen. discriminate. }
  destruct (collapse_loop _ _ _ _ _ _ _) as [[[kept others_row] others_base]|e1]
    eqn:Hloop.
  - simpl in Hrun.
    destruct (_ || _); [|discriminate].
    destruct (CheckedAdd 0 (vmsize others_row)) as [vm|e2] eqn:H2;
      [|injection Hrun as <-; eapply CheckedAdd_Err; eauto].
    destruct (CheckedAdd 0 (filesize others_row)) as [file|e3] eqn:H3;
      [discriminate|injection Hrun as <-; eapply CheckedAdd_Err; eauto].
  - simpl in Hrun. injection Hrun as <-.
    eapply collapse_loop_raised; [exact Hmax|exact Hne| |exact Hloop]. lia.
Qed.

Lemma collapse_fresh options base child_rows rows' others_rollup others_base :
  1 <= max_rows_per_level options <= INT64_MAX ->
  Forall fresh_row child_rows ->
  collapse options base child_rows = Ok (rows', others_rollup, others_base) ->
  Forall fresh_row rows' /\ (child_rows = [] -> rows' = []).
Proof.
  intros Hmax Hfresh Hrun. split.
  - destruct (collapse_spec _ _ _ _ _ _ Hmax Hrun)
      as (kept & dropped & Hsorted & _ & Hperm & _).
    rewrite Hperm. apply Forall_app. split.
    + assert (Hs : Forall fresh_row (kept ++ dropped)).
      { rewrite <- Hsorted, std_sort_perm. exact Hfresh. }
      apply Forall_app in Hs. tauto.
    + unfold others_rows. destruct (_ || _); constructor; [|constructor].
      repeat split.
  - intros ->. simpl in Hrun. congruence.
Qed.

Lemma prune_sub row is_toplevel child_rows :
  prune row is_toplevel child_rows = child_rows \/
  prune row is_toplevel child_rows = [].
Proof.
  unfold prune. destruct child_rows as [|r [|r' rest]]; auto.
  destruct (negb is_toplevel && _); simpl; auto.
  destruct (String.eqb (name r) (name row)); auto.
Qed.

Lemma bucket_children_Ok base children sorted shrink mix :
  bucket_children base children = Ok (sorted, shrink, mix) ->
  Forall fresh_row sorted /\ Forall fresh_row shrink /\ Forall fresh_row mix /\
  (children = [] -> sorted = [] /\ shrink = [] /\ mix = []).
Proof.
  revert sorted shrink mix.
  induction children as [|[key child] rest IH]; intros sorted shrink mix H;
    simpl in H.
  - injection H as <- <- <-. split_and!; auto.
  - destruct (_ && _); [discriminate|].
    inv_bind H. destruct a as [[s1 s2] s3].
    destruct (IH _ _ _ Hbind) as (H1 & H2 & H3 & _).
    assert (Hnew : fresh_row (MkRollupRow key (vm_total_ child)
                                (file_total_ child) [] [] [] false))
      by (repeat split).
    destruct (_ && _).
    + injection H as <- <- <-. split_and!; auto; discriminate.
    + destruct (_ <? 0).
      * injection H as <- <- <-. split_and!; auto; discriminate.
      * destruct (_ && _); injection H as <- <- <-;
          split_and!; auto; discriminate.
Qed.

Lemma bucket_children_Err base children e :
  bucket_children base children = Err e -> raised e.
Proof.
  induction children as [|[key child] rest IH]; intros H; simpl in H;
    [discriminate|].
  destruct (_ && _); [injection H as <-; split; discriminate|].
  destruct (bucket_children base rest) as [[[s1 s2] s3]|e1]; simpl in H.
  - destruct (_ && _); [discriminate|].
    destruct (_ <? 0); [discriminate|]. destruct (_ && _); discriminate.
  - injection H as <-. apply IH. reflexivity.
Qed.

Lemma height_pos (r : Rollup) : (1 <= height r)%nat.
Proof. destruct r. simpl. lia. Qed.

Lemma height_leaf v f : height (MkRollup v f ∅) = 1%nat.
Proof. simpl. rewrite map_fold_empty. reflexivity. Qed.

Lemma height_children (self : Rollup) :
  map_to_list (children_ self) <> [] -> (2 <= height self)%nat.
Proof.
  intros Hne. destruct self as [v f c]. simpl in Hne.
  destruct (map_to_list c) as [|[k child] rest] eqn:Hl; [congruence|].
  assert (Hc : c !! k = Some child).
  { apply elem_of_map_to_list. rewrite Hl. left. }
  pose proof (height_child v f c k child Hc).
  pose proof (height_pos child). lia.
Qed.

Lemma ComputeRows_raised create_rows self row child_rows base options
    is_toplevel e :
  1 <= max_rows_per_level options <= INT64_MAX ->
  Forall fresh_row child_rows ->
  (forall r rw b t e',
      rw ∈ child_rows \/ fresh_row rw ->
      child_rows <> [] ->
      (children_ r = ∅ \/ exists k, children_ self !! k = Some r) ->
      fresh_row rw ->
      create_rows r rw b t = Err e' -> raised e') ->
  ComputeRows create_rows self row child_rows base options is_toplevel = Err e ->
  raised e.
Proof.
  intros Hmax Hfresh Hrec Hrun. unfold ComputeRows in Hrun.
  destruct (collapse options base (prune row is_toplevel child_rows))
    as [[[rows1 others_rollup] others_base]|e1] eqn:Hcol; simpl in Hrun.
  - assert (Hpf : Forall fresh_row (prune row is_toplevel child_rows)).
    { destruct (prune_sub row is_toplevel child_rows) as [->| ->];
        [exact Hfresh|constructor]. }
    destruct (collapse_fresh _ _ _ _ _ _ Hmax Hpf Hcol) as [Hf1 Hnil].
    destruct (collapse_spec _ _ _ _ _ _ Hmax Hcol)
      as (_ & _ & _ & _ & _ & _ & _ & Hleaf).
    apply for_rows_Err in Hrun as (r & Hin & Hbody).
    assert (Hne : child_rows <> []).
    { intros ->. rewrite Hnil in Hin by reflexivity. inversion Hin. }
    rewrite Forall_forall in Hf1. specialize (Hf1 _ Hin).
    destruct (String.eqb (name r) others_label).
    + eapply Hrec; eauto.
    + destruct (children_ self !! name r) as [child|] eqn:Hchild.
      * eapply Hrec; eauto.
      * injection Hbody as <-. split; discriminate.
  - injection Hrun as <-. eapply collapse_raised; eauto.
Qed.

(** With fuel for the height of the tree, [CreateRows] returns a row or an
    error that the source raises. *)
Lemma CreateRows_raised options :
  1 <= max_rows_per_level options <= INT64_MAX ->
  forall fuel self row base is_toplevel e,
  (height self <= fuel)%nat -> fresh_row row ->
  CreateRows fuel self row base options is_toplevel = Err e ->
  raised e.
Proof.
  intros Hmax. induction fuel as [|fuel IH];
    intros self row base is_toplevel e Hfuel Hrow Hrun.
  { pose proof (height_pos self). lia. }
  simpl in Hrun. destruct Hrow as (Hr1 & Hr2 & Hr3).
  rewrite Hr1, Hr2, Hr3 in Hrun. simpl in Hrun.
  destruct (bucket_children base (map_to_list (children_ self)))
    as [[[sorted shrink] mix]|e1] eqn:Hb; simpl in Hrun;
    [|injection Hrun as <-; eapply bucket_children_Err; eauto].
  destruct (bucket_children_Ok _ _ _ _ _ Hb) as (Hf1 & Hf2 & Hf3 & Hnil).
  assert (Hrec : forall rows r rw b t e',
            rows = sorted \/ rows = shrink \/ rows = mix ->
            rw ∈ rows \/ fresh_row rw -> rows <> [] ->
            (children_ r = ∅ \/ exists k, children_ self !! k = Some r) ->
            fresh_row rw ->
            CreateRows fuel r rw b options t = Err e' -> raised e').
  { intros rows r rw b t e' Hrows _ Hne Hr Hrw He'.
    assert (Hch : map_to_list (children_ self) <> []).
    { intros Hempty. destruct (Hnil Hempty) as (? & ? & ?).
      destruct Hrows as [->|[->| ->]]; congruence. }
    pose proof (height_children self Hch) as Hh.
    apply (IH r rw b t e'); auto.
    destruct Hr as [Hleaf|(k & Hk)].
    - destruct r as [v f c]. simpl in Hleaf. subst c. rewrite height_leaf. lia.
    - destruct self as [v f c]. simpl in Hk.
      pose proof (height_child v f c k r Hk). lia. }
  destruct (ComputeRows _ self row sorted base options is_toplevel)
    as [sorted'|e2] eqn:H1; simpl in Hrun.
  2:{ injection Hrun as <-.
      eapply (ComputeRows_raised _ _ _ _ _ _ _ _ Hmax Hf1); [|exact H1].
      intros r rw b t e' Hx1 Hx2 Hx3 Hx4 Hx5. apply (Hrec sorted r rw b t e'); auto. }
  destruct (ComputeRows _ self row shrink base options is_toplevel)
    as [shrink'|e3] eqn:H2; simpl in Hrun.
  2:{ injection Hrun as <-.
      eapply (ComputeRows_raised _ _ _ _ _ _ _ _ Hmax Hf2); [|exact H2].
      intros r rw b t e' Hx1 Hx2 Hx3 Hx4 Hx5. apply (Hrec shrink r rw b t e'); auto. }
  destruct (ComputeRows _ self row mix base options is_toplevel)
    as [mix'|e4] eqn:H3; simpl in Hrun; [discriminate|].
  injection Hrun as <-.
  eapply (ComputeRows_raised _ _ _ _ _ _ _ _ Hmax Hf3); [|exact H3].
  intros r rw b t e' Hx1 Hx2 Hx3 Hx4 Hx5. apply (Hrec mix r rw b t e'); auto.
Qed.

End CreateRowsTotal.

(** *** C6: the row limit and the [Other] row *)

(** C6 (as stated, refuted).  The claim bounds the rows of a level by
    [max_rows_per_level].  The source keeps that many rows and then adds
    the row [[Other]]: five children of sizes 100, 90, 80, 70, 60 with a
    limit of 3 give the four rows [Other] = 130, 100, 90, 80. *)
Lemma collapse_row_count_counterexample :
  CreateRollupOutput five_children (options_n 3) =
  Ok (MkRollupRow "TOTAL" 400 400
        [ MkRollupRow "[Other]" 130 130 [] [] [] false;
          MkRollupRow "a" 100 100 [] [] [] false;
          MkRollupRow "b" 90 90 [] [] [] false;
          MkRollupRow "c" 80 80 [] [] [] false ]
        [] [] false) /\
  exists row,
    CreateRollupOutput five_children (options_n 3) = Ok row /\
    max_rows_per_level (options_n 3) < Z.of_nat (length (sorted_children row)).
Proof.
  assert (H : CreateRollupOutput five_children (options_n 3) =
              Ok (MkRollupRow "TOTAL" 400 400
                    [ MkRollupRow "[Other]" 130 130 [] [] [] false;
                      MkRollupRow "a" 100 100 [] [] [] false;
                      MkRollupRow "b" 90 90 [] [] [] false;
                      MkRollupRow "c" 80 80 [] [] [] false ]
                    [] [] false)).
  { vm_compute. reflexivity. }
  split; [exact H|].
  eexists. split; [exact H|]. simpl. lia.
Qed.

(** C6 (amended).  For a limit [max_rows_per_level] of at least 1: the rows
    of a level are sorted for collapsing, the first [max_rows_per_level] of
    them are kept and the others dropped; the output has the kept rows and,
    unless both sums are zero, one row [[Other]] whose VM size is the sum of
    the dropped rows' VM sizes and whose File size is the sum of their File
    sizes -- at most [max_rows_per_level + 1] rows.  The whole output is
    produced unless the source raises an error, and every vector of rows in
    it, at every level, has at most [max_rows_per_level + 1] rows. *)
Theorem collapse_row_limit (options : Options) :
  1 <= max_rows_per_level options <= INT64_MAX ->
  (forall base child_rows rows' others_rollup others_base,
     collapse options base child_rows = Ok (rows', others_rollup, others_base) ->
     exists kept dropped,
       std_sort (fun a b => collapse_rank_lt (collapse_rank options a)
                              (collapse_rank options b)) child_rows
         = kept ++ dropped /\
       length kept =
         Nat.min (length child_rows) (Z.to_nat (max_rows_per_level options)) /\
       rows' ≡ₚ kept ++ others_rows dropped /\
       (length rows' <= Z.to_nat (max_rows_per_level options) + 1)%nat) /\
  (forall self base,
     (exists row,
        CreateDiffModeRollupOutput self base options = Ok row /\
        rows_bounded (Z.to_nat (max_rows_per_level options) + 1) row) \/
     (exists e,
        CreateDiffModeRollupOutput self base options = Err e /\ raised e)).
Proof.
  intros Hmax. split.
  - intros base child_rows rows' others_rollup others_base Hrun.
    destruct (collapse_spec _ _ _ _ _ _ Hmax Hrun)
      as (kept & dropped & Hsorted & Hkept & Hperm & _).
    exists kept, dropped. split_and!; auto.
    eapply collapse_length; eauto.
  - intros self base. unfold CreateDiffModeRollupOutput.
    destruct (CreateRows _ _ _ _ _ _) as [row|e] eqn:Hrun.
    + left. exists row. split; [reflexivity|].
      eapply CreateRows_bounded; eauto.
    + right. exists e. split; [reflexivity|].
      eapply (CreateRows_raised options Hmax); [| |exact Hrun].
      * lia.
      * repeat split.
Qed.

Lemma collapse_row_limit_witness :
  (exists row,
     CreateDiffModeRollupOutput five_children None (options_n 3) = Ok row /\
     rows_bounded 4 row) \/
  (exists e,
     CreateDiffModeRollupOutput five_children None (options_n 3) = Err e /\
     raised e).
Proof.
  assert (Hmax : 1 <= max_rows_per_level (options_n 3) <= INT64_MAX).
  { simpl. unfold INT64_MAX. lia. }
  exact (proj2 (collapse_row_limit (options_n 3) Hmax) five_children None).
Defined.

(** With the limit 0 the loop of [ComputeRows] moves every row into
    [[Other]] and then indexes the empty vector. *)
Example CreateRollupOutput_limit_zero :
  CreateRollupOutput five_children (options_n 0) = Err UndefinedBehaviour.
Proof. vm_compute. reflexivity. Qed.

(** ** RangeSink *)

Section SinkFacts.

Variable RE2_Extract : string -> string -> string -> option string.

Lemma for_outputs_id outputs :
  for_outputs (fun map _ => Ok map) outputs = Ok outputs.
Proof.
  induction outputs as [|[map munger] rest IH]; simpl; [reflexivity|].
  rewrite IH. reflexivity.
Qed.

(** Without a translator, [AddFileRange] changes no output. *)
Lemma AddFileRange_without_translator name fileoff filesize outputs :
  AddFileRange RE2_Extract name fileoff filesize (MkRangeSink None outputs) =
  Ok (MkRangeSink None outputs).
Proof.
  unfold AddFileRange. simpl. rewrite for_outputs_id. reflexivity.
Qed.

(** With a translator, [AddFileRange] does for every output what the
    specification says. *)
Lemma AddFileRange_with_translator name fileoff filesize translator outputs :
  AddFileRange RE2_Extract name fileoff filesize
    (MkRangeSink (Some translator) outputs) =
  let! outputs' :=
    for_outputs
      (fun map munger =>
         add_file_range_spec (Some translator) (Munge RE2_Extract munger name)
           fileoff filesize map)
      outputs in
  Ok (MkRangeSink (Some translator) outputs').
Proof. reflexivity. Qed.

End SinkFacts.

(** *** C5: AddFileRange on a sink without a translator *)

(** C5 (the code departs from the claim).  On a sink without a translator,
    which is the sink that fills the base map, [AddFileRange] leaves the
    File map of its output as it was, where the claim has the range added:
    for the range [0, 64) labelled "[ELF Headers]" and one empty output, the
    source returns the empty output, and the specification's
    [add_file_range] returns the File map with the entry [0, 64). *)
Theorem AddFileRange_drops_range_without_translator
    (RE2_Extract : string -> string -> string -> option string) :
  AddFileRange RE2_Extract "[ELF Headers]" 0 64
    (MkRangeSink None [(new_DualMap, [])]) =
    Ok (MkRangeSink None [(new_DualMap, [])]) /\
  add_file_range_spec None (Munge RE2_Extract [] "[ELF Headers]") 0 64
    new_DualMap =
    Ok (MkDualMap [] [ (0, MkEntry "[ELF Headers]" 64 UINT64_MAX) ]).
Proof. split; reflexivity. Qed.

(** ** BloatyDoMain *)

(** *** C9: the row limit 0 *)

(** C9 (the code departs from the claim).  With [max_rows_per_level] set to
    0, as [-n 0] sets it, and a file name given, [BloatyDoMain] throws
    "max_rows_per_level must be at least 1" before it opens or scans any
    file, where the claim (and the usage text: "Set to '0' for unlimited")
    has the run go on with no limit. *)
Theorem BloatyDoMain_rejects_limit_zero {Output : Type}
    (scan_and_rollup : Options -> result Output)
    (file : string) (files bases sources : list string) (sort : SortBy) :
  BloatyDoMain scan_and_rollup
    (set_max_rows_per_level 0 (MkOptions (file :: files) bases sources 20 sort)) =
  Err (Thrown "max_rows_per_level must be at least 1").
Proof. reflexivity. Qed.
(** ** Further properties of RangeMap *)

(** *** Lookup *)

(** X1.  [FindContaining] on a map that satisfies the invariant is exact:
    it returns an entry if and only if that entry is in the map and its
    range holds [addr], and it returns the end iterator if and only if no
    entry of the map holds [addr]. *)
Theorem FindContaining_exact (m : Map) (addr : Z) :
  WF m ->
  (forall n, FindContaining m addr = Some n <->
             n ∈ m /\ fst n <= addr < end_ (snd n)) /\
  (FindContaining m addr = None <->
   forall n, n ∈ m -> addr < fst n \/ end_ (snd n) <= addr).
Proof.
  intros Hwf. split.
  - intros n. rewrite FindContaining_spec by assumption.
    rewrite EntryContains_true. reflexivity.
  - rewrite FindContaining_None by assumption. unfold covered. split.
    + intros Hno n Hn.
      destruct (EntryContains n addr) eqn:Hc.
      * exfalso. apply Hno. eauto.
      * apply EntryContains_false. assumption.
    + intros Hall (n & Hn & Hc). apply EntryContains_true in Hc.
      destruct (Hall n Hn); lia.
Qed.

Lemma FindContaining_exact_witness :
  FindContaining map_AB 120 = Some (100, MkEntry "B" 150 UINT64_MAX).
Proof.
  apply (proj1 (FindContaining_exact map_AB 120
                  ltac:(unfold WF; simpl; unfold UINT64_MAX; lia))).
  split; [ set_solver | simpl; lia ].
Defined.

(** *** Translation *)

Lemma Translate_covered m m' a :
  WF m -> WF m' -> (forall n, n ∈ m -> n ∈ m') -> covered m a ->
  Translate m' a = Translate m a.
Proof.
  intros Hwf Hwf' Hsub (n & Hn & Hc). unfold Translate.
  rewrite (proj2 (FindContaining_spec m a n Hwf)) by auto.
  rewrite (proj2 (FindContaining_spec m' a n Hwf')) by auto.
  reflexivity.
Qed.

Lemma Translate_uncovered m a : WF m -> ~ covered m a -> Translate m a = None.
Proof.
  intros Hwf Hno. unfold Translate.
  rewrite (proj2 (FindContaining_None m a Hwf)) by assumption. reflexivity.
Qed.

Lemma AddDualRange_translates (m : Map) (addr size otheraddr : Z) (val : string) :
  WF m -> is_u64 addr -> 0 <= size -> addr + size <= UINT64_MAX ->
  0 <= otheraddr -> otheraddr + size <= UINT64_MAX ->
  exists m',
    AddDualRange addr size otheraddr val m = Ok m' /\ WF m' /\
    (forall a, covered m a -> Translate m' a = Translate m a) /\
    (forall a, addr <= a < addr + size -> ~ covered m a ->
       Translate m' a = Some (a - addr + otheraddr)).
Proof.
  intros Hwf Haddr Hsize Hfit Hother Hofit.
  destruct (AddDualRange_spec addr size otheraddr val m Hwf Haddr)
    as (m' & Hrun & Hwf' & Hsub & Hnew & Hcov & _).
  assert (Hend : wrap_u64 (addr + size) = addr + size).
  { apply wrap_u64_id. unfold is_u64 in *. lia. }
  rewrite Hend in *.
  exists m'. split_and!; [assumption | assumption | |].
  - intros a Ha. apply Translate_covered; assumption.
  - intros a Ha Hno.
    destruct (Hcov a Ha) as (n & Hn & Hc).
    destruct (Hnew n Hn) as [Hold | Hne].
    { exfalso. apply Hno. exists n. auto. }
    destruct Hne as (_ & Hlo & _ & Hhi & _ & _ & Hos).
    apply EntryContains_true in Hc.
    assert (Hneq : (otheraddr =? UINT64_MAX) = false) by (apply Z.eqb_neq; lia).
    rewrite Hneq in Hos.
    assert (Hos' : other_start (snd n) = fst n - addr + otheraddr).
    { rewrite Hos. apply wrap_u64_id. unfold is_u64. lia. }
    unfold Translate.
    rewrite (proj2 (FindContaining_spec m' a n Hwf'))
      by (split; [assumption | apply EntryContains_true; lia]).
    unfold HasTranslation, TranslateWithEntry. rewrite Hos'.
    replace (fst n - addr + otheraddr =? UINT64_MAX) with false
      by (symmetry; apply Z.eqb_neq; lia).
    simpl. f_equal.
    replace (a - fst n + (fst n - addr + otheraddr)) with (a - addr + otheraddr)
      by lia.
    apply wrap_u64_id. unfold is_u64. lia.
Qed.


(** X2.  [AddDualRange(addr, size, otheraddr, val)] records the translation
    of the range: an address of the range that no entry held before
    translates to the address at the same distance from [otheraddr], and an
    address that was held keeps the translation it had.  The range and its
    image lie in the 64-bit address space. *)
Theorem AddDualRange_Translate (m : Map) (addr size otheraddr : Z) (val : string) :
  WF m -> is_u64 addr -> 0 <= size -> addr + size <= UINT64_MAX ->
  0 <= otheraddr -> otheraddr + size <= UINT64_MAX ->
  exists m',
    AddDualRange addr size otheraddr val m = Ok m' /\
    (forall a, covered m a -> Translate m' a = Translate m a) /\
    (forall a, addr <= a < addr + size -> ~ covered m a ->
       Translate m' a = Some (a - addr + otheraddr)).
Proof.
  intros Hwf Haddr Hsize Hfit Hother Hofit.
  destruct (AddDualRange_translates m addr size otheraddr val)
    as (m' & Hrun & _ & Hold & Hnew); auto.
  exists m'. auto.
Qed.

Lemma AddDualRange_Translate_witness :
  exists m',
    AddDualRange 4096 256 512 "seg" [] = Ok m' /\
    Translate m' 4160 = Some 576.
Proof.
  destruct (AddDualRange_Translate [] 4096 256 512 "seg")
    as (m' & Hrun & _ & Hnew).
  - unfold WF. simpl. exact I.
  - unfold is_u64, UINT64_MAX. lia.
  - lia.
  - unfold UINT64_MAX. lia.
  - lia.
  - unfold UINT64_MAX. lia.
  - exists m'. split; [assumption |].
    apply (Hnew 4160); [lia |].
    intros (n & Hn & _). set_solver.
Defined.

Lemma AddRange_same_translations (m : Map) (addr size : Z) (val : string) :
  WF m -> is_u64 addr ->
  exists m',
    AddRange addr size val m = Ok m' /\ WF m' /\
    forall a, Translate m' a = Translate m a.
Proof.
  intros Hwf Haddr. unfold AddRange.
  destruct (AddDualRange_spec addr size UINT64_MAX val m Hwf Haddr)
    as (m' & Hrun & Hwf' & Hsub & Hnew & _ & _).
  exists m'. split_and!; [assumption | assumption |]. intros a.
  destruct (FindContaining m a) as [n|] eqn:Hfind.
  - apply Translate_covered; try assumption.
    apply FindContaining_spec in Hfind; [| assumption].
    exists n. assumption.
  - unfold Translate at 2. rewrite Hfind.
    unfold Translate. destruct (FindContaining m' a) as [n|] eqn:Hfind';
      [| reflexivity].
    apply FindContaining_spec in Hfind'; [| assumption].
    destruct Hfind' as (Hn & Hc).
    destruct (Hnew n Hn) as [Hold | Hne].
    + apply FindContaining_None in Hfind; [| assumption].
      exfalso. apply Hfind. exists n. auto.
    + destruct Hne as (_ & _ & _ & _ & _ & _ & Hos).
      rewrite Z.eqb_refl in Hos. unfold HasTranslation. rewrite Hos.
      rewrite Z.eqb_refl. reflexivity.
Qed.


(** X3.  [AddRange] neither creates nor changes a translation: every address
    translates after the call as it did before. *)
Theorem AddRange_keeps_translations (m : Map) (addr size : Z) (val : string) :
  WF m -> is_u64 addr ->
  exists m',
    AddRange addr size val m = Ok m' /\
    forall a, Translate m' a = Translate m a.
Proof.
  intros Hwf Haddr.
  destruct (AddRange_same_translations m addr size val Hwf Haddr)
    as (m' & Hrun & _ & Hsame).
  exists m'. auto.
Qed.

Lemma AddRange_keeps_translations_witness :
  exists m',
    AddRange 4000 1000 "fill" map_seg = Ok m' /\
    Translate m' 4160 = Some 576 /\ Translate m' 4000 = None.
Proof.
  destruct (AddRange_keeps_translations map_seg 4000 1000 "fill")
    as (m' & Hrun & Hsame).
  - unfold WF. simpl. unfold UINT64_MAX. lia.
  - unfold is_u64, UINT64_MAX. lia.
  - exists m'. split_and!; [assumption | |]; rewrite Hsame; reflexivity.
Defined.
(** *** AddRangeWithTranslation *)

Lemma covered_mono (m m' : Map) a :
  (forall n, n ∈ m -> n ∈ m') -> covered m a -> covered m' a.
Proof. intros Hsub (n & Hn & Hc). exists n. auto. Qed.

Lemma wrap_u64_add_l k x : wrap_u64 (k + wrap_u64 x) = wrap_u64 (k + x).
Proof. unfold wrap_u64. apply Zplus_mod_idemp_r. Qed.

(** What the loop over the translator's entries does to [other]: entries
    stay; an added entry is labelled [val], has no translation and holds
    only translations of addresses of the range; and the translation of
    every address of the range that fits the address space is held
    afterwards. *)
Lemma translate_loop_spec addr end' val : forall it lo other,
  0 <= lo -> wf_from lo it -> WF other ->
  exists other',
    translate_loop it addr end' val other = Ok other' /\
    WF other' /\
    (forall n, n ∈ other -> n ∈ other') /\
    (forall n, n ∈ other' ->
       n ∈ other \/
       (label (snd n) = val /\ other_start (snd n) = UINT64_MAX /\
        exists e, e ∈ it /\ HasTranslation (snd e) = true /\
          forall t, fst n <= t < end_ (snd n) ->
            exists a, addr <= a < end' /\ EntryContains e a = true /\
                      TranslateWithEntry e a = t)) /\
    (forall e a, e ∈ it -> EntryContains e a = true -> addr <= a < end' ->
       HasTranslation (snd e) = true ->
       0 <= other_start (snd e) ->
       other_start (snd e) + (end_ (snd e) - fst e) <= UINT64_MAX ->
       covered other' (TranslateWithEntry e a)).
Proof.
  induction it as [|n rest IH]; intros lo other Hlo Hwf Hother.
  { exists other. simpl. split_and!; auto.
    intros e a He. apply elem_of_nil in He. contradiction. }
  simpl in Hwf. destruct Hwf as (Hkey & Hne & Hmax & Hrest).
  simpl. destruct (fst n <? end') eqn:Hlt.
  2: { apply Z.ltb_ge in Hlt. exists other. split_and!; auto.
       intros e a He Hc Ha _ _ _. apply EntryContains_true in Hc.
       apply elem_of_cons in He as [-> | He]; [lia |].
       pose proof (wf_from_elem _ _ _ Hrest He). lia. }
  apply Z.ltb_lt in Hlt.
  (* the call of AddRange for this entry, if any *)
  assert (Hstep : exists other1,
    match TranslateAndTrimRangeWithEntry n addr end' with
    | Some (this_addr, this_size) => AddRange this_addr this_size val other
    | None => Ok other
    end = Ok other1 /\ WF other1 /\
    (forall x, x ∈ other -> x ∈ other1) /\
    (forall x, x ∈ other1 ->
       x ∈ other \/
       (label (snd x) = val /\ other_start (snd x) = UINT64_MAX /\
        HasTranslation (snd n) = true /\
        forall t, fst x <= t < end_ (snd x) ->
          exists a, addr <= a < end' /\ EntryContains n a = true /\
                    TranslateWithEntry n a = t)) /\
    (forall a, EntryContains n a = true -> addr <= a < end' ->
       HasTranslation (snd n) = true ->
       0 <= other_start (snd n) ->
       other_start (snd n) + (end_ (snd n) - fst n) <= UINT64_MAX ->
       covered other1 (TranslateWithEntry n a))).
  { unfold TranslateAndTrimRangeWithEntry.
    set (addr1 := Z.max addr (fst n)). set (end1 := Z.min end' (end_ (snd n))).
    destruct ((end1 <=? addr1) || negb (HasTranslation (snd n))) eqn:Hskip.
    { exists other. split_and!; auto.
      intros a Hc Ha Htr _ _. apply EntryContains_true in Hc.
      rewrite Htr in Hskip. simpl in Hskip. rewrite orb_false_r in Hskip.
      apply Z.leb_le in Hskip. unfold addr1, end1 in Hskip. lia. }
    apply orb_false_iff in Hskip as (Hsz & Htr).
    apply Z.leb_gt in Hsz. apply negb_false_iff in Htr.
    set (this_addr := TranslateWithEntry n addr1).
    set (this_size := wrap_u64 (end1 - addr1)).
    assert (Hsize : this_size = end1 - addr1).
    { apply wrap_u64_id. unfold is_u64, UINT64_MAX in *.
      unfold addr1, end1 in *. lia. }
    destruct (AddDualRange_spec this_addr this_size UINT64_MAX val other Hother
                (wrap_u64_is_u64 _))
      as (other1 & Hrun & Hwf1 & Hsub & Hnew & Hcov & _).
    exists other1. unfold AddRange. split_and!; auto.
    - intros x Hx. destruct (Hnew x Hx) as [Hold | Hnw]; [auto | right].
      destruct Hnw as (Hlab & Hxlo & Hxne & Hxhi & _ & _ & Hos).
      rewrite Z.eqb_refl in Hos. split_and!; auto.
      pose proof (wrap_u64_is_u64 (addr1 - fst n + other_start (snd n))) as Hu.
      fold (TranslateWithEntry n addr1) in Hu. fold this_addr in Hu.
      assert (Hnowrap : this_addr + this_size <= UINT64_MAX).
      { destruct (Z.le_gt_cases (this_addr + this_size) UINT64_MAX) as [|Hgt];
          [assumption | exfalso].
        assert (wrap_u64 (this_addr + this_size)
                = this_addr + this_size - 2 ^ 64).
        { unfold wrap_u64. symmetry.
          apply (Z.mod_unique _ _ 1); unfold is_u64, UINT64_MAX in *;
            unfold addr1, end1 in *; lia. }
        unfold is_u64, UINT64_MAX in *. unfold addr1, end1 in *. lia. }
      rewrite (wrap_u64_id (this_addr + this_size)) in Hxhi
        by (unfold is_u64 in *; lia).
      intros t Ht. exists (addr1 + (t - this_addr)).
      split; [| split].
      + unfold addr1, end1 in *. lia.
      + apply EntryContains_true. unfold addr1, end1 in *. lia.
      + unfold TranslateWithEntry.
        replace (addr1 + (t - this_addr) - fst n + other_start (snd n))
          with ((t - this_addr) + (addr1 - fst n + other_start (snd n))) by lia.
        rewrite <- wrap_u64_add_l.
        fold (TranslateWithEntry n addr1). fold this_addr.
        replace (t - this_addr + this_addr) with t by lia.
        apply wrap_u64_id. unfold is_u64 in *. lia.
    - intros a Hc Ha _ Hos0 Hosfit. apply EntryContains_true in Hc.
      assert (Hthis : this_addr = addr1 - fst n + other_start (snd n)).
      { unfold this_addr, TranslateWithEntry. apply wrap_u64_id.
        unfold is_u64. unfold addr1. lia. }
      apply Hcov. rewrite wrap_u64_id
        by (unfold is_u64; unfold addr1, end1 in *; lia).
      unfold TranslateWithEntry.
      rewrite wrap_u64_id by (unfold is_u64; lia).
      unfold addr1, end1 in *. lia. }
  destruct Hstep as (other1 & Hrun1 & Hwf1 & Hsub1 & Hnew1 & Hcov1).
  rewrite Hrun1. simpl.
  destruct (IH (end_ (snd n)) other1 ltac:(lia) Hrest Hwf1)
    as (other' & Hrun & Hwf' & Hsub & Hnew & Hcov).
  exists other'. split_and!; auto.
  - intros x Hx. destruct (Hnew x Hx) as [Hold | Hnw].
    + destruct (Hnew1 x Hold) as [Hold1 | Hnw1]; [auto | right].
      destruct Hnw1 as (Hlab & Hos & Htr & Hts). split_and!; auto.
      exists n. split_and!; auto. apply elem_of_cons. auto.
    + right. destruct Hnw as (Hlab & Hos & e & He & Htr & Hts).
      split_and!; auto. exists e. split_and!; auto.
      apply elem_of_cons. auto.
  - intros e a He Hc Ha Htr Hos0 Hosfit.
    apply elem_of_cons in He as [-> | He].
    + apply (covered_mono other1); auto.
    + apply Hcov; auto.
Qed.

(** The entry of the translator that holds an address of the range is one
    of those the loop starts from. *)
Lemma FindContainingOrAfter_holds translator addr a e :
  WF translator -> addr <= a -> e ∈ translator -> EntryContains e a = true ->
  e ∈ FindContainingOrAfter translator addr.
Proof.
  intros Hwf Ha He Hc.
  destruct (FindContainingOrAfter_spec translator addr Hwf)
    as (pre & Heq & Hpre & _).
  rewrite Heq in He. apply elem_of_app in He as [He | He]; [| assumption].
  apply EntryContains_true in Hc.
  pose proof (proj1 (Forall_forall _ _) Hpre e He) as Hend. simpl in Hend. lia.
Qed.

Lemma FindContainingOrAfter_suffix translator addr :
  WF translator ->
  (forall e, e ∈ FindContainingOrAfter translator addr -> e ∈ translator) /\
  exists lo, 0 <= lo /\ wf_from lo (FindContainingOrAfter translator addr).
Proof.
  intros Hwf.
  destruct (FindContainingOrAfter_spec translator addr Hwf)
    as (pre & Heq & _ & _).
  split.
  - intros e He. rewrite Heq. apply elem_of_app. auto.
  - exists (last_end 0 pre). unfold WF in Hwf. rewrite Heq in Hwf.
    apply wf_from_app in Hwf as (Hpre & Hit). split; [| assumption].
    apply wf_from_last_end. assumption.
Qed.

(** The loop adds nothing when no entry it visits gives a translated
    range. *)
Lemma translate_loop_nothing addr end' val other : forall it,
  (forall e, e ∈ it -> TranslateAndTrimRangeWithEntry e addr end' = None) ->
  translate_loop it addr end' val other = Ok other.
Proof.
  induction it as [|n rest IH]; intros Hnone; simpl; [reflexivity |].
  destruct (fst n <? end'); [| reflexivity].
  rewrite (Hnone n) by (apply elem_of_cons; auto). simpl.
  apply IH. intros e He. apply Hnone. apply elem_of_cons. auto.
Qed.

(** A range whose end is not after its start gives no translated range. *)
Lemma TranslateAndTrim_empty e addr end' :
  end' <= addr -> TranslateAndTrimRangeWithEntry e addr end' = None.
Proof.
  intros Hle. unfold TranslateAndTrimRangeWithEntry.
  destruct (Z.min end' (end_ (snd e)) <=? Z.max addr (fst e)) eqn:Hcmp;
    [reflexivity |].
  apply Z.leb_gt in Hcmp. lia.
Qed.

(** A translated range starts at the translation of an address of the
    range. *)
Lemma TranslateAndTrim_translates translator e addr end' r :
  WF translator -> e ∈ translator ->
  TranslateAndTrimRangeWithEntry e addr end' = Some r ->
  exists a, addr <= a < end' /\ Translate translator a <> None.
Proof.
  intros Hwf He. unfold TranslateAndTrimRangeWithEntry.
  destruct (Z.min end' (end_ (snd e)) <=? Z.max addr (fst e)) eqn:Hcmp;
    [discriminate |].
  destruct (HasTranslation (snd e)) eqn:Htr; [| discriminate].
  intros _. apply Z.leb_gt in Hcmp.
  exists (Z.max addr (fst e)). split; [lia |].
  unfold Translate.
  rewrite (proj2 (FindContaining_spec translator (Z.max addr (fst e)) e Hwf))
    by (split; [assumption | apply EntryContains_true; lia]).
  rewrite Htr. discriminate.
Qed.

(** X4.  [AddRangeWithTranslation] projects the range through the
    translator into [other].  The entries that [other] had stay.  For a
    range of 64-bit addresses ([addr + size <= UINT64_MAX]): for every
    address of the range that the translator translates, the translated
    address is held by an entry of [other] afterwards, and by one labelled
    [val] if no entry held it before.  For a range that reaches past the
    last 64-bit address the end wraps below [addr], and both maps stay as
    they are. *)
Theorem AddRangeWithTranslation_projects
    (self other translator : Map) (addr size : Z) (val : string) :
  WF self -> WF other -> WF translator -> translation_fits translator ->
  is_u64 addr -> is_u64 size ->
  exists self' other',
    AddRangeWithTranslation addr size val translator self other
      = Ok (self', other') /\
    (forall n, n ∈ other -> n ∈ other') /\
    (addr + size <= UINT64_MAX ->
     forall a t, addr <= a < addr + size -> Translate translator a = Some t ->
       exists n, FindContaining other' t = Some n /\
                 (~ covered other t -> label (snd n) = val)) /\
    (UINT64_MAX < addr + size -> self' = self /\ other' = other).
Proof.
  intros Hself Hother Htrans Hfits Haddr Hsize.
  unfold AddRangeWithTranslation.
  destruct (AddRange_preserves_WF addr size val self Hself Haddr)
    as (self' & Hrun & _).
  rewrite Hrun. simpl.
  destruct (FindContainingOrAfter_suffix translator addr Htrans)
    as (Hin & lo & Hlo & Hwfit).
  destruct (translate_loop_spec addr (wrap_u64 (addr + size)) val
              _ lo other Hlo Hwfit Hother)
    as (other' & Hloop & Hwf' & Hsub & Hnew & Hcov).
  rewrite Hloop. simpl. exists self', other'. split_and!; auto.
  - intros Hfit.
    rewrite wrap_u64_id in Hcov by (unfold is_u64 in *; lia).
    intros a t Ha Ht. unfold Translate in Ht.
    destruct (FindContaining translator a) as [e|] eqn:Hfind; [| discriminate].
    destruct (HasTranslation (snd e)) eqn:Htr; [| discriminate].
    injection Ht as <-.
    apply FindContaining_spec in Hfind as (He & Hc); [| assumption].
    destruct (Hfits e He Htr) as (Hos0 & Hosfit).
    destruct (Hcov e a) as (n & Hn & Hcn); auto.
    { apply (FindContainingOrAfter_holds translator addr a); auto. lia. }
    exists n. split.
    + apply FindContaining_spec; auto.
    + intros Hno. destruct (Hnew n Hn) as [Hold | Hnw].
      * exfalso. apply Hno. exists n. auto.
      * tauto.
  - intros Hwrap. split.
    + unfold AddRange in Hrun.
      rewrite (AddDualRange_wraps addr size UINT64_MAX val self Haddr Hsize
                 Hwrap) in Hrun.
      congruence.
    + rewrite translate_loop_nothing in Hloop; [congruence |].
      intros e _. apply TranslateAndTrim_empty.
      assert (wrap_u64 (addr + size) = addr + size - 2 ^ 64) as ->.
      { unfold wrap_u64. symmetry. apply (Z.mod_unique _ _ 1);
          unfold is_u64, UINT64_MAX in *; lia. }
      unfold is_u64, UINT64_MAX in *. lia.
Qed.

Lemma AddRangeWithTranslation_projects_witness :
  exists self' other' n,
    AddRangeWithTranslation 4160 32 "foo" map_seg [] [] = Ok (self', other') /\
    FindContaining other' 576 = Some n /\ label (snd n) = "foo".
Proof.
  destruct (AddRangeWithTranslation_projects [] [] map_seg 4160 32 "foo")
    as (self' & other' & Hrun & _ & Hproj & _).
  - unfold WF. simpl. exact I.
  - unfold WF. simpl. exact I.
  - unfold WF. simpl. unfold UINT64_MAX. lia.
  - intros n Hn _. apply list_elem_of_singleton in Hn. subst n. simpl.
    unfold UINT64_MAX. lia.
  - unfold is_u64, UINT64_MAX. lia.
  - unfold is_u64, UINT64_MAX. lia.
  - destruct (Hproj ltac:(unfold UINT64_MAX; lia) 4160 576)
      as (n & Hfind & Hlab); [lia | reflexivity |].
    exists self', other', n. split_and!; [assumption | assumption |].
    apply Hlab. intros (x & Hx & _). set_solver.
Defined.

(** A range that reaches past the last 64-bit address, over a translator
    entry that holds its start: nothing is added to either map. *)
Example AddRangeWithTranslation_past_last_address :
  AddRangeWithTranslation (UINT64_MAX - 9) 20 "foo"
    [ (0, MkEntry "seg" (UINT64_MAX - 1) 0) ] [] [] = Ok ([], []).
Proof. reflexivity. Qed.

(** X5.  [AddRangeWithTranslation] adds to [other] nothing but translations
    of the range, whose end is [addr + size] as [uint64_t] computes it: the
    entries that [other] had stay and the invariant is kept; an address
    that [other] holds afterwards was held before, or is the translation of
    an address of the range; an entry that was added carries the label and
    no translation; and when the translator translates no address of the
    range, [other] stays as it is. *)
Theorem AddRangeWithTranslation_only_translations
    (self other translator : Map) (addr size : Z) (val : string) :
  WF self -> WF other -> WF translator -> is_u64 addr ->
  exists self' other',
    AddRangeWithTranslation addr size val translator self other
      = Ok (self', other') /\
    WF other' /\
    (forall n, n ∈ other -> n ∈ other') /\
    (forall n, n ∈ other' -> n ∉ other ->
       label (snd n) = val /\ other_start (snd n) = UINT64_MAX) /\
    (forall t, covered other' t ->
       covered other t \/
       exists a, addr <= a < wrap_u64 (addr + size) /\
                 Translate translator a = Some t) /\
    ((forall a, addr <= a < wrap_u64 (addr + size) ->
        Translate translator a = None) ->
     other' = other).
Proof.
  intros Hself Hother Htrans Haddr.
  unfold AddRangeWithTranslation.
  destruct (AddRange_preserves_WF addr size val self Hself Haddr)
    as (self' & Hrun & _).
  rewrite Hrun. simpl.
  destruct (FindContainingOrAfter_suffix translator addr Htrans)
    as (Hin & lo & Hlo & Hwfit).
  destruct (translate_loop_spec addr (wrap_u64 (addr + size)) val
              _ lo other Hlo Hwfit Hother)
    as (other' & Hloop & Hwf' & Hsub & Hnew & _).
  rewrite Hloop. simpl. exists self', other'. split_and!; auto.
  - intros n Hn Hnot. destruct (Hnew n Hn) as [Hold | Hnw]; tauto.
  - intros t (n & Hn & Hc).
    destruct (Hnew n Hn) as [Hold | Hnw].
    + left. exists n. auto.
    + right. destruct Hnw as (_ & _ & e & He & Htr & Hts).
      apply EntryContains_true in Hc.
      destruct (Hts t Hc) as (a & Ha & Hca & Hta).
      exists a. split; [assumption |]. unfold Translate.
      rewrite (proj2 (FindContaining_spec translator a e Htrans)) by auto.
      rewrite Htr. congruence.
  - intros Hnone. rewrite translate_loop_nothing in Hloop; [congruence |].
    intros e He.
    destruct (TranslateAndTrimRangeWithEntry e addr (wrap_u64 (addr + size)))
      as [r|] eqn:Htrim; [exfalso | reflexivity].
    destruct (TranslateAndTrim_translates translator e addr _ r Htrans
                (Hin e He) Htrim) as (a & Ha & Hsome).
    apply Hsome. apply Hnone. assumption.
Qed.

Lemma AddRangeWithTranslation_only_translations_witness :
  exists self' other',
    AddRangeWithTranslation 0 4096 "hdr" map_seg []
      [ (0, MkEntry "old" 8 UINT64_MAX) ] = Ok (self', other') /\
    other' = [ (0, MkEntry "old" 8 UINT64_MAX) ].
Proof.
  destruct (AddRangeWithTranslation_only_translations []
              [ (0, MkEntry "old" 8 UINT64_MAX) ] map_seg 0 4096 "hdr")
    as (self' & other' & Hrun & _ & _ & _ & _ & Hsame).
  - unfold WF. simpl. exact I.
  - unfold WF. simpl. unfold UINT64_MAX. lia.
  - unfold WF. simpl. unfold UINT64_MAX. lia.
  - unfold is_u64, UINT64_MAX. lia.
  - exists self', other'. split; [assumption |].
    apply Hsame. intros a Ha.
    change (wrap_u64 (0 + 4096)) with 4096 in Ha.
    unfold Translate, map_seg, FindContaining. simpl.
    destruct (a <? 4096) eqn:Hlt; [| apply Z.ltb_ge in Hlt; lia].
    reflexivity.
Defined.
(** ** Further properties of NameMunger and RangeSink *)

Section SinkProperties.

Variable RE2_Extract : string -> string -> string -> option string.

(** X6.  [NameMunger::Munge]: a name that starts with an opening bracket is
    returned as it is; any other name is rewritten by the first expression
    that matches it, in the order the expressions were added, and is
    returned as it is when none matches. *)
Theorem Munge_first_match (munger : NameMunger) (name : string) :
  (forall rest, name = String "["%char rest ->
     Munge RE2_Extract munger name = name) /\
  ((forall rest, name <> String "["%char rest) ->
   (Forall (fun p => RE2_Extract name (fst p) (snd p) = None) munger ->
    Munge RE2_Extract munger name = name) /\
   (forall before re replacement after ret,
      munger = before ++ (re, replacement) :: after ->
      Forall (fun p => RE2_Extract name (fst p) (snd p) = None) before ->
      RE2_Extract name re replacement = Some ret ->
      Munge RE2_Extract munger name = ret)).
Proof.
  split.
  - intros rest ->. reflexivity.
  - intros Hplain.
    assert (Hm : Munge RE2_Extract munger name
                 = Munge_regexes RE2_Extract munger name).
    { unfold Munge. destruct name as [|c rest]; [reflexivity |].
      destruct (Ascii.ascii_dec c "["%char) as [-> | Hc].
      - exfalso. apply (Hplain rest). reflexivity.
      - destruct c as [[] [] [] [] [] [] [] []]; try reflexivity.
        exfalso. apply Hc. reflexivity. }
    rewrite Hm. split.
    + intros Hnone. induction munger as [|[re rep] rest IH]; [reflexivity |].
      simpl. apply Forall_cons in Hnone as (Hhd & Htl). simpl in Hhd.
      rewrite Hhd. apply IH; [| assumption].
      unfold Munge. destruct name as [|c rest']; [reflexivity |].
      destruct (Ascii.ascii_dec c "["%char) as [-> | Hc].
      * exfalso. apply (Hplain rest'). reflexivity.
      * destruct c as [[] [] [] [] [] [] [] []]; try reflexivity.
        exfalso. apply Hc. reflexivity.
    + intros before re replacement after ret -> Hnone Hhit. clear Hm.
      induction before as [|[re' rep'] rest IH]; simpl.
      * rewrite Hhit. reflexivity.
      * apply Forall_cons in Hnone as (Hhd & Htl). simpl in Hhd.
        rewrite Hhd. apply IH. assumption.
Qed.

(** The loop over the outputs runs its body on each of them, and keeps
    each output's munger. *)
Lemma for_outputs_Forall2 body (P : DualMap -> Prop)
    (Q : DualMap -> NameMunger -> DualMap -> Prop) outputs :
  Forall (fun out => P (fst out)) outputs ->
  (forall map munger, P map ->
     exists map', body map munger = Ok map' /\ Q map munger map') ->
  exists outputs',
    for_outputs body outputs = Ok outputs' /\
    Forall2 (fun out out' => snd out' = snd out /\
                             Q (fst out) (snd out) (fst out'))
            outputs outputs'.
Proof.
  intros Hall Hbody. induction outputs as [|[map munger] rest IH].
  - exists []. split; [reflexivity | constructor].
  - apply Forall_cons in Hall as (Hhd & Htl). simpl in Hhd.
    destruct (Hbody map munger Hhd) as (map' & Hrun & HQ).
    destruct (IH Htl) as (rest' & Hrest & Hall2).
    exists ((map', munger) :: rest'). simpl. rewrite Hrun. simpl.
    rewrite Hrest. simpl. split; [reflexivity |].
    constructor; [split; [reflexivity | assumption] | assumption].
Qed.

Lemma Forall2_outputs_WF (outputs outputs' : list (DualMap * NameMunger)) :
  Forall2 (fun out out' => snd out' = snd out /\
                           DualMap_WF (fst out')) outputs outputs' ->
  Forall (fun out => DualMap_WF (fst out)) outputs' /\
  map snd outputs' = map snd outputs.
Proof.
  induction 1 as [|out out' rest rest' (Hm & Hwf) _ (IH1 & IH2)].
  - split; [constructor | reflexivity].
  - split; [constructor; assumption |]. simpl. congruence.
Qed.

(** X7.  The three adders of [RangeSink] keep the invariant of a RangeMap
    in both maps of every output, and leave the translator, the number of
    outputs and their mungers as they are.  [AddFileRange] and [AddRange]
    always return; [AddVMRange] returns when the sink has a translator and
    fails its assertion otherwise. *)
Theorem RangeSink_keeps_invariant (sink : RangeSink) :
  outputs_WF sink ->
  (forall name fileoff filesize, is_u64 fileoff ->
     exists sink',
       AddFileRange RE2_Extract name fileoff filesize sink = Ok sink' /\
       outputs_WF sink' /\ translator_ sink' = translator_ sink /\
       map snd (outputs_ sink') = map snd (outputs_ sink)) /\
  (forall vmaddr vmsize name, is_u64 vmaddr ->
     match translator_ sink with
     | None => AddVMRange RE2_Extract vmaddr vmsize name sink = Err AssertFailed
     | Some _ =>
         exists sink',
           AddVMRange RE2_Extract vmaddr vmsize name sink = Ok sink' /\
           outputs_WF sink' /\ translator_ sink' = translator_ sink /\
           map snd (outputs_ sink') = map snd (outputs_ sink)
     end) /\
  (forall name vmaddr vmsize fileoff filesize,
     is_u64 vmaddr -> is_u64 fileoff ->
     exists sink',
       Sink_AddRange RE2_Extract name vmaddr vmsize fileoff filesize sink
         = Ok sink' /\
       outputs_WF sink' /\ translator_ sink' = translator_ sink /\
       map snd (outputs_ sink') = map snd (outputs_ sink)).
Proof.
  intros Hwf. unfold outputs_WF in Hwf. split_and!.
  - intros name fileoff filesize Hoff. unfold AddFileRange.
    match goal with |- context [for_outputs ?body _] =>
      assert (Hbody : forall map munger, DualMap_WF map ->
                exists map', body map munger = Ok map' /\ DualMap_WF map')
    end.
    { intros map munger (Hvm & Hfile). simpl.
      destruct (translator_ sink) as [translator|].
      - destruct (AddRangeWithTranslation_preserves_WF fileoff filesize
                    (Munge RE2_Extract munger name) (file_map translator)
                    (file_map map) (vm_map map) Hfile Hvm Hoff)
          as (m' & other' & Hrun & Hwf1 & Hwf2).
        rewrite Hrun. simpl. eexists. split; [reflexivity |].
        split; assumption.
      - exists map. split; [reflexivity | split; assumption]. }
    destruct (for_outputs_Forall2 _ DualMap_WF
                (fun _ _ map' => DualMap_WF map') _ Hwf Hbody)
      as (outputs' & Hrun & Hall).
    rewrite Hrun. simpl. eexists. split; [reflexivity |].
    apply Forall2_outputs_WF in Hall as (H1 & H2).
    split_and!; auto.
  - intros vmaddr vmsize name Haddr. unfold AddVMRange.
    destruct (translator_ sink) as [translator|] eqn:Htr; [| reflexivity].
    match goal with |- context [for_outputs ?body _] =>
      assert (Hbody : forall map munger, DualMap_WF map ->
                exists map', body map munger = Ok map' /\ DualMap_WF map')
    end.
    { intros map munger (Hvm & Hfile). simpl.
      destruct (AddRangeWithTranslation_preserves_WF vmaddr vmsize
                  (Munge RE2_Extract munger name) (vm_map translator)
                  (vm_map map) (file_map map) Hvm Hfile Haddr)
        as (m' & other' & Hrun & Hwf1 & Hwf2).
      rewrite Hrun. simpl. eexists. split; [reflexivity |].
      split; assumption. }
    destruct (for_outputs_Forall2 _ DualMap_WF
                (fun _ _ map' => DualMap_WF map') _ Hwf Hbody)
      as (outputs' & Hrun & Hall).
    rewrite Hrun. simpl. eexists. split; [reflexivity |].
    apply Forall2_outputs_WF in Hall as (H1 & H2).
    split_and!; auto.
  - intros name vmaddr vmsize fileoff filesize Haddr Hoff.
    unfold Sink_AddRange.
    match goal with |- context [for_outputs ?body _] =>
      assert (Hbody : forall map munger, DualMap_WF map ->
                exists map', body map munger = Ok map' /\ DualMap_WF map')
    end.
    { intros map munger (Hvm & Hfile). simpl.
      destruct (AddDualRange_spec vmaddr (Z.min vmsize filesize) fileoff
                  (Munge RE2_Extract munger name) (vm_map map) Hvm Haddr)
        as (vm1 & Hrun1 & Hwf1 & _).
      destruct (AddDualRange_spec fileoff (Z.min vmsize filesize) vmaddr
                  (Munge RE2_Extract munger name) (file_map map) Hfile Hoff)
        as (file1 & Hrun2 & Hwf2 & _).
      destruct (AddRange_preserves_WF
                  (wrap_u64 (vmaddr + Z.min vmsize filesize))
                  (wrap_u64 (vmsize - Z.min vmsize filesize))
                  (Munge RE2_Extract munger name) vm1 Hwf1
                  (wrap_u64_is_u64 _))
        as (vm2 & Hrun3 & Hwf3).
      destruct (AddRange_preserves_WF
                  (wrap_u64 (fileoff + Z.min vmsize filesize))
                  (wrap_u64 (filesize - Z.min vmsize filesize))
                  (Munge RE2_Extract munger name) file1 Hwf2
                  (wrap_u64_is_u64 _))
        as (file2 & Hrun4 & Hwf4).
      rewrite Hrun1. simpl. rewrite Hrun2. simpl. rewrite Hrun3. simpl.
      rewrite Hrun4. simpl. eexists. split; [reflexivity |].
      split; assumption. }
    destruct (for_outputs_Forall2 _ DualMap_WF
                (fun _ _ map' => DualMap_WF map') _ Hwf Hbody)
      as (outputs' & Hrun & Hall).
    rewrite Hrun. simpl. eexists. split; [reflexivity |].
    apply Forall2_outputs_WF in Hall as (H1 & H2).
    split_and!; auto.
Qed.

Lemma AddDualRange_covered m addr size otheraddr val m' a :
  WF m -> is_u64 addr ->
  AddDualRange addr size otheraddr val m = Ok m' ->
  covered m' a -> covered m a \/ addr <= a < wrap_u64 (addr + size).
Proof.
  intros Hwf Haddr Hrun (n & Hn & Hc).
  destruct (AddDualRange_spec addr size otheraddr val m Hwf Haddr)
    as (m'' & Hrun' & _ & _ & Hnew & _).
  rewrite Hrun in Hrun'. injection Hrun' as <-.
  destruct (Hnew n Hn) as [Hold | Hnw].
  - left. exists n. auto.
  - right. destruct Hnw as (_ & Hlo & _ & Hhi & _).
    apply EntryContains_true in Hc. lia.
Qed.

(** What [RangeSink::AddRange] does to one map of an output: a dual range
    of [common] bytes from [addr] with image [otheraddr], then a plain range
    for the rest. *)
Lemma dual_then_rest m addr common rest_addr rest_size otheraddr val :
  WF m -> is_u64 addr -> 0 <= common -> addr + common <= UINT64_MAX ->
  0 <= otheraddr -> otheraddr + common <= UINT64_MAX -> is_u64 rest_addr ->
  exists m1 m2,
    AddDualRange addr common otheraddr val m = Ok m1 /\
    AddRange rest_addr rest_size val m1 = Ok m2 /\
    (forall a, addr <= a < addr + common -> ~ covered m a ->
       Translate m2 a = Some (a - addr + otheraddr)) /\
    (forall a, ~ (addr <= a < addr + common) -> ~ covered m a ->
       Translate m2 a = None).
Proof.
  intros Hwf Haddr Hcommon Hfit Hother Hofit Hrest.
  destruct (AddDualRange_translates m addr common otheraddr val)
    as (m1 & Hrun1 & Hwf1 & _ & Hnew); auto.
  destruct (AddRange_same_translations m1 rest_addr rest_size val Hwf1 Hrest)
    as (m2 & Hrun2 & _ & Hsame).
  exists m1, m2. split_and!; auto.
  - intros a Ha Hno. rewrite Hsame. auto.
  - intros a Ha Hno. rewrite Hsame. apply Translate_uncovered; [assumption |].
    intros Hc.
    destruct (AddDualRange_covered _ _ _ _ _ _ _ Hwf Haddr Hrun1 Hc) as [|Hin];
      [contradiction |].
    rewrite wrap_u64_id in Hin by (unfold is_u64 in *; lia). lia.
Qed.

(** X8.  [RangeSink::AddRange] ties the first [min(vmsize, filesize)] bytes
    of the VM range and of the file range to each other, in every output,
    when this common part lies in the 64-bit address space on both sides
    ([vmaddr + min <= UINT64_MAX] and [fileoff + min <= UINT64_MAX]): a VM
    address of that part which no entry held translates to the file offset
    at the same distance from [fileoff], and such a file offset translates
    back to the VM address, so the two translations are inverse to each
    other there; no translation is recorded for any other address that was
    free.  When the common part reaches past the last address on one side,
    the map of that side gets no translation at all: it translates as it
    did before the call, whatever the other map records.  The call returns
    in every case. *)
Theorem Sink_AddRange_round_trip (sink : RangeSink) (name : string)
    (vmaddr vmsize fileoff filesize : Z) :
  outputs_WF sink -> is_u64 vmaddr -> is_u64 fileoff ->
  is_u64 vmsize -> is_u64 filesize ->
  exists sink',
    Sink_AddRange RE2_Extract name vmaddr vmsize fileoff filesize sink
      = Ok sink' /\
    Forall2
      (fun out out' =>
         let common := Z.min vmsize filesize in
         (vmaddr + common <= UINT64_MAX -> fileoff + common <= UINT64_MAX ->
          (forall a, vmaddr <= a < vmaddr + common ->
             ~ covered (vm_map (fst out)) a ->
             Translate (vm_map (fst out')) a = Some (a - vmaddr + fileoff)) /\
          (forall o, fileoff <= o < fileoff + common ->
             ~ covered (file_map (fst out)) o ->
             Translate (file_map (fst out')) o = Some (o - fileoff + vmaddr)) /\
          (forall a, ~ (vmaddr <= a < vmaddr + common) ->
             ~ covered (vm_map (fst out)) a ->
             Translate (vm_map (fst out')) a = None) /\
          (forall o, ~ (fileoff <= o < fileoff + common) ->
             ~ covered (file_map (fst out)) o ->
             Translate (file_map (fst out')) o = None)) /\
         (UINT64_MAX < vmaddr + common ->
          forall a, Translate (vm_map (fst out')) a =
                    Translate (vm_map (fst out)) a) /\
         (UINT64_MAX < fileoff + common ->
          forall o, Translate (file_map (fst out')) o =
                    Translate (file_map (fst out)) o))
      (outputs_ sink) (outputs_ sink').
Proof.
  intros Hwf Haddr Hoff Hvm Hfile. unfold Sink_AddRange.
  set (common := Z.min vmsize filesize) in *.
  assert (Hcommon : is_u64 common).
  { unfold common, is_u64 in *. lia. }
  match goal with |- context [for_outputs ?body _] =>
    destruct (for_outputs_Forall2 body DualMap_WF
      (fun out _ out' =>
         (vmaddr + common <= UINT64_MAX -> fileoff + common <= UINT64_MAX ->
          (forall a, vmaddr <= a < vmaddr + common ->
             ~ covered (vm_map out) a ->
             Translate (vm_map out') a = Some (a - vmaddr + fileoff)) /\
          (forall o, fileoff <= o < fileoff + common ->
             ~ covered (file_map out) o ->
             Translate (file_map out') o = Some (o - fileoff + vmaddr)) /\
          (forall a, ~ (vmaddr <= a < vmaddr + common) ->
             ~ covered (vm_map out) a ->
             Translate (vm_map out') a = None) /\
          (forall o, ~ (fileoff <= o < fileoff + common) ->
             ~ covered (file_map out) o ->
             Translate (file_map out') o = None)) /\
         (UINT64_MAX < vmaddr + common ->
          forall a, Translate (vm_map out') a = Translate (vm_map out) a) /\
         (UINT64_MAX < fileoff + common ->
          forall o, Translate (file_map out') o = Translate (file_map out) o))
      (outputs_ sink) Hwf)
      as (outputs' & Hrun & Hall)
  end.
  { intros map munger (Hwfvm & Hwffile). simpl. fold common.
    remember (Munge RE2_Extract munger name) as label eqn:Hlabel.
    clear Hlabel.
    destruct (AddDualRange_spec vmaddr common fileoff label (vm_map map)
                Hwfvm Haddr) as (vm1 & Hrun1 & Hwf1 & _).
    destruct (AddDualRange_spec fileoff common vmaddr label (file_map map)
                Hwffile Hoff) as (file1 & Hrun3 & Hwf3 & _).
    destruct (AddRange_same_translations vm1 (wrap_u64 (vmaddr + common))
                (wrap_u64 (vmsize - common)) label Hwf1 (wrap_u64_is_u64 _))
      as (vm2 & Hrun2 & _ & Hsame2).
    destruct (AddRange_same_translations file1 (wrap_u64 (fileoff + common))
                (wrap_u64 (filesize - common)) label Hwf3 (wrap_u64_is_u64 _))
      as (file2 & Hrun4 & _ & Hsame4).
    rewrite Hrun1. simpl. rewrite Hrun3. simpl.
    rewrite Hrun2. simpl. rewrite Hrun4. simpl.
    eexists. split; [reflexivity |]. simpl. split; [| split].
    - intros Hvfit Hffit.
      destruct (dual_then_rest (vm_map map) vmaddr common
                  (wrap_u64 (vmaddr + common)) (wrap_u64 (vmsize - common))
                  fileoff label)
        as (vm1' & vm2' & Hr1 & Hr2 & Hvm1 & Hvm2);
        auto using wrap_u64_is_u64; try (unfold is_u64 in *; lia).
      rewrite Hrun1 in Hr1. injection Hr1 as <-.
      rewrite Hrun2 in Hr2. injection Hr2 as <-.
      destruct (dual_then_rest (file_map map) fileoff common
                  (wrap_u64 (fileoff + common)) (wrap_u64 (filesize - common))
                  vmaddr label)
        as (file1' & file2' & Hr3 & Hr4 & Hfile1 & Hfile2);
        auto using wrap_u64_is_u64; try (unfold is_u64 in *; lia).
      rewrite Hrun3 in Hr3. injection Hr3 as <-.
      rewrite Hrun4 in Hr4. injection Hr4 as <-.
      split_and!; assumption.
    - intros Hwrap a. rewrite Hsame2.
      rewrite (AddDualRange_wraps vmaddr common fileoff label (vm_map map)
                 Haddr Hcommon Hwrap) in Hrun1.
      injection Hrun1 as <-. reflexivity.
    - intros Hwrap o. rewrite Hsame4.
      rewrite (AddDualRange_wraps fileoff common vmaddr label (file_map map)
                 Hoff Hcommon Hwrap) in Hrun3.
      injection Hrun3 as <-. reflexivity. }
  rewrite Hrun. simpl. eexists. split; [reflexivity |]. simpl.
  eapply Forall2_impl; [exact Hall |].
  intros out out' (_ & HQ). exact HQ.
Qed.

End SinkProperties.

Lemma Munge_first_match_witness :
  Munge prefix_Extract [ ("_Z", "mangled"); ("f", "F") ]%string "foo" = "F"%string.
Proof.
  apply (proj2 (proj2 (Munge_first_match prefix_Extract
                         [ ("_Z", "mangled"); ("f", "F") ]%string "foo")
                  ltac:(discriminate))
         [ ("_Z", "mangled") ]%string "f"%string "F"%string []).
  - reflexivity.
  - repeat constructor.
  - reflexivity.
Defined.

Lemma RangeSink_keeps_invariant_witness :
  exists sink',
    Sink_AddRange prefix_Extract ".text" 4096 256 512 256
      (MkRangeSink None [ (new_DualMap, []) ]) = Ok sink' /\
    outputs_WF sink'.
Proof.
  destruct (proj2 (proj2 (RangeSink_keeps_invariant prefix_Extract
                            (MkRangeSink None [ (new_DualMap, []) ])
                            ltac:(repeat constructor)))
              ".text"%string 4096 256 512 256)
    as (sink' & Hrun & Hwf & _).
  - unfold is_u64, UINT64_MAX. lia.
  - unfold is_u64, UINT64_MAX. lia.
  - exists sink'. split; assumption.
Defined.

Lemma Sink_AddRange_round_trip_witness :
  exists sink',
    Sink_AddRange prefix_Extract ".data" 4096 512 512 256
      (MkRangeSink None [ (new_DualMap, []) ]) = Ok sink' /\
    Forall (fun out' =>
              Translate (vm_map (fst out')) 4100 = Some 516 /\
              Translate (file_map (fst out')) 516 = Some 4100 /\
              Translate (vm_map (fst out')) 4400 = None)
           (outputs_ sink').
Proof.
  destruct (Sink_AddRange_round_trip prefix_Extract
              (MkRangeSink None [ (new_DualMap, []) ]) ".data" 4096 512 512 256)
    as (sink' & Hrun & Hall).
  - repeat constructor.
  - unfold is_u64, UINT64_MAX. lia.
  - unfold is_u64, UINT64_MAX. lia.
  - unfold is_u64, UINT64_MAX. lia.
  - unfold is_u64, UINT64_MAX. lia.
  - exists sink'. split; [assumption |]. simpl in Hall.
    apply Forall2_cons_inv_l in Hall as (out' & rest & (Hfit & _) & Hrest & ->).
    apply Forall2_nil_inv_l in Hrest as ->.
    destruct Hfit as (H1 & H2 & H3 & _);
      [unfold UINT64_MAX; lia | unfold UINT64_MAX; lia |].
    assert (Hfree : forall a, ~ covered [] a).
    { intros a (n & Hn & _). set_solver. }
    repeat constructor.
    + apply (H1 4100); [lia | apply Hfree].
    + apply (H2 516); [lia | apply Hfree].
    + apply (H3 4400); [lia | apply Hfree].
Defined.

(** A VM range that reaches past the last 64-bit address: the dual range
    of the VM map wraps and is not inserted, while the file map records
    its side, so the file offsets translate and the VM addresses do not. *)
Example Sink_AddRange_past_last_address :
  Sink_AddRange prefix_Extract ".data" (UINT64_MAX - 9) 20 0 20
    (MkRangeSink None [ (new_DualMap, []) ]) =
  Ok (MkRangeSink None
        [ (MkDualMap [] [ (0, MkEntry ".data" 20 (UINT64_MAX - 9)) ], []) ]).
Proof. reflexivity. Qed.
(** ** Further properties of ComputeRollup *)

Section ComputeRollupKeys.

Context (filename : string) (filename_position : Z).

Implicit Types (m iter : Map) (iters : list Map).

(** The key that a round pushes for one map is the key of every address
    between [current] and the iterator's breakpoint. *)
Lemma key_at_iter current m iter a :
  WF m -> iter_of current m iter -> head_ends_after current iter ->
  current <= a < iter_break current iter ->
  key_at m a =
  if iter_has_data current iter
  then match iter with n :: _ => label (snd n) | [] => "[None]"%string end
  else "[None]"%string.
Proof.
  intros Hwf Hiter Hhead Ha.
  pose proof (covered_iff_has_data current m iter a Hwf Hiter Hhead Ha) as Hcov.
  unfold key_at. destruct (iter_has_data current iter) eqn:Hdata.
  - destruct iter as [|n rest]; [discriminate |].
    destruct Hiter as (pre & -> & _).
    unfold iter_has_data in Hdata. apply negb_true_iff, Z.ltb_ge in Hdata.
    unfold iter_break in Ha.
    replace (current <? fst n) with false in Ha
      by (symmetry; apply Z.ltb_ge; lia).
    unfold RangeEnd in Ha.
    rewrite (proj2 (FindContaining_spec (pre ++ n :: rest) a n Hwf));
      [reflexivity |].
    split; [apply elem_of_app; right; apply elem_of_cons; auto |].
    apply EntryContains_true. lia.
  - rewrite (proj2 (FindContaining_None m a Hwf)); [reflexivity |].
    intros Hc. apply Hcov in Hc. discriminate.
Qed.

Lemma scan_keys_eq (range_maps : list Map) iters a current :
  Forall WF range_maps ->
  Forall2 (iter_of current) range_maps iters ->
  forall i nb hd,
  nb <= UINTPTR_MAX ->
  current <= a <
    scan_next_break (scan iters i filename filename_position current nb hd) ->
  scan_keys (scan iters i filename filename_position current nb hd) =
  keys_from range_maps i filename filename_position a.
Proof.
  intros Hwf Hiters. induction Hiters as [|m iter maps iters Hiter _ IH];
    intros i nb hd Hnb Ha.
  { simpl. rewrite app_nil_r. reflexivity. }
  apply Forall_cons in Hwf as (Hwfm & Hwfrest).
  rewrite scan_cons in Ha |- *. simpl in Ha |- *.
  pose proof (iter_of_advance current m iter Hiter) as Hiter'.
  destruct (advance_spec iter current) as (_ & _ & _ & Hhead).
  remember (advance iter current) as iter' eqn:Heq. clear Heq.
  set (nb' := match iter' with
              | [] => nb
              | _ :: _ => Z.min nb (iter_break current iter')
              end) in *.
  pose proof (scan_next_break_le filename filename_position iters (S i) current
                nb' (hd || iter_has_data current iter')) as Hle.
  assert (Hnb' : nb' <= UINTPTR_MAX /\ nb' <= iter_break current iter').
  { unfold nb'. destruct iter'; simpl; lia. }
  f_equal. f_equal.
  - symmetry. apply (key_at_iter current); auto. lia.
  - apply (IH Hwfrest); [lia | assumption].
Qed.

Lemma rollup_loop_keys (range_maps : list Map) :
  Forall WF range_maps ->
  forall fuel iters current calls,
  Forall2 (iter_of current) range_maps iters ->
  rollup_loop fuel iters filename filename_position current = Ok calls ->
  forall keys cur next a,
    (keys, cur, next) ∈ calls -> cur <= a < next ->
    keys = keys_from range_maps 0 filename filename_position a.
Proof.
  intros Hwf. induction fuel as [|fuel IH]; intros iters current calls Hiters Hrun.
  { discriminate. }
  rewrite rollup_loop_S in Hrun. simpl in Hrun.
  set (st := scan iters 0 filename filename_position current UINTPTR_MAX false)
    in *.
  destruct (scan_next_break st =? UINTPTR_MAX) eqn:Hstop.
  { injection Hrun as <-. intros keys cur next a Hin.
    apply elem_of_nil in Hin. contradiction. }
  apply Z.eqb_neq in Hstop.
  inv_bind Hrun. injection Hrun as <-.
  pose proof (scan_progress filename filename_position iters 0 current Hstop)
    as (Hlt & _).
  fold st in Hlt.
  assert (Hnext : Forall2 (iter_of (scan_next_break st)) range_maps
                    (scan_iters st)).
  { replace (scan_iters st) with (map (fun iter => advance iter current) iters)
      by (symmetry; apply scan_iters_eq).
    apply Forall2_fmap_r.
    eapply Forall2_impl; [exact Hiters |].
    intros m iter Hi. apply (iter_of_mono current); [lia |].
    apply iter_of_advance. assumption. }
  intros keys cur next addr Hin Ha.
  assert (Htail : (keys, cur, next) ∈ a ->
                  keys = keys_from range_maps 0 filename filename_position addr).
  { intros Hin'. exact (IH _ _ _ Hnext Hbind keys cur next addr Hin' Ha). }
  destruct (scan_have_data st); [| auto].
  apply elem_of_cons in Hin as [Heq | Hin']; [| auto].
  injection Heq as -> -> ->.
  apply (scan_keys_eq range_maps); auto. lia.
Qed.

Lemma init_iters_same (range_maps : list Map) : forall current iters current',
  init_iters range_maps current = Ok (iters, current') -> iters = range_maps.
Proof.
  induction range_maps as [|m rest IH]; intros current iters current' Hrun.
  - simpl in Hrun. congruence.
  - simpl in Hrun. destruct m as [|first tl]; [discriminate |].
    inv_bind Hrun. destruct a as (its & c). simpl in Hrun.
    injection Hrun as <- <-. f_equal. eapply IH. exact Hbind.
Qed.

Lemma with_filename_cons (key : string) (keys : list string) (p : Z) :
  with_filename filename p (key :: keys) =
  (if p =? 0 then [filename] else []) ++
  key :: with_filename filename (p - 1) keys.
Proof.
  unfold with_filename. simpl length.
  destruct (Z.eqb_spec p 0) as [-> | Hp0].
  - simpl. reflexivity.
  - destruct (Z.leb_spec 0 p) as [Hp | Hp]; simpl.
    + replace (0 <=? p - 1) with true by (symmetry; apply Z.leb_le; lia).
      simpl.
      destruct (Z.leb_spec p (Z.of_nat (S (length keys)))) as [Hle | Hgt].
      * replace (p - 1 <=? Z.of_nat (length keys)) with true
          by (symmetry; apply Z.leb_le; lia).
        replace (Z.to_nat p) with (S (Z.to_nat (p - 1))) by lia.
        reflexivity.
      * replace (p - 1 <=? Z.of_nat (length keys)) with false
          by (symmetry; apply Z.leb_gt; lia).
        reflexivity.
    + replace (0 <=? p - 1) with false by (symmetry; apply Z.leb_gt; lia).
      reflexivity.
Qed.

Lemma keys_from_with_filename (range_maps : list Map) (a : Z) : forall i,
  keys_from range_maps i filename filename_position a =
  with_filename filename (filename_position - Z.of_nat i)
    (map (fun m => key_at m a) range_maps).
Proof.
  induction range_maps as [|m rest IH]; intros i.
  - simpl. unfold with_filename, filename_here. simpl length.
    change (Z.of_nat 0) with 0. rewrite take_nil, drop_nil, app_nil_r.
    destruct (Z.leb_spec 0 filename_position),
             (Z.eqb_spec filename_position (Z.of_nat i)),
             (Z.leb_spec 0 (filename_position - Z.of_nat i)),
             (Z.leb_spec (filename_position - Z.of_nat i) 0);
      simpl; try lia; reflexivity.
  - simpl. rewrite IH, with_filename_cons. f_equal.
    + unfold filename_here.
      destruct (Z.eqb_spec filename_position (Z.of_nat i)) as [-> | Hne].
      * replace (0 <=? Z.of_nat i) with true
          by (symmetry; apply Z.leb_le; lia).
        rewrite Z.sub_diag. reflexivity.
      * rewrite andb_false_r.
        replace (filename_position - Z.of_nat i =? 0) with false
          by (symmetry; apply Z.eqb_neq; lia).
        reflexivity.
    + f_equal. f_equal. lia.
Qed.

Lemma ComputeRollup_keys_from (range_maps : list Map) (calls : list rollup_call) :
  Forall WF range_maps ->
  ComputeRollup range_maps filename filename_position = Ok calls ->
  forall keys cur next a,
    (keys, cur, next) ∈ calls -> cur <= a < next ->
    keys = keys_from range_maps 0 filename filename_position a.
Proof.
  intros Hwf Hrun. unfold ComputeRollup in Hrun.
  destruct (length range_maps =? 0)%nat; [discriminate |].
  inv_bind Hrun. destruct a as (iters & current).
  destruct (current =? UINTPTR_MAX); [discriminate |].
  apply init_iters_same in Hbind as ->.
  eapply (rollup_loop_keys range_maps Hwf); [| eassumption].
  apply Forall2_same_length_lookup_2; [reflexivity |].
  intros i m m' Hm Hm'. rewrite Hm in Hm'. injection Hm' as <-.
  exists []. split; [reflexivity | constructor].
Qed.

(** X9.  The keys of every call of the callback are the labels at the
    addresses of its interval: for each address [a] of [cur, next) and each
    map, in order, the key is the label of the map's entry that holds [a],
    or ["[None]"] if the map has none; the file name stands before the key
    of the map number [filename_position] (after the last key when
    [filename_position] is the number of maps, nowhere when it is negative
    or larger). *)
Theorem ComputeRollup_keys (range_maps : list Map) (calls : list rollup_call) :
  Forall WF range_maps ->
  ComputeRollup range_maps filename filename_position = Ok calls ->
  forall keys cur next a,
    (keys, cur, next) ∈ calls -> cur <= a < next ->
    keys = with_filename filename filename_position
             (map (fun m => key_at m a) range_maps).
Proof.
  intros Hwf Hrun keys cur next a Hin Ha.
  rewrite (ComputeRollup_keys_from range_maps calls Hwf Hrun keys cur next a
             Hin Ha).
  rewrite keys_from_with_filename. f_equal. lia.
Qed.

End ComputeRollupKeys.

Lemma ComputeRollup_keys_witness :
  exists calls,
    ComputeRollup join_maps "a.out" 1 = Ok calls /\
    forall keys cur next, (keys, cur, next) ∈ calls -> cur <= 7 < next ->
      keys = [ "X"; "a.out"; "Z" ]%string.
Proof.
  exists [ (["X"; "a.out"; "[None]"], 0, 5); (["X"; "a.out"; "Z"], 5, 10);
           (["[None]"; "a.out"; "Z"], 10, 20); (["Y"; "a.out"; "Z"], 20, 25);
           (["Y"; "a.out"; "[None]"], 25, 30) ]%string.
  split; [reflexivity |].
  intros keys cur next Hin Ha.
  apply (ComputeRollup_keys "a.out" 1 join_maps _
           ltac:(repeat constructor; unfold WF; simpl; unfold UINT64_MAX; lia)
           ltac:(reflexivity) keys cur next 7 Hin Ha).
Defined.
(** ** Further properties of Rollup *)

Section RollupPaths.

Implicit Types (r self other node : Rollup) (path labels : list string).

Lemma node_at_new path : path <> [] -> node_at path new_Rollup = None.
Proof. destruct path; [congruence | reflexivity]. Qed.

Lemma vm_at_child_or_new (c : gmap string Rollup) name path v f :
  vm_at path (child_or_new c name) = vm_at (name :: path) (MkRollup v f c).
Proof.
  unfold vm_at, child_or_new. simpl. destruct (c !! name) as [child|]; simpl;
    [reflexivity |].
  destruct path; reflexivity.
Qed.

Lemma file_at_child_or_new (c : gmap string Rollup) name path v f :
  file_at path (child_or_new c name) = file_at (name :: path) (MkRollup v f c).
Proof.
  unfold file_at, child_or_new. simpl. destruct (c !! name) as [child|]; simpl;
    [reflexivity |].
  destruct path; reflexivity.
Qed.

Lemma bool_decide_prefix_cons (x y : string) path labels :
  bool_decide ((x :: path) `prefix_of` (y :: labels)) =
  bool_decide (x = y) && bool_decide (path `prefix_of` labels).
Proof.
  destruct (decide (x = y)) as [-> | Hne].
  - rewrite (bool_decide_eq_true_2 (y = y)) by reflexivity. simpl.
    apply bool_decide_ext. split.
    + apply prefix_cons_inv_2.
    + apply prefix_cons.
  - rewrite (bool_decide_eq_false_2 (x = y)) by assumption. simpl.
    apply bool_decide_eq_false_2. intros H. apply prefix_cons_inv_1 in H.
    contradiction.
Qed.

(** One exact addition along [labels] adds [size] at the paths that
    [labels] goes along, and nowhere else. *)
Lemma totals_at_exact labels : forall size is_vm node path,
  vm_at path (add_sizes_exact labels size is_vm node) =
    vm_at path node +
    (if is_vm && bool_decide (path `prefix_of` labels) then size else 0) /\
  file_at path (add_sizes_exact labels size is_vm node) =
    file_at path node +
    (if negb is_vm && bool_decide (path `prefix_of` labels) then size else 0).
Proof.
  induction labels as [|label rest IH]; intros size is_vm node path;
    destruct node as [v f c].
  - destruct path as [|name path].
    + rewrite (bool_decide_eq_true_2 ([] `prefix_of` [])) by reflexivity.
      unfold vm_at, file_at. simpl. destruct is_vm; simpl; lia.
    + rewrite (bool_decide_eq_false_2 ((name :: path) `prefix_of` []))
        by apply prefix_nil_not.
      rewrite !andb_false_r. unfold vm_at, file_at. simpl. lia.
  - destruct path as [|name path].
    + rewrite (bool_decide_eq_true_2 ([] `prefix_of` (label :: rest)))
        by apply prefix_nil.
      unfold vm_at, file_at. simpl. destruct is_vm; simpl; lia.
    + rewrite bool_decide_prefix_cons.
      destruct (decide (name = label)) as [-> | Hne].
      * rewrite (bool_decide_eq_true_2 (label = label)) by reflexivity.
        rewrite <- (vm_at_child_or_new c label path v f),
                <- (file_at_child_or_new c label path v f).
        destruct (IH size is_vm (child_or_new c label) path) as (Hvm & Hfile).
        unfold vm_at at 1. unfold file_at at 1. simpl.
        rewrite lookup_insert_eq.
        unfold vm_at in Hvm at 1. unfold file_at in Hfile at 1.
        simpl in Hvm, Hfile. split; assumption.
      * rewrite (bool_decide_eq_false_2 (name = label)) by assumption.
        rewrite !andb_false_l, !andb_false_r.
        unfold vm_at, file_at. simpl.
        rewrite lookup_insert_ne by congruence. lia.
Qed.

Lemma totals_at_run_exact calls : forall self path,
  vm_at path (run_exact calls self) = vm_at path self + sum_sizes true path calls /\
  file_at path (run_exact calls self) =
    file_at path self + sum_sizes false path calls.
Proof.
  induction calls as [|c calls IH]; intros self path.
  - unfold run_exact, sum_sizes. simpl. lia.
  - unfold run_exact. simpl. fold (run_exact calls).
    destruct (IH (add_sizes_exact (tail (call_names c)) (call_size c)
                    (call_is_vmsize c) self) path) as (Hvm & Hfile).
    unfold run_exact in Hvm, Hfile |- *. rewrite Hvm, Hfile.
    destruct (totals_at_exact (tail (call_names c)) (call_size c)
                (call_is_vmsize c) self path) as (Hvm1 & Hfile1).
    rewrite Hvm1, Hfile1. unfold sum_sizes. simpl.
    destruct (call_is_vmsize c); simpl; lia.
Qed.

(** X10.  After a run of [AddSizes] calls on an empty rollup that does not
    throw, the node at every label path holds the sums of the sizes of the
    calls that went through it: its VM total is the sum over the VM calls
    whose labels after the first (the base map's) start with the path, and
    its file total the sum over such file calls.  The root holds the sum of
    all sizes, and a path no call went along holds nothing. *)
Theorem AddSizes_path_totals (calls : list add_call) (r : Rollup) :
  run_AddSizes calls new_Rollup = Ok r ->
  forall path,
    vm_at path r = sum_sizes true path calls /\
    file_at path r = sum_sizes false path calls.
Proof.
  intros Hrun path. apply run_AddSizes_exact in Hrun. subst r.
  destruct (totals_at_run_exact calls new_Rollup path) as (Hvm & Hfile).
  rewrite Hvm, Hfile.
  assert (Hz : vm_at path new_Rollup = 0 /\ file_at path new_Rollup = 0).
  { unfold vm_at, file_at. destruct path as [|name path]; [simpl; auto |].
    rewrite node_at_new by discriminate. auto. }
  destruct Hz as (-> & ->). split; lia.
Qed.

Lemma is_i64_at path : forall self,
  int64_rollup self -> is_i64 (vm_at path self) /\ is_i64 (file_at path self).
Proof.
  assert (Hz : is_i64 0) by (unfold is_i64, INT64_MIN, INT64_MAX; lia).
  induction path as [|name path IH]; intros self Hself;
    inversion Hself as [r Hvm Hfile Hch]; subst r.
  - unfold vm_at, file_at. simpl. auto.
  - unfold vm_at, file_at. simpl.
    destruct (children_ self !! name) as [child|] eqn:Hchild; [| auto].
    apply (IH child). eapply Hch. exact Hchild.
Qed.

Lemma int64_child_or_new self name :
  int64_rollup self -> int64_rollup (child_or_new (children_ self) name).
Proof.
  intros Hself. inversion Hself as [r Hvm Hfile Hch]; subst r.
  unfold child_or_new. destruct (children_ self !! name) as [child|] eqn:Hchild.
  - simpl. eapply Hch. exact Hchild.
  - simpl. constructor; simpl.
    + unfold is_i64, INT64_MIN, INT64_MAX. lia.
    + unfold is_i64, INT64_MIN, INT64_MAX. lia.
    + intros name' r' H. rewrite lookup_empty in H. discriminate.
Qed.

(** X11.  [Subtract] is the difference of the two trees at every label
    path: the node at a path holds the totals of [self] there minus those of
    [other] there, in 64-bit signed arithmetic, a tree without a node at
    the path counting as zero; and the result has a node exactly at the
    paths where [self] or [other] has one.  The totals of [self] are values
    of [int64_t]. *)
Theorem Subtract_path_totals (other : Rollup) :
  forall (self : Rollup), int64_rollup self ->
  forall path,
    vm_at path (Subtract other self) =
      wrap_i64 (vm_at path self - vm_at path other) /\
    file_at path (Subtract other self) =
      wrap_i64 (file_at path self - file_at path other) /\
    (is_Some (node_at path (Subtract other self)) <->
     is_Some (node_at path self) \/ is_Some (node_at path other)).
Proof.
  induction other as [ov of_ oc IH] using Rollup_children_ind.
  intros self Hself path. destruct path as [|name path].
  - unfold vm_at, file_at. simpl. split_and!; [reflexivity .. |].
    split; [intros _; left |]; eauto.
  - remember (MkRollup ov of_ oc) as other eqn:Hother.
    assert (Hoc' : children_ other = oc) by (subst other; reflexivity).
    clear Hother.
    pose proof (Subtract_children other self name) as Hch.
    rewrite Hoc' in Hch.
    destruct self as [sv sf sc].
    pose proof (vm_at_child_or_new sc name path sv sf) as Hvmc.
    pose proof (file_at_child_or_new sc name path sv sf) as Hfilec.
    unfold vm_at, file_at in *. simpl node_at in *. rewrite Hch, Hoc'.
    simpl children_ in *.
    destruct (oc !! name) as [ochild|] eqn:Hoc.
    + destruct (IH name ochild Hoc (child_or_new sc name)
                  (int64_child_or_new (MkRollup sv sf sc) name Hself) path)
        as (Hvm & Hfile & Hnode).
      unfold vm_at, file_at in Hvm, Hfile.
      rewrite Hvm, Hfile, Hvmc, Hfilec. split_and!; [reflexivity .. |].
      rewrite Hnode. unfold child_or_new.
      destruct (sc !! name) as [schild|]; simpl; [tauto |].
      destruct path as [|name' path]; simpl.
      * split; [intros _; right | intros _; left]; eauto.
      * rewrite lookup_empty. tauto.
    + destruct (is_i64_at (name :: path) (MkRollup sv sf sc) Hself)
        as (Hi1 & Hi2).
      unfold vm_at, file_at in Hi1, Hi2. simpl node_at in Hi1, Hi2.
      split_and!.
      * rewrite Z.sub_0_r, wrap_i64_id; [reflexivity | assumption].
      * rewrite Z.sub_0_r, wrap_i64_id; [reflexivity | assumption].
      * split; [auto |]. intros [H | H]; [assumption |].
        destruct H as (x & Hx). discriminate.
Qed.

End RollupPaths.

Lemma AddSizes_path_totals_witness :
  vm_at ["x"] tree_xy = 3 /\ file_at ["x"] tree_xy = 7.
Proof.
  assert (Hrun : run_AddSizes calls_xy new_Rollup = Ok tree_xy)
    by (vm_compute; reflexivity).
  destruct (AddSizes_path_totals calls_xy tree_xy Hrun ["x"%string])
    as (Hvm & Hfile).
  split; [rewrite Hvm | rewrite Hfile]; reflexivity.
Defined.

Lemma Subtract_path_totals_witness :
  vm_at ["x"] (Subtract sum_b sum_a) = 1 /\
  file_at ["x"] (Subtract sum_b sum_a) = -2.
Proof.
  assert (Hint : int64_rollup sum_a).
  { constructor; simpl.
    - unfold is_i64, INT64_MIN, INT64_MAX. lia.
    - unfold is_i64, INT64_MIN, INT64_MAX. lia.
    - intros name r' H. apply lookup_singleton_Some in H as (_ & <-).
      apply int64_rollup_leaf; unfold is_i64, INT64_MIN, INT64_MAX; lia. }
  destruct (Subtract_path_totals sum_b sum_a Hint ["x"%string])
    as (Hvm & Hfile & _).
  split; [rewrite Hvm | rewrite Hfile]; reflexivity.
Defined.
(** ** Further properties of the collapser *)

Section CollapserProperties.

Implicit Types (rows child_rows kept dropped : list RollupRow)
  (row : RollupRow) (options : Options).

Lemma sum_vmsize_perm rows rows' :
  rows ≡ₚ rows' -> sum_vmsize rows = sum_vmsize rows'.
Proof.
  induction 1 as [| x l l' _ IH | x y l | l1 l2 l3 _ IH1 _ IH2]; simpl; lia.
Qed.

Lemma sum_filesize_perm rows rows' :
  rows ≡ₚ rows' -> sum_filesize rows = sum_filesize rows'.
Proof.
  induction 1 as [| x l l' _ IH | x y l | l1 l2 l3 _ IH1 _ IH2]; simpl; lia.
Qed.

Lemma others_rows_sums dropped :
  sum_vmsize (others_rows dropped) = sum_vmsize dropped /\
  sum_filesize (others_rows dropped) = sum_filesize dropped.
Proof.
  unfold others_rows.
  destruct ((0 <? Z.abs (sum_vmsize dropped)) ||
            (0 <? Z.abs (sum_filesize dropped))) eqn:Hany.
  - simpl. lia.
  - apply orb_false_iff in Hany as (Hvm & Hfile).
    apply Z.ltb_ge in Hvm, Hfile. simpl. lia.
Qed.

(** The sorting and cutting step conserves the sizes: the rows it leaves,
    with the [[Other]] row, add up to what the rows it was given add up
    to. *)
Lemma collapse_sums options (base : option Rollup) child_rows
    rows' (others_rollup others_base : Rollup) :
  1 <= max_rows_per_level options <= INT64_MAX ->
  collapse options base child_rows = Ok (rows', others_rollup, others_base) ->
  sum_vmsize rows' = sum_vmsize child_rows /\
  sum_filesize rows' = sum_filesize child_rows.
Proof.
  intros Hmax Hrun.
  destruct (collapse_spec _ _ _ _ _ _ Hmax Hrun)
    as (kept & dropped & Hsort & _ & Hperm & _).
  pose proof (std_sort_perm
                (fun a b => collapse_rank_lt (collapse_rank options a)
                              (collapse_rank options b)) child_rows) as Hsp.
  rewrite Hsort in Hsp.
  destruct (others_rows_sums dropped) as (Hovm & Hofile).
  rewrite (sum_vmsize_perm _ _ Hperm), (sum_filesize_perm _ _ Hperm).
  rewrite <- (sum_vmsize_perm _ _ Hsp), <- (sum_filesize_perm _ _ Hsp).
  rewrite !sum_vmsize_app, !sum_filesize_app. lia.
Qed.

Lemma prune_cleared row (is_toplevel : bool) child_rows :
  prune row is_toplevel child_rows =
  if cleared row is_toplevel child_rows then [] else child_rows.
Proof.
  unfold prune, cleared.
  destruct child_rows as [|only [|second rest]]; try reflexivity.
  destruct (negb is_toplevel &&
            (String.eqb (name only) "[None]" ||
             String.eqb (name only) "[Unmapped]")); [reflexivity |].
  simpl. destruct (String.eqb (name only) (name row)); reflexivity.
Qed.

(** [CreateRows] fills the sub-rows of a row and leaves its sizes. *)
Lemma CreateRows_sizes options : forall fuel (self : Rollup) row
    (base : option Rollup) (is_toplevel : bool) row',
  CreateRows fuel self row base options is_toplevel = Ok row' ->
  vmsize row' = vmsize row /\ filesize row' = filesize row.
Proof.
  intros fuel self row base is_toplevel row' Hrun.
  destruct fuel as [|fuel]; [discriminate |].
  cbn [CreateRows] in Hrun.
  inv_bind Hrun. destruct a as [[sorted shrink] mix].
  inv_bind Hrun. inv_bind Hrun. inv_bind Hrun.
  injection Hrun as <-. split; reflexivity.
Qed.

Lemma for_rows_sizes body : forall rows rows',
  (forall r r', body r = Ok r' ->
     vmsize r' = vmsize r /\ filesize r' = filesize r) ->
  for_rows body rows = Ok rows' ->
  sum_vmsize rows' = sum_vmsize rows /\
  sum_filesize rows' = sum_filesize rows.
Proof.
  induction rows as [|r rest IH]; intros rows' Hbody Hrun.
  - injection Hrun as <-. split; reflexivity.
  - cbn [for_rows] in Hrun. inv_bind Hrun. inv_bind Hrun.
    injection Hrun as <-.
    match goal with
    | H1 : body r = Ok ?r1, H2 : for_rows body rest = Ok ?rest1 |- _ =>
        destruct (Hbody _ _ H1) as (Hvm & Hfile);
        destruct (IH _ Hbody H2) as (Hvms & Hfiles)
    end.
    simpl. lia.
Qed.

(** X12.  [ComputeRows] conserves the sizes of a level, for a limit of at
    least one row: unless it clears the vector it was given (one row that
    is named [[None]] or [[Unmapped]] below the top level, or named like
    the row above it), the rows it leaves, the [[Other]] row among them,
    add up in VM size and in file size to what the rows it was given add
    up to.  When it clears the vector no row is left. *)
Theorem ComputeRows_conserves_totals (fuel : nat) (self : Rollup) row
    child_rows (base : option Rollup) options (is_toplevel : bool) rows' :
  1 <= max_rows_per_level options <= INT64_MAX ->
  ComputeRows (fun r rw b t => CreateRows fuel r rw b options t)
    self row child_rows base options is_toplevel = Ok rows' ->
  if cleared row is_toplevel child_rows
  then rows' = []
  else sum_vmsize rows' = sum_vmsize child_rows /\
       sum_filesize rows' = sum_filesize child_rows.
Proof.
  intros Hmax Hrun. unfold ComputeRows in Hrun.
  rewrite prune_cleared in Hrun.
  destruct (cleared row is_toplevel child_rows).
  - simpl in Hrun. injection Hrun as <-. reflexivity.
  - inv_bind Hrun. destruct a as [[rows1 others_rollup] others_base].
    match goal with
    | H : collapse _ _ _ = Ok _ |- _ =>
        destruct (collapse_sums _ _ _ _ _ _ Hmax H) as (Hvm & Hfile)
    end.
    apply for_rows_sizes in Hrun as (Hvm' & Hfile'); [lia |].
    intros r r' Hbody.
    destruct (String.eqb (name r) others_label).
    + eapply CreateRows_sizes. exact Hbody.
    + destruct (children_ self !! name r); [| discriminate].
      eapply CreateRows_sizes. exact Hbody.
Qed.








End CollapserProperties.

Lemma ComputeRows_conserves_totals_witness :
  exists rows',
    ComputeRows (fun r rw b t => CreateRows 1 r rw b (options_n 3) t)
      five_children (MkRollupRow "TOTAL" 400 400 [] [] [] false)
      [ MkRollupRow "a" 100 100 [] [] [] false;
        MkRollupRow "b" 90 90 [] [] [] false;
        MkRollupRow "c" 80 80 [] [] [] false;
        MkRollupRow "d" 70 70 [] [] [] false;
        MkRollupRow "e" 60 60 [] [] [] false ]
      None (options_n 3) true = Ok rows' /\
    sum_vmsize rows' = 400 /\ sum_filesize rows' = 400.
Proof.
  eexists. split; [vm_compute; reflexivity |].
  exact (ComputeRows_conserves_totals 1 five_children
           (MkRollupRow "TOTAL" 400 400 [] [] [] false)
           [ MkRollupRow "a" 100 100 [] [] [] false;
             MkRollupRow "b" 90 90 [] [] [] false;
             MkRollupRow "c" 80 80 [] [] [] false;
             MkRollupRow "d" 70 70 [] [] [] false;
             MkRollupRow "e" 60 60 [] [] [] false ]
           None (options_n 3) true _
           ltac:(simpl; unfold INT64_MAX; lia)
           ltac:(vm_compute; reflexivity)).
Defined.

(** A sole row named [[None]] below the top level is cleared, and its
    sizes are in no row of the level. *)
Example ComputeRows_clears_sole_None :
  ComputeRows (fun r rw b t => CreateRows 1 r rw b (options_n 3) t)
    (MkRollup 64 64 {[ "[None]"%string := MkRollup 64 64 ∅ ]})
    (MkRollupRow ".text" 64 64 [] [] [] false)
    [ MkRollupRow "[None]" 64 64 [] [] [] false ]
    None (options_n 3) false = Ok [].
Proof. reflexivity. Qed.

(** *** The rows of a report without a base *)

Section PlainRows.

Implicit Types (rows child_rows kept dropped : list RollupRow)
  (row : RollupRow) (options : Options).

Lemma SignOf_spec (val : Z) :
  (val < 0 /\ SignOf val = -1) \/ (val = 0 /\ SignOf val = 0) \/
  (0 < val /\ SignOf val = 1).
Proof.
  unfold SignOf. destruct (val <? 0) eqn:H1; [apply Z.ltb_lt in H1; lia |].
  apply Z.ltb_ge in H1. destruct (0 <? val) eqn:H2;
    [apply Z.ltb_lt in H2 | apply Z.ltb_ge in H2]; lia.
Qed.

Lemma bucket_children_None children : forall sorted shrink mix,
  bucket_children None children = Ok (sorted, shrink, mix) ->
  shrink = [] /\ mix = [] /\ Forall new_plain_row sorted.
Proof.
  induction children as [|[key child] rest IH]; intros sorted shrink mix Hrun.
  - simpl in Hrun. injection Hrun as <- <- <-. auto.
  - simpl in Hrun.
    destruct ((SignOf (vm_total_ child) <? 0) ||
              (SignOf (file_total_ child) <? 0)) eqn:Hneg;
      simpl in Hrun; [discriminate |].
    apply orb_false_iff in Hneg as (Hvm & Hfile).
    apply Z.ltb_ge in Hvm, Hfile.
    pose proof (SignOf_spec (vm_total_ child)) as Hs1.
    pose proof (SignOf_spec (file_total_ child)) as Hs2.
    inv_bind Hrun. destruct a as [[sorted0 shrink0] mix0].
    destruct (IH _ _ _ Hbind) as (-> & -> & Hsorted).
    destruct ((vm_total_ child =? 0) && (file_total_ child =? 0)) eqn:Hzero.
    { injection Hrun as <- <- <-. auto. }
    assert (Hpos : 0 < vm_total_ child \/ 0 < file_total_ child).
    { apply andb_false_iff in Hzero as [H | H]; apply Z.eqb_neq in H; lia. }
    replace (SignOf (vm_total_ child) + SignOf (file_total_ child) <? 0)
      with false in Hrun by (symmetry; apply Z.ltb_ge; lia).
    replace (SignOf (vm_total_ child) + SignOf (file_total_ child) =? 0)
      with false in Hrun by (symmetry; apply Z.eqb_neq; lia).
    rewrite andb_false_r in Hrun. injection Hrun as <- <- <-.
    split_and!; auto. constructor; [| assumption].
    unfold new_plain_row, fresh_row. simpl. split_and!; auto; lia.
Qed.

Lemma sum_nonneg rows :
  Forall new_plain_row rows -> 0 <= sum_vmsize rows /\ 0 <= sum_filesize rows.
Proof.
  induction 1 as [|r rest (_ & _ & Hvm & Hfile & _) _ IH]; simpl; lia.
Qed.

Lemma collapse_plain options child_rows rows' (others_rollup others_base : Rollup) :
  1 <= max_rows_per_level options <= INT64_MAX ->
  Forall new_plain_row child_rows ->
  collapse options None child_rows = Ok (rows', others_rollup, others_base) ->
  Forall new_plain_row rows' /\ children_ others_rollup = ∅.
Proof.
  intros Hmax Hall Hrun.
  destruct (collapse_spec _ _ _ _ _ _ Hmax Hrun)
    as (kept & dropped & Hsort & _ & Hperm & _ & _ & Hch).
  split; [| assumption].
  pose proof (std_sort_perm
                (fun a b => collapse_rank_lt (collapse_rank options a)
                              (collapse_rank options b)) child_rows) as Hsp.
  rewrite Hsort in Hsp.
  assert (Hboth : Forall new_plain_row (kept ++ dropped)).
  { apply Forall_forall. intros r Hr.
    apply (proj1 (Forall_forall _ _) Hall). rewrite <- Hsp. exact Hr. }
  apply Forall_app in Hboth as (Hkept & Hdropped).
  apply Forall_forall. intros r Hr. rewrite Hperm in Hr.
  apply elem_of_app in Hr as [Hr | Hr].
  - exact (proj1 (Forall_forall _ _) Hkept r Hr).
  - unfold others_rows in Hr.
    destruct (sum_nonneg dropped Hdropped) as (Hvm & Hfile).
    destruct ((0 <? Z.abs (sum_vmsize dropped)) ||
              (0 <? Z.abs (sum_filesize dropped))) eqn:Hany.
    + apply list_elem_of_singleton in Hr. subst r.
      apply orb_true_iff in Hany.
      unfold new_plain_row, fresh_row. simpl. split_and!; auto.
      destruct Hany as [H | H]; apply Z.ltb_lt in H; lia.
    + apply elem_of_nil in Hr. contradiction.
Qed.

Lemma prune_Forall (P : RollupRow -> Prop) row is_toplevel child_rows :
  Forall P child_rows -> Forall P (prune row is_toplevel child_rows).
Proof.
  intros Hall. destruct (prune_sub row is_toplevel child_rows) as [-> | ->];
    [assumption | constructor].
Qed.

Lemma ComputeRows_plain create_rows self row child_rows options is_toplevel rows' :
  1 <= max_rows_per_level options <= INT64_MAX ->
  (forall r rw t rw',
     fresh_row rw -> diff_mode rw = false ->
     create_rows r rw None t = Ok rw' -> plain_result rw rw') ->
  Forall new_plain_row child_rows ->
  ComputeRows create_rows self row child_rows None options is_toplevel
    = Ok rows' ->
  Forall plain_row rows' /\
  Forall (fun child => 0 < vmsize child \/ 0 < filesize child) rows' /\
  (child_rows = [] -> rows' = []).
Proof.
  intros Hmax Hrec Hall Hrun. unfold ComputeRows in Hrun.
  inv_bind Hrun. destruct a as [[rows1 others_rollup] others_base].
  assert (Hnil : child_rows = [] -> rows1 = []).
  { intros ->. simpl in Hbind. injection Hbind as <- _ _. reflexivity. }
  apply collapse_plain in Hbind as (Hrows1 & _);
    [| assumption | apply prune_Forall; assumption].
  apply for_rows_Ok in Hrun.
  assert (Hres : Forall2 (fun r r' => new_plain_row r -> plain_result r r')
                   rows1 rows').
  { eapply Forall2_impl; [exact Hrun |]. intros r r' Hbody. simpl in Hbody.
    assert (Hr : new_plain_row r -> plain_result r r').
    { intros (Hfresh & Hdiff & _).
      destruct (String.eqb (name r) others_label);
        [eapply Hrec; eauto |].
      destruct (children_ self !! name r); [eapply Hrec; eauto | discriminate]. }
    exact Hr. }
  clear Hrun. split_and!.
  - clear Hnil. revert Hrows1. induction Hres as [|r r' l l' Hr _ IH]; intros Hrows1;
      [constructor |].
    apply Forall_cons in Hrows1 as (Hhd & Htl).
    constructor; [| auto].
    destruct (Hr Hhd) as (_ & Hv & Hf & Hs & Hm & Hd & Hc & Hp).
    destruct Hhd as (Hfresh & Hdiff & Hvm & Hfile & Hpos).
    constructor; auto; lia.
  - clear Hnil. revert Hrows1. induction Hres as [|r r' l l' Hr _ IH]; intros Hrows1;
      [constructor |].
    apply Forall_cons in Hrows1 as (Hhd & Htl).
    constructor; [| auto].
    destruct (Hr Hhd) as (_ & Hv & Hf & _).
    destruct Hhd as (Hfresh & Hdiff & Hvm & Hfile & Hpos). lia.
  - intros Hempty. specialize (Hnil Hempty). subst rows1.
    apply Forall2_nil_inv_l in Hres. assumption.
Qed.

Lemma CreateRows_plain options :
  1 <= max_rows_per_level options <= INT64_MAX ->
  forall fuel self row is_toplevel row',
  fresh_row row -> diff_mode row = false ->
  CreateRows fuel self row None options is_toplevel = Ok row' ->
  plain_result row row'.
Proof.
  intros Hmax. induction fuel as [|fuel IH];
    intros self row is_toplevel row' (Hsc & Hsh & Hmx) Hdiff Hrun;
    [discriminate |].
  simpl in Hrun. inv_bind Hrun. destruct a as [[sorted shrink] mix].
  apply bucket_children_None in Hbind as (-> & -> & Hsorted).
  rewrite Hsc, Hsh, Hmx in Hrun. simpl in Hrun.
  assert (Hrec : forall r rw t rw',
            fresh_row rw -> diff_mode rw = false ->
            CreateRows fuel r rw None options t = Ok rw' -> plain_result rw rw').
  { intros r rw t rw' Hf Hd H. eapply IH; eauto. }
  inv_bind Hrun. injection Hrun as <-.
  destruct (ComputeRows_plain _ _ _ _ _ _ _ Hmax Hrec Hsorted Hbind)
    as (Hplain & Hpos & _).
  unfold plain_result. simpl. split_and!; auto.
Qed.

(** X14.  A report without a base has no shrinking and no mixed rows and is
    not in diff mode, at any level; every row below [TOTAL] has sizes that
    are not negative, with at least one of the two positive, so a child
    with both totals zero gets no row.  (A negative total fails the
    assertion of [CreateRows] instead.) *)
Theorem CreateRollupOutput_plain (self : Rollup) options row :
  1 <= max_rows_per_level options <= INT64_MAX ->
  CreateRollupOutput self options = Ok row ->
  shrinking row = [] /\ mixed row = [] /\ diff_mode row = false /\
  Forall plain_row (sorted_children row) /\
  Forall (fun child => 0 < vmsize child \/ 0 < filesize child)
         (sorted_children row).
Proof.
  intros Hmax Hrun. unfold CreateRollupOutput, CreateDiffModeRollupOutput in Hrun.
  apply (CreateRows_plain options Hmax) in Hrun;
    [| repeat split | reflexivity].
  destruct Hrun as (_ & _ & _ & Hs & Hm & Hd & Hc & Hp). auto.
Qed.

End PlainRows.

Lemma CreateRollupOutput_plain_witness :
  exists row,
    CreateRollupOutput five_children (options_n 3) = Ok row /\
    shrinking row = [] /\ mixed row = [] /\
  Forall plain_row (sorted_children row).
Proof.
  eexists. split; [vm_compute; reflexivity |].
  destruct (CreateRollupOutput_plain five_children (options_n 3) _
              ltac:(simpl; unfold INT64_MAX; lia)
              ltac:(vm_compute; reflexivity))
    as (Hs & Hm & _ & Hc & _).
  split_and!; assumption.
Defined.
(** *** Totals add up along the tree *)

Section RollupBalance.

Implicit Types (r self node : Rollup) (labels : list string)
  (c : gmap string Rollup).

Lemma sum_children_insert (total : Rollup -> Z) c name child :
  sum_children total (<[name := child]> c) =
  sum_children total c
  - match c !! name with Some old => total old | None => 0 end
  + total child.
Proof.
  unfold sum_children.
  set (f := fun (_ : string) (child0 : Rollup) (acc : Z) => total child0 + acc).
  assert (Hcomm : forall (m : gmap string Rollup) (j1 j2 : string)
                         (z1 z2 : Rollup) (y : Z),
            j1 <> j2 -> m !! j1 = Some z1 -> m !! j2 = Some z2 ->
            f j1 z1 (f j2 z2 y) = f j2 z2 (f j1 z1 y))
    by (intros; unfold f; lia).
  destruct (c !! name) as [old|] eqn:Hold.
  - rewrite <- (insert_delete_eq c name child).
    rewrite (map_fold_insert_L f 0 name child (delete name c) (Hcomm _)
               (lookup_delete_eq c name)).
    rewrite (map_fold_delete_L f 0 name old c (Hcomm _) Hold).
    unfold f. lia.
  - rewrite (map_fold_insert_L f 0 name child c (Hcomm _) Hold).
    unfold f. lia.
Qed.

Lemma balanced_new depth : balanced depth new_Rollup.
Proof.
  destruct depth as [|depth]; simpl; [reflexivity |].
  unfold sum_children. rewrite map_fold_empty. split_and!; try reflexivity.
  intros name child H. rewrite lookup_empty in H. discriminate.
Qed.

Lemma balanced_child_or_new depth node name :
  balanced (S depth) node ->
  balanced depth (child_or_new (children_ node) name).
Proof.
  intros (_ & _ & Hch). unfold child_or_new.
  destruct (children_ node !! name) as [child|] eqn:Hchild; simpl.
  - eapply Hch. exact Hchild.
  - apply balanced_new.
Qed.

Lemma add_sizes_exact_totals labels size is_vm node :
  vm_total_ (add_sizes_exact labels size is_vm node) =
    (if is_vm then vm_total_ node + size else vm_total_ node) /\
  file_total_ (add_sizes_exact labels size is_vm node) =
    (if is_vm then file_total_ node else file_total_ node + size).
Proof. destruct labels; simpl; auto. Qed.

(** One exact addition along as many labels as the tree is deep keeps it
    balanced. *)
Lemma balanced_exact labels : forall size is_vm node,
  balanced (length labels) node ->
  balanced (length labels) (add_sizes_exact labels size is_vm node).
Proof.
  induction labels as [|label rest IH]; intros size is_vm node Hbal.
  - simpl in *. assumption.
  - pose proof (balanced_child_or_new _ _ label Hbal) as Hchild.
    pose proof (IH size is_vm _ Hchild) as Hchild'.
    destruct (add_sizes_exact_totals rest size is_vm
                (child_or_new (children_ node) label)) as (Hvm & Hfile).
    destruct Hbal as (Hsumvm & Hsumfile & Hch).
    simpl length. simpl add_sizes_exact.
    set (child' := add_sizes_exact rest size is_vm
                     (child_or_new (children_ node) label)) in *.
    simpl. rewrite !sum_children_insert, Hvm, Hfile.
    unfold child_or_new.
    split_and!.
    + destruct (children_ node !! label); destruct is_vm; simpl; lia.
    + destruct (children_ node !! label); destruct is_vm; simpl; lia.
    + intros name child Hlook.
      apply lookup_insert_Some in Hlook as [(_ & <-) | (_ & Hlook)].
      * exact Hchild'.
      * eapply Hch. exact Hlook.
Qed.

Lemma balanced_run_exact depth calls : forall self,
  Forall (fun call => length (call_names call) = S depth) calls ->
  balanced depth self -> balanced depth (run_exact calls self).
Proof.
  induction calls as [|call rest IH]; intros self Hlen Hbal; [assumption |].
  apply Forall_cons in Hlen as (Hhd & Htl).
  unfold run_exact. simpl. apply IH; [assumption |].
  assert (Hd : length (tail (call_names call)) = depth).
  { destruct (call_names call); simpl in *; lia. }
  rewrite <- Hd in Hbal |- *. apply balanced_exact. assumption.
Qed.

(** X27.  The totals add up along the tree: after a run of [AddSizes]
    calls on an empty rollup that does not throw, with label vectors of one
    length as [ComputeRollup] makes them, every node above the last level
    holds in its VM total the sum of the VM totals of its children, and
    likewise for the file totals; the nodes of the last level have no
    children. *)
Theorem AddSizes_totals_add_up (depth : nat) (calls : list add_call)
    (r : Rollup) :
  Forall (fun call => length (call_names call) = S depth) calls ->
  run_AddSizes calls new_Rollup = Ok r ->
  balanced depth r.
Proof.
  intros Hlen Hrun. apply run_AddSizes_exact in Hrun. subst r.
  apply balanced_run_exact; [assumption | apply balanced_new].
Qed.

End RollupBalance.

Lemma AddSizes_totals_add_up_witness :
  exists r,
    run_AddSizes
      [ AddCall ["LOAD"; ".text"; "main"] 30 true;
        AddCall ["LOAD"; ".text"; "f"] 12 true;
        AddCall ["LOAD"; ".data"; "g"] 8 true ] new_Rollup = Ok r /\
    vm_total_ r = 50 /\ balanced 2 r.
Proof.
  eexists. split; [vm_compute; reflexivity |]. split; [reflexivity |].
  apply (AddSizes_totals_add_up 2
           [ AddCall ["LOAD"; ".text"; "main"] 30 true;
             AddCall ["LOAD"; ".text"; "f"] 12 true;
             AddCall ["LOAD"; ".data"; "g"] 8 true ]).
  - repeat constructor.
  - vm_compute. reflexivity.
Defined.
(** ** Text helpers *)

Section TextHelpers.

Implicit Types (str name base args item stream : (list ascii)) (ch delim : ascii).

Lemma char_eqb_true a b : char_eqb a b = true <-> a = b.
Proof. apply Ascii.eqb_eq. Qed.

Lemma char_eqb_false a b : char_eqb a b = false <-> a <> b.
Proof. apply Ascii.eqb_neq. Qed.

Lemma char_eqb_refl a : char_eqb a a = true.
Proof. apply char_eqb_true. reflexivity. Qed.

Lemma unescape_escape str : unescape_quotes (escape_quotes str) = str.
Proof.
  induction str as [|ch rest IH]; [reflexivity |].
  simpl. destruct (char_eqb ch quote_char) eqn:Hq.
  - apply char_eqb_true in Hq. subst ch. simpl.
    rewrite ?char_eqb_refl. rewrite IH. reflexivity.
  - simpl. rewrite Hq, IH. reflexivity.
Qed.

(** X15.  [CSVEscape] loses nothing: reading the field back (dropping the
    enclosing quotes and halving the doubled ones) gives the string that
    was escaped, so different strings never give the same field; a string
    without quote and comma is left as it is. *)
Theorem CSVEscape_round_trip :
  (forall str, CSVUnescape (CSVEscape str) = str) /\
  (forall str1 str2, CSVEscape str1 = CSVEscape str2 -> str1 = str2) /\
  (forall str, quote_char ∉ str -> comma_char ∉ str -> CSVEscape str = str).
Proof.
  assert (Hrt : forall str, CSVUnescape (CSVEscape str) = str).
  { intros str. unfold CSVEscape. destruct (need_escape str) eqn:Hneed.
    - simpl. rewrite ?char_eqb_refl.
      rewrite removelast_last. apply unescape_escape.
    - destruct str as [|ch rest]; [reflexivity |].
      simpl in Hneed |- *.
      destruct (char_eqb ch quote_char); [discriminate | reflexivity]. }
  split_and!.
  - exact Hrt.
  - intros str1 str2 Heq. rewrite <- (Hrt str1), <- (Hrt str2), Heq.
    reflexivity.
  - intros str Hq Hc. unfold CSVEscape.
    replace (need_escape str) with false; [reflexivity |].
    symmetry. induction str as [|ch rest IH]; [reflexivity |].
    simpl. apply not_elem_of_cons in Hq as (Hq1 & Hq2).
    apply not_elem_of_cons in Hc as (Hc1 & Hc2).
    rewrite (proj2 (char_eqb_false ch quote_char)) by congruence.
    rewrite (proj2 (char_eqb_false ch comma_char)) by congruence.
    simpl. apply IH; assumption.
Qed.

Lemma pad_right_spec size : forall fuel ret,
  (Z.to_nat size - length ret <= fuel)%nat ->
  pad_right fuel ret size =
  Ok (ret ++ replicate (Z.to_nat size - length ret) space_char).
Proof.
  induction fuel as [|fuel IH]; intros ret Hfuel.
  - simpl. replace (Z.of_nat (length ret) <? size) with false
      by (symmetry; apply Z.ltb_ge; lia).
    replace (Z.to_nat size - length ret)%nat with 0%nat by lia.
    simpl. rewrite app_nil_r. reflexivity.
  - simpl. destruct (Z.of_nat (length ret) <? size) eqn:Hlt.
    + apply Z.ltb_lt in Hlt. rewrite IH by (rewrite length_app; simpl; lia).
      rewrite length_app. simpl.
      replace (Z.to_nat size - length ret)%nat
        with (S (Z.to_nat size - (length ret + 1)))%nat by lia.
      simpl. rewrite <- app_assoc. reflexivity.
    + apply Z.ltb_ge in Hlt.
      replace (Z.to_nat size - length ret)%nat with 0%nat by lia.
      simpl. rewrite app_nil_r. reflexivity.
Qed.

Lemma pad_left_spec size : forall fuel ret,
  (Z.to_nat size - length ret <= fuel)%nat ->
  pad_left fuel ret size =
  Ok (replicate (Z.to_nat size - length ret) space_char ++ ret).
Proof.
  induction fuel as [|fuel IH]; intros ret Hfuel.
  - simpl. replace (Z.of_nat (length ret) <? size) with false
      by (symmetry; apply Z.ltb_ge; lia).
    replace (Z.to_nat size - length ret)%nat with 0%nat by lia.
    reflexivity.
  - simpl. destruct (Z.of_nat (length ret) <? size) eqn:Hlt.
    + apply Z.ltb_lt in Hlt. rewrite IH by (simpl; lia). simpl.
      replace (Z.to_nat size - length ret)%nat
        with (S (Z.to_nat size - S (length ret)))%nat by lia.
      rewrite replicate_S_end, <- app_assoc. reflexivity.
    + apply Z.ltb_ge in Hlt.
      replace (Z.to_nat size - length ret)%nat with 0%nat by lia.
      reflexivity.
Qed.

(** X16.  [FixedWidthString] returns exactly [size] characters: the input
    cut after [size] characters, or followed by the spaces that are
    missing.  [LeftPad] never cuts: it returns the input after the spaces
    that are missing, so at least [size] characters. *)
Theorem FixedWidthString_LeftPad (input : (list ascii)) (size : Z) :
  (exists ret,
     FixedWidthString input size = Ok ret /\
     length ret = Z.to_nat size /\
     ret = take (Z.to_nat size)
             (input ++ replicate (Z.to_nat size) space_char)) /\
  (exists ret,
     LeftPad input size = Ok ret /\
     length ret = Nat.max (Z.to_nat size) (length input) /\
     ret = replicate (Z.to_nat size - length input) space_char ++ input).
Proof.
  split.
  - unfold FixedWidthString.
    destruct (Z.of_nat (length input) <? size) eqn:Hlt.
    + apply Z.ltb_lt in Hlt. rewrite pad_right_spec by lia.
      eexists. split; [reflexivity |]. split.
      * rewrite length_app, length_replicate. lia.
      * rewrite take_app_ge by lia. rewrite take_replicate.
        f_equal. f_equal. lia.
    + apply Z.ltb_ge in Hlt. eexists. split; [reflexivity |]. split.
      * rewrite length_take. lia.
      * rewrite take_app_le by lia. reflexivity.
  - unfold LeftPad. rewrite pad_left_spec by lia.
    eexists. split; [reflexivity |]. split; [| reflexivity].
    rewrite length_app, length_replicate. lia.
Qed.

Lemma read_until_spec delim : forall stream item rest,
  read_until stream delim = (item, rest) ->
  (delim ∉ item) /\
  (stream = item ++ delim :: rest \/ (stream = item /\ rest = [])).
Proof.
  induction stream as [|ch tl IH]; intros item rest Hrun; simpl in Hrun.
  - injection Hrun as <- <-. split; [apply not_elem_of_nil | auto].
  - destruct (char_eqb ch delim) eqn:Hd.
    + apply char_eqb_true in Hd. subst ch. injection Hrun as <- <-.
      split; [apply not_elem_of_nil | auto].
    + apply char_eqb_false in Hd.
      destruct (read_until tl delim) as (item' & rest') eqn:Htl.
      injection Hrun as <- <-.
      destruct (IH _ _ eq_refl) as (Hno & Hshape). split.
      * apply not_elem_of_cons. split; [congruence | assumption].
      * destruct Hshape as [-> | (-> & ->)]; [left | right]; auto.
Qed.

Lemma closed_by_cons delim ch str :
  str <> [] -> closed_by delim (ch :: str) = ch :: closed_by delim str.
Proof.
  intros Hne. unfold closed_by. destruct str as [|c tl]; [congruence |].
  rewrite last_cons. destruct (last (c :: tl)) as [l|] eqn:Hlast.
  - destruct (char_eqb l delim); reflexivity.
  - apply last_None in Hlast. discriminate.
Qed.

Lemma closed_by_app delim item str :
  str <> [] -> closed_by delim (item ++ str) = item ++ closed_by delim str.
Proof.
  intros Hne. induction item as [|ch item IH]; [reflexivity |].
  simpl. rewrite closed_by_cons.
  - rewrite IH. reflexivity.
  - destruct item; simpl; [assumption | discriminate].
Qed.

Lemma Split_loop_spec delim : forall fuel stream out,
  (length stream < fuel)%nat ->
  exists items,
    Split_loop fuel stream delim out = Ok (out ++ items) /\
    Forall (fun item => delim ∉ item) items /\
    join_items delim items = closed_by delim stream.
Proof.
  induction fuel as [|fuel IH]; intros stream out Hfuel; [lia |].
  simpl. destruct stream as [|ch tl].
  { exists []. simpl. rewrite app_nil_r. split_and!; auto. }
  unfold getline.
  destruct (read_until (ch :: tl) delim) as (item & rest) eqn:Hread.
  destruct (read_until_spec delim _ _ _ Hread) as (Hno & Hshape).
  assert (Hlen : (length rest < fuel)%nat).
  { destruct Hshape as [Heq | (Heq & ->)].
    - apply (f_equal length) in Heq. rewrite length_app in Heq.
      simpl in Heq, Hfuel. simpl. lia.
    - simpl in Hfuel |- *. lia. }
  destruct (IH rest (out ++ [item]) Hlen) as (items & Hrun & Hall & Hjoin).
  exists (item :: items). rewrite Hrun, <- app_assoc. simpl.
  split_and!; [reflexivity | constructor; assumption |].
  unfold join_items in Hjoin |- *. simpl. rewrite Hjoin.
  destruct Hshape as [Heq | (Heq & ->)]; rewrite Heq.
  - destruct rest as [|c rest'].
    + unfold closed_by. rewrite last_snoc, char_eqb_refl.
      simpl. rewrite app_nil_r. reflexivity.
    + rewrite <- app_assoc. simpl.
      change (item ++ delim :: c :: rest') with (item ++ [delim] ++ c :: rest').
      rewrite app_assoc, closed_by_app by discriminate.
      rewrite <- app_assoc. reflexivity.
  - simpl. rewrite app_nil_r. unfold closed_by.
    destruct (last item) as [l|] eqn:Hlast.
    + assert (Hl : l ∈ item).
      { apply last_Some in Hlast as (pre & ->). apply elem_of_app. right.
        apply list_elem_of_singleton. reflexivity. }
      rewrite (proj2 (char_eqb_false l delim)); [reflexivity |].
      intros ->. contradiction.
    + apply last_None in Hlast. subst item. discriminate.
Qed.

(** X17.  [Split] returns; no item holds the delimiter; and the items, each
    followed by the delimiter, give back the string when it is empty or
    ends with the delimiter, and the string with one delimiter added
    otherwise.  So an empty string has no items, and a delimiter at the end
    does not open a last, empty item. *)
Theorem Split_round_trip (str : (list ascii)) (delim : ascii) :
  exists items,
    Split str delim [] = Ok items /\
    Forall (fun item => delim ∉ item) items /\
    join_items delim items = closed_by delim str.
Proof.
  unfold Split.
  destruct (Split_loop_spec delim (length str + 1) str [] ltac:(lia))
    as (items & Hrun & Hall & Hjoin).
  exists items. split_and!; assumption.
Qed.

End TextHelpers.

Example CSVEscape_quote_and_comma :
  CSVEscape (String.list_ascii_of_string "a,b") = quote_char :: String.list_ascii_of_string "a,b" ++ [quote_char] /\
  CSVEscape [ "x"%char; quote_char ] = [ quote_char; "x"%char; quote_char; quote_char; quote_char ] /\
  Split (String.list_ascii_of_string "sections,symbols,") ","%char [] =
    Ok [ String.list_ascii_of_string "sections"; String.list_ascii_of_string "symbols" ] /\
  Split (String.list_ascii_of_string ",a") ","%char [] = Ok [ []; [ "a"%char ] ].
Proof. vm_compute. auto. Qed.
(** *** StripName *)

Section StripNameFacts.

Implicit Types (name base args rest : (list ascii)) (ch : ascii).

Lemma ConsumeSuffix_prefix name expected :
  ConsumeSuffix name expected `prefix_of` name.
Proof.
  unfold ConsumeSuffix. destruct (bool_decide _); [| reflexivity].
  apply prefix_take.
Qed.

Lemma StripName_loop_prefix name : forall n nesting,
  StripName_loop name n nesting `prefix_of` name.
Proof.
  induction n as [|n IH]; intros nesting; simpl;
    destruct (name !! _) as [ch|]; try reflexivity;
    repeat match goal with
           | |- context [if ?b then _ else _] => destruct b
           end;
    try reflexivity; try apply prefix_take; try apply IH.
Qed.

Lemma StripName_loop_unfold name n nesting :
  StripName_loop name n nesting =
  match name !! n with
  | None => name
  | Some ch =>
      let next (nesting : Z) :=
        match n with
        | O => name
        | S n' => StripName_loop name n' nesting
        end in
      if char_eqb ch lparen_char then
        if nesting - 1 =? 0 then take n name
        else next (nesting - 1)
      else if char_eqb ch rparen_char then next (nesting + 1)
      else next nesting
  end.
Proof. destruct n; reflexivity. Qed.

(** The loop, started inside a parameter list that holds no parenthesis,
    with one closing parenthesis seen: it stops at the opening one. *)
Lemma StripName_loop_args base : forall args rest,
  lparen_char ∉ args -> rparen_char ∉ args ->
  StripName_loop (base ++ lparen_char :: args ++ rest)
    (length base + length args) 1 = base.
Proof.
  induction args as [|ch args IH] using rev_ind; intros rest Hl Hr.
  - simpl. rewrite Nat.add_0_r, StripName_loop_unfold.
    rewrite list_lookup_middle by reflexivity.
    rewrite char_eqb_refl. simpl. rewrite take_app_length. reflexivity.
  - apply not_elem_of_app in Hl as (Hl & Hlc).
    apply not_elem_of_app in Hr as (Hr & Hrc).
    rewrite list_elem_of_singleton in Hlc, Hrc.
    rewrite length_app. simpl.
    replace (length base + (length args + 1))%nat
      with (S (length base + length args)) by lia.
    rewrite StripName_loop_unfold.
    assert (Hat : (base ++ lparen_char :: (args ++ [ch]) ++ rest)
                    !! S (length base + length args) = Some ch).
    { rewrite lookup_app_r by lia.
      replace (S (length base + length args) - length base)%nat
        with (S (length args)) by lia.
      simpl. rewrite <- app_assoc. simpl.
      rewrite list_lookup_middle by reflexivity. reflexivity. }
    rewrite Hat.
    rewrite (proj2 (char_eqb_false ch lparen_char)) by congruence.
    rewrite (proj2 (char_eqb_false ch rparen_char)) by congruence.
    rewrite <- app_assoc. simpl. apply IH; assumption.
Qed.

Lemma StripName_function base args :
  lparen_char ∉ args -> rparen_char ∉ args ->
  let name := base ++ lparen_char :: args ++ [rparen_char] in
  match last name with
  | Some ch =>
      if negb (char_eqb ch rparen_char) then name
      else StripName_loop name (length name - 1) 0
  | None => name
  end = base.
Proof.
  intros Hl Hr name.
  assert (Hlast : last name = Some rparen_char).
  { unfold name.
    change (base ++ lparen_char :: args ++ [rparen_char])
      with (base ++ (lparen_char :: args) ++ [rparen_char]).
    rewrite app_assoc. apply last_snoc. }
  rewrite Hlast, char_eqb_refl. simpl.
  assert (Hlen : (length name - 1)%nat = S (length base + length args)).
  { unfold name. rewrite length_app. simpl. rewrite length_app. simpl. lia. }
  rewrite Hlen, StripName_loop_unfold.
  assert (Hat : name !! S (length base + length args) = Some rparen_char).
  { unfold name. rewrite lookup_app_r by lia.
    replace (S (length base + length args) - length base)%nat
      with (S (length args)) by lia.
    simpl. rewrite list_lookup_middle by reflexivity. reflexivity. }
  rewrite Hat.
  replace (char_eqb rparen_char lparen_char) with false by reflexivity.
  rewrite char_eqb_refl. simpl.
  apply StripName_loop_args; assumption.
Qed.

(** X18.  [StripName] only ever cuts a name at its end; and it removes the
    parameter list of a function name, with a trailing [ const] if there
    is one: for a list between parentheses that holds no further
    parenthesis, what is left is the text before the opening
    parenthesis. *)
Theorem StripName_strips_parameters :
  (forall name, StripName name `prefix_of` name) /\
  (forall base args,
     lparen_char ∉ args -> rparen_char ∉ args ->
     StripName (base ++ lparen_char :: args ++ [rparen_char]) = base /\
     StripName (base ++ lparen_char :: args ++ [rparen_char] ++ const_suffix)
       = base).
Proof.
  split.
  - intros name. unfold StripName.
    pose proof (ConsumeSuffix_prefix name const_suffix) as Hpre.
    destruct (last (ConsumeSuffix name const_suffix)) as [ch|];
      [| assumption].
    destruct (negb (char_eqb ch rparen_char)); [assumption |].
    etransitivity; [apply StripName_loop_prefix | assumption].
  - intros base args Hl Hr. split.
    + unfold StripName, ConsumeSuffix.
      rewrite bool_decide_eq_false_2.
      * apply StripName_function; assumption.
      * intros (pre & Heq).
        change (base ++ lparen_char :: args ++ [rparen_char])
          with (base ++ (lparen_char :: args) ++ [rparen_char]) in Heq.
        rewrite app_assoc in Heq.
        change const_suffix
          with ([" "; "c"; "o"; "n"; "s"]%char ++ ["t"%char]) in Heq.
        rewrite app_assoc in Heq.
        apply app_inj_tail in Heq as (_ & Heq). discriminate.
    + assert (Hname : base ++ lparen_char :: args ++ [rparen_char] ++ const_suffix
                      = (base ++ lparen_char :: args ++ [rparen_char])
                        ++ const_suffix).
      { rewrite <- app_assoc. simpl. rewrite <- app_assoc. reflexivity. }
      rewrite Hname. unfold StripName, ConsumeSuffix.
      rewrite bool_decide_eq_true_2 by (eexists; reflexivity).
      rewrite length_app, Nat.add_sub, take_app_length.
      apply StripName_function; assumption.
Qed.

End StripNameFacts.

Example StripName_method :
  StripName (String.list_ascii_of_string "ns::f(int, char) const")
  = String.list_ascii_of_string "ns::f" /\
  StripName (String.list_ascii_of_string "operator()(int)")
  = String.list_ascii_of_string "operator()" /\
  StripName (String.list_ascii_of_string "data") = String.list_ascii_of_string "data".
Proof. vm_compute. auto. Qed.
(** ** ByteSwap *)

Section ByteSwapFacts.

Lemma testbit_byte_mask (k m : Z) :
  0 <= k -> 0 <= m ->
  Z.testbit (Z.shiftl 255 k) m = (k <=? m) && (m <? k + 8).
Proof.
  intros Hk Hm. rewrite Z.shiftl_spec by assumption.
  destruct (Z.leb_spec k m) as [Hle | Hlt].
  - change 255 with (Z.ones 8). rewrite Z.testbit_ones_nonneg by lia.
    simpl. destruct (Z.ltb_spec (m - k) 8), (Z.ltb_spec m (k + 8)); lia.
  - rewrite Z.testbit_neg_r by lia. reflexivity.
Qed.

(** Decide the comparisons between bit indices that the masks leave. *)
Ltac decide_bounds :=
  repeat match goal with
  | |- context [?a <=? ?b] =>
      first [ rewrite (proj2 (Z.leb_le a b)) by lia
            | rewrite (proj2 (Z.leb_gt a b)) by lia ]
  | |- context [?a <? ?b] =>
      first [ rewrite (proj2 (Z.ltb_lt a b)) by lia
            | rewrite (proj2 (Z.ltb_ge a b)) by lia ]
  end;
  rewrite ?andb_false_r, ?andb_true_r, ?orb_false_r, ?orb_false_l.

(** The bit [m] of one term [(val & mask) << s] or [(val & mask) >> s] of
    the expressions. *)
Lemma testbit_masked_shiftl (val k s m : Z) :
  0 <= k -> 0 <= s -> 0 <= m ->
  Z.testbit (Z.shiftl (Z.land val (Z.shiftl 255 k)) s) m =
  Z.testbit val (m - s) && ((k + s <=? m) && (m <? k + s + 8)).
Proof.
  intros Hk Hs Hm. rewrite Z.shiftl_spec by assumption.
  destruct (Z.leb_spec s m) as [Hle | Hlt].
  - rewrite Z.land_spec, testbit_byte_mask by lia. f_equal.
    destruct (Z.leb_spec k (m - s)), (Z.leb_spec (k + s) m),
             (Z.ltb_spec (m - s) (k + 8)), (Z.ltb_spec m (k + s + 8));
      simpl; lia.
  - rewrite Z.testbit_neg_r by lia.
    replace (k + s <=? m) with false by (symmetry; apply Z.leb_gt; lia).
    rewrite andb_false_r. reflexivity.
Qed.

Lemma testbit_masked_shiftr (val k s m : Z) :
  0 <= k -> 0 <= s -> s <= k -> 0 <= m ->
  Z.testbit (Z.shiftr (Z.land val (Z.shiftl 255 k)) s) m =
  Z.testbit val (m + s) && ((k - s <=? m) && (m <? k - s + 8)).
Proof.
  intros Hk Hs Hsk Hm. rewrite Z.shiftr_spec by assumption.
  rewrite Z.land_spec, testbit_byte_mask by lia. f_equal.
  destruct (Z.leb_spec k (m + s)), (Z.leb_spec (k - s) m),
           (Z.ltb_spec (m + s) (k + 8)), (Z.ltb_spec m (k - s + 8));
    simpl; lia.
Qed.

Lemma ByteSwap2_bits val m :
  0 <= m < 16 ->
  Z.testbit (ByteSwap2 val) m =
  Z.testbit val (if m <? 8 then m + 8 else m - 8).
Proof.
  intros Hm. unfold ByteSwap2, to_unsigned.
  rewrite Z.mod_pow2_bits_low by lia.
  change 0xff with (Z.shiftl 255 0). change 0xff00 with (Z.shiftl 255 8).
  rewrite Z.lor_spec, testbit_masked_shiftl, testbit_masked_shiftr by lia.
  destruct (Z.ltb_spec m 8); decide_bounds; f_equal; lia.
Qed.

Lemma ByteSwap4_bits val m :
  0 <= m < 32 ->
  Z.testbit (ByteSwap4 val) m = Z.testbit val (m + 24 - 16 * (m / 8)).
Proof.
  intros Hm. unfold ByteSwap4, to_unsigned.
  rewrite Z.mod_pow2_bits_low by lia.
  change 0xff with (Z.shiftl 255 0). change 0xff00 with (Z.shiftl 255 8).
  change 0xff0000 with (Z.shiftl 255 16).
  change 0xff000000 with (Z.shiftl 255 24).
  rewrite !Z.lor_spec, !testbit_masked_shiftl, !testbit_masked_shiftr by lia.
  assert (Hq : m / 8 = 0 \/ m / 8 = 1 \/ m / 8 = 2 \/ m / 8 = 3).
  { assert (0 <= m / 8 < 4) by (split;
      [apply Z.div_pos | apply Z.div_lt_upper_bound]; lia). lia. }
  pose proof (Z.div_mod m 8 ltac:(lia)) as Hdm.
  pose proof (Z.mod_pos_bound m 8 ltac:(lia)) as Hmod.
  destruct Hq as [Hq | [Hq | [Hq | Hq]]]; rewrite Hq in *;
    decide_bounds; f_equal; lia.
Qed.

Lemma ByteSwap8_bits val m :
  0 <= m < 64 ->
  Z.testbit (ByteSwap8 val) m = Z.testbit val (m + 56 - 16 * (m / 8)).
Proof.
  intros Hm. unfold ByteSwap8, to_unsigned.
  rewrite Z.mod_pow2_bits_low by lia.
  change 0xff with (Z.shiftl 255 0). change 0xff00 with (Z.shiftl 255 8).
  change 0xff0000 with (Z.shiftl 255 16).
  change 0xff000000 with (Z.shiftl 255 24).
  change 0xff00000000 with (Z.shiftl 255 32).
  change 0xff0000000000 with (Z.shiftl 255 40).
  change 0xff000000000000 with (Z.shiftl 255 48).
  change 0xff00000000000000 with (Z.shiftl 255 56).
  rewrite !Z.lor_spec, !testbit_masked_shiftl, !testbit_masked_shiftr by lia.
  assert (Hq : m / 8 = 0 \/ m / 8 = 1 \/ m / 8 = 2 \/ m / 8 = 3 \/
               m / 8 = 4 \/ m / 8 = 5 \/ m / 8 = 6 \/ m / 8 = 7).
  { assert (0 <= m / 8 < 8) by (split;
      [apply Z.div_pos | apply Z.div_lt_upper_bound]; lia). lia. }
  pose proof (Z.div_mod m 8 ltac:(lia)) as Hdm.
  pose proof (Z.mod_pos_bound m 8 ltac:(lia)) as Hmod.
  destruct Hq as [Hq | [Hq | [Hq | [Hq | [Hq | [Hq | [Hq | Hq]]]]]]];
    rewrite Hq in *; decide_bounds; f_equal; lia.
Qed.

Lemma testbit_small (bits val m : Z) :
  0 <= bits -> 0 <= val < 2 ^ bits -> bits <= m -> Z.testbit val m = false.
Proof.
  intros Hbits Hval Hm. rewrite <- (Z.mod_small val (2 ^ bits)) by assumption.
  apply Z.mod_pow2_bits_high. lia.
Qed.

(** Swapping twice gives the value back, for a swap of [bits] bits that
    sends the bit [m] to the bit [m + bits - 8 - 16 * (m / 8)]. *)
Lemma swap_involution (swap : Z -> Z) (bits : Z) :
  0 < bits -> bits mod 8 = 0 ->
  (forall val, swap val = to_unsigned bits (swap val)) ->
  (forall val m, 0 <= m < bits ->
     Z.testbit (swap val) m = Z.testbit val (m + bits - 8 - 16 * (m / 8))) ->
  forall val, 0 <= val < 2 ^ bits -> swap (swap val) = val.
Proof.
  intros Hbits Hmul Hrange Hswap val Hval. apply Z.bits_inj'. intros m Hm.
  destruct (Z.lt_ge_cases m bits) as [Hlt | Hge].
  - pose proof (Z.div_mod m 8 ltac:(lia)) as Hdm.
    pose proof (Z.mod_pos_bound m 8 ltac:(lia)) as Hmod.
    pose proof (Z.div_mod bits 8 ltac:(lia)) as Hdb.
    rewrite Hmul in Hdb.
    assert (Hidx : (m + bits - 8 - 16 * (m / 8)) / 8 = bits / 8 - 1 - m / 8).
    { symmetry. apply (Z.div_unique _ 8 _ (m mod 8)); lia. }
    rewrite (Hswap (swap val) m) by lia.
    rewrite (Hswap val) by lia.
    rewrite Hidx. f_equal. lia.
  - rewrite Hrange. unfold to_unsigned.
    rewrite Z.mod_pow2_bits_high by lia.
    symmetry. apply (testbit_small bits); lia.
Qed.

Lemma to_unsigned_idem bits z :
  0 < bits -> to_unsigned bits z = to_unsigned bits (to_unsigned bits z).
Proof.
  intros Hbits. unfold to_unsigned. rewrite Z.mod_mod; [reflexivity |].
  apply Z.pow_nonzero; lia.
Qed.

(** X19.  [ByteSwap] reverses the order of the bytes of a 2-, 4- and 8-byte
    unsigned value: the byte [i] of the result is the byte [size - 1 - i]
    of the argument, bit for bit.  So the result is again a value of the
    type, and swapping twice gives the value back. *)
Theorem ByteSwap_reverses_bytes :
  (forall val i j, 0 <= i < 2 -> 0 <= j < 8 ->
     byte_bit (ByteSwap2 val) i j = byte_bit val (1 - i) j) /\
  (forall val i j, 0 <= i < 4 -> 0 <= j < 8 ->
     byte_bit (ByteSwap4 val) i j = byte_bit val (3 - i) j) /\
  (forall val i j, 0 <= i < 8 -> 0 <= j < 8 ->
     byte_bit (ByteSwap8 val) i j = byte_bit val (7 - i) j) /\
  (forall val, 0 <= ByteSwap2 val < 2 ^ 16 /\ 0 <= ByteSwap4 val < 2 ^ 32 /\
               0 <= ByteSwap8 val < 2 ^ 64) /\
  (forall val, 0 <= val < 2 ^ 16 -> ByteSwap2 (ByteSwap2 val) = val) /\
  (forall val, 0 <= val < 2 ^ 32 -> ByteSwap4 (ByteSwap4 val) = val) /\
  (forall val, 0 <= val < 2 ^ 64 -> ByteSwap8 (ByteSwap8 val) = val).
Proof.
  assert (Hdiv : forall i j, 0 <= j < 8 -> (8 * i + j) / 8 = i).
  { intros i j Hj. symmetry. apply (Z.div_unique _ 8 _ j); lia. }
  assert (H2 : forall val m, 0 <= m < 16 ->
            Z.testbit (ByteSwap2 val) m =
            Z.testbit val (m + 16 - 8 - 16 * (m / 8))).
  { intros val m Hm. rewrite ByteSwap2_bits by assumption. f_equal.
    destruct (Z.ltb_spec m 8).
    - rewrite Z.div_small by lia. lia.
    - replace (m / 8) with 1; [lia |]. apply (Z.div_unique _ 8 _ (m - 8)); lia. }
  split_and!.
  - intros val i j Hi Hj. unfold byte_bit. rewrite H2, Hdiv by lia.
    f_equal. lia.
  - intros val i j Hi Hj. unfold byte_bit.
    rewrite ByteSwap4_bits, Hdiv by lia. f_equal. lia.
  - intros val i j Hi Hj. unfold byte_bit.
    rewrite ByteSwap8_bits, Hdiv by lia. f_equal. lia.
  - intros val. unfold ByteSwap2, ByteSwap4, ByteSwap8, to_unsigned.
    split_and!; apply Z.mod_pos_bound; lia.
  - apply (swap_involution ByteSwap2 16); [lia | reflexivity | | exact H2].
    intros val. unfold ByteSwap2. apply to_unsigned_idem. lia.
  - apply (swap_involution ByteSwap4 32); [lia | reflexivity | |].
    + intros val. unfold ByteSwap4. apply to_unsigned_idem. lia.
    + intros val m Hm. rewrite ByteSwap4_bits by assumption. f_equal. lia.
  - apply (swap_involution ByteSwap8 64); [lia | reflexivity | |].
    + intros val. unfold ByteSwap8. apply to_unsigned_idem. lia.
    + intros val m Hm. rewrite ByteSwap8_bits by assumption. f_equal. lia.
Qed.

End ByteSwapFacts.

Example ByteSwap_values :
  ByteSwap2 0x1234 = 0x3412 /\ ByteSwap4 0x12345678 = 0x78563412 /\
  ByteSwap8 0x0102030405060708 = 0x0807060504030201.
Proof. vm_compute. auto. Qed.
(** ** Reading ELF and archive files *)

Section ElfReaders.

Implicit Types (data contents region name : list ascii).

Lemma substr_slice data (start n : Z) :
  0 <= start -> 0 <= n -> start + n <= Z.of_nat (length data) ->
  slice_of data start n (substr data (Z.to_nat start) (Z.to_nat n)).
Proof.
  intros Hs Hn Hfit. unfold slice_of, substr.
  exists (take (Z.to_nat start) data),
         (drop (Z.to_nat n) (drop (Z.to_nat start) data)).
  split_and!.
  - rewrite take_drop, take_drop. reflexivity.
  - rewrite length_take. lia.
  - rewrite length_take, length_drop. lia.
Qed.

(** X20.  [GetRegion] and [Memcpy] never read outside the file: for a start
    and a size of type [size_t], each returns exactly when the range lies
    inside the data, and then what it returns is the part of the data of
    that size at that start; otherwise it throws. *)
Theorem ELF_reads_in_bounds data (start n : Z) :
  is_u64 start -> is_u64 n -> Z.of_nat (length data) < SIZE_MAX ->
  (start + n <= Z.of_nat (length data) ->
   exists region,
     GetRegion data start n = Ok region /\ Memcpy data start n = Ok region /\
     slice_of data start n region) /\
  (Z.of_nat (length data) < start + n ->
   GetRegion data start n = Err (Thrown "ELF region out-of-bounds") /\
   exists msg, Memcpy data start n = Err (Thrown msg)).
Proof.
  intros Hs Hn Hlen. unfold is_u64, SIZE_MAX in *. split.
  - intros Hfit. exists (substr data (Z.to_nat start) (Z.to_nat n)).
    split_and!.
    + unfold GetRegion, SIZE_MAX.
      replace (UINT64_MAX - n <=? start) with false
        by (symmetry; apply Z.leb_gt; lia).
      rewrite wrap_u64_id by (unfold is_u64; lia).
      replace (Z.of_nat (length data) <? start + n) with false
        by (symmetry; apply Z.ltb_ge; lia).
      reflexivity.
    + unfold Memcpy, CheckedAdd_size_t, SIZE_MAX.
      replace (UINT64_MAX - n <? start) with false
        by (symmetry; apply Z.ltb_ge; lia).
      simpl.
      replace (Z.of_nat (length data) <? start + n) with false
        by (symmetry; apply Z.ltb_ge; lia).
      reflexivity.
    + apply substr_slice; lia.
  - intros Hout. split.
    + unfold GetRegion, SIZE_MAX.
      destruct (UINT64_MAX - n <=? start) eqn:Hover; [reflexivity |].
      apply Z.leb_gt in Hover.
      rewrite wrap_u64_id by (unfold is_u64; lia).
      replace (Z.of_nat (length data) <? start + n) with true
        by (symmetry; apply Z.ltb_lt; lia).
      reflexivity.
    + unfold Memcpy, CheckedAdd_size_t, SIZE_MAX.
      destruct (UINT64_MAX - n <? start) eqn:Hover; simpl; [eauto |].
      replace (Z.of_nat (length data) <? start + n) with true
        by (symmetry; apply Z.ltb_lt; lia).
      eauto.
Qed.

Lemma until_nul_spec ret name :
  until_nul ret = Some name <->
  (nul_char ∉ name) /\ exists after, ret = name ++ nul_char :: after.
Proof.
  revert name. induction ret as [|ch rest IH]; intros name; simpl.
  - split; [discriminate |]. intros (_ & after & Heq).
    destruct name; discriminate.
  - destruct (char_eqb ch nul_char) eqn:Hnul.
    + apply char_eqb_true in Hnul. subst ch. split.
      * intros [= <-]. split; [apply not_elem_of_nil | eauto].
      * intros (Hno & after & Heq). destruct name as [|c name]; [reflexivity |].
        injection Heq as <- _. exfalso. apply Hno. apply elem_of_cons. auto.
    + apply char_eqb_false in Hnul. split.
      * destruct (until_nul rest) as [name'|] eqn:Hrest; [| discriminate].
        intros [= <-]. destruct (proj1 (IH name') eq_refl) as (Hno & after & ->).
        split; [| eauto].
        apply not_elem_of_cons. auto.
      * intros (Hno & after & Heq). destruct name as [|c name].
        { injection Heq as -> _. congruence. }
        injection Heq as <- ->.
        apply not_elem_of_cons in Hno as (_ & Hno).
        rewrite (proj2 (IH name)) by eauto. reflexivity.
Qed.

(** X21.  [ReadName] returns the name that starts at the byte [index] of
    the string table and ends before the next NUL: it returns a name
    exactly when [index] is not 0, lies inside the table and a NUL follows,
    and the name holds no NUL; in every other case it throws. *)
Theorem ReadName_spec contents (index : Z) name :
  0 <= index ->
  (ReadName contents index = Ok name <->
   0 < index < Z.of_nat (length contents) /\ (nul_char ∉ name) /\
   exists before after,
     contents = before ++ name ++ nul_char :: after /\
     Z.of_nat (length before) = index) /\
  (forall e, ReadName contents index = Err e -> exists msg, e = Thrown msg).
Proof.
  intros Hindex. split; [split |].
  - unfold ReadName.
    destruct ((index =? 0) || (Z.of_nat (length contents) <=? index)) eqn:Hbad;
      [discriminate |].
    apply orb_false_iff in Hbad as (H0 & Hlen).
    apply Z.eqb_neq in H0. apply Z.leb_gt in Hlen.
    destruct (until_nul (drop (Z.to_nat index) contents)) as [name'|] eqn:Hn;
      [| discriminate].
    intros [= <-]. apply until_nul_spec in Hn as (Hno & after & Heq).
    split_and!; [lia | lia | assumption |].
    exists (take (Z.to_nat index) contents), after. split.
    + rewrite <- Heq, take_drop. reflexivity.
    + rewrite length_take. lia.
  - intros (Hrange & Hno & before & after & Heq & Hlen). unfold ReadName.
    replace (index =? 0) with false by (symmetry; apply Z.eqb_neq; lia).
    replace (Z.of_nat (length contents) <=? index) with false
      by (symmetry; apply Z.leb_gt; lia).
    simpl.
    replace (drop (Z.to_nat index) contents) with (name ++ nul_char :: after).
    + rewrite (proj2 (until_nul_spec _ name)) by eauto. reflexivity.
    + rewrite Heq. replace (Z.to_nat index) with (length before) by lia.
      rewrite drop_app_length. reflexivity.
  - intros e. unfold ReadName.
    destruct ((index =? 0) || (Z.of_nat (length contents) <=? index));
      [intros [= <-]; eauto |].
    destruct (until_nul _); [discriminate | intros [= <-]; eauto].
Qed.

Lemma ToVMAddr_sum (addr ndx : Z) :
  0 <= addr < 2 ^ 40 -> 0 <= ndx < 2 ^ 23 ->
  ToVMAddr addr ndx true = ndx * 2 ^ 40 + addr.
Proof.
  intros Haddr Hndx. unfold ToVMAddr.
  rewrite Z.shiftl_mul_pow2 by lia.
  rewrite wrap_u64_id by (unfold is_u64, UINT64_MAX; lia).
  assert (Hdisjoint : Z.land (ndx * 2 ^ 40) addr = 0).
  { apply Z.bits_inj'. intros m Hm. rewrite Z.land_spec, Z.bits_0.
    destruct (Z.lt_ge_cases m 40) as [Hlt | Hge].
    - rewrite Z.mul_pow2_bits_low by lia. reflexivity.
    - rewrite (testbit_small 40 addr m) by lia. apply andb_false_r. }
  rewrite <- Z.lxor_lor by assumption.
  symmetry. apply Z.add_nocarry_lxor. assumption.
Qed.

(** X22.  [ToVMAddr] for an object file packs the section index and the
    address into one 64-bit address without loss: for an address below
    [2 ^ 40] and an index below [2 ^ 23] the result is
    [ndx * 2 ^ 40 + addr], from which both come back, so ranges of
    different sections never meet.  For a binary the address is returned as
    it is. *)
Theorem ToVMAddr_packs (addr ndx : Z) :
  0 <= addr < 2 ^ 40 -> 0 <= ndx < 2 ^ 23 ->
  ToVMAddr addr ndx true = ndx * 2 ^ 40 + addr /\
  Z.shiftr (ToVMAddr addr ndx true) 40 = ndx /\
  Z.land (ToVMAddr addr ndx true) (2 ^ 40 - 1) = addr /\
  (forall addr' ndx', 0 <= addr' < 2 ^ 40 -> 0 <= ndx' < 2 ^ 23 ->
     ToVMAddr addr ndx true = ToVMAddr addr' ndx' true ->
     addr = addr' /\ ndx = ndx') /\
  ToVMAddr addr ndx false = addr.
Proof.
  intros Haddr Hndx. rewrite ToVMAddr_sum by assumption.
  split_and!.
  - reflexivity.
  - rewrite Z.shiftr_div_pow2 by lia. symmetry.
    apply (Z.div_unique _ _ _ addr); lia.
  - change (2 ^ 40 - 1) with (Z.ones 40). rewrite Z.land_ones by lia.
    symmetry. apply (Z.mod_unique _ _ ndx); lia.
  - intros addr' ndx' Haddr' Hndx'. rewrite ToVMAddr_sum by assumption.
    intros Heq. assert (ndx = ndx') by nia. split; [nia | assumption].
  - reflexivity.
Qed.

End ElfReaders.

Lemma ELF_reads_in_bounds_witness :
  GetRegion (String.list_ascii_of_string "ELF header and more") 4 6
  = Ok (String.list_ascii_of_string "header") /\
  GetRegion (String.list_ascii_of_string "ELF") 2 2
  = Err (Thrown "ELF region out-of-bounds").
Proof.
  split.
  - destruct (proj1 (ELF_reads_in_bounds
                       (String.list_ascii_of_string "ELF header and more") 4 6
                       ltac:(unfold is_u64, UINT64_MAX; lia)
                       ltac:(unfold is_u64, UINT64_MAX; lia)
                       ltac:(simpl; unfold SIZE_MAX, UINT64_MAX; lia))
                ltac:(simpl; lia)) as (region & Hrun & _).
    rewrite Hrun. vm_compute in Hrun. injection Hrun as <-.
    vm_compute. reflexivity.
  - apply (proj2 (ELF_reads_in_bounds (String.list_ascii_of_string "ELF") 2 2
                    ltac:(unfold is_u64, UINT64_MAX; lia)
                    ltac:(unfold is_u64, UINT64_MAX; lia)
                    ltac:(simpl; unfold SIZE_MAX, UINT64_MAX; lia))
             ltac:(simpl; lia)).
Defined.

Lemma ReadName_spec_witness :
  ReadName [ nul_char; "."%char; "t"%char; nul_char ] 1 = Ok [ "."%char; "t"%char ].
Proof.
  apply (proj1 (ReadName_spec [ nul_char; "."%char; "t"%char; nul_char ] 1
                  [ "."%char; "t"%char ] ltac:(lia))).
  split_and!; [simpl; lia | simpl; lia | |].
  - intros Hin. repeat (apply elem_of_cons in Hin as [Hin | Hin];
                          [discriminate |]).
    apply elem_of_nil in Hin. contradiction.
  - exists [ nul_char ], []. split; reflexivity.
Defined.

Lemma ToVMAddr_packs_witness :
  ToVMAddr 4096 3 true = 3 * 2 ^ 40 + 4096.
Proof.
  apply (ToVMAddr_packs 4096 3); lia.
Defined.
(** *** Archive members *)

Section ArchiveFacts.

Variable SimpleAtoi : list ascii -> option Z.

(** [absl::SimpleAtoi] yields values of [size_t]. *)
Hypothesis SimpleAtoi_size_t : forall str z, SimpleAtoi str = Some z -> 0 <= z.

Lemma ReadMember_parts (reader : MemberReader) (file0 : MemberFile)
    (ok : bool) (file : MemberFile) (reader' : MemberReader) :
  ReadMember SimpleAtoi reader file0 = Ok (ok, file, reader') ->
  ok = true ->
  member_header file = take sizeof_Header (remaining_ reader) /\
  (sizeof_Header <= length (remaining_ reader))%nat /\
  0 <= member_size file /\
  member_size file
    <= Z.of_nat (length (drop sizeof_Header (remaining_ reader))) /\
  member_contents file =
    take (Z.to_nat (member_size file))
      (drop sizeof_Header (remaining_ reader)) /\
  remaining_ reader' =
    drop (Z.to_nat (member_size file))
      (drop sizeof_Header (remaining_ reader)).
Proof.
  intros Hrun Hok. subst ok. unfold ReadMember in Hrun.
  destruct (length (remaining_ reader) <? sizeof_Header)%nat eqn:Hshort;
    [discriminate |].
  apply Nat.ltb_ge in Hshort.
  unfold Consume at 1 in Hrun.
  replace (Z.of_nat (length (remaining_ reader)) <? Z.of_nat sizeof_Header)
    with false in Hrun by (symmetry; apply Z.ltb_ge; lia).
  rewrite Nat2Z.id in Hrun. simpl rbind in Hrun.
  unfold StringViewToSize at 1 in Hrun.
  destruct (SimpleAtoi (substr (remaining_ reader) 48 10)) as [size|] eqn:Hsize;
    [| discriminate].
  apply SimpleAtoi_size_t in Hsize. simpl rbind in Hrun.
  unfold Consume in Hrun. simpl remaining_ in Hrun.
  destruct (Z.of_nat (length (drop sizeof_Header (remaining_ reader))) <? size)
    eqn:Hfit; [discriminate |].
  apply Z.ltb_ge in Hfit. simpl rbind in Hrun.
  repeat match type of Hrun with
         | context [rbind ?c _] => destruct c; simpl rbind in Hrun
         | context [if ?b then _ else _] => destruct b
         | context [match ?x with Some _ => _ | None => _ end] =>
             destruct x; simpl rbind in Hrun
         | context [match ?x with Ok _ => _ | Err _ => _ end] =>
             destruct x; simpl rbind in Hrun
         end;
    try discriminate; inversion Hrun; subst; simpl; auto 10.
Qed.

(** X23.  A member that [ReadMember] returns lies at the front of what was
    left of the archive: its header of 60 bytes, then its contents of the
    size the header gives, then what is left for the next call.  So the
    members never overlap, none reaches past the end of the archive, and
    every call that returns true consumes at least the 60 bytes of a
    header, which bounds the loop of [ForEachElf]. *)
Theorem ReadMember_consumes (reader : MemberReader) (file0 : MemberFile)
    (file : MemberFile) (reader' : MemberReader) :
  ReadMember SimpleAtoi reader file0 = Ok (true, file, reader') ->
  remaining_ reader =
    member_header file ++ member_contents file ++ remaining_ reader' /\
  length (member_header file) = sizeof_Header /\
  Z.of_nat (length (member_contents file)) = member_size file /\
  (length (remaining_ reader') + sizeof_Header
   <= length (remaining_ reader))%nat.
Proof.
  intros Hrun.
  destruct (ReadMember_parts _ _ _ _ _ Hrun eq_refl)
    as (Hh & Hlen & Hsz0 & Hsz & Hc & Hr).
  rewrite Hh, Hc, Hr. split_and!.
  - rewrite take_drop, take_drop. reflexivity.
  - rewrite length_take. lia.
  - rewrite length_take. lia.
  - rewrite !length_drop. lia.
Qed.

End ArchiveFacts.

Lemma digits_value_nonneg str : forall acc z,
  0 <= acc -> digits_value str acc = Some z -> 0 <= z.
Proof.
  induction str as [|ch rest IH]; intros acc z Hacc Hrun; simpl in Hrun.
  - injection Hrun as <-. assumption.
  - destruct (isdigit ch) eqn:Hd.
    + apply IH in Hrun; [assumption |].
      unfold isdigit in Hd. apply andb_true_iff in Hd as (Hlo & _).
      apply Nat.leb_le in Hlo. lia.
    + destruct (char_eqb ch space_char && forallb _ rest);
        [injection Hrun as <-; assumption | discriminate].
Qed.

Lemma decimal_Atoi_size_t str z : decimal_Atoi str = Some z -> 0 <= z.
Proof.
  unfold decimal_Atoi. destruct str as [|ch rest]; [discriminate |].
  destruct (isdigit ch); [| discriminate].
  apply digits_value_nonneg. lia.
Qed.

Lemma ReadMember_consumes_witness :
  exists file reader',
    ReadMember decimal_Atoi
      (MkMemberReader []
         (ar_header "hello.o/        " "5         " ++
          String.list_ascii_of_string "ELF..rest"))
      (MkMemberFile kNormal [] 0 [] [])
    = Ok (true, file, reader') /\
    member_filename file = String.list_ascii_of_string "hello.o" /\
    length (member_contents file) = 5%nat /\
    remaining_ reader' = String.list_ascii_of_string "rest".
Proof.
  eexists _, _. split; [vm_compute; reflexivity |].
  split; [reflexivity |].
  split; [| reflexivity].
  apply Nat2Z.inj.
  exact (proj1 (proj2 (proj2
    (ReadMember_consumes decimal_Atoi decimal_Atoi_size_t
       (MkMemberReader []
          (ar_header "hello.o/        " "5         " ++
           String.list_ascii_of_string "ELF..rest"))
       (MkMemberFile kNormal [] 0 [] []) _ _
       ltac:(vm_compute; reflexivity))))).
Defined.
(** ** Data sources *)

Section Configuration.

Implicit Types (bloaty : Bloaty) (names : list string)
  (known : gmap string ConfiguredDataSource).

Lemma selected_cons known name names :
  selected known (name :: names) =
  (if String.eqb name "inputfiles" then []
   else match known !! name with Some s => [s] | None => [] end) ++
  selected known names.
Proof.
  unfold selected. simpl.
  destruct (String.eqb name "inputfiles"); [reflexivity |].
  destruct (known !! name); reflexivity.
Qed.

(** The loop over the names of the selected data sources. *)
Lemma for_each_AddDataSource names : forall bloaty,
  for_each AddDataSource names bloaty =
  if forallb (selectable (all_known_sources_ bloaty)) names
  then Ok (MkBloaty (all_known_sources_ bloaty)
             (sources_ bloaty ++ selected (all_known_sources_ bloaty) names)
             (match before_inputfiles names with
              | Some before =>
                  Z.of_nat (length (sources_ bloaty) +
                            length (selected (all_known_sources_ bloaty) before))
                  + 1
              | None => filename_position_ bloaty
              end))
  else THROW "no such data source: $0".
Proof.
  induction names as [|name rest IH]; intros bloaty.
  - simpl. rewrite app_nil_r. destruct bloaty; reflexivity.
  - simpl for_each. unfold AddDataSource at 1.
    simpl forallb. unfold selectable at 1. rewrite selected_cons.
    simpl before_inputfiles.
    destruct (String.eqb name "inputfiles") eqn:Hname.
    + simpl rbind. rewrite IH. simpl.
      destruct (forallb _ rest); [| reflexivity].
      f_equal. f_equal.
      destruct (before_inputfiles rest) as [before|]; [| simpl; lia].
      rewrite selected_cons, Hname. reflexivity.
    + destruct (all_known_sources_ bloaty !! name) as [source|] eqn:Hknown.
      * rewrite bool_decide_eq_true_2 by eauto.
        simpl rbind. rewrite IH. simpl.
        destruct (forallb _ rest); [| reflexivity].
        rewrite <- app_assoc. f_equal. f_equal.
        destruct (before_inputfiles rest) as [before|]; [| reflexivity].
        rewrite selected_cons, Hname, Hknown, !length_app. simpl. lia.
      * rewrite bool_decide_eq_false_2
          by (intros (s & Hs); discriminate).
        reflexivity.
Qed.

(** X24.  A run of [AddDataSource] over the names of the [-d] option:
    every name must be ["inputfiles"] or the name of a known source, or the
    run throws; the selected sources are the known sources of the other
    names, in their order, after those selected before; and
    [filename_position_] is one more than the number of sources selected
    before the last ["inputfiles"], or what it was if there is none. *)
Theorem AddDataSource_selects names bloaty :
  (Forall (fun name => name = "inputfiles"%string \/
                       is_Some (all_known_sources_ bloaty !! name)) names ->
   exists bloaty',
     for_each AddDataSource names bloaty = Ok bloaty' /\
     all_known_sources_ bloaty' = all_known_sources_ bloaty /\
     sources_ bloaty' =
       sources_ bloaty ++ selected (all_known_sources_ bloaty) names /\
     filename_position_ bloaty' =
       match before_inputfiles names with
       | Some before =>
           Z.of_nat (length (sources_ bloaty) +
                     length (selected (all_known_sources_ bloaty) before)) + 1
       | None => filename_position_ bloaty
       end) /\
  (Exists (fun name => name <> "inputfiles"%string /\
                       all_known_sources_ bloaty !! name = None) names ->
   for_each AddDataSource names bloaty =
     Err (Thrown "no such data source: $0")).
Proof.
  rewrite for_each_AddDataSource. split.
  - intros Hall.
    replace (forallb (selectable (all_known_sources_ bloaty)) names) with true.
    + eexists. split; [reflexivity |]. simpl. auto.
    + symmetry. apply forallb_forall. intros name Hin.
      apply list_elem_of_In in Hin.
      destruct (proj1 (Forall_forall _ _) Hall name Hin) as [-> | Hknown];
        unfold selectable.
      * reflexivity.
      * rewrite bool_decide_eq_true_2 by assumption. apply orb_true_r.
  - intros Hex.
    replace (forallb (selectable (all_known_sources_ bloaty)) names) with false;
      [reflexivity |].
    symmetry. apply not_true_is_false. intros Hall.
    apply Exists_exists in Hex as (name & Hin & Hne & Hnone).
    apply list_elem_of_In in Hin.
    pose proof (proj1 (forallb_forall _ _) Hall name Hin) as Hsel.
    unfold selectable in Hsel. apply orb_true_iff in Hsel as [Heq | Hk].
    + apply String.eqb_eq in Heq. contradiction.
    + apply bool_decide_eq_true in Hk. rewrite Hnone in Hk.
      destruct Hk as (s & Hs). discriminate.
Qed.

Lemma new_Bloaty_invariant : config_invariant new_Bloaty.
Proof.
  split_and!.
  - intros name s Hs. unfold new_Bloaty, AddBuiltInSources in Hs.
    simpl in Hs.
    repeat (apply lookup_insert_Some in Hs as [(_ & <-) | (_ & Hs)];
            [simpl; set_solver |]).
    rewrite lookup_empty in Hs. discriminate.
  - constructor.
  - left. reflexivity.
Qed.

Lemma DefineCustomDataSource_invariant source bloaty bloaty' :
  config_invariant bloaty ->
  DefineCustomDataSource source bloaty = Ok bloaty' ->
  config_invariant bloaty'.
Proof.
  intros (Hknown & Hsel & Hpos) Hrun. unfold DefineCustomDataSource in Hrun.
  destruct (all_known_sources_ bloaty !! base_data_source source)
    as [base|] eqn:Hbase; [| discriminate].
  destruct (negb _); [discriminate |]. injection Hrun as <-.
  split_and!; simpl; auto.
  intros name s Hs. apply lookup_insert_Some in Hs as [(_ & <-) | (_ & Hs)].
  - simpl. eapply Hknown. exact Hbase.
  - eapply Hknown. exact Hs.
Qed.

Lemma AddDataSource_invariant name bloaty bloaty' :
  config_invariant bloaty ->
  AddDataSource name bloaty = Ok bloaty' ->
  config_invariant bloaty'.
Proof.
  intros (Hknown & Hsel & Hpos) Hrun. unfold AddDataSource in Hrun.
  destruct (String.eqb name "inputfiles").
  - injection Hrun as <-. split_and!; simpl; auto. right. lia.
  - destruct (all_known_sources_ bloaty !! name) as [s|] eqn:Hs;
      [| discriminate].
    injection Hrun as <-. split_and!; simpl; auto.
    + apply Forall_app. split; [assumption |].
      constructor; [| constructor]. eapply Hknown. exact Hs.
    + rewrite length_app. simpl. lia.
Qed.

Lemma for_each_invariant {A} (body : A -> Bloaty -> result Bloaty) items :
  (forall item bloaty bloaty',
     config_invariant bloaty -> body item bloaty = Ok bloaty' ->
     config_invariant bloaty') ->
  forall bloaty bloaty',
  config_invariant bloaty -> for_each body items bloaty = Ok bloaty' ->
  config_invariant bloaty'.
Proof.
  intros Hbody. induction items as [|item rest IH]; intros bloaty bloaty' Hinv Hrun.
  - simpl in Hrun. injection Hrun as <-. assumption.
  - simpl in Hrun. inv_bind Hrun. eapply IH; [| exact Hrun].
    eapply Hbody; eassumption.
Qed.

Lemma for_each_Define_selection (custom : list CustomDataSource) :
  forall bloaty bloaty',
  for_each DefineCustomDataSource custom bloaty = Ok bloaty' ->
  sources_ bloaty' = sources_ bloaty /\
  filename_position_ bloaty' = filename_position_ bloaty.
Proof.
  induction custom as [|source rest IH]; intros bloaty bloaty' Hrun;
    simpl in Hrun.
  - injection Hrun as <-. auto.
  - inv_bind Hrun. apply IH in Hrun as (-> & ->).
    unfold DefineCustomDataSource in Hbind.
    destruct (all_known_sources_ bloaty !! base_data_source source);
      [| discriminate].
    destruct (negb _); [discriminate |]. injection Hbind as <-. auto.
Qed.

Lemma GetSourceCount_selected known names :
  Z.of_nat (length (selected known names)) +
  (match before_inputfiles names with Some _ => 1 | None => 0 end)
  <= Z.of_nat (length names).
Proof.
  induction names as [|name rest IH]; [simpl; lia |].
  rewrite selected_cons, length_app. simpl before_inputfiles. simpl length.
  destruct (String.eqb name "inputfiles").
  - simpl length. destruct (before_inputfiles rest); lia.
  - destruct (known !! name); simpl length;
      destruct (before_inputfiles rest); lia.
Qed.

(** X25.  However the custom data sources and the [-d] names are given, a
    configuration that does not throw leaves every known and every
    selected source with a definition of the built-in table, and
    [filename_position_] either unset (-1) or between 1 and the number of
    selected sources plus 1: the file name is never put before the key of
    the base map, which [AddSizes] leaves out, and always among the keys of
    the join of the base map and the selected sources. *)
Theorem configure_invariant (custom_data_source : list CustomDataSource)
    (data_source : list string) bloaty :
  configure custom_data_source data_source = Ok bloaty ->
  (forall name s, all_known_sources_ bloaty !! name = Some s ->
     definition s ∈ data_sources) /\
  Forall (fun s => definition s ∈ data_sources) (sources_ bloaty) /\
  (filename_position_ bloaty = -1 \/
   1 <= filename_position_ bloaty
     <= Z.of_nat (length (sources_ bloaty)) + 1) /\
  GetSourceCount bloaty <= Z.of_nat (length data_source).
Proof.
  intros Hrun. unfold configure in Hrun. inv_bind Hrun.
  assert (Hinv : config_invariant a).
  { eapply (for_each_invariant DefineCustomDataSource);
      [| exact new_Bloaty_invariant | exact Hbind].
    intros item b b'. apply DefineCustomDataSource_invariant. }
  assert (Hunset : sources_ a = [] /\ filename_position_ a = -1).
  { apply for_each_Define_selection in Hbind as (-> & ->). auto. }
  pose proof (for_each_invariant AddDataSource data_source
                AddDataSource_invariant a bloaty Hinv Hrun)
    as (Hknown & Hsel & Hpos).
  split_and!; auto.
  rewrite for_each_AddDataSource in Hrun.
  destruct (forallb _ data_source); [| discriminate].
  injection Hrun as <-. unfold GetSourceCount. simpl.
  destruct Hunset as (-> & ->). simpl.
  pose proof (GetSourceCount_selected (all_known_sources_ a) data_source)
    as Hle.
  destruct (before_inputfiles data_source) as [before|].
  - replace (0 <=? _) with true by (symmetry; apply Z.leb_le; lia). lia.
  - simpl. lia.
Qed.

End Configuration.

Lemma configure_invariant_witness :
  exists bloaty,
    configure
      [ MkCustomDataSource "bloaty_package" "compileunits"
          [ ("^src/([^/]+)", "\1")%string ] ]
      [ "bloaty_package"; "inputfiles"; "symbols" ]%string = Ok bloaty /\
    filename_position_ bloaty = 2 /\ GetSourceCount bloaty = 3.
Proof.
  eexists. split; [vm_compute; reflexivity |].
  pose proof (configure_invariant
                [ MkCustomDataSource "bloaty_package" "compileunits"
                    [ ("^src/([^/]+)", "\1")%string ] ]
                [ "bloaty_package"; "inputfiles"; "symbols" ]%string _
                ltac:(vm_compute; reflexivity)) as (_ & _ & Hpos & Hcount).
  split; reflexivity.
Defined.

Example AddDataSource_unknown :
  configure [] [ "sections"; "nosuchsource" ]%string
  = Err (Thrown "no such data source: $0").
Proof. vm_compute. reflexivity. Qed.
(** ** DualMaps::ComputeRollup *)

Section DualMapsFacts.

Implicit Types (calls : list rollup_call) (range_maps : list Map).

Lemma init_iters_nonempty range_maps : forall current r,
  init_iters range_maps current = Ok r -> Forall (fun m => m <> []) range_maps.
Proof.
  induction range_maps as [|m rest IH]; intros current r Hrun; [constructor |].
  simpl in Hrun. destruct m as [|first tl]; [discriminate |].
  inv_bind Hrun. constructor; [discriminate |]. eapply IH. exact Hbind.
Qed.

(** The intervals of a run that returns. *)
Lemma ComputeRollup_Ok_spec range_maps filename filename_position calls :
  Forall WF range_maps ->
  Forall (Forall (fun n => end_ (snd n) < UINTPTR_MAX)) range_maps ->
  ComputeRollup range_maps filename filename_position = Ok calls ->
  ascending_from 0 calls /\
  (forall a, in_calls calls a <-> Exists (fun m => covered m a) range_maps).
Proof.
  intros Hwf_all Hmax Hrun. unfold ComputeRollup in Hrun.
  destruct (length range_maps =? 0)%nat; [discriminate |].
  inv_bind Hrun. destruct a as (iters & current).
  pose proof (init_iters_nonempty _ _ _ Hbind) as Hnonempty.
  destruct (init_iters_Ok range_maps UINTPTR_MAX Hnonempty)
    as (current' & Hinit & Hle & Hfirst & Hlo).
  rewrite Hinit in Hbind. injection Hbind as <- <-.
  destruct (current' =? UINTPTR_MAX); [discriminate |].
  pose proof (proj1 (Forall_forall _ _) Hwf_all) as Hwf.
  assert (Hkeys : forall m n, m ∈ range_maps -> n ∈ m -> current' <= fst n).
  { intros m n Hm Hn.
    pose proof (proj1 (Forall_forall _ _) Hfirst m Hm) as Hhead.
    specialize (Hwf m Hm).
    destruct m as [|first m']; [inversion Hn |]. simpl in Hhead.
    unfold WF in Hwf. simpl in Hwf. destruct Hwf as (_ & ? & _ & Hrest).
    apply elem_of_cons in Hn as [-> | Hn]; [lia |].
    destruct (wf_from_elem _ _ _ Hrest Hn) as (? & ? & ? & ?). lia. }
  assert (Hcur : 0 <= current').
  { apply Hlo; [unfold UINTPTR_MAX, UINT64_MAX; lia |].
    apply Forall_forall. intros m Hm.
    specialize (Hwf m Hm). destruct m as [|first m']; [exact I |].
    unfold WF in Hwf. simpl in Hwf |- *. lia. }
  assert (Hof : Forall2 (iter_of current') range_maps range_maps).
  { apply Forall2_same_length_lookup. split; [reflexivity |].
    intros i m m' Hm Hm'. assert (m = m') as <- by congruence.
    exists []. split; [reflexivity | constructor]. }
  destruct (rollup_loop_spec filename filename_position range_maps Hwf_all Hmax
              _ _ _ calls Hof Hrun) as [Hasc Hcov].
  split.
  - eapply ascending_from_weaken; [| exact Hasc]. lia.
  - intros a. destruct (Z_le_dec current' a) as [Hge | Hlt];
      [apply Hcov; exact Hge |].
    split.
    + intros Hin. pose proof (ascending_from_in_calls _ _ _ Hasc Hin). lia.
    + intros Hex. apply Exists_exists in Hex as (m & Hm & n & Hn & Hc).
      apply EntryContains_true in Hc. specialize (Hkeys _ _ Hm Hn). lia.
Qed.

(** Ascending intervals that cover exactly the addresses from [lo] up to
    [hi] have the total length [hi - lo]. *)
Lemma total_length_range calls : forall lo hi,
  lo <= hi -> ascending_from lo calls ->
  (forall a, in_calls calls a <-> lo <= a < hi) ->
  total_length calls = hi - lo.
Proof.
  induction calls as [|[[keys cur] next] rest IH]; intros lo hi Hle Hasc Hcov.
  - simpl. destruct (Z.eq_dec lo hi) as [-> | Hne]; [lia |].
    exfalso. apply (in_calls_nil lo). apply Hcov. lia.
  - simpl in Hasc. destruct Hasc as (Hlo & Hne & Hrest).
    assert (Hcur_in : lo <= cur < hi).
    { apply Hcov. apply in_calls_cons. left. lia. }
    assert (Hcur : cur = lo).
    { assert (Hin : in_calls ((keys, cur, next) :: rest) lo)
        by (apply Hcov; lia).
      apply in_calls_cons in Hin as [Hin | Hin]; [lia |].
      pose proof (ascending_from_in_calls _ _ _ Hrest Hin). lia. }
    assert (Hnext : next <= hi).
    { assert (Hin : lo <= next - 1 < hi).
      { apply Hcov. apply in_calls_cons. left. lia. }
      lia. }
    unfold total_length. simpl. fold (total_length rest).
    rewrite (IH next hi Hnext Hrest); [lia |].
    intros a. split.
    + intros Hin. pose proof (ascending_from_in_calls _ _ _ Hrest Hin).
      assert (lo <= a < hi); [| lia].
      apply Hcov. apply in_calls_cons. auto.
    + intros Ha. assert (Hin : in_calls ((keys, cur, next) :: rest) a)
        by (apply Hcov; lia).
      apply in_calls_cons in Hin as [Hin | Hin]; [lia | assumption].
Qed.

Lemma ascending_bounds calls : forall lo keys cur next,
  ascending_from lo calls -> (keys, cur, next) ∈ calls -> lo <= cur < next.
Proof. intros. eapply ascending_from_elem; eassumption. Qed.

(** The sizes that the callback adds for a list of calls: all of them
    into the total that [is_vmsize] selects. *)
Lemma sum_sizes_add_calls (is_vmsize selected : bool) calls :
  Forall (fun call => 0 <= snd call - snd (fst call) <= UINT64_MAX) calls ->
  sum_sizes selected [] (add_calls is_vmsize calls) =
  if Bool.eqb is_vmsize selected then total_length calls else 0.
Proof.
  induction 1 as [|[[keys cur] next] rest Hhd _ IH].
  - destruct (Bool.eqb is_vmsize selected); reflexivity.
  - unfold sum_sizes, add_calls, total_length in *. simpl in *.
    rewrite IH.
    rewrite andb_true_r, wrap_u64_id by (unfold is_u64; lia).
    destruct (Bool.eqb is_vmsize selected); lia.
Qed.

Lemma sum_sizes_other (is_vmsize : bool) calls :
  sum_sizes (negb is_vmsize) [] (add_calls is_vmsize calls) = 0.
Proof.
  induction calls as [|[[keys cur] next] rest IH]; [reflexivity |].
  unfold sum_sizes, add_calls in *. simpl in *. rewrite IH.
  destruct is_vmsize; reflexivity.
Qed.

Lemma ascending_sizes calls lo :
  0 <= lo -> ascending_from lo calls ->
  Forall (fun call => snd call <= UINT64_MAX) calls ->
  Forall (fun call => 0 <= snd call - snd (fst call) <= UINT64_MAX) calls.
Proof.
  revert lo. induction calls as [|[[keys cur] next] rest IH];
    intros lo Hlo Hasc Hmax; [constructor |].
  simpl in Hasc. destruct Hasc as (Hcur & Hne & Hrest).
  apply Forall_cons in Hmax as (Hnext & Hmax). simpl in Hnext.
  constructor; [simpl; lia |]. apply (IH next); [lia | assumption | assumption].
Qed.

(** X26.  [DualMaps::ComputeRollup] adds the size of the file to the
    rollup's file total: when the file maps together hold exactly the
    offsets from 0 up to [size], as they do once the base map has been
    filled up with ["[None]"], a run that returns leaves the file total
    larger by [size], whatever the number of maps and however their
    entries overlap; every byte of the file is counted once. *)
Theorem DualMaps_ComputeRollup_file_total (maps_ : list DualMap)
    (filename : string) (filename_position : Z) (rollup rollup' : Rollup)
    (size : Z) :
  Forall (fun map => WF (file_map map)) maps_ ->
  0 <= size < UINTPTR_MAX ->
  (forall a, Exists (fun map => covered (file_map map) a) maps_ <->
             0 <= a < size) ->
  DualMaps_ComputeRollup maps_ filename filename_position rollup = Ok rollup' ->
  file_total_ rollup' = file_total_ rollup + size.
Proof.
  intros Hwf Hsize Hcov Hrun. unfold DualMaps_ComputeRollup in Hrun.
  inv_bind Hrun. rename a into vm_calls. inv_bind Hrun. rename a into rollup1.
  inv_bind Hrun. rename a into file_calls.
  assert (Hwf' : Forall WF (map file_map maps_)).
  { apply Forall_fmap. exact Hwf. }
  assert (Hcov' : forall a, Exists (fun m => covered m a) (map file_map maps_)
                            <-> 0 <= a < size).
  { intros a. rewrite <- Hcov. rewrite Exists_fmap. reflexivity. }
  assert (Hmax : Forall (Forall (fun n => end_ (snd n) < UINTPTR_MAX))
                   (map file_map maps_)).
  { apply Forall_forall. intros m Hm. apply Forall_forall. intros n Hn.
    pose proof (proj1 (Forall_forall _ _) Hwf' m Hm) as Hwfm.
    destruct (wf_from_elem _ _ _ Hwfm Hn) as (Hlo & Hne & _ & _).
    assert (Hin : 0 <= end_ (snd n) - 1 < size); [| lia].
    apply Hcov'. apply Exists_exists. exists m. split; [assumption |].
    exists n. split; [assumption |]. apply EntryContains_true. lia. }
  destruct (ComputeRollup_Ok_spec _ _ _ _ Hwf' Hmax Hbind1) as (Hasc & Hin).
  assert (Htotal : total_length file_calls = size - 0).
  { apply total_length_range; [lia | assumption |].
    intros a. rewrite Hin. apply Hcov'. }
  assert (Hsizes : Forall (fun call => 0 <= snd call - snd (fst call)
                                       <= UINT64_MAX) file_calls).
  { apply (ascending_sizes _ 0); [lia | assumption |].
    apply Forall_forall. intros [[keys cur] next] Hcall. simpl.
    pose proof (ascending_from_elem _ _ _ _ _ Hasc Hcall) as Hb.
    assert (Hlast : 0 <= next - 1 < size); [| unfold UINTPTR_MAX in *; lia].
    apply Hcov'. apply Hin. exists keys, cur, next. split; [assumption | lia]. }
  apply run_AddSizes_exact in Hbind0, Hrun. subst rollup1 rollup'.
  destruct (totals_at_run_exact (add_calls false file_calls)
              (run_exact (add_calls true vm_calls) rollup) []) as (_ & Hfile).
  destruct (totals_at_run_exact (add_calls true vm_calls) rollup [])
    as (_ & Hfile0).
  unfold file_at in Hfile, Hfile0. simpl in Hfile, Hfile0.
  rewrite Hfile, Hfile0.
  rewrite (sum_sizes_add_calls false false) by assumption.
  simpl. rewrite Htotal.
  rewrite (sum_sizes_other true). lia.
Qed.

End DualMapsFacts.

Lemma DualMaps_ComputeRollup_file_total_witness :
  exists rollup',
    DualMaps_ComputeRollup
      [ MkDualMap [ (4096, MkEntry "LOAD" 4196 0) ]
                  [ (0, MkEntry "LOAD" 100 4096);
                    (100, MkEntry "[None]" 150 UINT64_MAX) ];
        MkDualMap [ (4096, MkEntry ".text" 4136 UINT64_MAX) ]
                  [ (0, MkEntry ".text" 40 UINT64_MAX) ] ]
      "a.out" (-1) new_Rollup = Ok rollup' /\
    file_total_ rollup' = 150.
Proof.
  eexists. split; [vm_compute; reflexivity |].
  refine (DualMaps_ComputeRollup_file_total
            [ MkDualMap [ (4096, MkEntry "LOAD" 4196 0) ]
                        [ (0, MkEntry "LOAD" 100 4096);
                          (100, MkEntry "[None]" 150 UINT64_MAX) ];
              MkDualMap [ (4096, MkEntry ".text" 4136 UINT64_MAX) ]
                        [ (0, MkEntry ".text" 40 UINT64_MAX) ] ]
            "a.out" (-1) new_Rollup _ 150 _ _ _ _).
  - repeat constructor; unfold WF; simpl; unfold UINT64_MAX; lia.
  - unfold UINTPTR_MAX, UINT64_MAX. lia.
  - intros a. rewrite !Exists_cons, Exists_nil. unfold covered. simpl.
    split.
    + intros [(n & Hn & Hc) | [(n & Hn & Hc) | []]];
        apply EntryContains_true in Hc;
        repeat (apply elem_of_cons in Hn as [-> | Hn]; [simpl in Hc; lia |]);
        apply elem_of_nil in Hn; contradiction.
    + intros Ha. left. destruct (Z.lt_ge_cases a 100).
      * exists (0, MkEntry "LOAD" 100 4096).
        split; [apply elem_of_cons; left; reflexivity |].
        apply EntryContains_true. simpl. lia.
      * exists (100, MkEntry "[None]" 150 UINT64_MAX).
        split; [apply elem_of_cons; right; apply elem_of_cons; left;
                reflexivity |].
        apply EntryContains_true. simpl. lia.
  - vm_compute. reflexivity.
Defined.
(** ** The command line: DoParseOptions *)

Section ParseOptionsFacts.

Variable merge_config_file : string -> Options * Z -> result (Options * Z).
Variable strtod : string -> Z.

Local Ltac split_branches Hrun :=
  repeat match type of Hrun with
         | context [if String.eqb ?a ?b then _ else _] =>
             destruct (String.eqb a b) eqn:?
         | context [if saw_separator ?s then _ else _] =>
             destruct (saw_separator s) eqn:?
         | context [if starts_with_dash ?s then _ else _] =>
             destruct (starts_with_dash s) eqn:?
         end.

(** Arguments after a part of the command line that the loop ran through
    to its end are read in the state that part left. *)
Lemma parse_args_app (more : list string) :
  forall n args st st',
    (length args <= n)%nat ->
    parse_args merge_config_file strtod args st = Ok (true, st') ->
    parse_args merge_config_file strtod (args ++ more) st =
    parse_args merge_config_file strtod more st'.
Proof.
  induction n as [|n IH]; intros args st st' Hlen Hrun.
  - destruct args; [|simpl in Hlen; lia].
    simpl in Hrun. injection Hrun as ->. reflexivity.
  - destruct args as [|arg rest].
    { simpl in Hrun. injection Hrun as ->. reflexivity. }
    simpl in Hlen.
    rewrite <- app_comm_cons.
    cbn [parse_args] in Hrun |- *.
    split_branches Hrun;
      try discriminate;
      try (apply IH; [lia | exact Hrun]);
      (destruct rest as [|next rest']; [discriminate|]);
      rewrite <- app_comm_cons; simpl in Hlen.
    + destruct (merge_config_file next _); [|discriminate].
      cbn [rbind] in *. apply IH; [lia | exact Hrun].
    + destruct (Split _ _ _); [|discriminate].
      cbn [rbind] in *. apply IH; [lia | exact Hrun].
    + apply IH; [lia | exact Hrun].
    + split_branches Hrun; try discriminate; apply IH; (lia || exact Hrun).
Qed.

Lemma positional_not_option (arg opt : string) :
  positional arg -> starts_with_dash opt = true -> String.eqb arg opt = false.
Proof.
  unfold positional. intros Harg Hopt.
  apply String.eqb_neq. intros ->. congruence.
Qed.

Lemma Options_eta (options : Options) :
  MkOptions (filename options) (base_filename options) (data_source options)
    (max_rows_per_level options) (sort_by options) = options.
Proof. destruct options. reflexivity. Qed.

(** File names go to [filename] before the separator and to
    [base_filename] after it, in their order. *)
Lemma parse_args_positional : forall files st,
  Forall positional files ->
  parse_args merge_config_file strtod files st =
  Ok (true, with_options
              (add_positional (saw_separator st) files (parsed_options st)) st).
Proof.
  induction files as [|arg files IH]; intros st Hall.
  - unfold add_positional, with_options. cbn [parse_args].
    rewrite !app_nil_r, Options_eta. destruct st, saw_separator0; reflexivity.
  - apply Forall_cons in Hall as [Harg Hall].
    cbn [parse_args].
    rewrite !(positional_not_option arg) by (assumption || reflexivity).
    rewrite Harg.
    destruct (saw_separator st) eqn:Hsep; rewrite (IH _ Hall);
      unfold with_options, add_positional, add_base_filename, add_filename;
      cbn [saw_separator parsed_options filename base_filename data_source
           max_rows_per_level sort_by verbose_level parsed_output];
      rewrite Hsep, <- app_assoc; reflexivity.
Qed.

Lemma parse_args_files_separator (files bases : list string) (st : parse_state) :
  Forall positional files -> Forall positional bases ->
  saw_separator st = false ->
  parse_args merge_config_file strtod (files ++ "--"%string :: bases) st =
  Ok (true,
      MkParseState
        (MkOptions (filename (parsed_options st) ++ files)
           (base_filename (parsed_options st) ++ bases)
           (data_source (parsed_options st))
           (max_rows_per_level (parsed_options st))
           (sort_by (parsed_options st)))
        (verbose_level st) (parsed_output st) true).
Proof.
  intros Hfiles Hbases Hsep.
  rewrite (parse_args_app _ (length files) files st _ (le_n _)
             (parse_args_positional files st Hfiles)).
  cbn [parse_args]. rewrite String.eqb_refl.
  cbn [with_options saw_separator]. rewrite Hsep.
  rewrite (parse_args_positional bases _ Hbases).
  unfold with_options, add_positional.
  cbn [saw_separator parsed_options filename base_filename data_source
       max_rows_per_level sort_by verbose_level parsed_output].
  reflexivity.
Qed.

Lemma default_data_source (st : parse_state) (args : list string)
    (options : Options) (verbose : Z) (out : OutputOptions) :
  parse_args merge_config_file strtod args
    (MkParseState options verbose out false) = Ok (true, st) ->
  DoParseOptions merge_config_file strtod args options verbose out =
  Ok (true,
      with_options
        (MkOptions (filename (parsed_options st))
           (base_filename (parsed_options st))
           (sources_or_default (data_source (parsed_options st)))
           (max_rows_per_level (parsed_options st))
           (sort_by (parsed_options st))) st).
Proof.
  intros Hrun. unfold DoParseOptions. rewrite Hrun. cbn [rbind].
  destruct st as [[files bases sources rows sort] level output sep].
  cbn [parsed_options data_source]. destruct sources; reflexivity.
Qed.

(** X28.  With file names only (no argument starts with a dash) around one
    [--], the parse returns true; the names before [--] are added to
    [filename] and those after it to [base_filename], in their order; the
    data sources become [sections] when the options named none, and nothing
    else changes.  A second [--] throws, whatever follows it. *)
Theorem DoParseOptions_separator (files bases : list string)
    (options : Options) (verbose : Z) (out : OutputOptions) :
  Forall positional files -> Forall positional bases ->
  DoParseOptions merge_config_file strtod (files ++ "--"%string :: bases)
    options verbose out =
  Ok (true,
      MkParseState
        (MkOptions (filename options ++ files) (base_filename options ++ bases)
           (sources_or_default (data_source options))
           (max_rows_per_level options) (sort_by options))
        verbose out true) /\
  DoParseOptions merge_config_file strtod files options verbose out =
  Ok (true,
      MkParseState
        (MkOptions (filename options ++ files) (base_filename options)
           (sources_or_default (data_source options))
           (max_rows_per_level options) (sort_by options))
        verbose out false) /\
  forall rest,
    DoParseOptions merge_config_file strtod
      (files ++ "--"%string :: bases ++ "--"%string :: rest)
      options verbose out =
    THROW "'--' option should only be specified once".
Proof.
  intros Hfiles Hbases. split; [|split].
  - rewrite (default_data_source _ _ _ _ _
               (parse_args_files_separator files bases
                  (MkParseState options verbose out false) Hfiles Hbases eq_refl)).
    reflexivity.
  - rewrite (default_data_source _ _ _ _ _
               (parse_args_positional files _ Hfiles)).
    reflexivity.
  - intros rest. unfold DoParseOptions.
    replace (files ++ "--"%string :: bases ++ "--"%string :: rest)
      with ((files ++ "--"%string :: bases) ++ "--"%string :: rest)
      by (rewrite <- app_assoc; reflexivity).
    rewrite (parse_args_app _ _ _ _ _ (le_n _)
               (parse_args_files_separator files bases
                  (MkParseState options verbose out false) Hfiles Hbases eq_refl)).
    reflexivity.
Qed.

(** X29.  After arguments that the loop ran through to its end: an option
    that takes an argument and stands last throws; [-s] with a value other
    than vm, file and both throws; an argument that starts with a dash and
    is none of the known options throws; and [--help] and [--list-sources]
    return false at once, with the options as they are then: what follows
    is not read and no default data source is added. *)
Theorem DoParseOptions_stops (args : list string) (st : parse_state)
    (options : Options) (verbose : Z) (out : OutputOptions) :
  parse_args merge_config_file strtod args
    (MkParseState options verbose out false) = Ok (true, st) ->
  (forall opt, takes_argument opt ->
     DoParseOptions merge_config_file strtod (args ++ [opt])
       options verbose out =
     THROW "option '$0' requires an argument") /\
  (forall value rest, value ∉ sort_values ->
     DoParseOptions merge_config_file strtod
       (args ++ "-s"%string :: value :: rest) options verbose out =
     THROW "unknown value for -s: $0") /\
  (forall opt rest, starts_with_dash opt = true -> opt ∉ known_options ->
     DoParseOptions merge_config_file strtod (args ++ opt :: rest)
       options verbose out =
     THROW "Unknown option: $0") /\
  (forall opt rest, opt = "--help"%string \/ opt = "--list-sources"%string ->
     DoParseOptions merge_config_file strtod (args ++ opt :: rest)
       options verbose out =
     Ok (false, st)).
Proof.
  intros Hrun.
  pose proof (fun more => parse_args_app more _ _ _ _ (le_n _) Hrun) as Happ.
  split_and!.
  - intros opt Hopt. unfold DoParseOptions. rewrite Happ.
    destruct Hopt as [-> | [-> | [-> | ->]]]; reflexivity.
  - intros value rest Hvalue. unfold DoParseOptions. rewrite Happ.
    cbn [parse_args]. unfold sort_values in Hvalue.
    rewrite !not_elem_of_cons in Hvalue.
    destruct Hvalue as (Hvm & Hfile & Hboth & _).
    apply String.eqb_neq in Hvm, Hfile, Hboth.
    change (String.eqb "-s" "--") with false.
    change (String.eqb "-s" "--csv") with false.
    change (String.eqb "-s" "-c") with false.
    change (String.eqb "-s" "-d") with false.
    change (String.eqb "-s" "-n") with false.
    change (String.eqb "-s" "-s") with true.
    cbv iota. rewrite Hvm, Hfile, Hboth. reflexivity.
  - intros opt rest Hdash Hopt. unfold DoParseOptions. rewrite Happ.
    cbn [parse_args]. unfold known_options in Hopt.
    rewrite !not_elem_of_cons in Hopt.
    destruct Hopt as (H1 & H2 & H3 & H4 & H5 & H6 & H7 & H8 & H9 & H10 &
                      H11 & H12 & _).
    apply String.eqb_neq in H1, H2, H3, H4, H5, H6, H7, H8, H9, H10, H11, H12.
    rewrite H1, H2, H3, H4, H5, H6, H7, H8, H9, H10, H11, H12, Hdash.
    reflexivity.
  - intros opt rest [-> | ->]; unfold DoParseOptions; rewrite Happ;
      reflexivity.
Qed.

(** X30.  [-d] with a comma-separated list adds the items of the list, as
    [Split] gives them, to the data sources, in their order; the file names
    after it are added to [filename].  When the list has no item (it is
    empty) and the options named no data source, the data source is
    [sections]. *)
Theorem DoParseOptions_data_sources (sources : string) (files : list string)
    (options : Options) (verbose : Z) (out : OutputOptions) :
  Forall positional files ->
  exists names,
    Split (String.list_ascii_of_string sources) ","%char [] = Ok names /\
    Forall (fun item => ","%char ∉ item) names /\
    join_items ","%char names =
      closed_by ","%char (String.list_ascii_of_string sources) /\
    DoParseOptions merge_config_file strtod
      ("-d"%string :: sources :: files) options verbose out =
    Ok (true,
        MkParseState
          (MkOptions (filename options ++ files) (base_filename options)
             (sources_or_default
                (data_source options ++ map String.string_of_list_ascii names))
             (max_rows_per_level options) (sort_by options))
          verbose out false).
Proof.
  intros Hfiles.
  destruct (Split_loop_spec ","%char
              (length (String.list_ascii_of_string sources) + 1)
              (String.list_ascii_of_string sources) [] ltac:(lia))
    as (names & Hsplit & Hall & Hjoin).
  exists names. split_and!; try assumption.
  assert (Hfold : forall names options,
             fold_left (fun options name =>
                          add_data_source (String.string_of_list_ascii name)
                            options) names options =
             MkOptions (filename options) (base_filename options)
               (data_source options ++ map String.string_of_list_ascii names)
               (max_rows_per_level options) (sort_by options)).
  { clear. induction names as [|name names IH]; intros options.
    - cbn [fold_left map]. rewrite app_nil_r, Options_eta. reflexivity.
    - cbn [fold_left map]. rewrite IH. unfold add_data_source.
      cbn [filename base_filename data_source max_rows_per_level sort_by].
      rewrite <- app_assoc. reflexivity. }
  erewrite default_data_source.
  2:{ cbn [parse_args].
      change (String.eqb "-d" "--") with false.
      change (String.eqb "-d" "--csv") with false.
      change (String.eqb "-d" "-c") with false.
      change (String.eqb "-d" "-d") with true.
      cbv iota. unfold Split.
      rewrite Hsplit. cbn [rbind].
      rewrite (parse_args_positional files _ Hfiles). reflexivity. }
  rewrite Hfold. reflexivity.
Qed.

End ParseOptionsFacts.

Lemma DoParseOptions_separator_witness :
  DoParseOptions missing_config_file digits_strtod
    ([ "new.out"; "new.so" ]%string ++ "--"%string :: [ "old.out"%string ])
    (MkOptions [] [] [] 20 SORTBY_BOTH) 0 new_OutputOptions =
  Ok (true,
      MkParseState
        (MkOptions [ "new.out"; "new.so" ]%string [ "old.out"%string ]
           [ "sections"%string ] 20 SORTBY_BOTH)
        0 new_OutputOptions true).
Proof.
  exact (proj1 (DoParseOptions_separator missing_config_file digits_strtod
                  [ "new.out"; "new.so" ]%string [ "old.out"%string ]
                  (MkOptions [] [] [] 20 SORTBY_BOTH) 0 new_OutputOptions
                  ltac:(repeat constructor) ltac:(repeat constructor))).
Defined.

Lemma DoParseOptions_stops_witness :
  DoParseOptions missing_config_file digits_strtod
    ([ "-n"; "5"; "a.out"; "-v" ]%string ++ [ "-d"%string ])
    (MkOptions [] [] [] 20 SORTBY_BOTH) 0 new_OutputOptions =
  THROW "option '$0' requires an argument" /\
  DoParseOptions missing_config_file digits_strtod
    ([ "-n"; "5"; "a.out"; "-v" ]%string ++ [ "--help"; "-d" ]%string)
    (MkOptions [] [] [] 20 SORTBY_BOTH) 0 new_OutputOptions =
  Ok (false,
      MkParseState (MkOptions [ "a.out"%string ] [] [] 5 SORTBY_BOTH)
        1 new_OutputOptions false).
Proof.
  pose proof (DoParseOptions_stops missing_config_file digits_strtod
                [ "-n"; "5"; "a.out"; "-v" ]%string
                (MkParseState (MkOptions [ "a.out"%string ] [] [] 5 SORTBY_BOTH)
                   1 new_OutputOptions false)
                (MkOptions [] [] [] 20 SORTBY_BOTH) 0 new_OutputOptions
                ltac:(vm_compute; reflexivity))
    as (Hlast & _ & _ & Hhelp).
  split.
  - apply Hlast. right. left. reflexivity.
  - apply Hhelp. left. reflexivity.
Defined.

Lemma DoParseOptions_data_sources_witness :
  exists names,
    Split (String.list_ascii_of_string "symbols,sections") ","%char [] =
      Ok names /\
    DoParseOptions missing_config_file digits_strtod
      [ "-d"; "symbols,sections"; "a.out" ]%string
      (MkOptions [] [] [] 20 SORTBY_BOTH) 0 new_OutputOptions =
    Ok (true,
        MkParseState
          (MkOptions [ "a.out"%string ] []
             (sources_or_default
                ([] ++ map String.string_of_list_ascii names))
             20 SORTBY_BOTH)
          0 new_OutputOptions false).
Proof.
  destruct (DoParseOptions_data_sources missing_config_file digits_strtod
              "symbols,sections" [ "a.out"%string ]
              (MkOptions [] [] [] 20 SORTBY_BOTH) 0 new_OutputOptions
              ltac:(repeat constructor))
    as (names & Hsplit & _ & _ & Hrun).
  exists names. split; assumption.
Defined.

Example DoParseOptions_examples :
  DoParseOptions missing_config_file digits_strtod
    [ "-d"; "symbols,sections"; "-s"; "vm"; "-w"; "--csv"; "a.out" ]%string
    (MkOptions [] [] [] 20 SORTBY_BOTH) 0 new_OutputOptions =
  Ok (true,
      MkParseState
        (MkOptions [ "a.out"%string ] [] [ "symbols"; "sections" ]%string 20
           SORTBY_VMSIZE)
        0 (MkOutputOptions kCSV SIZE_MAX) false) /\
  DoParseOptions missing_config_file digits_strtod
    [ "-d"; ""; "a.out" ]%string
    (MkOptions [] [] [] 20 SORTBY_BOTH) 0 new_OutputOptions =
  Ok (true,
      MkParseState
        (MkOptions [ "a.out"%string ] [] [ "sections"%string ] 20 SORTBY_BOTH)
        0 new_OutputOptions false) /\
  DoParseOptions missing_config_file digits_strtod
    [ "-d"; "--"; "a.out"; "-c"; "bloaty.cfg" ]%string
    (MkOptions [] [] [] 20 SORTBY_BOTH) 0 new_OutputOptions =
  THROW "couldn't open file $0".
Proof. vm_compute. auto. Qed.
